(** * Path-Finding Visualizer: grid search algorithms and maze generators

    A shallow embedding of the TypeScript sources
    - [types/pathfinding.ts]     (GridNode, AlgorithmResult, VisualizationStats),
    - [lib/algorithms]           (dijkstra, astar, bfs, dfs, greedy, bidirectional
                                  and their helpers),
    - [lib/maze-generators.ts]   (generateMaze and the six procedures),
    followed by the properties stated about them.

    Conventions of the embedding.
    - A JS [number] that holds an integer is a [Z]; [distance] may also be
      [Number.POSITIVE_INFINITY], so it is a [num].
    - A reference to a node object is the position [(r, c)] at which the
      object sits in the grid ([grid[r][c]]); the grid is the store, and
      every read of a field goes through the current grid, so that aliasing
      between the lists of nodes ([visitedNodes], [openSet], queues) and the
      grid is the source's.
    - [await new Promise(setTimeout ...)] and the optional callback
      [onGridUpdate] only observe the state; they are recorded in a trace of
      events.  [performance.now()] and [executionTime] are not modelled.
    - [while] loops and recursion take a fuel argument; running out of fuel
      is the outcome [OutOfFuel], and the theorems show that it does not
      happen.
    - [Math.random()] reads a stream of rationals handed to the maze
      generators; the theorems hold for every stream with values in [0, 1).
      An access outside an array is the outcome [Throws]. *)

From Stdlib Require Import String Ascii DecimalString DecimalZ.
From Stdlib Require Import QArith Qround.
From Stdlib Require Import ZArith List Bool Lia Permutation Arith.
Import ListNotations.
Close Scope Q_scope.
Close Scope string_scope.
Local Open Scope Z_scope.
Local Open Scope list_scope.

(* ================================================================== *)
(** * Data model *)
(* ================================================================== *)

(** A JS number used as a distance: an integer or [+Infinity]. *)
Inductive num : Type :=
| Fin (z : Z)
| PosInf.

Definition num_add (a b : num) : num :=
  match a, b with
  | Fin x, Fin y => Fin (x + y)
  | _, _ => PosInf
  end.

(** [a < b] on numbers. *)
Definition num_ltb (a b : num) : bool :=
  match a, b with
  | Fin x, Fin y => x <? y
  | Fin _, PosInf => true
  | PosInf, _ => false
  end.

(** The sign test [cmp(a, b) <= 0] of the comparator [(a, b) => a - b]:
    [Infinity - Infinity] is [NaN], which [Array.prototype.sort] reads as 0. *)
Definition num_leb (a b : num) : bool :=
  match a, b with
  | Fin x, Fin y => x <=? y
  | Fin _, PosInf => true
  | PosInf, Fin _ => false
  | PosInf, PosInf => true
  end.

Definition is_inf (a : num) : bool :=
  match a with PosInf => true | Fin _ => false end.

(** A node reference: the indices of the node in the grid. *)
Definition pos : Type := (Z * Z)%type.

Definition pos_eqb (p q : pos) : bool :=
  (fst p =? fst q) && (snd p =? snd q).

Record GridNode : Type := mkNode {
  row : Z;
  col : Z;
  isStart : bool;
  isEnd : bool;
  isWall : bool;
  isVisited : bool;
  isPath : bool;
  distance : num;
  heuristic : Z;
  weight : Z;
  previousNode : option pos
}.

Definition Grid : Type := list (list GridNode).

Inductive Algorithm : Type :=
| Dijkstra | Astar | Bfs | Dfs | Greedy | Bidirectional.

Inductive MazeType : Type :=
| MRandom | MRecursive | MPrim | MKruskal | MBinary | MSidewinder.

Record VisualizationStats : Type := mkStats {
  pathFound : bool;
  pathLength : nat;
  nodesVisited : nat;
  nodesInPath : nat
}.

Record AlgorithmResult : Type := mkResult {
  path : list pos;
  visitedNodes : list pos;
  stats : VisualizationStats
}.

(** Field writes [node.f = v]. *)
Definition set_isWall (b : bool) (n : GridNode) : GridNode :=
  mkNode (row n) (col n) (isStart n) (isEnd n) b (isVisited n) (isPath n)
         (distance n) (heuristic n) (weight n) (previousNode n).
Definition set_isVisited (b : bool) (n : GridNode) : GridNode :=
  mkNode (row n) (col n) (isStart n) (isEnd n) (isWall n) b (isPath n)
         (distance n) (heuristic n) (weight n) (previousNode n).
Definition set_isPath (b : bool) (n : GridNode) : GridNode :=
  mkNode (row n) (col n) (isStart n) (isEnd n) (isWall n) (isVisited n) b
         (distance n) (heuristic n) (weight n) (previousNode n).
Definition set_distance (d : num) (n : GridNode) : GridNode :=
  mkNode (row n) (col n) (isStart n) (isEnd n) (isWall n) (isVisited n) (isPath n)
         d (heuristic n) (weight n) (previousNode n).
Definition set_heuristic (h : Z) (n : GridNode) : GridNode :=
  mkNode (row n) (col n) (isStart n) (isEnd n) (isWall n) (isVisited n) (isPath n)
         (distance n) h (weight n) (previousNode n).
Definition set_previousNode (p : option pos) (n : GridNode) : GridNode :=
  mkNode (row n) (col n) (isStart n) (isEnd n) (isWall n) (isVisited n) (isPath n)
         (distance n) (heuristic n) (weight n) p.

(* ------------------------------------------------------------------ *)
(** ** The grid as a store *)

(** [grid[r][c]]: [None] is JS [undefined]. *)
Definition grid_get (g : Grid) (p : pos) : option GridNode :=
  if (0 <=? fst p) && (0 <=? snd p) then
    match nth_error g (Z.to_nat (fst p)) with
    | Some r => nth_error r (Z.to_nat (snd p))
    | None => None
    end
  else None.

Definition undefined_node : GridNode :=
  mkNode 0 0 false false false false false PosInf 0 0 None.

(** Dereference of a node reference. *)
Definition node (g : Grid) (p : pos) : GridNode :=
  match grid_get g p with
  | Some n => n
  | None => undefined_node
  end.

Fixpoint list_upd {A : Type} (i : nat) (f : A -> A) (l : list A) : list A :=
  match l, i with
  | [], _ => []
  | x :: l', O => f x :: l'
  | x :: l', S i' => x :: list_upd i' f l'
  end.

(** In-place mutation of the node at [p]. *)
Definition grid_upd (p : pos) (f : GridNode -> GridNode) (g : Grid) : Grid :=
  if (0 <=? fst p) && (0 <=? snd p) then
    list_upd (Z.to_nat (fst p)) (list_upd (Z.to_nat (snd p)) f) g
  else g.

Definition rows (g : Grid) : Z := Z.of_nat (length g).
(** [grid[0].length] *)
Definition cols (g : Grid) : Z := Z.of_nat (length (hd [] g)).

(** The references of all nodes in the order of
    [for (const row of grid) for (const node of row)]. *)
Definition row_positions (i : nat) (r : list GridNode) : list pos :=
  map (fun j => (Z.of_nat i, Z.of_nat j)) (seq 0 (length r)).

Fixpoint positions_from (i : nat) (g : Grid) : list pos :=
  match g with
  | [] => []
  | r :: g' => row_positions i r ++ positions_from (S i) g'
  end.

Definition positions (g : Grid) : list pos := positions_from 0 g.

(** Number of cells; the bound used for the fuel of the loops. *)
Definition cells (g : Grid) : nat := length (positions g).

(* ------------------------------------------------------------------ *)
(** ** Outcomes, events and the state of a run *)

Inductive outcome (A : Type) : Type :=
| Returned (a : A)
| Throws
| OutOfFuel.
Arguments Returned {A} a.
Arguments Throws {A}.
Arguments OutOfFuel {A}.

(** What the caller can observe while a search runs. *)
Inductive event : Type :=
| Visit (p : pos)        (* [onGridUpdate([...grid])] while [p] is the current node *)
| Sleep (ms : Q)         (* [await new Promise(r => setTimeout(r, ms))] *)
| Reveal (p : pos).      (* [p.isPath = true] followed by [onGridUpdate] *)

Record state : Type := mkState {
  st_grid : Grid;
  st_visited : list pos;     (* the array [visitedNodes] *)
  st_trace : list event
}.

Definition with_grid (f : Grid -> Grid) (st : state) : state :=
  mkState (f (st_grid st)) (st_visited st) (st_trace st).

Definition emit (ev : event) (st : state) : state :=
  mkState (st_grid st) (st_visited st) (st_trace st ++ [ev]).

Definition push_visited (p : pos) (st : state) : state :=
  mkState (st_grid st) (st_visited st ++ [p]) (st_trace st).

(* ================================================================== *)
(** * Helpers of the search algorithms *)
(* ================================================================== *)

Definition directions : list (Z * Z) := [(-1, 0); (1, 0); (0, -1); (0, 1)].

Definition in_bounds (g : Grid) (q : pos) : bool :=
  (0 <=? fst q) && (fst q <? rows g) && (0 <=? snd q) && (snd q <? cols g).

(** [getNeighbors(grid, node)] *)
Definition getNeighbors (g : Grid) (p : pos) : list pos :=
  let n := node g p in
  filter (in_bounds g)
         (map (fun d => (row n + fst d, col n + snd d)) directions).

(** [heuristic(nodeA, nodeB)] *)
Definition manhattan (g : Grid) (a b : pos) : Z :=
  Z.abs (row (node g a) - row (node g b)) + Z.abs (col (node g a) - col (node g b)).

(** [reconstructPath(endNode)]: [cur] is [currentNode], [acc] is [path]. *)
Fixpoint reconstructPath_loop (fuel : nat) (g : Grid) (cur : option pos) (acc : list pos)
  : option (list pos) :=
  match cur with
  | None => Some acc
  | Some c =>
      match fuel with
      | O => None
      | S fuel' => reconstructPath_loop fuel' g (previousNode (node g c)) (c :: acc)
      end
  end.

Definition reconstructPath (g : Grid) (e : pos) : option (list pos) :=
  reconstructPath_loop (S (cells g)) g (Some e) [].

(** [Array.prototype.sort] with a comparator: a stable sort. [leb a b] is
    [cmp(a, b) <= 0]. *)
Fixpoint insert_sorted {A : Type} (leb : A -> A -> bool) (x : A) (l : list A) : list A :=
  match l with
  | [] => [x]
  | y :: l' => if leb x y then x :: y :: l' else y :: insert_sorted leb x l'
  end.

Fixpoint sort_by {A : Type} (leb : A -> A -> bool) (l : list A) : list A :=
  match l with
  | [] => []
  | x :: l' => insert_sorted leb x (sort_by leb l')
  end.

(** The loop shared by the six algorithms once a path is known:
    [for (const node of path) if (node !== startNode && node !== endNode) ...] *)
Definition reveal_node (s e : pos) (st : state) (p : pos) : state :=
  if negb (pos_eqb p s) && negb (pos_eqb p e) then
    emit (Sleep (inject_Z 50))
         (emit (Reveal p) (with_grid (grid_upd p (set_isPath true)) st))
  else st.

Definition revealPath (s e : pos) (p : list pos) (st : state) : state :=
  fold_left (reveal_node s e) p st.

Definition found_result (p : list pos) (st : state) : AlgorithmResult :=
  mkResult p (st_visited st)
           (mkStats true (length p) (length (st_visited st)) (length p)).

Definition not_found_result (st : state) : AlgorithmResult :=
  mkResult [] (st_visited st)
           (mkStats false 0 (length (st_visited st)) 0).

Definition finish_found (s e : pos) (p : list pos) (st : state) : state * AlgorithmResult :=
  (revealPath s e p st, found_result p st).

Definition finish_not_found (st : state) : state * AlgorithmResult :=
  (st, not_found_result st).

(** [currentNode.isVisited = true; visitedNodes.push(currentNode);
     if (onGridUpdate) onGridUpdate([...grid])] *)
Definition visit (cur : pos) (st : state) : state :=
  emit (Visit cur)
       (push_visited cur (with_grid (grid_upd cur (set_isVisited true)) st)).

(** [if (currentNode !== startNode && currentNode !== endNode) await sleep(101 - speed)] *)
Definition pause (s e : pos) (speed : Z) (cur : pos) (st : state) : state :=
  if negb (pos_eqb cur s) && negb (pos_eqb cur e)
  then emit (Sleep (inject_Z (101 - speed))) st
  else st.

(** Resolution of [grid[start.row][start.col]] and [grid[end.row][end.col]].
    Coordinates outside the grid make the source fail on the first access to
    the undefined node; the model reports this as [Throws], and all theorems
    are about coordinates inside the grid. *)
Definition resolve (g : Grid) (s e : pos)
           (k : unit -> outcome (state * AlgorithmResult))
  : outcome (state * AlgorithmResult) :=
  match grid_get g s, grid_get g e with
  | Some _, Some _ => k tt
  | _, _ => Throws
  end.

Definition reset_grid (f : GridNode -> GridNode) (g : Grid) : Grid :=
  map (map f) g.

(* ================================================================== *)
(** * dijkstra *)
(* ================================================================== *)

Definition distance_leb (g : Grid) (a b : pos) : bool :=
  num_leb (distance (node g a)) (distance (node g b)).

Definition dijkstra_reset (n : GridNode) : GridNode :=
  set_isPath false (set_isVisited false (set_previousNode None (set_distance PosInf n))).

(** Body of [for (const neighbor of neighbors)]. *)
Definition dijkstra_relax (cur : pos) (st : state) (nb : pos) : state :=
  let g := st_grid st in
  if negb (isVisited (node g nb)) && negb (isWall (node g nb)) then
    let tentativeDistance := num_add (distance (node g cur)) (Fin (weight (node g nb))) in
    if num_ltb tentativeDistance (distance (node g nb)) then
      with_grid (fun g => grid_upd nb (set_previousNode (Some cur))
                                   (grid_upd nb (set_distance tentativeDistance) g)) st
    else st
  else st.

Fixpoint dijkstra_loop (fuel : nat) (s e : pos) (speed : Z)
         (unvisitedNodes : list pos) (st : state)
  : outcome (state * AlgorithmResult) :=
  match fuel with
  | O => OutOfFuel
  | S fuel' =>
      match sort_by (distance_leb (st_grid st)) unvisitedNodes with
      | [] => Returned (finish_not_found st)
      | cur :: rest =>
          if isWall (node (st_grid st) cur) || is_inf (distance (node (st_grid st) cur))
          then Returned (finish_not_found st)
          else
            let st1 := pause s e speed cur (visit cur st) in
            if pos_eqb cur e then
              match reconstructPath (st_grid st1) e with
              | Some p => Returned (finish_found s e p st1)
              | None => OutOfFuel
              end
            else
              dijkstra_loop fuel' s e speed rest
                            (fold_left (dijkstra_relax cur) (getNeighbors (st_grid st1) cur) st1)
      end
  end.

Definition dijkstra (g : Grid) (s e : pos) (speed : Z) : outcome (state * AlgorithmResult) :=
  let g1 := reset_grid dijkstra_reset g in
  resolve g1 s e (fun _ =>
    let g2 := grid_upd s (set_distance (Fin 0)) g1 in
    dijkstra_loop (S (cells g)) s e speed (positions g) (mkState g2 [] [])).

(* ================================================================== *)
(** * astar *)
(* ================================================================== *)

(** [cmp(a, b) <= 0] for [(a, b) => a.distance + a.heuristic - (b.distance + b.heuristic)] *)
Definition fscore (g : Grid) (a : pos) : num :=
  num_add (distance (node g a)) (Fin (heuristic (node g a))).

Definition fscore_leb (g : Grid) (a b : pos) : bool :=
  num_leb (fscore g a) (fscore g b).

Definition astar_reset (n : GridNode) : GridNode :=
  set_isPath false (set_isVisited false (set_previousNode None
    (set_heuristic 0 (set_distance PosInf n)))).

(** [openSet.includes(node)] *)
Definition includes (l : list pos) (p : pos) : bool := existsb (pos_eqb p) l.

(** Body of [for (const neighbor of neighbors)]; the loop state is the store
    together with [openSet]. *)
Definition astar_relax (cur e : pos) (acc : state * list pos) (nb : pos) : state * list pos :=
  let (st, openSet) := acc in
  let g := st_grid st in
  if isVisited (node g nb) || isWall (node g nb) then acc
  else
    let tentativeDistance := num_add (distance (node g cur)) (Fin (weight (node g nb))) in
    let isInOpenSet := includes openSet nb in
    if negb isInOpenSet || num_ltb tentativeDistance (distance (node g nb)) then
      let st' :=
        with_grid (fun g =>
          grid_upd nb (set_previousNode (Some cur))
            (grid_upd nb (set_heuristic (manhattan g nb e))
               (grid_upd nb (set_distance tentativeDistance) g))) st in
      (st', if negb isInOpenSet then openSet ++ [nb] else openSet)
    else acc.

Fixpoint astar_loop (fuel : nat) (s e : pos) (speed : Z)
         (openSet : list pos) (st : state)
  : outcome (state * AlgorithmResult) :=
  match fuel with
  | O => OutOfFuel
  | S fuel' =>
      match sort_by (fscore_leb (st_grid st)) openSet with
      | [] => Returned (finish_not_found st)
      | cur :: rest =>
          if isWall (node (st_grid st) cur) then astar_loop fuel' s e speed rest st
          else
            let st1 := pause s e speed cur (visit cur st) in
            if pos_eqb cur e then
              match reconstructPath (st_grid st1) e with
              | Some p => Returned (finish_found s e p st1)
              | None => OutOfFuel
              end
            else
              let (st2, openSet2) :=
                fold_left (astar_relax cur e) (getNeighbors (st_grid st1) cur) (st1, rest) in
              astar_loop fuel' s e speed openSet2 st2
      end
  end.

Definition astar (g : Grid) (s e : pos) (speed : Z) : outcome (state * AlgorithmResult) :=
  let g1 := reset_grid astar_reset g in
  resolve g1 s e (fun _ =>
    let g2 := grid_upd s (set_heuristic (manhattan g1 s e))
                (grid_upd s (set_distance (Fin 0)) g1) in
    astar_loop (S (S (cells g))) s e speed [s] (mkState g2 [] [])).

(* ================================================================== *)
(** * bfs *)
(* ================================================================== *)

Definition bfs_reset (n : GridNode) : GridNode :=
  set_isPath false (set_isVisited false (set_previousNode None (set_distance PosInf n))).

(** Body of [for (const neighbor of neighbors)]; the loop state is the store
    together with [queue]. *)
Definition bfs_discover (cur : pos) (acc : state * list pos) (nb : pos) : state * list pos :=
  let (st, queue) := acc in
  let g := st_grid st in
  if negb (isVisited (node g nb)) && negb (isWall (node g nb)) then
    let st' :=
      with_grid (fun g =>
        grid_upd nb (set_previousNode (Some cur))
          (grid_upd nb (set_distance (num_add (distance (node g cur)) (Fin 1)))
             (grid_upd nb (set_isVisited true) g))) st in
    (push_visited nb st', queue ++ [nb])
  else acc.

Fixpoint bfs_loop (fuel : nat) (s e : pos) (speed : Z)
         (queue : list pos) (st : state)
  : outcome (state * AlgorithmResult) :=
  match fuel with
  | O => OutOfFuel
  | S fuel' =>
      match queue with
      | [] => Returned (finish_not_found st)
      | cur :: rest =>
          let st1 := pause s e speed cur (emit (Visit cur) st) in
          if pos_eqb cur e then
            match reconstructPath (st_grid st1) e with
            | Some p => Returned (finish_found s e p st1)
            | None => OutOfFuel
            end
          else
            let (st2, queue2) :=
              fold_left (bfs_discover cur) (getNeighbors (st_grid st1) cur) (st1, rest) in
            bfs_loop fuel' s e speed queue2 st2
      end
  end.

Definition bfs (g : Grid) (s e : pos) (speed : Z) : outcome (state * AlgorithmResult) :=
  let g1 := reset_grid bfs_reset g in
  resolve g1 s e (fun _ =>
    let g2 := grid_upd s (set_isVisited true) (grid_upd s (set_distance (Fin 0)) g1) in
    bfs_loop (S (cells g)) s e speed [s] (mkState g2 [s] [])).

(* ================================================================== *)
(** * dfs *)
(* ================================================================== *)

Definition dfs_reset (n : GridNode) : GridNode :=
  set_previousNode None (set_isPath false (set_isVisited false n)).

(** [for (const neighbor of neighbors)] of [dfsRecursive]; [rec] is the
    recursive call. *)
Fixpoint dfs_neighbors (rec : pos -> state -> outcome (state * bool))
         (cur : pos) (nbs : list pos) (st : state) : outcome (state * bool) :=
  match nbs with
  | [] => Returned (st, false)
  | nb :: nbs' =>
      if negb (isVisited (node (st_grid st) nb)) && negb (isWall (node (st_grid st) nb)) then
        match rec nb (with_grid (grid_upd nb (set_previousNode (Some cur))) st) with
        | Returned (st', true) => Returned (st', true)
        | Returned (st', false) => dfs_neighbors rec cur nbs' st'
        | Throws => Throws
        | OutOfFuel => OutOfFuel
        end
      else dfs_neighbors rec cur nbs' st
  end.

Fixpoint dfsRecursive (fuel : nat) (e : pos) (speed : Z) (cur : pos) (st : state)
  : outcome (state * bool) :=
  match fuel with
  | O => OutOfFuel
  | S fuel' =>
      if isWall (node (st_grid st) cur) || isVisited (node (st_grid st) cur)
      then Returned (st, false)
      else
        let st1 := visit cur st in
        let st2 := if negb (pos_eqb cur e)
                   then emit (Sleep (inject_Z (101 - speed))) st1 else st1 in
        if pos_eqb cur e then Returned (st2, true)
        else dfs_neighbors (dfsRecursive fuel' e speed) cur
                           (getNeighbors (st_grid st2) cur) st2
  end.

Definition dfs (g : Grid) (s e : pos) (speed : Z) : outcome (state * AlgorithmResult) :=
  let g1 := reset_grid dfs_reset g in
  resolve g1 s e (fun _ =>
    match dfsRecursive (S (cells g)) e speed s (mkState g1 [] []) with
    | Returned (st, true) =>
        match reconstructPath (st_grid st) e with
        | Some p => Returned (finish_found s e p st)
        | None => OutOfFuel
        end
    | Returned (st, false) => Returned (finish_not_found st)
    | Throws => Throws
    | OutOfFuel => OutOfFuel
    end).

(* ================================================================== *)
(** * greedy *)
(* ================================================================== *)

(** [cmp(a, b) <= 0] for [(a, b) => a.heuristic - b.heuristic] *)
Definition heuristic_leb (g : Grid) (a b : pos) : bool :=
  heuristic (node g a) <=? heuristic (node g b).

Definition greedy_reset (n : GridNode) : GridNode :=
  set_isPath false (set_isVisited false (set_previousNode None (set_heuristic 0 n))).

Definition greedy_discover (cur e : pos) (acc : state * list pos) (nb : pos)
  : state * list pos :=
  let (st, openSet) := acc in
  let g := st_grid st in
  if negb (isVisited (node g nb)) && negb (isWall (node g nb)) && negb (includes openSet nb)
  then
    let st' :=
      with_grid (fun g =>
        grid_upd nb (set_previousNode (Some cur))
          (grid_upd nb (set_heuristic (manhattan g nb e)) g)) st in
    (st', openSet ++ [nb])
  else acc.

Fixpoint greedy_loop (fuel : nat) (s e : pos) (speed : Z)
         (openSet : list pos) (st : state)
  : outcome (state * AlgorithmResult) :=
  match fuel with
  | O => OutOfFuel
  | S fuel' =>
      match sort_by (heuristic_leb (st_grid st)) openSet with
      | [] => Returned (finish_not_found st)
      | cur :: rest =>
          if isWall (node (st_grid st) cur) || isVisited (node (st_grid st) cur)
          then greedy_loop fuel' s e speed rest st
          else
            let st1 := pause s e speed cur (visit cur st) in
            if pos_eqb cur e then
              match reconstructPath (st_grid st1) e with
              | Some p => Returned (finish_found s e p st1)
              | None => OutOfFuel
              end
            else
              let (st2, openSet2) :=
                fold_left (greedy_discover cur e) (getNeighbors (st_grid st1) cur) (st1, rest) in
              greedy_loop fuel' s e speed openSet2 st2
      end
  end.

Definition greedy (g : Grid) (s e : pos) (speed : Z) : outcome (state * AlgorithmResult) :=
  let g1 := reset_grid greedy_reset g in
  resolve g1 s e (fun _ =>
    let g2 := grid_upd s (set_heuristic (manhattan g1 s e)) g1 in
    greedy_loop (S (S (cells g))) s e speed [s] (mkState g2 [] [])).

(* ================================================================== *)
(** * bidirectional *)
(* ================================================================== *)

(** Template literal [`${n}`] of an integer. *)
Definition string_of_Z (z : Z) : string := NilZero.string_of_int (Z.to_int z).

(** [`${node.row}-${node.col}`] *)
Definition nodeKey (n : GridNode) : string :=
  String.append (string_of_Z (row n)) (String "-"%char (string_of_Z (col n))).

(** [Set<string>]: [has] and [add]. *)
Definition set_has (k : string) (s : list string) : bool := existsb (String.eqb k) s.
Definition set_add (k : string) (s : list string) : list string :=
  if set_has k s then s else s ++ [k].

(** [Map<string, GridNode>]: [get] and [set]. *)
Fixpoint map_get (k : string) (m : list (string * pos)) : option pos :=
  match m with
  | [] => None
  | (k', v) :: m' => if String.eqb k k' then Some v else map_get k m'
  end.
Definition map_set (k : string) (v : pos) (m : list (string * pos)) : list (string * pos) :=
  (k, v) :: m.

(** One search direction: its queue, its set of discovered keys and its
    parent map. *)
Record side : Type := mkSide {
  sd_queue : list pos;
  sd_visited : list string;
  sd_parents : list (string * pos)
}.

Definition bidi_reset (n : GridNode) : GridNode :=
  set_previousNode None (set_isPath false (set_isVisited false n)).

(** Body of [for (const neighbor of neighbors)] of either direction. *)
Definition bidi_discover (g : Grid) (cur : pos) (sd : side) (nb : pos) : side :=
  let neighborKey := nodeKey (node g nb) in
  if negb (isWall (node g nb)) && negb (set_has neighborKey (sd_visited sd)) then
    mkSide (sd_queue sd ++ [nb])
           (set_add neighborKey (sd_visited sd))
           (map_set neighborKey cur (sd_parents sd))
  else sd.

Inductive half_step : Type :=
| Meet (meetingPoint : pos) (st : state)
| Continue (sd : side) (st : state).

(** One of the two blocks [if (queue.length > 0) { ... }] of the main loop.
    They differ in the names and in the guard
    [if (!visitedNodes.includes(currentNode))] of the end side, which is
    [dedup]. [me] is the side that moves, [other] the opposite one. *)
Definition bidi_half (dedup : bool) (s e : pos) (speed : Z) (me other : side) (st : state)
  : half_step :=
  match sd_queue me with
  | [] => Continue me st
  | cur :: rest =>
      let st1 := with_grid (grid_upd cur (set_isVisited true)) st in
      let st2 := if dedup && includes (st_visited st1) cur then st1
                 else push_visited cur st1 in
      let st3 := emit (Visit cur) st2 in
      let st4 := if negb (pos_eqb cur s) && negb (pos_eqb cur e)
                 then emit (Sleep ((101 - speed) # 2)) st3 else st3 in
      let g := st_grid st4 in
      if set_has (nodeKey (node g cur)) (sd_visited other) then Meet cur st4
      else Continue (fold_left (bidi_discover g cur) (getNeighbors g cur)
                               (mkSide rest (sd_visited me) (sd_parents me)))
                    st4
  end.

(** The main [while] loop; it returns [meetingPoint] and both parent maps. *)
Fixpoint bidi_loop (fuel : nat) (s e : pos) (speed : Z) (ss es : side) (st : state)
  : outcome (option pos * side * side * state) :=
  match fuel with
  | O => OutOfFuel
  | S fuel' =>
      match sd_queue ss, sd_queue es with
      | [], [] => Returned (None, ss, es, st)
      | _, _ =>
          match bidi_half false s e speed ss es st with
          | Meet m st1 => Returned (Some m, ss, es, st1)
          | Continue ss1 st1 =>
              match bidi_half true s e speed es ss1 st1 with
              | Meet m st2 => Returned (Some m, ss1, es, st2)
              | Continue es1 st2 => bidi_loop fuel' s e speed ss1 es1 st2
              end
          end
      end
  end.

(** [while (current) { startPath.unshift(current); current = startParents.get(key) }] *)
Fixpoint start_chain (fuel : nat) (g : Grid) (parents : list (string * pos))
         (cur : option pos) (acc : list pos) : option (list pos) :=
  match cur with
  | None => Some acc
  | Some c =>
      match fuel with
      | O => None
      | S fuel' => start_chain fuel' g parents (map_get (nodeKey (node g c)) parents) (c :: acc)
      end
  end.

(** [while (current) { endPath.push(current); current = endParents.get(key) }] *)
Fixpoint end_chain (fuel : nat) (g : Grid) (parents : list (string * pos))
         (cur : option pos) (acc : list pos) : option (list pos) :=
  match cur with
  | None => Some acc
  | Some c =>
      match fuel with
      | O => None
      | S fuel' => end_chain fuel' g parents (map_get (nodeKey (node g c)) parents) (acc ++ [c])
      end
  end.

Definition reconstructBidirectionalPath (g : Grid) (meetingPoint : pos)
           (startParents endParents : list (string * pos)) : option (list pos) :=
  match start_chain (S (cells g)) g startParents (Some meetingPoint) [] with
  | None => None
  | Some startPath =>
      match end_chain (S (cells g)) g endParents
                      (map_get (nodeKey (node g meetingPoint)) endParents) [] with
      | None => None
      | Some endPath => Some (startPath ++ endPath)
      end
  end.

Definition bidirectional (g : Grid) (s e : pos) (speed : Z)
  : outcome (state * AlgorithmResult) :=
  let g1 := reset_grid bidi_reset g in
  resolve g1 s e (fun _ =>
    let ss := mkSide [s] (set_add (nodeKey (node g1 s)) []) [] in
    let es := mkSide [e] (set_add (nodeKey (node g1 e)) []) [] in
    match bidi_loop (S (2 * cells g)) s e speed ss es (mkState g1 [] []) with
    | Returned (Some m, ss', es', st) =>
        match reconstructBidirectionalPath (st_grid st) m (sd_parents ss') (sd_parents es') with
        | Some p => Returned (finish_found s e p st)
        | None => OutOfFuel
        end
    | Returned (None, _, _, st) => Returned (finish_not_found st)
    | Throws => Throws
    | OutOfFuel => OutOfFuel
    end).

(** The table [algorithms]. *)
Definition algorithms (a : Algorithm) : Grid -> pos -> pos -> Z -> outcome (state * AlgorithmResult) :=
  match a with
  | Dijkstra => dijkstra
  | Astar => astar
  | Bfs => bfs
  | Dfs => dfs
  | Greedy => greedy
  | Bidirectional => bidirectional
  end.

(* ================================================================== *)
(** * Maze generators *)
(* ================================================================== *)

(** [Math.random()] draws the next element of a stream of rationals; the
    statements quantify over every stream with values in [0, 1).  The
    callback [onUpdate] and the delays that go with it only observe the
    grid; what is kept of them is whether the callback was given, because
    [onUpdate && Math.random() < p] draws a number only in that case. *)
Module Maze.

Definition rng : Type := nat -> Q.

Record mstate : Type := mkM {
  m_grid : Grid;
  m_next : nat      (* how many numbers were drawn *)
}.

(** A computation on the grid and the random source that may throw. *)
Definition M (A : Type) : Type := mstate -> outcome (A * mstate).

Definition ret {A : Type} (a : A) : M A := fun st => Returned (a, st).

Definition bind {A B : Type} (m : M A) (k : A -> M B) : M B :=
  fun st =>
    match m st with
    | Returned (a, st') => k a st'
    | Throws => Throws
    | OutOfFuel => OutOfFuel
    end.

Definition throw {A : Type} : M A := fun _ => Throws.
Definition out_of_fuel {A : Type} : M A := fun _ => OutOfFuel.

Notation "x <- m ;; k" := (bind m (fun x => k))
  (at level 61, m at next level, right associativity).
Notation "m ;;; k" := (bind m (fun _ => k))
  (at level 61, right associativity).

Fixpoint for_each {A : Type} (l : list A) (body : A -> M unit) : M unit :=
  match l with
  | [] => ret tt
  | x :: l' => body x ;;; for_each l' body
  end.

(** A [for] loop that carries a local variable. *)
Fixpoint fold_m {A B : Type} (body : B -> A -> M B) (l : list A) (b : B) : M B :=
  match l with
  | [] => ret b
  | x :: l' => b' <- body b x ;; fold_m body l' b'
  end.

(** [Math.random()] *)
Definition random (rnd : rng) : M Q :=
  fun st => Returned (rnd (m_next st), mkM (m_grid st) (S (m_next st))).

(** [Math.floor(Math.random() * n)] *)
Definition random_floor (rnd : rng) (n : Q) : M Z :=
  r <- random rnd ;; ret (Qfloor (r * n)).

(** [a < b] on numbers. *)
Definition Qltb (a b : Q) : bool := negb (Qle_bool b a).

(** [if (onUpdate && Math.random() < p) { onUpdate([...grid]); await ... }] *)
Definition maybe_update (onUpdate : bool) (rnd : rng) : M unit :=
  if onUpdate then _ <- random rnd ;; ret tt else ret tt.

(** [grid[row][col]] followed by the read of a field: a [TypeError] outside
    the grid. *)
Definition read (p : pos) : M GridNode :=
  fun st =>
    match grid_get (m_grid st) p with
    | Some n => Returned (n, st)
    | None => Throws
    end.

(** [grid[row][col].isWall = b] *)
Definition write_wall (b : bool) (p : pos) : M unit :=
  fun st =>
    match grid_get (m_grid st) p with
    | Some _ => Returned (tt, mkM (grid_upd p (set_isWall b) (m_grid st)) (m_next st))
    | None => Throws
    end.

Definition flagged (n : GridNode) : bool := isStart n || isEnd n.

(** [if (!grid[r][c].isStart && !grid[r][c].isEnd) grid[r][c].isWall = b] *)
Definition set_unless_flagged (b : bool) (p : pos) : M unit :=
  n <- read p ;;
  if flagged n then ret tt else write_wall b p.

(** [const rows = grid.length; const cols = grid[0].length] *)
Definition dims : M (Z * Z) :=
  fun st =>
    match m_grid st with
    | [] => Throws
    | r :: _ => Returned ((Z.of_nat (length (m_grid st)), Z.of_nat (length r)), st)
    end.

(** The values of [i] in [for (let i = 0; i < n; i++)]. *)
Definition upto (n : Z) : list Z := map Z.of_nat (seq 0 (Z.to_nat n)).

(** The values of [i] in [for (let i = 0; i < n; i += 2)]. *)
Definition evens (n : Z) : list Z :=
  map (fun i => 2 * Z.of_nat i) (seq 0 (Z.to_nat ((n + 1) / 2))).

(** The values of [i] in [for (let i = a; i <= b; i++)]. *)
Definition from_to (a b : Z) : list Z :=
  map (fun i => a + Z.of_nat i) (seq 0 (Z.to_nat (b - a + 1))).

(** [(a + b) / 2] used as an index: an index that is not an integer reads
    [undefined]. *)
Definition midpoint (a b : Z) : M Z :=
  if Z.even (a + b) then ret ((a + b) / 2) else throw.

(** [l[i]] followed by a destructuring of the element. *)
Definition nth_z {A : Type} (l : list A) (i : Z) : option A :=
  if i <? 0 then None else nth_error l (Z.to_nat i).

(** The working copy made by [generateMaze]. *)
Definition maze_copy (n : GridNode) : GridNode :=
  mkNode (row n) (col n) (isStart n) (isEnd n) false false false PosInf
         (heuristic n) (weight n) None.

(** The loop headed by the comment [Fill with walls]. *)
Definition fill_walls : M unit :=
  d <- dims ;;
  for_each (upto (fst d)) (fun r =>
    for_each (upto (snd d)) (fun c =>
      set_unless_flagged true (r, c))).

(* ------------------------------------------------------------------ *)
(** ** random *)

Definition generateRandomMaze (rnd : rng) : M unit :=
  d <- dims ;;
  for_each (upto (fst d)) (fun r =>
    for_each (upto (snd d)) (fun c =>
      n <- read (r, c) ;;
      if flagged n then ret tt
      else
        x <- random rnd ;;
        if Qltb x (35 # 100) then write_wall true (r, c) else ret tt)).

(* ------------------------------------------------------------------ *)
(** ** recursive *)

(** The two [for] loops of [divide] over the dividing line; [line i] is the
    cell of the line with coordinate [i]. *)
Definition open_line (line : Z -> pos) (a b hole : Z) : M unit :=
  for_each (from_to a b) (fun i =>
    if i =? hole then ret tt else set_unless_flagged false (line i)).

Fixpoint divide (fuel : nat) (onUpdate : bool) (rnd : rng)
         (x1 y1 x2 y2 : Z) (horizontal : bool) : M unit :=
  match fuel with
  | O => out_of_fuel
  | S fuel' =>
      if (x2 - x1 <? 2) || (y2 - y1 <? 2) then ret tt
      else if horizontal then
        let y := (y1 + y2) / 2 in
        r <- random_floor rnd (inject_Z (x2 - x1)) ;;
        let hole := r + x1 in
        open_line (fun x => (y, x)) x1 x2 hole ;;;
        divide fuel' onUpdate rnd x1 y1 x2 (y - 1) (negb horizontal) ;;;
        divide fuel' onUpdate rnd x1 (y + 1) x2 y2 (negb horizontal)
      else
        let x := (x1 + x2) / 2 in
        r <- random_floor rnd (inject_Z (y2 - y1)) ;;
        let hole := r + y1 in
        open_line (fun y => (y, x)) y1 y2 hole ;;;
        divide fuel' onUpdate rnd x1 y1 (x - 1) y2 (negb horizontal) ;;;
        divide fuel' onUpdate rnd (x + 1) y1 x2 y2 (negb horizontal)
  end.

Definition generateRecursiveMaze (onUpdate : bool) (rnd : rng) : M unit :=
  d <- dims ;;
  fill_walls ;;;
  divide (Z.to_nat (fst d + snd d)) onUpdate rnd 0 0 (snd d - 1) (fst d - 1) true.

(* ------------------------------------------------------------------ *)
(** ** prim *)

Definition directions : list (Z * Z) := [(-2, 0); (2, 0); (0, -2); (0, 2)].

Definition inside (d : Z * Z) (p : pos) : bool :=
  (0 <=? fst p) && (fst p <? fst d) && (0 <=? snd p) && (snd p <? snd d).

(** [addWalls(grid, row, col, walls)]; the new value of [walls] is returned. *)
Definition addWalls (p : pos) (walls : list pos) : M (list pos) :=
  d <- dims ;;
  fold_m (fun walls dir =>
            let q := (fst p + fst dir, snd p + snd dir) in
            if inside d q then
              n <- read q ;;
              if isWall n && negb (flagged n) then ret (walls ++ [q]) else ret walls
            else ret walls)
         directions walls.

(** [getNeighbors(grid, row, col)] of the maze generators: the nodes two
    steps away. *)
Definition getNeighbors (p : pos) : M (list GridNode) :=
  d <- dims ;;
  fold_m (fun neighbors dir =>
            let q := (fst p + fst dir, snd p + snd dir) in
            if inside d q then n <- read q ;; ret (neighbors ++ [n])
            else ret neighbors)
         directions [].

(** [walls.splice(i, 1)] *)
Fixpoint splice1 {A : Type} (i : nat) (l : list A) : list A :=
  match l, i with
  | [], _ => []
  | _ :: l', O => l'
  | x :: l', S i' => x :: splice1 i' l'
  end.

Fixpoint prim_loop (fuel : nat) (onUpdate : bool) (rnd : rng) (d : Z * Z)
         (walls : list pos) : M unit :=
  match fuel with
  | O => out_of_fuel
  | S fuel' =>
      match walls with
      | [] => ret tt
      | _ :: _ =>
          randomIndex <- random_floor rnd (inject_Z (Z.of_nat (length walls))) ;;
          match nth_z walls randomIndex with
          | None => throw
          | Some wall =>
              let walls1 := splice1 (Z.to_nat randomIndex) walls in
              if inside d wall then
                n <- read wall ;;
                if isWall n && negb (flagged n) then
                  neighbors <- getNeighbors wall ;;
                  if (length (filter (fun m => negb (isWall m)) neighbors) =? 1)%nat then
                    write_wall false wall ;;;
                    walls2 <- addWalls wall walls1 ;;
                    maybe_update onUpdate rnd ;;;
                    prim_loop fuel' onUpdate rnd d walls2
                  else prim_loop fuel' onUpdate rnd d walls1
                else prim_loop fuel' onUpdate rnd d walls1
              else prim_loop fuel' onUpdate rnd d walls1
          end
      end
  end.

Definition generatePrimMaze (onUpdate : bool) (rnd : rng) : M unit :=
  d <- dims ;;
  fill_walls ;;;
  startRow <- random_floor rnd (inject_Z (fst d)) ;;
  startCol <- random_floor rnd (inject_Z (snd d)) ;;
  set_unless_flagged false (startRow, startCol) ;;;
  walls <- addWalls (startRow, startCol) [] ;;
  prim_loop (S (4 * S (Z.to_nat (fst d * snd d)))) onUpdate rnd d walls.

(* ------------------------------------------------------------------ *)
(** ** kruskal *)

(** The array [parent: number[][]]. *)
Definition parents : Type := list (list Z).

Definition parent_get (parent : parents) (r c : Z) : option Z :=
  match nth_z parent r with
  | Some l => nth_z l c
  | None => None
  end.

Definition parent_set (r c : Z) (v : Z) (parent : parents) : parents :=
  if (0 <=? r) && (0 <=? c) then
    list_upd (Z.to_nat r) (list_upd (Z.to_nat c) (fun _ => v)) parent
  else parent.

(** [parent[row][col] = row * cols + col] for every cell. *)
Definition parent_init (d : Z * Z) : parents :=
  map (fun r => map (fun c => r * snd d + c) (upto (snd d))) (upto (fst d)).

(** [find(row, col)]: the root, and the array after the compression of the
    path. A read outside the array ends in a [TypeError].  The depth of the
    recursion is at most the number of unions made so far, hence the fuel
    [S (length edges)] below. *)
Fixpoint find (fuel : nat) (cols : Z) (r c : Z) (parent : parents)
  : outcome (Z * parents) :=
  match fuel with
  | O => OutOfFuel
  | S fuel' =>
      let id := r * cols + c in
      match parent_get parent r c with
      | None => Throws
      | Some v =>
          if v =? id then Returned (v, parent)
          else
            match find fuel' cols (v / cols) (Z.rem v cols) parent with
            | Returned (root, parent') => Returned (root, parent_set r c root parent')
            | Throws => Throws
            | OutOfFuel => OutOfFuel
            end
      end
  end.

(** [union(row1, col1, row2, col2)] *)
Definition union (fuel : nat) (cols : Z) (p1 p2 : pos) (parent : parents)
  : outcome parents :=
  match find fuel cols (fst p1) (snd p1) parent with
  | Returned (root1, parent1) =>
      match find fuel cols (fst p2) (snd p2) parent1 with
      | Returned (root2, parent2) =>
          if root1 =? root2 then Returned parent2
          else
            (* [parent[parentRow][parentCol] = root1]; a row outside the
               array is [undefined] *)
            match parent_get parent2 (root2 / cols) (Z.rem root2 cols) with
            | Some _ => Returned (parent_set (root2 / cols) (Z.rem root2 cols) root1 parent2)
            | None => Throws
            end
      | Throws => Throws
      | OutOfFuel => OutOfFuel
      end
  | Throws => Throws
  | OutOfFuel => OutOfFuel
  end.

(** A pure step that may throw, inside [M]. *)
Definition lift {A : Type} (o : outcome A) : M A :=
  fun st =>
    match o with
    | Returned a => Returned (a, st)
    | Throws => Throws
    | OutOfFuel => OutOfFuel
    end.

(** [{ row1, col1, row2, col2 }] *)
Definition edge : Type := (pos * pos)%type.

(** The list [edges] in the order in which it is built. *)
Definition all_edges (d : Z * Z) : list edge :=
  flat_map (fun r =>
    flat_map (fun c =>
      (if r + 2 <? fst d then [((r, c), (r + 2, c))] else []) ++
      (if c + 2 <? snd d then [((r, c), (r, c + 2))] else []))
      (evens (snd d)))
    (evens (fst d)).

(** [[edges[i], edges[j]] = [edges[j], edges[i]]]; an index outside the
    array leaves [undefined] in it, which fails when the edge is
    destructured. *)
Definition swap {A : Type} (i j : Z) (l : list A) : option (list A) :=
  match nth_z l i, nth_z l j with
  | Some a, Some b =>
      Some (list_upd (Z.to_nat j) (fun _ => a) (list_upd (Z.to_nat i) (fun _ => b) l))
  | _, _ => None
  end.

(** [for (let i = edges.length - 1; i > 0; i--)] *)
Definition shuffle (rnd : rng) (edges : list edge) : M (list edge) :=
  fold_m (fun edges i =>
            j <- random_floor rnd (inject_Z (i + 1)) ;;
            match swap i j edges with
            | Some edges' => ret edges'
            | None => throw
            end)
         (rev (map (fun k => Z.of_nat k) (seq 1 (length edges - 1)))) edges.

(** Body of [for (const edge of edges)]. *)
Definition process_edge (fuel : nat) (onUpdate : bool) (rnd : rng) (cols : Z)
           (parent : parents) (e : edge) : M parents :=
  let (p1, p2) := e in
  f1 <- lift (find fuel cols (fst p1) (snd p1) parent) ;;
  f2 <- lift (find fuel cols (fst p2) (snd p2) (snd f1)) ;;
  if fst f1 =? fst f2 then ret (snd f2)
  else
    parent' <- lift (union fuel cols p1 p2 (snd f2)) ;;
    set_unless_flagged false p1 ;;;
    set_unless_flagged false p2 ;;;
    wallRow <- midpoint (fst p1) (fst p2) ;;
    wallCol <- midpoint (snd p1) (snd p2) ;;
    set_unless_flagged false (wallRow, wallCol) ;;;
    maybe_update onUpdate rnd ;;;
    ret parent'.

Definition generateKruskalMaze (onUpdate : bool) (rnd : rng) : M unit :=
  d <- dims ;;
  fill_walls ;;;
  edges <- shuffle rnd (all_edges d) ;;
  _ <- fold_m (process_edge (S (length edges)) onUpdate rnd (snd d))
              edges (parent_init d) ;;
  ret tt.

(* ------------------------------------------------------------------ *)
(** ** binary *)

Definition generateBinaryTreeMaze (onUpdate : bool) (rnd : rng) : M unit :=
  d <- dims ;;
  fill_walls ;;;
  for_each (evens (fst d)) (fun r =>
    for_each (evens (snd d)) (fun c =>
      set_unless_flagged false (r, c) ;;;
      let neighbors :=
        (if 0 <? r then [(r - 2, c)] else []) ++
        (if c <? snd d - 2 then [(r, c + 2)] else []) in
      match neighbors with
      | [] => ret tt
      | _ :: _ =>
          i <- random_floor rnd (inject_Z (Z.of_nat (length neighbors))) ;;
          match nth_z neighbors i with
          | None => throw
          | Some chosen =>
              wallRow <- midpoint r (fst chosen) ;;
              wallCol <- midpoint c (snd chosen) ;;
              set_unless_flagged false (wallRow, wallCol) ;;;
              maybe_update onUpdate rnd
          end
      end)).

(* ------------------------------------------------------------------ *)
(** ** sidewinder *)

(** [runStart + Math.floor(Math.random() * ((col - runStart) / 2 + 1)) * 2] *)
Definition run_column (rnd : rng) (runStart c : Z) : M Z :=
  k <- random_floor rnd (Qplus (Qmake (c - runStart) 2) (inject_Z 1)) ;;
  ret (runStart + k * 2).

Definition generateSidewinderMaze (onUpdate : bool) (rnd : rng) : M unit :=
  d <- dims ;;
  fill_walls ;;;
  for_each (evens (fst d)) (fun r =>
    _ <- fold_m (fun runStart c =>
           set_unless_flagged false (r, c) ;;;
           carveEast <-
             (if c <? snd d - 2 then
                if r =? 0 then ret true
                else x <- random rnd ;; ret (Qltb x (1 # 2))
              else ret false) ;;
           let carveNorth := (0 <? r) && negb carveEast in
           runStart' <-
             (if carveEast then
                set_unless_flagged false (r, c + 1) ;;; ret runStart
              else
                (if carveNorth then
                   runCol <- run_column rnd runStart c ;;
                   set_unless_flagged false (r - 1, runCol)
                 else ret tt) ;;;
                ret (c + 2)) ;;
           maybe_update onUpdate rnd ;;;
           ret runStart')
         (evens (snd d)) 0 ;;
    ret tt).

(* ------------------------------------------------------------------ *)
(** ** generateMaze *)

Definition generator (type : MazeType) (onUpdate : bool) (rnd : rng) : M unit :=
  match type with
  | MRandom => generateRandomMaze rnd
  | MRecursive => generateRecursiveMaze onUpdate rnd
  | MPrim => generatePrimMaze onUpdate rnd
  | MKruskal => generateKruskalMaze onUpdate rnd
  | MBinary => generateBinaryTreeMaze onUpdate rnd
  | MSidewinder => generateSidewinderMaze onUpdate rnd
  end.

(** [generateMaze(grid, type, animationSpeed, onUpdate)]; the caller's grid
    is not touched, the generators work on the copy. *)
Definition generateMaze (grid : Grid) (type : MazeType) (onUpdate : bool) (rnd : rng)
  : outcome Grid :=
  let newGrid := map (map maze_copy) grid in
  match generator type onUpdate rnd (mkM newGrid 0) with
  | Returned (_, st) => Returned (m_grid st)
  | Throws => Throws
  | OutOfFuel => OutOfFuel
  end.

End Maze.

(* ================================================================== *)
(** * Sample grids *)
(* ================================================================== *)

(** The grid built by [initializeGrid], with the given walls and weights. *)
Definition fresh_node (r c : nat) : GridNode :=
  mkNode (Z.of_nat r) (Z.of_nat c) false false false false false PosInf 0 1 None.

Definition make_grid (nrows ncols : nat) : Grid :=
  map (fun r => map (fun c => fresh_node r c) (seq 0 ncols)) (seq 0 nrows).

Definition add_walls (ws : list pos) (g : Grid) : Grid :=
  fold_left (fun g p => grid_upd p (set_isWall true) g) ws g.

Definition set_weight (w : Z) (n : GridNode) : GridNode :=
  mkNode (row n) (col n) (isStart n) (isEnd n) (isWall n) (isVisited n) (isPath n)
         (distance n) (heuristic n) w (previousNode n).

Definition add_weights (ws : list pos) (g : Grid) : Grid :=
  fold_left (fun g p => grid_upd p (set_weight 5) g) ws g.

Definition result_path (o : outcome (state * AlgorithmResult)) : option (list pos) :=
  match o with
  | Returned (_, r) => if pathFound (stats r) then Some (path r) else None
  | _ => None
  end.

(* ================================================================== *)
(** * The page: state and handlers of [PathfindingVisualizer] *)
(* ================================================================== *)

(** The component keeps its state in hooks; a handler is modelled as the
    transition it makes from the state it is called in to the state it
    leaves once it has run to its end, each [setX(v)] being the write of a
    field.  A handler that fails leaves through [Throws]. *)
Module Visualizer.

Inductive Mode : Type := WallMode | StartMode | EndMode | WeightMode.

Record App : Type := mkApp {
  gridSize : Z;
  grid : Grid;
  startNode : option pos;
  endNode : option pos;
  selectedAlgorithm : Algorithm;
  animationSpeed : Z;
  isRunning : bool;
  isWeightedMode : bool;
  shownStats : option VisualizationStats;      (* the state [stats] *)
  mode : Mode;
  showConfetti : bool;
  previousStats : list (Algorithm * VisualizationStats)
}.

Definition setGrid (g : Grid) (a : App) : App :=
  mkApp (gridSize a) g (startNode a) (endNode a) (selectedAlgorithm a) (animationSpeed a)
        (isRunning a) (isWeightedMode a) (shownStats a) (mode a) (showConfetti a)
        (previousStats a).

Definition setStartNode (p : option pos) (a : App) : App :=
  mkApp (gridSize a) (grid a) p (endNode a) (selectedAlgorithm a) (animationSpeed a)
        (isRunning a) (isWeightedMode a) (shownStats a) (mode a) (showConfetti a)
        (previousStats a).

Definition setEndNode (p : option pos) (a : App) : App :=
  mkApp (gridSize a) (grid a) (startNode a) p (selectedAlgorithm a) (animationSpeed a)
        (isRunning a) (isWeightedMode a) (shownStats a) (mode a) (showConfetti a)
        (previousStats a).

Definition setStats (s : option VisualizationStats) (a : App) : App :=
  mkApp (gridSize a) (grid a) (startNode a) (endNode a) (selectedAlgorithm a)
        (animationSpeed a) (isRunning a) (isWeightedMode a) s (mode a) (showConfetti a)
        (previousStats a).

Definition setPreviousStats (l : list (Algorithm * VisualizationStats)) (a : App) : App :=
  mkApp (gridSize a) (grid a) (startNode a) (endNode a) (selectedAlgorithm a)
        (animationSpeed a) (isRunning a) (isWeightedMode a) (shownStats a) (mode a)
        (showConfetti a) l.

Definition setShowConfetti (b : bool) (a : App) : App :=
  mkApp (gridSize a) (grid a) (startNode a) (endNode a) (selectedAlgorithm a)
        (animationSpeed a) (isRunning a) (isWeightedMode a) (shownStats a) (mode a) b
        (previousStats a).

Definition setIsRunning (b : bool) (a : App) : App :=
  mkApp (gridSize a) (grid a) (startNode a) (endNode a) (selectedAlgorithm a)
        (animationSpeed a) b (isWeightedMode a) (shownStats a) (mode a) (showConfetti a)
        (previousStats a).

Definition setMode (m : Mode) (a : App) : App :=
  mkApp (gridSize a) (grid a) (startNode a) (endNode a) (selectedAlgorithm a)
        (animationSpeed a) (isRunning a) (isWeightedMode a) (shownStats a) m
        (showConfetti a) (previousStats a).

Definition setIsWeightedMode (b : bool) (a : App) : App :=
  mkApp (gridSize a) (grid a) (startNode a) (endNode a) (selectedAlgorithm a)
        (animationSpeed a) (isRunning a) b (shownStats a) (mode a) (showConfetti a)
        (previousStats a).

Definition setSelectedAlgorithm (alg : Algorithm) (a : App) : App :=
  mkApp (gridSize a) (grid a) (startNode a) (endNode a) alg (animationSpeed a)
        (isRunning a) (isWeightedMode a) (shownStats a) (mode a) (showConfetti a)
        (previousStats a).

Definition setAnimationSpeed (v : Z) (a : App) : App :=
  mkApp (gridSize a) (grid a) (startNode a) (endNode a) (selectedAlgorithm a) v
        (isRunning a) (isWeightedMode a) (shownStats a) (mode a) (showConfetti a)
        (previousStats a).

(** The node pushed by [initializeGrid]. *)
Definition new_node (row col : Z) : GridNode :=
  mkNode row col false false false false false PosInf 0 1 None.

(** [initializeGrid()] *)
Definition initializeGrid (a : App) : App :=
  let newGrid :=
    map (fun row => map (fun col => new_node row col) (Maze.upto (gridSize a)))
        (Maze.upto (gridSize a)) in
  setStats None (setEndNode None (setStartNode None (setGrid newGrid a))).

(** [setGridSize(n)]; the effect that depends on [initializeGrid] then
    rebuilds the grid. *)
Definition setGridSize (n : Z) (a : App) : App :=
  initializeGrid
    (mkApp n (grid a) (startNode a) (endNode a) (selectedAlgorithm a) (animationSpeed a)
           (isRunning a) (isWeightedMode a) (shownStats a) (mode a) (showConfetti a)
           (previousStats a)).

(** The state at the first render, and after the effect that runs on mount. *)
Definition first_render : App :=
  mkApp 25 [] None None Dijkstra 50 false false None WallMode false [].

Definition mounted : App := initializeGrid first_render.

(** The copy of a node made by [clearGrid]. *)
Definition clear_node (n : GridNode) : GridNode :=
  mkNode (row n) (col n) (isStart n) (isEnd n) (isWall n) false false PosInf 0
         (weight n) None.

(** [clearGrid()] *)
Definition clearGrid (a : App) : App :=
  setStats None (setGrid (map (map clear_node) (grid a)) a).

(** [resetGrid()] *)
Definition resetGrid (a : App) : App :=
  setPreviousStats [] (initializeGrid a).

Definition set_isStart (b : bool) (n : GridNode) : GridNode :=
  mkNode (row n) (col n) b (isEnd n) (isWall n) (isVisited n) (isPath n)
         (distance n) (heuristic n) (weight n) (previousNode n).

Definition set_isEnd (b : bool) (n : GridNode) : GridNode :=
  mkNode (row n) (col n) (isStart n) b (isWall n) (isVisited n) (isPath n)
         (distance n) (heuristic n) (weight n) (previousNode n).

(** [newGrid[q.row][q.col].f = false] for the previous start or end [q], if
    there is one: a [TypeError] if the grid has no such node. *)
Definition unmark (f : bool -> GridNode -> GridNode) (q : option pos) (g : Grid)
  : option Grid :=
  match q with
  | None => Some g
  | Some q =>
      match grid_get g q with
      | Some _ => Some (grid_upd q (f false) g)
      | None => None
      end
  end.

(** [handleNodeClick(row, col)].  [newGrid[row][col]] fails on a row that
    the grid does not have; on a row that is too short it is [undefined],
    and the handler fails where it reads or writes a field of the node. *)
Definition handleNodeClick (row col : Z) (a : App) : outcome App :=
  if isRunning a then Returned a
  else
    match Maze.nth_z (grid a) row with
    | None => Throws
    | Some r =>
        let p := (row, col) in
        let node := Maze.nth_z r col in
        match mode a with
        | StartMode =>
            match unmark set_isStart (startNode a) (grid a), node with
            | Some g1, Some _ =>
                Returned (setStartNode (Some p)
                  (setGrid (grid_upd p (set_isWall false) (grid_upd p (set_isStart true) g1)) a))
            | _, _ => Throws
            end
        | EndMode =>
            match unmark set_isEnd (endNode a) (grid a), node with
            | Some g1, Some _ =>
                Returned (setEndNode (Some p)
                  (setGrid (grid_upd p (set_isWall false) (grid_upd p (set_isEnd true) g1)) a))
            | _, _ => Throws
            end
        | WallMode =>
            match node with
            | None => Throws
            | Some n =>
                if negb (isStart n) && negb (isEnd n)
                then Returned (setGrid (grid_upd p (set_isWall (negb (isWall n))) (grid a)) a)
                else Returned a
            end
        | WeightMode =>
            if isWeightedMode a then
              match node with
              | None => Throws
              | Some n =>
                  if negb (isStart n) && negb (isEnd n) && negb (isWall n)
                  then Returned (setGrid
                         (grid_upd p (set_weight (if weight n =? 1 then 5 else 1)) (grid a)) a)
                  else Returned a
              end
            else Returned a
        end
    end.

(** [generateMazeHandler(mazeType)]; [rnd] is what [Math.random] returns
    during the generation. *)
Definition generateMazeHandler (mazeType : MazeType) (rnd : Maze.rng) (a : App)
  : outcome App :=
  if isRunning a then Returned a
  else
    match Maze.generateMaze (grid a) mazeType true rnd with
    | Returned newGrid => Returned (setIsRunning false (setGrid newGrid (setIsRunning true a)))
    | Throws => Throws
    | OutOfFuel => OutOfFuel
    end.

(** Whether the search called [onGridUpdate], that is [setGrid], at all. *)
Definition called_back (tr : list event) : bool :=
  existsb (fun ev => match ev with Visit _ | Reveal _ => true | Sleep _ => false end) tr.

(** [runAlgorithm()].  [clearGrid()] puts copies of the nodes in the state
    while the search works on the nodes of [grid], which each call of
    [onGridUpdate] puts back in the state: the grid shown at the end is the
    one the search has written if it has called back, the cleared copy
    otherwise. *)
Definition runAlgorithm (a : App) : outcome App :=
  match startNode a, endNode a with
  | Some startNode, Some endNode =>
      if isRunning a then Returned a
      else
        let a1 := clearGrid (setIsRunning true a) in
        match algorithms (selectedAlgorithm a) (grid a) startNode endNode (animationSpeed a) with
        | Returned (st, result) =>
            let a2 := if called_back (st_trace st) then setGrid (st_grid st) a1 else a1 in
            let a3 := setStats (Some (stats result)) a2 in
            let a4 := if pathFound (stats result) then setShowConfetti true a3 else a3 in
            Returned (setIsRunning false a4)
        | Throws => Throws
        | OutOfFuel => OutOfFuel
        end
  | _, _ => Returned a
  end.

Definition Algorithm_eqb (x y : Algorithm) : bool :=
  match x, y with
  | Dijkstra, Dijkstra | Astar, Astar | Bfs, Bfs | Dfs, Dfs | Greedy, Greedy
  | Bidirectional, Bidirectional => true
  | _, _ => false
  end.

(** [l.slice(-n)] *)
Definition slice_last {A : Type} (n : nat) (l : list A) : list A :=
  skipn (length l - n) l.

(** [handleSaveStats(algorithm, stats)] *)
Definition handleSaveStats (algorithm : Algorithm) (stats : VisualizationStats) (a : App)
  : App :=
  let prev := previousStats a in
  let filtered := filter (fun entry => negb (Algorithm_eqb (fst entry) algorithm)) prev in
  setPreviousStats (slice_last 5 (filtered ++ [(algorithm, stats)])) a.

(** What the user can do on the page. *)
Inductive Action : Type :=
| Click (row col : Z)                       (* a click on a node of [Grid] *)
| ChooseMode (m : Mode)
| ToggleWeighted (b : bool)
| ChooseAlgorithm (alg : Algorithm)
| MoveSpeed (v : Z)
| MoveGridSize (n : Z)
| ClearPath
| ResetGrid
| GenerateMaze (mazeType : MazeType) (rnd : Maze.rng)
| Visualize
| SaveResults                               (* the button of [StatsPanel] *)
| ConfettiOver.                             (* [onComplete] of [Confetti] *)

Definition perform (act : Action) (a : App) : outcome App :=
  match act with
  | Click row col => handleNodeClick row col a
  | ChooseMode m => Returned (setMode m a)
  | ToggleWeighted b => Returned (setIsWeightedMode b a)
  | ChooseAlgorithm alg => Returned (setSelectedAlgorithm alg a)
  | MoveSpeed v => Returned (setAnimationSpeed v a)
  | MoveGridSize n => Returned (setGridSize n a)
  | ClearPath => Returned (clearGrid a)
  | ResetGrid => Returned (resetGrid a)
  | GenerateMaze mazeType rnd => generateMazeHandler mazeType rnd a
  | Visualize => runAlgorithm a
  | SaveResults =>
      match shownStats a with
      | Some stats => Returned (handleSaveStats (selectedAlgorithm a) stats a)
      | None => Returned a
      end
  | ConfettiOver => Returned (setShowConfetti false a)
  end.

(** What the controls let through: a click lands on a node that [Grid]
    has rendered, the sliders stay in their ranges, [Visualize] is enabled
    once start and end are placed, the weight mode is offered while the
    weighted nodes are switched on, and [Math.random] stays in [0, 1). *)
Definition offered (a : App) (act : Action) : Prop :=
  match act with
  | Click row col => grid_get (grid a) (row, col) <> None
  | ChooseMode m => m = WeightMode -> isWeightedMode a = true
  | MoveSpeed v => 1 <= v <= 100
  | MoveGridSize n => 10 <= n <= 50 /\ Z.rem n 5 = 0
  | GenerateMaze _ rnd => forall i, (0 <= rnd i)%Q /\ (rnd i < 1)%Q
  | Visualize => startNode a <> None /\ endNode a <> None
  | SaveResults => shownStats a <> None
  | ConfettiOver => showConfetti a = true
  | _ => True
  end.

(** The states the page can be in. *)
Inductive reachable : App -> Prop :=
| reach_mounted : reachable mounted
| reach_step (a a' : App) (act : Action) :
    reachable a -> offered a act -> perform act a = Returned a' -> reachable a'.

End Visualizer.

(* ================================================================== *)
(** * Basic facts about the store *)
(* ================================================================== *)

Lemma pos_eqb_eq (p q : pos) : pos_eqb p q = true <-> p = q.
Proof.
  destruct p as [a b], q as [c d]; unfold pos_eqb; simpl.
  rewrite andb_true_iff, !Z.eqb_eq. split.
  - intros [-> ->]; reflexivity.
  - intros H; inversion H; auto.
Qed.

Lemma pos_eqb_refl (p : pos) : pos_eqb p p = true.
Proof. apply pos_eqb_eq; reflexivity. Qed.

Lemma pos_eqb_neq (p q : pos) : pos_eqb p q = false <-> p <> q.
Proof.
  rewrite <- pos_eqb_eq. destruct (pos_eqb p q); split; congruence.
Qed.


Lemma pos_eq_dec (p q : pos) : {p = q} + {p <> q}.
Proof.
  destruct (pos_eqb p q) eqn:E.
  - left; apply pos_eqb_eq; assumption.
  - right; apply pos_eqb_neq; assumption.
Qed.

Lemma includes_In (l : list pos) (p : pos) : includes l p = true <-> In p l.
Proof.
  unfold includes. rewrite existsb_exists. split.
  - intros [x [Hx E]]. apply pos_eqb_eq in E; subst; assumption.
  - intros H. exists p; split; [assumption | apply pos_eqb_refl].
Qed.

Lemma includes_not_In (l : list pos) (p : pos) : includes l p = false <-> ~ In p l.
Proof.
  rewrite <- includes_In. destruct (includes l p); split; congruence.
Qed.

Lemma nth_error_list_upd (A : Type) (f : A -> A) (l : list A) (i j : nat) :
  nth_error (list_upd i f l) j =
  if Nat.eqb i j then option_map f (nth_error l j) else nth_error l j.
Proof.
  revert i j. induction l as [|x l IH]; intros i j.
  - destruct i, j; simpl; try reflexivity; destruct (Nat.eqb _ _); reflexivity.
  - destruct i, j; simpl; try reflexivity. apply IH.
Qed.

Lemma length_list_upd (A : Type) (f : A -> A) (l : list A) (i : nat) :
  length (list_upd i f l) = length l.
Proof.
  revert i; induction l; intros [|i]; simpl; auto.
Qed.

Lemma grid_get_upd (g : Grid) (p q : pos) (f : GridNode -> GridNode) :
  grid_get (grid_upd p f g) q =
  if pos_eqb p q then option_map f (grid_get g q) else grid_get g q.
Proof.
  destruct (pos_eqb p q) eqn:E.
  - apply pos_eqb_eq in E; subst q.
    unfold grid_upd, grid_get.
    destruct ((0 <=? fst p) && (0 <=? snd p)); [|reflexivity].
    rewrite nth_error_list_upd, Nat.eqb_refl.
    destruct (nth_error g (Z.to_nat (fst p))) as [r|]; simpl; [|reflexivity].
    rewrite nth_error_list_upd, Nat.eqb_refl. reflexivity.
  - unfold grid_upd, grid_get.
    destruct ((0 <=? fst p) && (0 <=? snd p)) eqn:Hp; [|reflexivity].
    destruct ((0 <=? fst q) && (0 <=? snd q)) eqn:Hq; [|reflexivity].
    apply andb_true_iff in Hp, Hq. destruct Hp as [Hp1 Hp2], Hq as [Hq1 Hq2].
    apply Z.leb_le in Hp1, Hp2, Hq1, Hq2.
    rewrite nth_error_list_upd.
    destruct (Nat.eqb (Z.to_nat (fst p)) (Z.to_nat (fst q))) eqn:Er; [|reflexivity].
    apply Nat.eqb_eq in Er.
    destruct (nth_error g (Z.to_nat (fst q))) as [r|]; simpl; [|reflexivity].
    rewrite nth_error_list_upd.
    destruct (Nat.eqb (Z.to_nat (snd p)) (Z.to_nat (snd q))) eqn:Ec; [|reflexivity].
    apply Nat.eqb_eq in Ec. apply pos_eqb_neq in E. exfalso; apply E.
    destruct p, q; simpl in *; f_equal; lia.
Qed.

Lemma grid_get_reset (g : Grid) (f : GridNode -> GridNode) (p : pos) :
  grid_get (reset_grid f g) p = option_map f (grid_get g p).
Proof.
  unfold grid_get, reset_grid.
  destruct ((0 <=? fst p) && (0 <=? snd p)); [|reflexivity].
  rewrite nth_error_map.
  destruct (nth_error g (Z.to_nat (fst p))) as [r|]; simpl; [|reflexivity].
  apply nth_error_map.
Qed.

(** A cell of the grid. *)
Definition valid (g : Grid) (p : pos) : Prop := grid_get g p <> None.

Lemma node_get (g : Grid) (p : pos) (n : GridNode) :
  grid_get g p = Some n -> node g p = n.
Proof. unfold node; intros ->; reflexivity. Qed.

Lemma valid_get (g : Grid) (p : pos) : valid g p -> grid_get g p = Some (node g p).
Proof. unfold valid, node. destruct (grid_get g p); congruence. Qed.

Lemma node_upd (g : Grid) (p q : pos) (f : GridNode -> GridNode) :
  valid g q ->
  node (grid_upd p f g) q = if pos_eqb p q then f (node g q) else node g q.
Proof.
  intros Hv. unfold node at 1. rewrite grid_get_upd.
  destruct (pos_eqb p q).
  - rewrite (valid_get g q Hv). reflexivity.
  - reflexivity.
Qed.

Lemma node_upd_same (g : Grid) (p : pos) (f : GridNode -> GridNode) :
  valid g p -> node (grid_upd p f g) p = f (node g p).
Proof. intros H. rewrite node_upd by assumption. rewrite pos_eqb_refl. reflexivity. Qed.

Lemma node_upd_other (g : Grid) (p q : pos) (f : GridNode -> GridNode) :
  p <> q -> node (grid_upd p f g) q = node g q.
Proof.
  intros H. unfold node. rewrite grid_get_upd.
  apply pos_eqb_neq in H. rewrite H. reflexivity.
Qed.

Lemma valid_upd (g : Grid) (p q : pos) (f : GridNode -> GridNode) :
  valid (grid_upd p f g) q <-> valid g q.
Proof.
  unfold valid. rewrite grid_get_upd.
  destruct (pos_eqb p q); [|tauto].
  destruct (grid_get g q); simpl; split; congruence.
Qed.

Lemma node_reset (g : Grid) (f : GridNode -> GridNode) (p : pos) :
  valid g p -> node (reset_grid f g) p = f (node g p).
Proof.
  intros H. unfold node at 1. rewrite grid_get_reset, (valid_get g p H). reflexivity.
Qed.

Lemma valid_reset (g : Grid) (f : GridNode -> GridNode) (p : pos) :
  valid (reset_grid f g) p <-> valid g p.
Proof.
  unfold valid. rewrite grid_get_reset.
  destruct (grid_get g p); simpl; split; congruence.
Qed.

(* ------------------------------------------------------------------ *)
(** ** The part of the grid that no search writes *)

Definition node_static (n : GridNode) : Z * Z * bool * Z :=
  (row n, col n, isWall n, weight n).

Definition static (g : Grid) : list (list (Z * Z * bool * Z)) :=
  map (map node_static) g.

Definition keeps_static (f : GridNode -> GridNode) : Prop :=
  forall n, node_static (f n) = node_static n.

Lemma static_list_upd (f : GridNode -> GridNode) (l : list GridNode) (i : nat) :
  keeps_static f -> map node_static (list_upd i f l) = map node_static l.
Proof.
  intros Hf. revert i; induction l as [|x l IH]; intros [|i]; simpl; auto.
  - rewrite Hf; reflexivity.
  - rewrite IH; reflexivity.
Qed.

Lemma static_upd (g : Grid) (p : pos) (f : GridNode -> GridNode) :
  keeps_static f -> static (grid_upd p f g) = static g.
Proof.
  intros Hf. unfold grid_upd, static.
  destruct ((0 <=? fst p) && (0 <=? snd p)); [|reflexivity].
  generalize (Z.to_nat (fst p)) as i. induction g as [|r g IH]; intros [|i]; simpl; auto.
  - rewrite static_list_upd by assumption. reflexivity.
  - rewrite IH. reflexivity.
Qed.

Lemma static_reset (g : Grid) (f : GridNode -> GridNode) :
  keeps_static f -> static (reset_grid f g) = static g.
Proof.
  intros Hf. unfold static, reset_grid. rewrite map_map.
  apply map_ext. intros r. rewrite map_map. apply map_ext. apply Hf.
Qed.

Lemma static_get (g g' : Grid) (p : pos) :
  static g = static g' ->
  option_map node_static (grid_get g p) = option_map node_static (grid_get g' p).
Proof.
  intros H. unfold grid_get.
  destruct ((0 <=? fst p) && (0 <=? snd p)); [|reflexivity].
  assert (Hr : option_map (map node_static) (nth_error g (Z.to_nat (fst p))) =
               option_map (map node_static) (nth_error g' (Z.to_nat (fst p)))).
  { unfold static in H. rewrite <- !nth_error_map. rewrite H. reflexivity. }
  destruct (nth_error g (Z.to_nat (fst p))) as [r|];
    destruct (nth_error g' (Z.to_nat (fst p))) as [r'|]; simpl in Hr; try discriminate.
  - injection Hr as Hr. rewrite <- !nth_error_map. rewrite Hr. reflexivity.
  - reflexivity.
Qed.

Lemma static_valid (g g' : Grid) (p : pos) :
  static g = static g' -> valid g p -> valid g' p.
Proof.
  intros H. unfold valid. pose proof (static_get g g' p H) as E.
  destruct (grid_get g p), (grid_get g' p); simpl in E; congruence.
Qed.

Lemma static_node (g g' : Grid) (p : pos) :
  static g = static g' -> node_static (node g p) = node_static (node g' p).
Proof.
  intros H. unfold node. pose proof (static_get g g' p H) as E.
  destruct (grid_get g p), (grid_get g' p); simpl in E; congruence.
Qed.

Lemma static_isWall (g g' : Grid) (p : pos) :
  static g = static g' -> isWall (node g p) = isWall (node g' p).
Proof. intros H. pose proof (static_node g g' p H) as E. unfold node_static in E. congruence. Qed.

Lemma static_weight (g g' : Grid) (p : pos) :
  static g = static g' -> weight (node g p) = weight (node g' p).
Proof. intros H. pose proof (static_node g g' p H) as E. unfold node_static in E. congruence. Qed.

Lemma static_row (g g' : Grid) (p : pos) :
  static g = static g' -> row (node g p) = row (node g' p).
Proof. intros H. pose proof (static_node g g' p H) as E. unfold node_static in E. congruence. Qed.

Lemma static_col (g g' : Grid) (p : pos) :
  static g = static g' -> col (node g p) = col (node g' p).
Proof. intros H. pose proof (static_node g g' p H) as E. unfold node_static in E. congruence. Qed.

Lemma static_rows (g g' : Grid) : static g = static g' -> rows g = rows g'.
Proof.
  intros H. unfold rows. f_equal.
  rewrite <- (length_map (map node_static) g), <- (length_map (map node_static) g').
  unfold static in H. rewrite H. reflexivity.
Qed.

Lemma static_cols (g g' : Grid) : static g = static g' -> cols g = cols g'.
Proof.
  intros H. unfold cols. f_equal.
  destruct g as [|r g], g' as [|r' g']; simpl in *; try discriminate; auto.
  injection H as H _.
  rewrite <- (length_map node_static r), <- (length_map node_static r'), H. reflexivity.
Qed.

Lemma static_in_bounds (g g' : Grid) (p : pos) :
  static g = static g' -> in_bounds g p = in_bounds g' p.
Proof.
  intros H. unfold in_bounds. rewrite (static_rows g g' H), (static_cols g g' H). reflexivity.
Qed.

Lemma static_getNeighbors (g g' : Grid) (p : pos) :
  static g = static g' -> getNeighbors g p = getNeighbors g' p.
Proof.
  intros H. unfold getNeighbors.
  rewrite (static_row g g' p H), (static_col g g' p H).
  apply filter_ext. intros q. apply static_in_bounds; assumption.
Qed.

Lemma static_manhattan (g g' : Grid) (a b : pos) :
  static g = static g' -> manhattan g a b = manhattan g' a b.
Proof.
  intros H. unfold manhattan.
  rewrite (static_row g g' a H), (static_col g g' a H), (static_row g g' b H), (static_col g g' b H).
  reflexivity.
Qed.

Lemma static_positions (g g' : Grid) : static g = static g' -> positions g = positions g'.
Proof.
  unfold positions. generalize 0%nat as i. revert g'.
  induction g as [|r g IH]; intros [|r' g'] i H; simpl in *; try discriminate; auto.
  injection H as Hr Hg. f_equal.
  - unfold row_positions.
    rewrite <- (length_map node_static r), <- (length_map node_static r'), Hr. reflexivity.
  - apply IH; assumption.
Qed.

Lemma static_cells (g g' : Grid) : static g = static g' -> cells g = cells g'.
Proof. intros H. unfold cells. rewrite (static_positions g g' H). reflexivity. Qed.

(* ------------------------------------------------------------------ *)
(** ** Well-formed grids *)

(** A grid as [initializeGrid] builds it: rectangular, and every node records
    its own indices. *)
Definition wf_grid (g : Grid) : Prop :=
  (forall r, In r g -> length r = length (hd [] g)) /\
  (forall p n, grid_get g p = Some n -> row n = fst p /\ col n = snd p).

Lemma valid_iff (g : Grid) (p : pos) :
  valid g p <->
  0 <= fst p /\ 0 <= snd p /\
  exists r, nth_error g (Z.to_nat (fst p)) = Some r /\ (Z.to_nat (snd p) < length r)%nat.
Proof.
  unfold valid, grid_get. split.
  - intros H.
    destruct (0 <=? fst p) eqn:H1; [|simpl in H; congruence].
    destruct (0 <=? snd p) eqn:H2; [|simpl in H; congruence].
    simpl in H. apply Z.leb_le in H1, H2.
    destruct (nth_error g (Z.to_nat (fst p))) as [r|]; [|congruence].
    repeat split; try assumption. exists r; split; [reflexivity|].
    apply nth_error_Some; assumption.
  - intros [H1 [H2 [r [Hr Hc]]]].
    apply Z.leb_le in H1, H2. rewrite H1, H2, Hr. simpl.
    apply nth_error_Some; assumption.
Qed.

Lemma valid_in_bounds (g : Grid) (p : pos) :
  wf_grid g -> (valid g p <-> in_bounds g p = true).
Proof.
  intros [Hrect _]. rewrite valid_iff. unfold in_bounds, rows, cols.
  rewrite !andb_true_iff, !Z.leb_le, !Z.ltb_lt. split.
  - intros [H1 [H2 [r [Hr Hc]]]].
    assert (Hin : In r g) by (eapply nth_error_In; eassumption).
    assert (Hlt : (Z.to_nat (fst p) < length g)%nat).
    { apply nth_error_Some. congruence. }
    rewrite <- (Hrect r Hin). lia.
  - intros [[[H1 H2] H3] H4].
    repeat split; try assumption.
    destruct (nth_error g (Z.to_nat (fst p))) as [r|] eqn:Hr.
    + exists r; split; [reflexivity|].
      assert (Hin : In r g) by (eapply nth_error_In; eassumption).
      rewrite (Hrect r Hin). lia.
    + apply nth_error_None in Hr. lia.
Qed.

Lemma static_wf (g g' : Grid) : static g = static g' -> wf_grid g -> wf_grid g'.
Proof.
  intros H [Hrect Hidx]. split.
  - intros r' Hin.
    assert (Hl : forall x, In x (static g') -> length x = length (hd [] (static g'))).
    { rewrite <- H. intros x Hx. unfold static in Hx. apply in_map_iff in Hx.
      destruct Hx as [r [<- Hr]]. rewrite length_map, (Hrect r Hr).
      unfold static. destruct g; simpl; [reflexivity|]. rewrite length_map; reflexivity. }
    specialize (Hl (map node_static r') (in_map _ _ _ Hin)).
    rewrite length_map in Hl. rewrite Hl.
    unfold static. destruct g'; simpl; [reflexivity|]. rewrite length_map; reflexivity.
  - intros p n' Hn'.
    pose proof (static_get g g' p H) as E. rewrite Hn' in E.
    destruct (grid_get g p) as [n|] eqn:Hn; simpl in E; [|discriminate].
    destruct (Hidx p n Hn) as [Hr Hc].
    unfold node_static in E. injection E as E1 E2 E3 E4. split; congruence.
Qed.

Lemma wf_row (g : Grid) (p : pos) : wf_grid g -> valid g p -> row (node g p) = fst p.
Proof.
  intros [_ Hidx] Hv. apply (Hidx p (node g p)). apply valid_get; assumption.
Qed.

Lemma wf_col (g : Grid) (p : pos) : wf_grid g -> valid g p -> col (node g p) = snd p.
Proof.
  intros [_ Hidx] Hv. apply (Hidx p (node g p)). apply valid_get; assumption.
Qed.

Lemma In_row_positions (i : nat) (r : list GridNode) (p : pos) :
  In p (row_positions i r) <->
  fst p = Z.of_nat i /\ 0 <= snd p < Z.of_nat (length r).
Proof.
  unfold row_positions. rewrite in_map_iff. split.
  - intros [j [<- Hj]]. apply in_seq in Hj. simpl. lia.
  - intros [H1 H2]. exists (Z.to_nat (snd p)). split.
    + destruct p as [a b]; simpl in *. f_equal; lia.
    + apply in_seq. lia.
Qed.

Lemma In_positions_from (i : nat) (g : Grid) (p : pos) :
  In p (positions_from i g) <->
  exists k r, fst p = Z.of_nat (i + k) /\ nth_error g k = Some r /\
              0 <= snd p < Z.of_nat (length r).
Proof.
  revert i. induction g as [|r0 g IH]; intros i; simpl.
  - split; [tauto|]. intros [k [r [_ [H _]]]]. destruct k; discriminate.
  - rewrite in_app_iff, In_row_positions, IH. split.
    + intros [[H1 H2] | [k [r [H1 [H2 H3]]]]].
      * exists 0%nat, r0. rewrite Nat.add_0_r. auto.
      * exists (S k), r. simpl. rewrite Nat.add_succ_r. auto.
    + intros [[|k] [r [H1 [H2 H3]]]]; simpl in H2.
      * injection H2 as <-. left. rewrite Nat.add_0_r in H1. auto.
      * right. exists k, r. rewrite Nat.add_succ_r in H1. auto.
Qed.

Lemma In_positions (g : Grid) (p : pos) : In p (positions g) <-> valid g p.
Proof.
  unfold positions. rewrite In_positions_from, valid_iff. split.
  - intros [k [r [H1 [H2 H3]]]]. simpl in H1.
    repeat split; try lia. exists r. rewrite H1, Nat2Z.id. split; [assumption | lia].
  - intros [H1 [H2 [r [Hr Hc]]]].
    exists (Z.to_nat (fst p)), r. simpl. repeat split; try assumption; lia.
Qed.

Lemma NoDup_row_positions (i : nat) (r : list GridNode) : NoDup (row_positions i r).
Proof.
  unfold row_positions. apply NoDup_map_NoDup_ForallPairs.
  - intros a b _ _ H. injection H as H. lia.
  - apply seq_NoDup.
Qed.

Lemma NoDup_positions_from (i : nat) (g : Grid) : NoDup (positions_from i g).
Proof.
  revert i. induction g as [|r g IH]; intros i; simpl.
  - constructor.
  - apply NoDup_app.
    + apply NoDup_row_positions.
    + apply IH.
    + intros p H1 H2. apply In_row_positions in H1. apply In_positions_from in H2.
      destruct H2 as [k [r' [H2 _]]]. lia.
Qed.

Lemma NoDup_positions (g : Grid) : NoDup (positions g).
Proof. apply NoDup_positions_from. Qed.

(** Pigeonhole: a duplicate-free list of cells is no longer than the grid. *)
Lemma NoDup_valid_length (g : Grid) (l : list pos) :
  NoDup l -> (forall p, In p l -> valid g p) -> (length l <= cells g)%nat.
Proof.
  intros Hnd Hv. unfold cells. apply NoDup_incl_length; [assumption|].
  intros p Hp. apply In_positions. apply Hv; assumption.
Qed.

(* ------------------------------------------------------------------ *)
(** ** Adjacency and paths *)

(** Orthogonal 4-adjacency. *)
Definition adjacent (p q : pos) : Prop :=
  Z.abs (fst p - fst q) + Z.abs (snd p - snd q) = 1.

(** A cell that can be walked on. *)
Definition open (g : Grid) (p : pos) : Prop :=
  valid g p /\ isWall (node g p) = false.

Lemma adjacent_sym (p q : pos) : adjacent p q -> adjacent q p.
Proof. unfold adjacent. lia. Qed.

Lemma static_open (g g' : Grid) (p : pos) : static g = static g' -> open g p -> open g' p.
Proof.
  intros H [Hv Hw]. split.
  - eapply static_valid; eassumption.
  - rewrite <- (static_isWall g g' p H). assumption.
Qed.

Lemma In_getNeighbors (g : Grid) (u v : pos) :
  wf_grid g -> valid g u ->
  (In v (getNeighbors g u) <-> valid g v /\ adjacent u v).
Proof.
  intros Hwf Hu. unfold getNeighbors.
  rewrite filter_In, <- (valid_in_bounds g v Hwf).
  rewrite (wf_row g u Hwf Hu), (wf_col g u Hwf Hu).
  unfold directions, adjacent. simpl.
  destruct u as [ur uc], v as [vr vc]; simpl. split.
  - intros [[H|[H|[H|[H|[]]]]] Hv]; injection H as <- <-; split; try assumption; lia.
  - intros [Hv Ha]. split; [|assumption].
    assert (C : (vr = ur - 1 /\ vc = uc) \/ (vr = ur + 1 /\ vc = uc) \/
                (vr = ur /\ vc = uc - 1) \/ (vr = ur /\ vc = uc + 1)) by lia.
    destruct C as [[-> ->]|[[-> ->]|[[-> ->]|[-> ->]]]].
    + left; f_equal; lia.
    + right; left; f_equal; lia.
    + right; right; left; f_equal; lia.
    + right; right; right; left; f_equal; lia.
Qed.

Lemma NoDup_getNeighbors (g : Grid) (u : pos) : NoDup (getNeighbors g u).
Proof.
  unfold getNeighbors. apply NoDup_filter. unfold directions. simpl.
  repeat constructor; simpl; intuition (try discriminate);
    match goal with H : (_, _) = (_, _) |- _ => injection H; intros; lia end.
Qed.

(** A path from [s] to [e] through open, pairwise adjacent cells, as the
    list of its cells. *)
Inductive is_path (g : Grid) : pos -> pos -> list pos -> Prop :=
| path_one (s : pos) : open g s -> is_path g s s [s]
| path_cons (s u e : pos) (l : list pos) :
    open g s -> adjacent s u -> is_path g u e l -> is_path g s e (s :: l).

(** Some open path joins [s] and [e]. *)
Definition connected (g : Grid) (s e : pos) : Prop := exists l, is_path g s e l.

(** Number of edges of a path. *)
Definition edge_count (l : list pos) : Z := Z.of_nat (length l) - 1.

(** Sum of the weights of the cells a path enters (all but the first). *)
Definition weight_sum (g : Grid) (l : list pos) : Z :=
  fold_right (fun p acc => weight (node g p) + acc) 0 (tl l).

Lemma static_is_path (g g' : Grid) (s e : pos) (l : list pos) :
  static g = static g' -> is_path g s e l -> is_path g' s e l.
Proof.
  intros H P. induction P.
  - constructor. eapply static_open; eassumption.
  - econstructor; try eassumption. eapply static_open; eassumption.
Qed.

Lemma static_weight_sum (g g' : Grid) (l : list pos) :
  static g = static g' -> weight_sum g l = weight_sum g' l.
Proof.
  intros H. unfold weight_sum. induction (tl l) as [|p t IH]; simpl; [reflexivity|].
  rewrite IH, (static_weight g g' p H). reflexivity.
Qed.

(** Sum of [w] over the cells a path enters. *)
Definition cost_sum (w : pos -> Z) (l : list pos) : Z :=
  fold_right (fun p acc => w p + acc) 0 (tl l).

Lemma weight_sum_cost (g : Grid) (l : list pos) :
  weight_sum g l = cost_sum (fun p => weight (node g p)) l.
Proof. reflexivity. Qed.

Lemma edge_count_cost (l : list pos) :
  l <> [] -> edge_count l = cost_sum (fun _ => 1) l.
Proof.
  unfold edge_count, cost_sum. destruct l as [|a l]; [congruence|]. intros _.
  cbn [tl length].
  induction l as [|b l IH]; cbn [fold_right length] in *; lia.
Qed.

Lemma cost_sum_snoc (w : pos -> Z) (l : list pos) (v : pos) :
  l <> [] -> cost_sum w (l ++ [v]) = cost_sum w l + w v.
Proof.
  unfold cost_sum. destruct l as [|a l]; [congruence|]. intros _.
  cbn [tl app].
  induction l as [|b l IH]; cbn [fold_right app] in *; lia.
Qed.

Lemma is_path_nonempty (g : Grid) (s e : pos) (l : list pos) : is_path g s e l -> l <> [].
Proof. intros H; inversion H; congruence. Qed.

Lemma is_path_hd (g : Grid) (s e : pos) (l : list pos) :
  is_path g s e l -> exists t, l = s :: t.
Proof. intros H; inversion H; eauto. Qed.

Lemma is_path_open_start (g : Grid) (s e : pos) (l : list pos) : is_path g s e l -> open g s.
Proof. intros H; inversion H; assumption. Qed.

Lemma is_path_open_end (g : Grid) (s e : pos) (l : list pos) : is_path g s e l -> open g e.
Proof. intros H; induction H; assumption. Qed.

Lemma is_path_open (g : Grid) (s e : pos) (l : list pos) :
  is_path g s e l -> forall p, In p l -> open g p.
Proof.
  intros H; induction H; intros p Hp.
  - destruct Hp as [<-|[]]; assumption.
  - destruct Hp as [<-|Hp]; auto.
Qed.

Lemma is_path_snoc (g : Grid) (s u v : pos) (l : list pos) :
  is_path g s u l -> open g v -> adjacent u v -> is_path g s v (l ++ [v]).
Proof.
  intros H Hv Ha. induction H; simpl.
  - econstructor; [assumption | eassumption | constructor; assumption].
  - econstructor; [assumption | eassumption | auto].
Qed.

Lemma is_path_last (g : Grid) (s e : pos) (l : list pos) :
  is_path g s e l -> exists t, l = t ++ [e].
Proof.
  intros H; induction H.
  - exists []; reflexivity.
  - destruct IHis_path as [t ->]. exists (s :: t); reflexivity.
Qed.

(* ================================================================== *)
(** * Walks and the lower bound of best-first search *)
(* ================================================================== *)

Section Walks.

Variable g : Grid.
Variable w : pos -> Z.

(** [v] can be entered from [u]. *)
Definition step (u v : pos) : Prop := open g v /\ adjacent u v.

(** [walk s v c]: some open path from [s] to [v] costs [c]. *)
Inductive walk (s : pos) : pos -> Z -> Prop :=
| walk_refl : open g s -> walk s s 0
| walk_step (u v : pos) (c : Z) : walk s u c -> step u v -> walk s v (c + w v).

Lemma walk_open (s v : pos) (c : Z) : walk s v c -> open g v.
Proof. intros H; destruct H as [|u v c _ [Hv _]]; assumption. Qed.

Lemma walk_open_start (s v : pos) (c : Z) : walk s v c -> open g s.
Proof. intros H; induction H; assumption. Qed.

Lemma walk_cons (s0 s v : pos) (c : Z) :
  open g s0 -> adjacent s0 s -> walk s v c -> walk s0 v (w s + c).
Proof.
  intros H0 Ha H. induction H.
  - replace (w s + 0) with (0 + w s) by lia.
    apply walk_step with (u := s0); [constructor; assumption | split; assumption].
  - replace (w s + (c + w v)) with ((w s + c) + w v) by lia.
    eapply walk_step; eassumption.
Qed.

Lemma is_path_walk (s e : pos) (l : list pos) :
  is_path g s e l -> walk s e (cost_sum w l).
Proof.
  intros H; induction H.
  - constructor; assumption.
  - pose proof (is_path_hd _ _ _ _ H1) as [t ->].
    change (cost_sum w (s :: u :: t)) with (w u + cost_sum w (u :: t)).
    apply walk_cons; assumption.
Qed.

Lemma walk_nonneg (s v : pos) (c : Z) :
  (forall p, open g p -> 0 <= w p) -> walk s v c -> 0 <= c.
Proof.
  intros Hw H; induction H; [lia|].
  destruct H0 as [Hv _]. specialize (Hw v Hv). lia.
Qed.

Section BestFirst.

(** The state of a best-first search, abstractly: the closed cells, the
    frontier, the tentative cost [d] and the (consistent) estimate [h]. *)
Variable s : pos.
Variables closed front : pos -> Prop.
Variables d h : pos -> Z.

Hypothesis closed_dec : forall x, closed x \/ ~ closed x.
Hypothesis consistent : forall u v, open g u -> step u v -> h u <= w v + h v.
Hypothesis closed_optimal : forall x c, closed x -> walk s x c -> d x <= c.
Hypothesis closed_relaxed :
  forall u v, closed u -> step u v -> ~ closed v -> front v /\ d v <= d u + w v.
Hypothesis start_known : ~ closed s -> front s /\ d s <= 0.

Lemma frontier_bound (y : pos) (c : Z) :
  walk s y c -> ~ closed y -> exists z, front z /\ d z + h z <= c + h y.
Proof.
  intros H. induction H as [Hs | u v c Hwalk IH Hstep]; intros Hn.
  - destruct (start_known Hn) as [Hf Hd]. exists s. split; [assumption | lia].
  - destruct (closed_dec u) as [Hu | Hu].
    + destruct (closed_relaxed u v Hu Hstep Hn) as [Hf Hd].
      pose proof (closed_optimal u c Hu Hwalk). exists v. split; [assumption | lia].
    + destruct (IH Hu) as [z [Hf Hz]].
      pose proof (consistent u v (walk_open s u c Hwalk) Hstep).
      exists z. split; [assumption | lia].
Qed.

(** The cell with the least [d + h] on the frontier has its final cost. *)
Lemma pop_optimal (cur : pos) (c : Z) :
  ~ closed cur ->
  (forall z, front z -> d cur + h cur <= d z + h z) ->
  walk s cur c -> d cur <= c.
Proof.
  intros Hn Hmin Hwalk.
  destruct (frontier_bound cur c Hwalk Hn) as [z [Hf Hz]].
  specialize (Hmin z Hf). lia.
Qed.

End BestFirst.

End Walks.

(* ================================================================== *)
(** * Following parent links *)
(* ================================================================== *)

Section Follow.

(** [prev] is the parent link ([previousNode], or a parent map), [link] what
    is known of each link, [s] the root. *)
Variable prev : pos -> option pos.
Variable link : pos -> pos -> Prop.
Variable s : pos.

(** [while (current) { path.unshift(current); current = prev(current) }] *)
Fixpoint follow (fuel : nat) (cur : option pos) (acc : list pos) : option (list pos) :=
  match cur with
  | None => Some acc
  | Some c =>
      match fuel with
      | O => None
      | S fuel' => follow fuel' (prev c) (c :: acc)
      end
  end.

Lemma follow_None (fuel : nat) (acc : list pos) : follow fuel None acc = Some acc.
Proof. destruct fuel; reflexivity. Qed.

(** The cells reached so far, in the order they were reached, form a tree
    rooted at [s]. *)
Inductive search_tree : list pos -> Prop :=
| tree_root : prev s = None -> search_tree [s]
| tree_snoc (vs : list pos) (v u : pos) :
    search_tree vs -> ~ In v vs -> prev v = Some u -> In u vs -> link u v ->
    search_tree (vs ++ [v]).

(** A list of cells from the root, each linked to the next. *)
Inductive trail : pos -> list pos -> Prop :=
| trail_root : trail s [s]
| trail_snoc (u v : pos) (p : list pos) : trail u p -> link u v -> trail v (p ++ [v]).

Lemma search_tree_NoDup (vs : list pos) : search_tree vs -> NoDup vs.
Proof.
  intros H; induction H.
  - repeat constructor; simpl; tauto.
  - apply NoDup_app; [assumption | repeat constructor; simpl; tauto |].
    intros a Ha [<-|[]]. contradiction.
Qed.

Lemma search_tree_root (vs : list pos) : search_tree vs -> In s vs.
Proof.
  intros H; induction H; [left; reflexivity | apply in_or_app; left; assumption].
Qed.

Lemma follow_tree (vs : list pos) :
  search_tree vs ->
  forall v, In v vs ->
  exists p, trail v p /\ NoDup p /\ incl p vs /\
            forall fuel acc, (length vs <= fuel)%nat ->
                             follow fuel (Some v) acc = Some (p ++ acc).
Proof.
  intros H; induction H as [Hs | vs v0 u Ht IH Hn Hp Hu Hl]; intros v Hv.
  - destruct Hv as [<-|[]]. exists [s]. repeat split.
    + constructor.
    + repeat constructor; simpl; tauto.
    + apply incl_refl.
    + intros [|fuel] acc Hf; simpl in *; [lia|]. rewrite Hs. apply follow_None.
  - apply in_app_or in Hv. destruct Hv as [Hv | [<-|[]]].
    + destruct (IH v Hv) as [p [Hp1 [Hp2 [Hp3 Hp4]]]].
      exists p. repeat split; try assumption.
      * intros x Hx. apply in_or_app; left; apply Hp3; assumption.
      * intros fuel acc Hf. apply Hp4. rewrite length_app in Hf. simpl in Hf. lia.
    + destruct (IH u Hu) as [p [Hp1 [Hp2 [Hp3 Hp4]]]].
      exists (p ++ [v0]). repeat split.
      * econstructor; eassumption.
      * apply NoDup_app; [assumption | repeat constructor; simpl; tauto |].
        intros a Ha [<-|[]]. apply Hn. apply Hp3; assumption.
      * intros x Hx. apply in_app_or in Hx. apply in_or_app.
        destruct Hx as [Hx|Hx]; [left; apply Hp3; assumption | right; assumption].
      * intros [|fuel] acc Hf; rewrite length_app in Hf; simpl in Hf; [lia|].
        simpl. rewrite Hp. rewrite Hp4 by lia. rewrite <- app_assoc. reflexivity.
Qed.

Lemma trail_hd (v : pos) (p : list pos) : trail v p -> exists t, p = s :: t.
Proof.
  intros H; induction H; [exists []; reflexivity|].
  destruct IHtrail as [t ->]. exists (t ++ [v]); reflexivity.
Qed.

Lemma trail_nonempty (v : pos) (p : list pos) : trail v p -> p <> [].
Proof. intros H. destruct (trail_hd v p H) as [t ->]. congruence. Qed.

End Follow.

(** A trail whose links are steps of the grid is a path. *)
Lemma trail_is_path (g : Grid) (link : pos -> pos -> Prop) (s v : pos) (p : list pos) :
  (forall a b, link a b -> open g b /\ adjacent a b) ->
  open g s -> trail link s v p -> is_path g s v p.
Proof.
  intros Hl Hs H; induction H.
  - constructor; assumption.
  - destruct (Hl _ _ H0) as [Hv Ha]. eapply is_path_snoc; eassumption.
Qed.

(** Along a trail whose links add [w] to the potential [d], the cost is the
    potential. *)
Lemma trail_cost (link : pos -> pos -> Prop) (w d : pos -> Z) (s v : pos) (p : list pos) :
  (forall a b, link a b -> d b = d a + w b) ->
  trail link s v p -> cost_sum w p = d v - d s.
Proof.
  intros Hl H; induction H.
  - unfold cost_sum; simpl. lia.
  - rewrite cost_sum_snoc by (eapply trail_nonempty; eassumption).
    rewrite IHtrail, (Hl _ _ H0). lia.
Qed.

Lemma trail_weaken (link link' : pos -> pos -> Prop) (s v : pos) (p : list pos) :
  (forall a b, link a b -> link' a b) -> trail link s v p -> trail link' s v p.
Proof.
  intros Hl H; induction H; econstructor; eauto.
Qed.

Lemma reconstructPath_loop_follow (g : Grid) (fuel : nat) (cur : option pos) (acc : list pos) :
  reconstructPath_loop fuel g cur acc =
  follow (fun c => previousNode (node g c)) fuel cur acc.
Proof.
  revert cur acc; induction fuel as [|fuel IH]; intros [c|] acc; simpl; auto.
Qed.

(* ================================================================== *)
(** * Facts shared by the six searches *)
(* ================================================================== *)

Definition dist_of (g : Grid) (p : pos) : Z :=
  match distance (node g p) with Fin z => z | PosInf => 0 end.

Definition prev_of (g : Grid) (p : pos) : option pos := previousNode (node g p).

Definition unit_cost (p : pos) : Z := 1.

Definition weight_of (g : Grid) (p : pos) : Z := weight (node g p).

(** The inputs the caller hands to a search (section 3 of the data model):
    a well-formed grid, start and end inside it and not walls. *)
Record valid_input (g : Grid) (s e : pos) : Prop := {
  vi_wf : wf_grid g;
  vi_start : open g s;
  vi_end : open g e
}.

Lemma pause_grid (s e : pos) (speed : Z) (cur : pos) (st : state) :
  st_grid (pause s e speed cur st) = st_grid st.
Proof. unfold pause. destruct (_ && _); reflexivity. Qed.

Lemma pause_visited (s e : pos) (speed : Z) (cur : pos) (st : state) :
  st_visited (pause s e speed cur st) = st_visited st.
Proof. unfold pause. destruct (_ && _); reflexivity. Qed.

Lemma keeps_static_isVisited (b : bool) : keeps_static (set_isVisited b).
Proof. intros n; reflexivity. Qed.
Lemma keeps_static_isPath (b : bool) : keeps_static (set_isPath b).
Proof. intros n; reflexivity. Qed.
Lemma keeps_static_distance (d : num) : keeps_static (set_distance d).
Proof. intros n; reflexivity. Qed.
Lemma keeps_static_heuristic (h : Z) : keeps_static (set_heuristic h).
Proof. intros n; reflexivity. Qed.
Lemma keeps_static_previousNode (p : option pos) : keeps_static (set_previousNode p).
Proof. intros n; reflexivity. Qed.

#[local] Hint Resolve keeps_static_isVisited keeps_static_isPath keeps_static_distance
  keeps_static_heuristic keeps_static_previousNode : core.

Lemma In_getNeighbors_valid (g : Grid) (u v : pos) :
  wf_grid g -> In v (getNeighbors g u) -> valid g v.
Proof.
  intros Hwf H. unfold getNeighbors in H. apply filter_In in H.
  apply valid_in_bounds; tauto.
Qed.

Lemma search_tree_ext (prev prev' : pos -> option pos) (link link' : pos -> pos -> Prop)
      (s : pos) (vs : list pos) :
  search_tree prev link s vs ->
  (forall v, In v vs -> prev' v = prev v) ->
  (forall u v, In u vs -> In v vs -> link u v -> link' u v) ->
  search_tree prev' link' s vs.
Proof.
  intros H; induction H as [Hs | vs v u Ht IH Hn Hp Hu Hl]; intros Hprev Hlink.
  - constructor. rewrite Hprev by (left; reflexivity). assumption.
  - econstructor.
    + apply IH.
      * intros x Hx. apply Hprev. apply in_or_app; left; assumption.
      * intros a b Ha Hb. apply Hlink; apply in_or_app; left; assumption.
    + assumption.
    + rewrite Hprev by (apply in_or_app; right; left; reflexivity). eassumption.
    + assumption.
    + apply Hlink; [apply in_or_app; left; assumption
                   | apply in_or_app; right; left; reflexivity | assumption].
Qed.

(** The counts of [stats] are those of [path] and [visitedNodes]. *)
Definition stats_ok (r : AlgorithmResult) : Prop :=
  pathLength (stats r) = length (path r) /\
  nodesInPath (stats r) = length (path r) /\
  nodesVisited (stats r) = length (visitedNodes r).

(** [visitedNodes] is the array of the visited nodes at the end of the run:
    without repetition, and holding exactly the cells marked visited. *)
Definition visited_trace (g0 : Grid) (st : state) (r : AlgorithmResult) : Prop :=
  visitedNodes r = st_visited st /\
  NoDup (visitedNodes r) /\
  forall p, valid g0 p -> (isVisited (node (st_grid st) p) = true <-> In p (visitedNodes r)).

(** What a search promises about its result, for a grid [g0] and the final
    state [st]: either a path was found, and it is an open path from start to
    end without repeated cell whose cost is minimal when a measure [cost] is
    given, or no open path exists and the result is the failure record. *)
Definition found_post (g0 : Grid) (s e : pos) (cost : option (list pos -> Z))
           (r : AlgorithmResult) : Prop :=
  pathFound (stats r) = true /\
  is_path g0 s e (path r) /\
  NoDup (path r) /\
  match cost with
  | Some c => forall q, is_path g0 s e q -> c (path r) <= c q
  | None => True
  end.

Definition failed_post (g0 : Grid) (s e : pos) (st : state) (r : AlgorithmResult) : Prop :=
  r = not_found_result st /\
  ~ connected g0 s e /\
  visited_trace g0 st r.

Definition search_post (g0 : Grid) (s e : pos) (cost : option (list pos -> Z))
           (out : state * AlgorithmResult) : Prop :=
  stats_ok (snd out) /\
  (found_post g0 s e cost (snd out) \/ failed_post g0 s e (fst out) (snd out)).

Lemma stats_ok_found (p : list pos) (st : state) : stats_ok (found_result p st).
Proof. repeat split. Qed.

Lemma stats_ok_not_found (st : state) : stats_ok (not_found_result st).
Proof. repeat split. Qed.

(** Cells closed under [step] from the start contain every reachable cell. *)
Lemma closed_reach (g : Grid) (w : pos -> Z) (s : pos) (P : pos -> Prop) :
  P s -> (forall u v, P u -> step g u v -> P v) ->
  forall v c, walk g w s v c -> P v.
Proof.
  intros Hs Hc v c H. induction H; eauto.
Qed.

Lemma connected_walk (g : Grid) (w : pos -> Z) (s e : pos) :
  connected g s e -> exists c, walk g w s e c.
Proof.
  intros [l Hl]. exists (cost_sum w l). apply is_path_walk; assumption.
Qed.

(** Reconstruction from a search tree that holds [e]. *)
Lemma reconstruct_tree (g0 g : Grid) (link : pos -> pos -> Prop) (s e : pos) (vs : list pos) :
  static g = static g0 ->
  search_tree (prev_of g) link s vs ->
  (forall p, In p vs -> valid g0 p) ->
  In e vs ->
  exists p, reconstructPath g e = Some p /\ trail link s e p /\ NoDup p /\ incl p vs.
Proof.
  intros Hst Ht Hv He.
  destruct (follow_tree _ _ _ _ Ht e He) as [p [Hp1 [Hp2 [Hp3 Hp4]]]].
  exists p. repeat split; try assumption.
  unfold reconstructPath. rewrite reconstructPath_loop_follow.
  fold (prev_of g). rewrite Hp4.
  - rewrite app_nil_r; reflexivity.
  - rewrite (static_cells g g0 Hst).
    pose proof (NoDup_valid_length g0 vs (search_tree_NoDup _ _ _ _ Ht) Hv). lia.
Qed.

(* ================================================================== *)
(** * Correctness of bfs *)
(* ================================================================== *)

Lemma NoDup_app_not_in {A : Type} (l1 l2 : list A) (x : A) :
  NoDup (l1 ++ l2) -> In x l2 -> ~ In x l1.
Proof.
  induction l1 as [|a l1 IH]; simpl; intros Hnd Hx; [tauto|].
  inversion Hnd as [|? ? Hn Hnd']; subst.
  intros [->|H].
  - apply Hn. apply in_or_app; right; assumption.
  - exact (IH Hnd' Hx H).
Qed.

Ltac node_simpl :=
  repeat (rewrite node_upd by (repeat (apply valid_upd); assumption)).

Section BfsProof.

Variable g0 : Grid.
Variables s e : pos.
Hypothesis Hin : valid_input g0 s e.

Definition bfs_link (g : Grid) (u v : pos) : Prop :=
  open g0 v /\ adjacent u v /\ dist_of g v = dist_of g u + 1.

(** Invariant of the two nested loops of [bfs]. [done] are the dequeued
    cells, [cur] the current one and [pending] its neighbours still to be
    looked at ([[]] between two iterations of the outer loop). *)
Record bfs_inv (st : state) (done queue : list pos) (cur : pos) (pending : list pos)
  : Prop := {
  bi_static : static (st_grid st) = static g0;
  bi_visited : st_visited st = done ++ queue;
  bi_tree : search_tree (prev_of (st_grid st)) (bfs_link (st_grid st)) s (st_visited st);
  bi_flag : forall p, valid g0 p ->
      (isVisited (node (st_grid st) p) = true <-> In p (st_visited st));
  bi_open : forall p, In p (st_visited st) -> open g0 p;
  bi_fin : forall p, In p (st_visited st) ->
      distance (node (st_grid st) p) = Fin (dist_of (st_grid st) p);
  bi_dist_s : dist_of (st_grid st) s = 0;
  bi_level : exists k A B,
      queue = A ++ B /\
      (forall x, In x done -> dist_of (st_grid st) x <= k) /\
      (forall a, In a A -> dist_of (st_grid st) a = k) /\
      (forall b, In b B -> dist_of (st_grid st) b = k + 1) /\
      (pending <> [] -> dist_of (st_grid st) cur = k);
  bi_cur : pending <> [] -> In cur done;
  bi_pending : forall v, In v pending -> valid g0 v /\ adjacent cur v;
  bi_closed : forall u v, In u done -> step g0 u v ->
      (In v (st_visited st) /\ dist_of (st_grid st) v <= dist_of (st_grid st) u + 1) \/
      (u = cur /\ In v pending);
  bi_optimal : forall x c, In x done -> walk g0 unit_cost s x c ->
      dist_of (st_grid st) x <= c;
  bi_end : ~ In e done
}.

Lemma bfs_init :
  bfs_inv (mkState (grid_upd s (set_isVisited true)
                      (grid_upd s (set_distance (Fin 0)) (reset_grid bfs_reset g0)))
                   [s] [])
          [] [s] s [].
Proof.
  destruct Hin as [Hwf [Hvs Hws] He].
  set (g1 := reset_grid bfs_reset g0).
  assert (Hst1 : static g1 = static g0) by (apply static_reset; intros n; reflexivity).
  assert (Hv1 : valid g1 s) by (unfold g1; apply valid_reset; assumption).
  assert (Hnode : forall p, valid g0 p ->
            node (grid_upd s (set_isVisited true) (grid_upd s (set_distance (Fin 0)) g1)) p =
            if pos_eqb s p then set_isVisited true (set_distance (Fin 0) (bfs_reset (node g0 p)))
            else bfs_reset (node g0 p)).
  { intros p Hp. assert (valid g1 p) by (unfold g1; apply valid_reset; assumption).
    node_simpl. unfold g1. rewrite node_reset by assumption.
    destruct (pos_eqb s p); reflexivity. }
  constructor; simpl.
  - rewrite !static_upd by auto. assumption.
  - reflexivity.
  - constructor. unfold prev_of. rewrite Hnode by assumption. rewrite pos_eqb_refl. reflexivity.
  - intros p Hp. rewrite Hnode by assumption.
    destruct (pos_eqb s p) eqn:E; simpl.
    + apply pos_eqb_eq in E. tauto.
    + apply pos_eqb_neq in E. split; [discriminate | intros [H|[]]; congruence].
  - intros p [<-|[]]. split; assumption.
  - intros p [<-|[]]. unfold dist_of. rewrite Hnode by assumption.
    rewrite pos_eqb_refl. reflexivity.
  - unfold dist_of. rewrite Hnode by assumption. rewrite pos_eqb_refl. reflexivity.
  - exists 0, [s], []. repeat split; simpl; try tauto.
    intros a [<-|[]]. unfold dist_of. rewrite Hnode by assumption.
    rewrite pos_eqb_refl. reflexivity.
  - tauto.
  - tauto.
  - tauto.
  - tauto.
  - tauto.
Qed.

Lemma bfs_head_optimal (st : state) (done rest : list pos) (cur cur0 : pos) (c : Z) :
  bfs_inv st done (cur :: rest) cur0 [] ->
  walk g0 unit_cost s cur c -> dist_of (st_grid st) cur <= c.
Proof.
  intros I Hw.
  pose proof (search_tree_NoDup _ _ _ _ (bi_tree _ _ _ _ _ I)) as Hnd.
  rewrite (bi_visited _ _ _ _ _ I) in Hnd.
  apply (pop_optimal g0 unit_cost s (fun x => In x done) (fun x => In x (cur :: rest))
                     (dist_of (st_grid st)) (fun _ => 0)).
  - intros x. destruct (in_dec pos_eq_dec x done); tauto.
  - intros u v _ _. unfold unit_cost. lia.
  - apply (bi_optimal _ _ _ _ _ I).
  - intros u v Hu Hs Hn.
    destruct (bi_closed _ _ _ _ _ I u v Hu Hs) as [[Hv Hd] | [_ []]].
    rewrite (bi_visited _ _ _ _ _ I) in Hv. apply in_app_or in Hv.
    unfold unit_cost. split; [tauto | assumption].
  - intros Hn. pose proof (search_tree_root _ _ _ _ (bi_tree _ _ _ _ _ I)) as Hs.
    rewrite (bi_visited _ _ _ _ _ I) in Hs. apply in_app_or in Hs.
    split; [tauto|]. rewrite (bi_dist_s _ _ _ _ _ I). lia.
  - apply (NoDup_app_not_in _ _ _ Hnd). left; reflexivity.
  - intros z Hz.
    destruct (bi_level _ _ _ _ _ I) as [k [A [B [HAB [_ [HA [HB _]]]]]]].
    assert (Hzk : dist_of (st_grid st) z = k \/ dist_of (st_grid st) z = k + 1).
    { rewrite HAB in Hz. apply in_app_or in Hz. destruct Hz; [left; auto | right; auto]. }
    destruct A as [|a A]; simpl in HAB.
    + assert (dist_of (st_grid st) cur = k + 1) by (apply HB; rewrite <- HAB; left; reflexivity).
      assert (dist_of (st_grid st) z = k + 1) by (apply HB; rewrite <- HAB; assumption).
      lia.
    + injection HAB as <- _.
      assert (dist_of (st_grid st) cur = k) by (apply HA; left; reflexivity). lia.
  - assumption.
Qed.

(** Taking [cur] off the queue. *)
Lemma bfs_pop (st : state) (done rest : list pos) (cur cur0 : pos) (speed : Z) :
  bfs_inv st done (cur :: rest) cur0 [] ->
  cur <> e ->
  let st1 := pause s e speed cur (emit (Visit cur) st) in
  bfs_inv st1 (done ++ [cur]) rest cur (getNeighbors (st_grid st1) cur).
Proof.
  intros I Hne st1.
  assert (Hg : st_grid st1 = st_grid st) by (unfold st1; rewrite pause_grid; reflexivity).
  assert (Hvis : st_visited st1 = st_visited st)
    by (unfold st1; rewrite pause_visited; reflexivity).
  destruct Hin as [Hwf _ _].
  pose proof (bi_static _ _ _ _ _ I) as Hst.
  assert (Hwf' : wf_grid (st_grid st)).
  { apply (static_wf g0); [symmetry|]; assumption. }
  assert (Hcur : In cur (st_visited st)).
  { rewrite (bi_visited _ _ _ _ _ I). apply in_or_app; right; left; reflexivity. }
  assert (Hvcur : valid (st_grid st) cur).
  { apply (static_valid g0); [symmetry; assumption|]. apply (bi_open _ _ _ _ _ I); assumption. }
  constructor; rewrite ?Hg, ?Hvis.
  - assumption.
  - rewrite (bi_visited _ _ _ _ _ I), <- app_assoc. reflexivity.
  - apply (bi_tree _ _ _ _ _ I).
  - apply (bi_flag _ _ _ _ _ I).
  - apply (bi_open _ _ _ _ _ I).
  - apply (bi_fin _ _ _ _ _ I).
  - apply (bi_dist_s _ _ _ _ _ I).
  - destruct (bi_level _ _ _ _ _ I) as [k [A [B [HAB [Hd [HA [HB _]]]]]]].
    destruct A as [|a A]; simpl in HAB.
    + exists (k + 1), rest, []. rewrite app_nil_r.
      assert (HB' : forall b, In b (cur :: rest) -> dist_of (st_grid st) b = k + 1)
        by (rewrite HAB; assumption).
      repeat split.
      * intros x Hx. apply in_app_or in Hx. destruct Hx as [Hx|[<-|[]]].
        -- specialize (Hd x Hx). lia.
        -- rewrite HB' by (left; reflexivity). lia.
      * intros a Ha. apply HB'. right; assumption.
      * intros b [].
      * intros _. apply HB'. left; reflexivity.
    + injection HAB as <- ->. exists k, A, B. repeat split.
      * intros x Hx. apply in_app_or in Hx. destruct Hx as [Hx|[<-|[]]].
        -- auto.
        -- rewrite HA by (left; reflexivity). lia.
      * intros a Ha. apply HA. right; assumption.
      * assumption.
      * intros _. apply HA. left; reflexivity.
  - intros _. apply in_or_app; right; left; reflexivity.
  - intros v Hv. split.
    + apply (static_valid (st_grid st)); [assumption|].
      eapply In_getNeighbors_valid; eassumption.
    + apply (In_getNeighbors (st_grid st) cur v Hwf' Hvcur). assumption.
  - intros u v Hu Hs. apply in_app_or in Hu. destruct Hu as [Hu|[<-|[]]].
    + destruct (bi_closed _ _ _ _ _ I u v Hu Hs) as [H | [_ []]]. left; assumption.
    + right. split; [reflexivity|].
      destruct Hs as [[Hv _] Ha].
      apply (In_getNeighbors (st_grid st) cur v Hwf' Hvcur). split; [|assumption].
      apply (static_valid g0); [symmetry|]; assumption.
  - intros x c Hx Hw. apply in_app_or in Hx. destruct Hx as [Hx|[<-|[]]].
    + apply (bi_optimal _ _ _ _ _ I); assumption.
    + eapply bfs_head_optimal; eassumption.
  - intros H. apply in_app_or in H. destruct H as [H|[H|[]]].
    + apply (bi_end _ _ _ _ _ I); assumption.
    + congruence.
Qed.


(** Looking at one neighbour of [cur]. *)
Lemma bfs_step (st : state) (done queue : list pos) (cur nb : pos) (pending : list pos) :
  bfs_inv st done queue cur (nb :: pending) ->
  bfs_inv (fst (bfs_discover cur (st, queue) nb)) done
          (snd (bfs_discover cur (st, queue) nb)) cur pending.
Proof.
  intros I.
  destruct Hin as [Hwf _ _].
  pose proof (bi_static _ _ _ _ _ I) as Hst.
  assert (Hne : nb :: pending <> []) by discriminate.
  pose proof (bi_cur _ _ _ _ _ I Hne) as Hcur.
  destruct (bi_pending _ _ _ _ _ I nb (or_introl eq_refl)) as [Hvnb Hadj].
  assert (Hvnb' : valid (st_grid st) nb).
  { apply (static_valid g0); [symmetry|]; assumption. }
  assert (Hcurv : In cur (st_visited st)).
  { rewrite (bi_visited _ _ _ _ _ I). apply in_or_app; left; assumption. }
  destruct (bi_level _ _ _ _ _ I) as [k [A [B [HAB [Hd [HA [HB Hk]]]]]]].
  specialize (Hk Hne).
  assert (Hlev : forall v, In v (st_visited st) -> dist_of (st_grid st) v <= k + 1).
  { intros v Hv. rewrite (bi_visited _ _ _ _ _ I) in Hv. apply in_app_or in Hv.
    destruct Hv as [Hv|Hv].
    - specialize (Hd v Hv). lia.
    - rewrite HAB in Hv. apply in_app_or in Hv. destruct Hv as [Hv|Hv].
      + rewrite (HA v Hv). lia.
      + rewrite (HB v Hv). lia. }
  unfold bfs_discover.
  destruct (negb (isVisited (node (st_grid st) nb)) && negb (isWall (node (st_grid st) nb)))
    eqn:Etest; cbn [fst snd].
  - (* [nb] is discovered *)
    apply andb_true_iff in Etest. destruct Etest as [Ev Ew].
    apply negb_true_iff in Ev, Ew.
    assert (Hnv : ~ In nb (st_visited st)).
    { intros H. apply (bi_flag _ _ _ _ _ I nb Hvnb) in H. congruence. }
    assert (Hopen : open g0 nb).
    { split; [assumption|]. rewrite <- (static_isWall _ _ nb Hst). assumption. }
    assert (Hcn : cur <> nb) by congruence.
    set (g' := grid_upd nb (set_previousNode (Some cur))
                 (grid_upd nb (set_distance (num_add (distance (node (st_grid st) cur)) (Fin 1)))
                    (grid_upd nb (set_isVisited true) (st_grid st)))).
    assert (Hother : forall p, p <> nb -> node g' p = node (st_grid st) p).
    { intros p Hp. unfold g'. rewrite !node_upd_other by congruence. reflexivity. }
    assert (Hnb : node g' nb =
                  set_previousNode (Some cur)
                    (set_distance (Fin (dist_of (st_grid st) cur + 1))
                       (set_isVisited true (node (st_grid st) nb)))).
    { unfold g'. node_simpl. rewrite pos_eqb_refl.
      rewrite (bi_fin _ _ _ _ _ I cur Hcurv). reflexivity. }
    assert (Hdo : forall p, p <> nb -> dist_of g' p = dist_of (st_grid st) p).
    { intros p Hp. unfold dist_of. rewrite Hother by assumption. reflexivity. }
    assert (Hdnb : dist_of g' nb = dist_of (st_grid st) cur + 1).
    { unfold dist_of. rewrite Hnb. reflexivity. }
    assert (Hold : forall p, In p (st_visited st) -> p <> nb) by (intros p Hp ->; contradiction).
    match goal with |- bfs_inv ?x _ _ _ _ => set (st' := x) end.
    assert (Hg' : st_grid st' = g') by reflexivity.
    assert (Hvis' : st_visited st' = st_visited st ++ [nb]) by reflexivity.
    clearbody st'.
    constructor; rewrite ?Hg', ?Hvis'.
    + unfold g'. rewrite !static_upd by auto. assumption.
    + rewrite (bi_visited _ _ _ _ _ I), <- app_assoc. reflexivity.
    + apply tree_snoc with (u := cur).
      * apply (search_tree_ext _ _ _ _ _ _ (bi_tree _ _ _ _ _ I)).
        -- intros v Hv. unfold prev_of. rewrite Hother by auto. reflexivity.
        -- intros u v Hu Hv [Ho [Ha Hl]]. split; [assumption | split; [assumption|]].
           rewrite !Hdo by auto. assumption.
      * assumption.
      * unfold prev_of. rewrite Hnb. reflexivity.
      * assumption.
      * split; [assumption | split; [assumption|]].
        rewrite Hdnb, Hdo by assumption. reflexivity.
    + intros p Hp. rewrite in_app_iff. simpl.
      destruct (pos_eq_dec p nb) as [->|Hpn].
      * rewrite Hnb. simpl. tauto.
      * rewrite Hother by assumption. rewrite (bi_flag _ _ _ _ _ I p Hp).
        split; [tauto | intros [H|[H|[]]]; [assumption | congruence]].
    + intros p Hp. apply in_app_or in Hp. destruct Hp as [Hp|[<-|[]]].
      * apply (bi_open _ _ _ _ _ I); assumption.
      * assumption.
    + intros p Hp. apply in_app_or in Hp. destruct Hp as [Hp|[<-|[]]].
      * rewrite Hdo by auto. rewrite Hother by auto. apply (bi_fin _ _ _ _ _ I); assumption.
      * rewrite Hdnb, Hnb. reflexivity.
    + rewrite Hdo.
      * apply (bi_dist_s _ _ _ _ _ I).
      * apply Hold. apply (search_tree_root _ _ _ _ (bi_tree _ _ _ _ _ I)).
    + exists k, A, (B ++ [nb]). repeat split.
      * rewrite HAB, <- app_assoc. reflexivity.
      * intros x Hx. rewrite Hdo; [auto|]. apply Hold.
        rewrite (bi_visited _ _ _ _ _ I). apply in_or_app; left; assumption.
      * intros a Ha. rewrite Hdo; [auto|]. apply Hold.
        rewrite (bi_visited _ _ _ _ _ I), HAB. apply in_or_app; right.
        apply in_or_app; left; assumption.
      * intros b Hb. apply in_app_or in Hb. destruct Hb as [Hb|[<-|[]]].
        -- rewrite Hdo; [auto|]. apply Hold.
           rewrite (bi_visited _ _ _ _ _ I), HAB. apply in_or_app; right.
           apply in_or_app; right; assumption.
        -- rewrite Hdnb. lia.
      * intros _. rewrite Hdo by assumption. assumption.
    + intros _. assumption.
    + intros v Hv. apply (bi_pending _ _ _ _ _ I). right; assumption.
    + intros u v Hu Hs.
      assert (Hun : u <> nb).
      { apply Hold. rewrite (bi_visited _ _ _ _ _ I). apply in_or_app; left; assumption. }
      destruct (bi_closed _ _ _ _ _ I u v Hu Hs) as [[Hv Hdv] | [Hu' [Hv|Hv]]].
      * left. split; [apply in_or_app; left; assumption|].
        rewrite !Hdo by auto. assumption.
      * subst v u. left. split; [apply in_or_app; right; left; reflexivity|].
        rewrite Hdnb, Hdo by assumption. lia.
      * right; split; assumption.
    + intros x c Hx Hw. rewrite Hdo.
      * apply (bi_optimal _ _ _ _ _ I); assumption.
      * apply Hold. rewrite (bi_visited _ _ _ _ _ I). apply in_or_app; left; assumption.
    + apply (bi_end _ _ _ _ _ I).
  - (* [nb] is skipped *)
    constructor; try apply I.
    + exists k, A, B. repeat split; try assumption. intros _; assumption.
    + intros _; assumption.
    + intros v Hv. apply (bi_pending _ _ _ _ _ I). right; assumption.
    + intros u v Hu Hs.
      destruct (bi_closed _ _ _ _ _ I u v Hu Hs) as [H | [Hu' [Hv|Hv]]].
      * left; assumption.
      * subst v u. left.
        destruct Hs as [[_ Hw] _].
        rewrite <- (static_isWall _ _ nb Hst) in Hw. rewrite Hw in Etest.
        simpl in Etest. rewrite andb_true_r in Etest. apply negb_false_iff in Etest.
        apply (bi_flag _ _ _ _ _ I nb Hvnb) in Etest.
        split; [assumption|]. specialize (Hlev nb Etest). lia.
      * right; split; assumption.
Qed.

Lemma bfs_fold (done : list pos) (cur : pos) (pending : list pos) :
  forall st queue,
    bfs_inv st done queue cur pending ->
    bfs_inv (fst (fold_left (bfs_discover cur) pending (st, queue))) done
            (snd (fold_left (bfs_discover cur) pending (st, queue))) cur [].
Proof.
  induction pending as [|nb pending IH]; intros st queue I; cbn [fold_left].
  - assumption.
  - pose proof (bfs_step _ _ _ _ _ _ I) as I'.
    destruct (bfs_discover cur (st, queue) nb) as [st' queue']. apply IH. assumption.
Qed.

Lemma bfs_loop_correct (speed : Z) (fuel : nat) :
  forall st done queue cur0,
    bfs_inv st done queue cur0 [] ->
    (cells g0 + 1 <= fuel + length done)%nat ->
    exists out, bfs_loop fuel s e speed queue st = Returned out /\
                search_post g0 s e (Some edge_count) out.
Proof.
  induction fuel as [|fuel IH]; intros st done queue cur0 I Hfuel.
  - exfalso.
    pose proof (search_tree_NoDup _ _ _ _ (bi_tree _ _ _ _ _ I)) as Hnd.
    pose proof (NoDup_valid_length g0 _ Hnd
                  (fun p Hp => proj1 (bi_open _ _ _ _ _ I p Hp))) as Hlen.
    rewrite (bi_visited _ _ _ _ _ I), length_app in Hlen. simpl in Hfuel. lia.
  - pose proof (search_tree_NoDup _ _ _ _ (bi_tree _ _ _ _ _ I)) as Hnd.
    pose proof (NoDup_valid_length g0 _ Hnd
                  (fun p Hp => proj1 (bi_open _ _ _ _ _ I p Hp))) as Hlen.
    simpl. destruct queue as [|cur rest].
    + (* the queue is empty *)
      eexists; split; [reflexivity|]. split; [apply stats_ok_not_found|]. right.
      assert (Hvis : st_visited st = done).
      { rewrite (bi_visited _ _ _ _ _ I). apply app_nil_r. }
      repeat split.
      * intros Hc. destruct (connected_walk g0 unit_cost s e Hc) as [c Hw].
        apply (bi_end _ _ _ _ _ I).
        apply (closed_reach g0 unit_cost s (fun x => In x done)) with (v := e) (c := c).
        -- rewrite <- Hvis. apply (search_tree_root _ _ _ _ (bi_tree _ _ _ _ _ I)).
        -- intros u v Hu Hs.
           destruct (bi_closed _ _ _ _ _ I u v Hu Hs) as [[Hv _] | [_ []]].
           rewrite <- Hvis. assumption.
        -- assumption.
      * simpl. assumption.
      * simpl. apply (bi_flag _ _ _ _ _ I); assumption.
      * simpl. apply (bi_flag _ _ _ _ _ I); assumption.
    + destruct (pos_eqb cur e) eqn:Ecur.
      * (* the end is dequeued *)
        apply pos_eqb_eq in Ecur. subst cur.
        rewrite pause_grid. simpl.
        assert (He : In e (st_visited st)).
        { rewrite (bi_visited _ _ _ _ _ I). apply in_or_app; right; left; reflexivity. }
        destruct (reconstruct_tree g0 (st_grid st) _ s e _ (bi_static _ _ _ _ _ I)
                    (bi_tree _ _ _ _ _ I)
                    (fun p Hp => proj1 (bi_open _ _ _ _ _ I p Hp)) He)
          as [p [Hrec [Htrail [Hndp _]]]].
        rewrite Hrec. eexists; split; [reflexivity|].
        split; [apply stats_ok_found|]. left. simpl.
        assert (Hpath : is_path g0 s e p).
        { apply (trail_is_path g0 (bfs_link (st_grid st))).
          - intros a b [Ho [Ha _]]. split; assumption.
          - apply Hin.
          - assumption. }
        repeat split; try assumption.
        intros q Hq. cbn [path found_result].
        rewrite (edge_count_cost p) by (eapply is_path_nonempty; eassumption).
        rewrite (edge_count_cost q) by (eapply is_path_nonempty; eassumption).
        change (fun _ : pos => 1) with unit_cost.
        rewrite (trail_cost (bfs_link (st_grid st)) unit_cost (dist_of (st_grid st)) s e p).
        -- rewrite (bi_dist_s _ _ _ _ _ I).
           pose proof (bfs_head_optimal _ _ _ _ _ _ I (is_path_walk g0 unit_cost s e q Hq)).
           unfold unit_cost in *. lia.
        -- intros a b [_ [_ Hl]]. unfold unit_cost. assumption.
        -- assumption.
      * apply pos_eqb_neq in Ecur.
        pose proof (bfs_pop _ _ _ _ _ speed I Ecur) as I1.
        cbv zeta in I1.
        pose proof (bfs_fold _ _ _ _ _ I1) as I2.
        destruct (fold_left (bfs_discover cur)
                    (getNeighbors (st_grid (pause s e speed cur (emit (Visit cur) st))) cur)
                    (pause s e speed cur (emit (Visit cur) st), rest)) as [st2 queue2].
        apply (IH st2 (done ++ [cur]) queue2 cur I2).
        rewrite length_app. simpl. lia.
Qed.

(** [bfs] returns, and its result is either a shortest path (fewest edges)
    or the failure record when no open path exists. *)
Lemma bfs_correct (speed : Z) :
  exists out, bfs g0 s e speed = Returned out /\
              search_post g0 s e (Some edge_count) out.
Proof.
  unfold bfs, resolve.
  destruct Hin as [Hwf [Hvs Hws] [Hve Hwe]].
  rewrite (valid_get _ s) by (apply valid_reset; assumption).
  rewrite (valid_get _ e) by (apply valid_reset; assumption).
  apply (bfs_loop_correct speed _ _ [] [s] s bfs_init). simpl. lia.
Qed.

End BfsProof.

(* ================================================================== *)
(** * The stable sort *)
(* ================================================================== *)

Section Sorting.

Variable A : Type.
Variable leb : A -> A -> bool.
Hypothesis leb_total : forall a b, leb a b = true \/ leb b a = true.
Hypothesis leb_trans : forall a b c, leb a b = true -> leb b c = true -> leb a c = true.

Lemma insert_sorted_perm (x : A) (l : list A) : Permutation (insert_sorted leb x l) (x :: l).
Proof.
  induction l as [|y l IH]; simpl.
  - apply Permutation_refl.
  - destruct (leb x y).
    + apply Permutation_refl.
    + eapply Permutation_trans; [apply perm_skip; apply IH | apply perm_swap].
Qed.

Lemma sort_by_perm (l : list A) : Permutation (sort_by leb l) l.
Proof.
  induction l as [|x l IH]; simpl.
  - apply Permutation_refl.
  - eapply Permutation_trans; [apply insert_sorted_perm | apply perm_skip; apply IH].
Qed.

(** The first element of a list is below all the others. *)
Definition head_min (l : list A) : Prop :=
  match l with
  | [] => True
  | x :: r => forall y, In y r -> leb x y = true
  end.

Fixpoint all_head_min (l : list A) : Prop :=
  match l with
  | [] => True
  | x :: r => head_min (x :: r) /\ all_head_min r
  end.

Lemma insert_sorted_min (x : A) (l : list A) :
  all_head_min l -> all_head_min (insert_sorted leb x l).
Proof.
  induction l as [|y l IH]; simpl; intros H.
  - split; [intros y []|exact I].
  - destruct H as [Hy Hl]. destruct (leb x y) eqn:E; simpl.
    + split; [|split; assumption].
      intros z [<-|Hz]; [assumption|]. eapply leb_trans; [exact E | apply Hy; assumption].
    + split; [|apply IH; assumption].
      intros z Hz.
      apply (Permutation_in _ (insert_sorted_perm x l)) in Hz.
      destruct Hz as [<-|Hz]; [|apply Hy; assumption].
      destruct (leb_total x y); congruence.
Qed.

Lemma sort_by_min (l : list A) : all_head_min (sort_by leb l).
Proof.
  induction l as [|x l IH]; simpl; [exact I|]. apply insert_sorted_min; assumption.
Qed.

Lemma leb_refl (a : A) : leb a a = true.
Proof. destruct (leb_total a a); assumption. Qed.

(** The element that [shift] takes after a sort is a minimum of the list. *)
Lemma sort_by_head (l : list A) (x : A) (r : list A) :
  sort_by leb l = x :: r ->
  Permutation (x :: r) l /\ forall y, In y l -> leb x y = true.
Proof.
  intros E. pose proof (sort_by_perm l) as P. pose proof (sort_by_min l) as M.
  rewrite E in P, M. split; [assumption|].
  intros y Hy. apply (Permutation_in _ (Permutation_sym P)) in Hy.
  destruct Hy as [<-|Hy]; [apply leb_refl|]. destruct M as [M _]. apply M; assumption.
Qed.

Lemma sort_by_nil (l : list A) : sort_by leb l = [] -> l = [].
Proof.
  intros E. pose proof (sort_by_perm l) as P. rewrite E in P.
  apply Permutation_nil in P. assumption.
Qed.

End Sorting.

Lemma num_leb_total (a b : num) : num_leb a b = true \/ num_leb b a = true.
Proof.
  destruct a as [x|], b as [y|]; simpl; auto.
  destruct (Z.leb_spec x y); [left; reflexivity|right; apply Z.leb_le; lia].
Qed.

Lemma num_leb_trans (a b c : num) :
  num_leb a b = true -> num_leb b c = true -> num_leb a c = true.
Proof.
  destruct a as [x|], b as [y|], c as [z|]; simpl; try congruence.
  rewrite !Z.leb_le. lia.
Qed.

Lemma visit_grid (cur : pos) (st : state) :
  st_grid (visit cur st) = grid_upd cur (set_isVisited true) (st_grid st).
Proof. reflexivity. Qed.

Lemma visit_visited (cur : pos) (st : state) :
  st_visited (visit cur st) = st_visited st ++ [cur].
Proof. reflexivity. Qed.

(* ================================================================== *)
(** * Correctness of dijkstra *)
(* ================================================================== *)

Lemma distance_leb_head (g : Grid) (l : list pos) (x : pos) (r : list pos) :
  sort_by (distance_leb g) l = x :: r ->
  Permutation (x :: r) l /\
  forall y, In y l -> num_leb (distance (node g x)) (distance (node g y)) = true.
Proof.
  apply sort_by_head.
  - intros a b. apply num_leb_total.
  - intros a b c. apply num_leb_trans.
Qed.

Section DijkstraProof.

Variable g0 : Grid.
Variables s e : pos.
Hypothesis Hin : valid_input g0 s e.
Hypothesis Hweights : forall p, open g0 p -> 0 <= weight_of g0 p.

Definition dij_link (g : Grid) (u v : pos) : Prop :=
  open g0 v /\ adjacent u v /\ dist_of g v = dist_of g u + weight_of g0 v.

(** Invariant of the two nested loops of [dijkstra]: [unvisited] is
    [unvisitedNodes], [cur] the current node and [pending] its neighbours
    still to be relaxed. *)
Record dij_inv (st : state) (unvisited : list pos) (cur : pos) (pending : list pos)
  : Prop := {
  di_static : static (st_grid st) = static g0;
  di_unvisited : forall p, In p unvisited <-> valid g0 p /\ ~ In p (st_visited st);
  di_nodup : NoDup unvisited;
  di_tree : st_visited st <> [] ->
      search_tree (prev_of (st_grid st)) (dij_link (st_grid st)) s (st_visited st);
  di_flag : forall p, valid g0 p ->
      (isVisited (node (st_grid st) p) = true <-> In p (st_visited st));
  di_open : forall p, In p (st_visited st) -> open g0 p;
  di_fin : forall p, In p (st_visited st) ->
      distance (node (st_grid st) p) = Fin (dist_of (st_grid st) p);
  di_start : distance (node (st_grid st) s) = Fin 0 /\ prev_of (st_grid st) s = None;
  di_front : forall v z, valid g0 v -> ~ In v (st_visited st) ->
      distance (node (st_grid st) v) = Fin z ->
      (v = s /\ st_visited st = []) \/
      (exists u, prev_of (st_grid st) v = Some u /\ In u (st_visited st) /\
                 dij_link (st_grid st) u v);
  di_cur : pending <> [] -> In cur (st_visited st);
  di_pending : forall v, In v pending -> valid g0 v /\ adjacent cur v;
  di_closed : forall u v, In u (st_visited st) -> step g0 u v -> ~ In v (st_visited st) ->
      (exists z, distance (node (st_grid st) v) = Fin z /\
                 z <= dist_of (st_grid st) u + weight_of g0 v) \/
      (u = cur /\ In v pending);
  di_optimal : forall x c, In x (st_visited st) -> walk g0 (weight_of g0) s x c ->
      dist_of (st_grid st) x <= c
}.

Lemma dij_init :
  dij_inv (mkState (grid_upd s (set_distance (Fin 0)) (reset_grid dijkstra_reset g0)) [] [])
          (positions g0) s [].
Proof.
  destruct Hin as [Hwf [Hvs Hws] He].
  assert (Hnode : forall p, valid g0 p ->
            node (grid_upd s (set_distance (Fin 0)) (reset_grid dijkstra_reset g0)) p =
            if pos_eqb s p then set_distance (Fin 0) (dijkstra_reset (node g0 p))
            else dijkstra_reset (node g0 p)).
  { intros p Hp.
    assert (valid (reset_grid dijkstra_reset g0) p) by (apply valid_reset; assumption).
    node_simpl. rewrite node_reset by assumption.
    destruct (pos_eqb s p); reflexivity. }
  constructor; simpl.
  - rewrite static_upd by auto. apply static_reset. intros n; reflexivity.
  - intros p. rewrite In_positions. tauto.
  - apply NoDup_positions.
  - congruence.
  - intros p Hp. rewrite Hnode by assumption.
    destruct (pos_eqb s p); simpl; split; try discriminate; tauto.
  - tauto.
  - tauto.
  - unfold prev_of. rewrite Hnode by assumption. rewrite pos_eqb_refl. split; reflexivity.
  - intros v z Hv _ Hz. left. split; [|reflexivity].
    rewrite Hnode in Hz by assumption.
    destruct (pos_eqb s v) eqn:E; [symmetry; apply pos_eqb_eq; assumption|discriminate].
  - congruence.
  - tauto.
  - tauto.
  - tauto.
Qed.

Lemma dij_front_valid (st : state) (unvisited : list pos) (cur : pos) (c : Z) (y : pos) :
  dij_inv st unvisited cur [] ->
  walk g0 (weight_of g0) s y c -> ~ In y (st_visited st) ->
  exists z, (valid g0 z /\ ~ In z (st_visited st) /\
             distance (node (st_grid st) z) = Fin (dist_of (st_grid st) z)) /\
            dist_of (st_grid st) z + 0 <= c + 0.
Proof.
  intros I.
  assert (Hfin : forall v z, distance (node (st_grid st) v) = Fin z ->
                             distance (node (st_grid st) v) = Fin (dist_of (st_grid st) v)).
  { intros v z Hz. unfold dist_of. rewrite Hz. reflexivity. }
  apply (frontier_bound g0 (weight_of g0) s (fun x => In x (st_visited st))
           (fun z => valid g0 z /\ ~ In z (st_visited st) /\
                     distance (node (st_grid st) z) = Fin (dist_of (st_grid st) z))
           (dist_of (st_grid st)) (fun _ => 0)).
  - intros x. destruct (in_dec pos_eq_dec x (st_visited st)); tauto.
  - intros u v _ [Hv _]. specialize (Hweights v Hv). lia.
  - apply (di_optimal _ _ _ _ I).
  - intros u v Hu Hs Hn.
    destruct (di_closed _ _ _ _ I u v Hu Hs Hn) as [[z [Hz Hle]] | [_ []]].
    destruct Hs as [[Hv _] _].
    repeat split; try assumption.
    + eapply Hfin; eassumption.
    + unfold dist_of at 1. rewrite Hz. assumption.
  - intros Hn. destruct Hin as [_ [Hvs _] _]. destruct (di_start _ _ _ _ I) as [Hd _].
    repeat split; try assumption.
    + eapply Hfin; eassumption.
    + unfold dist_of. rewrite Hd. lia.
Qed.

(** Visiting the node [cur] that the sort put first. *)
Lemma dij_pop (st : state) (unvisited rest : list pos) (cur cur0 : pos) (speed : Z) :
  dij_inv st unvisited cur0 [] ->
  sort_by (distance_leb (st_grid st)) unvisited = cur :: rest ->
  isWall (node (st_grid st) cur) = false ->
  is_inf (distance (node (st_grid st) cur)) = false ->
  let st1 := pause s e speed cur (visit cur st) in
  dij_inv st1 rest cur (getNeighbors (st_grid st1) cur).
Proof.
  intros I Hsort Hwall Hinf st1.
  destruct (distance_leb_head _ _ _ _ Hsort) as [Hperm Hmin].
  assert (Hg : st_grid st1 = grid_upd cur (set_isVisited true) (st_grid st))
    by (unfold st1; rewrite pause_grid; reflexivity).
  assert (Hvis : st_visited st1 = st_visited st ++ [cur])
    by (unfold st1; rewrite pause_visited; reflexivity).
  destruct Hin as [Hwf [Hvs Hws] _].
  pose proof (di_static _ _ _ _ I) as Hst.
  assert (Hwf' : wf_grid (st_grid st)).
  { apply (static_wf g0); [symmetry|]; assumption. }
  assert (HcurU : In cur unvisited).
  { apply (Permutation_in _ Hperm). left; reflexivity. }
  destruct (proj1 (di_unvisited _ _ _ _ I cur) HcurU) as [Hvcur Hncur].
  assert (Hvalid : forall p, valid g0 p -> valid (st_grid st) p).
  { intros p Hp. apply (static_valid g0); [symmetry|]; assumption. }
  assert (Hopen : open g0 cur).
  { split; [assumption|]. rewrite <- (static_isWall _ _ cur Hst). assumption. }
  destruct (distance (node (st_grid st) cur)) as [zc|] eqn:Hdc; [|discriminate].
  assert (Hdcur : dist_of (st_grid st) cur = zc) by (unfold dist_of; rewrite Hdc; reflexivity).
  set (g1 := grid_upd cur (set_isVisited true) (st_grid st)) in *.
  assert (Hd1 : forall p, distance (node g1 p) = distance (node (st_grid st) p)).
  { intros p. unfold g1. destruct (pos_eq_dec cur p) as [<-|Hn].
    - rewrite node_upd_same by auto. reflexivity.
    - rewrite node_upd_other by assumption. reflexivity. }
  assert (Hp1 : forall p, prev_of g1 p = prev_of (st_grid st) p).
  { intros p. unfold g1, prev_of. destruct (pos_eq_dec cur p) as [<-|Hn].
    - rewrite node_upd_same by auto. reflexivity.
    - rewrite node_upd_other by assumption. reflexivity. }
  assert (Hdo1 : forall p, dist_of g1 p = dist_of (st_grid st) p).
  { intros p. unfold dist_of. rewrite Hd1. reflexivity. }
  assert (Hlink : forall u v, dij_link (st_grid st) u v -> dij_link g1 u v).
  { intros u v [Ho [Ha Hl]]. split; [assumption | split; [assumption|]].
    rewrite !Hdo1. assumption. }
  assert (Hopt : forall c, walk g0 (weight_of g0) s cur c -> dist_of (st_grid st) cur <= c).
  { intros c Hw.
    destruct (dij_front_valid _ _ _ _ _ I Hw Hncur) as [z [[Hz1 [Hz2 Hz3]] Hle]].
    assert (HzU : In z unvisited) by (apply (di_unvisited _ _ _ _ I); split; assumption).
    specialize (Hmin z HzU). rewrite ?Hdc, Hz3 in Hmin. simpl in Hmin.
    apply Z.leb_le in Hmin. lia. }
  constructor; rewrite ?Hg, ?Hvis; fold g1.
  - unfold g1. rewrite static_upd by auto. assumption.
  - intros p. rewrite in_app_iff. simpl.
    pose proof (Permutation_NoDup (Permutation_sym Hperm) (di_nodup _ _ _ _ I)) as Hnd.
    inversion Hnd as [|? ? Hnr Hndr]; subst. split.
    + intros Hp.
      assert (HpU : In p unvisited) by (apply (Permutation_in _ Hperm); right; assumption).
      apply (di_unvisited _ _ _ _ I) in HpU. destruct HpU as [Hv Hn].
      split; [assumption|]. intros [H|[H|[]]]; [contradiction|]. subst p. contradiction.
    + intros [Hv Hn].
      assert (HpU : In p unvisited) by (apply (di_unvisited _ _ _ _ I); tauto).
      apply (Permutation_in _ (Permutation_sym Hperm)) in HpU.
      destruct HpU as [<-|HpU]; [|assumption]. exfalso; apply Hn; right; left; reflexivity.
  - pose proof (Permutation_NoDup (Permutation_sym Hperm) (di_nodup _ _ _ _ I)) as Hnd.
    inversion Hnd; assumption.
  - intros _.
    destruct (di_front _ _ _ _ I cur zc Hvcur Hncur Hdc) as [[Hs Hnil] | [u [Hpu [Hu Hl]]]].
    + (* the first node visited is the start *)
      subst cur. rewrite Hnil. simpl. constructor. rewrite Hp1. apply (di_start _ _ _ _ I).
    + apply tree_snoc with (u := u); auto.
      * apply (search_tree_ext (prev_of (st_grid st)) _ (dij_link (st_grid st))).
        -- apply (di_tree _ _ _ _ I). intros E. rewrite E in Hu. destruct Hu.
        -- intros v _. apply Hp1.
        -- intros a b _ _. apply Hlink.
      * rewrite Hp1. assumption.
  - intros p Hp. rewrite in_app_iff. simpl. unfold g1.
    destruct (pos_eq_dec cur p) as [<-|Hn].
    + rewrite node_upd_same by auto. simpl. tauto.
    + rewrite node_upd_other by assumption. rewrite (di_flag _ _ _ _ I p Hp).
      split; [tauto | intros [H|[H|[]]]; [assumption | congruence]].
  - intros p Hp. apply in_app_or in Hp. destruct Hp as [Hp|[<-|[]]].
    + apply (di_open _ _ _ _ I); assumption.
    + assumption.
  - intros p Hp. rewrite Hd1, Hdo1. apply in_app_or in Hp. destruct Hp as [Hp|[<-|[]]].
    + apply (di_fin _ _ _ _ I); assumption.
    + rewrite Hdcur. assumption.
  - rewrite Hd1, Hp1. apply (di_start _ _ _ _ I).
  - intros v z Hv Hn Hz. rewrite Hd1 in Hz. right.
    assert (Hn' : ~ In v (st_visited st)) by (intros H; apply Hn; apply in_or_app; left; assumption).
    destruct (di_front _ _ _ _ I v z Hv Hn' Hz) as [[-> Hnil] | [u [Hpu [Hu Hl]]]].
    + exfalso. destruct (di_front _ _ _ _ I cur zc Hvcur Hncur Hdc) as [[-> _] | [u [_ [Hu _]]]].
      * apply Hn. apply in_or_app; right; left; reflexivity.
      * rewrite Hnil in Hu. destruct Hu.
    + exists u. rewrite Hp1. split; [assumption|]. split; [apply in_or_app; left; assumption|].
      apply Hlink; assumption.
  - intros _. apply in_or_app; right; left; reflexivity.
  - intros v Hv. unfold g1 in Hv.
    rewrite (static_getNeighbors _ (st_grid st)) in Hv by (apply static_upd; auto).
    split.
    + apply (static_valid (st_grid st)); [assumption|].
      eapply In_getNeighbors_valid; eassumption.
    + apply (In_getNeighbors (st_grid st) cur v Hwf' (Hvalid _ Hvcur)). assumption.
  - intros u v Hu Hs Hn. rewrite Hd1, Hdo1.
    assert (Hn' : ~ In v (st_visited st)) by (intros H; apply Hn; apply in_or_app; left; assumption).
    apply in_app_or in Hu. destruct Hu as [Hu|[<-|[]]].
    + destruct (di_closed _ _ _ _ I u v Hu Hs Hn') as [H | [_ []]]. left; assumption.
    + right. split; [reflexivity|]. unfold g1.
      rewrite (static_getNeighbors _ (st_grid st)) by (apply static_upd; auto).
      destruct Hs as [[Hv _] Ha].
      apply (In_getNeighbors (st_grid st) cur v Hwf' (Hvalid _ Hvcur)). split; auto.
  - intros x c Hx Hw. rewrite Hdo1. apply in_app_or in Hx. destruct Hx as [Hx|[<-|[]]].
    + apply (di_optimal _ _ _ _ I); assumption.
    + apply Hopt; assumption.
Qed.


(** Relaxing one neighbour of [cur]. *)
Lemma dij_step (st : state) (unvisited : list pos) (cur nb : pos) (pending : list pos) :
  dij_inv st unvisited cur (nb :: pending) ->
  dij_inv (dijkstra_relax cur st nb) unvisited cur pending.
Proof.
  intros I.
  destruct Hin as [Hwf _ _].
  pose proof (di_static _ _ _ _ I) as Hst.
  assert (Hne : nb :: pending <> []) by discriminate.
  pose proof (di_cur _ _ _ _ I Hne) as Hcur.
  destruct (di_pending _ _ _ _ I nb (or_introl eq_refl)) as [Hvnb Hadj].
  assert (Hvnb' : valid (st_grid st) nb).
  { apply (static_valid g0); [symmetry|]; assumption. }
  assert (Hskip : dij_inv st unvisited cur pending ->
                  (forall v, step g0 cur v -> ~ In v (st_visited st) -> v = nb ->
                     exists z, distance (node (st_grid st) v) = Fin z /\
                               z <= dist_of (st_grid st) cur + weight_of g0 v) ->
                  dij_inv st unvisited cur pending) by auto.
  assert (Hsame : (forall v, step g0 cur v -> ~ In v (st_visited st) -> v = nb ->
                     exists z, distance (node (st_grid st) v) = Fin z /\
                               z <= dist_of (st_grid st) cur + weight_of g0 v) ->
                  dij_inv st unvisited cur pending).
  { intros Hnb. constructor; try apply I.
    - intros _; assumption.
    - intros v Hv. apply (di_pending _ _ _ _ I). right; assumption.
    - intros u v Hu Hs Hn.
      destruct (di_closed _ _ _ _ I u v Hu Hs Hn) as [H | [Hu' [Hv|Hv]]].
      + left; assumption.
      + subst u. left. apply Hnb; auto.
      + right; split; assumption. }
  clear Hskip.
  unfold dijkstra_relax.
  destruct (negb (isVisited (node (st_grid st) nb)) && negb (isWall (node (st_grid st) nb)))
    eqn:Etest.
  - apply andb_true_iff in Etest. destruct Etest as [Ev Ew].
    apply negb_true_iff in Ev, Ew.
    assert (Hnv : ~ In nb (st_visited st)).
    { intros H. apply (di_flag _ _ _ _ I nb Hvnb) in H. congruence. }
    assert (Hopen : open g0 nb).
    { split; [assumption|]. rewrite <- (static_isWall _ _ nb Hst). assumption. }
    rewrite (di_fin _ _ _ _ I cur Hcur). cbn [num_add].
    assert (Hwnb : weight (node (st_grid st) nb) = weight_of g0 nb).
    { unfold weight_of. apply static_weight; assumption. }
    rewrite Hwnb.
    destruct (num_ltb (Fin (dist_of (st_grid st) cur + weight_of g0 nb))
                      (distance (node (st_grid st) nb))) eqn:Elt.
    + (* the distance of [nb] improves *)
      set (t := dist_of (st_grid st) cur + weight_of g0 nb) in *.
      match goal with |- dij_inv ?x _ _ _ => set (st' := x) end.
      set (g' := grid_upd nb (set_previousNode (Some cur))
                   (grid_upd nb (set_distance (Fin t)) (st_grid st))).
      assert (Hg' : st_grid st' = g') by reflexivity.
      assert (Hvis' : st_visited st' = st_visited st) by reflexivity.
      clearbody st'.
      assert (Hother : forall p, p <> nb -> node g' p = node (st_grid st) p).
      { intros p Hp. unfold g'. rewrite !node_upd_other by congruence. reflexivity. }
      assert (Hnb : node g' nb =
                    set_previousNode (Some cur) (set_distance (Fin t) (node (st_grid st) nb))).
      { unfold g'. node_simpl. rewrite pos_eqb_refl. reflexivity. }
      assert (Hdo : forall p, p <> nb -> dist_of g' p = dist_of (st_grid st) p).
      { intros p Hp. unfold dist_of. rewrite Hother by assumption. reflexivity. }
      assert (Hdnb : dist_of g' nb = t) by (unfold dist_of; rewrite Hnb; reflexivity).
      assert (Hold : forall p, In p (st_visited st) -> p <> nb)
        by (intros p Hp ->; contradiction).
      assert (Hlink : forall u v, u <> nb -> v <> nb ->
                dij_link (st_grid st) u v -> dij_link g' u v).
      { intros u v Hu Hv [Ho [Ha Hl]]. split; [assumption | split; [assumption|]].
        rewrite !Hdo by assumption. assumption. }
      assert (Htree : search_tree (prev_of (st_grid st)) (dij_link (st_grid st)) s
                                  (st_visited st)).
      { apply (di_tree _ _ _ _ I). intros E. rewrite E in Hcur. destruct Hcur. }
      constructor; rewrite ?Hg', ?Hvis'.
      * unfold g'. rewrite !static_upd by auto. assumption.
      * apply (di_unvisited _ _ _ _ I).
      * apply (di_nodup _ _ _ _ I).
      * intros _. apply (search_tree_ext _ _ _ _ _ _ Htree).
        -- intros v Hv. unfold prev_of. rewrite Hother by auto. reflexivity.
        -- intros u v Hu Hv. apply Hlink; auto.
      * intros p Hp. destruct (pos_eq_dec p nb) as [->|Hpn].
        -- rewrite Hnb. simpl. apply (di_flag _ _ _ _ I); assumption.
        -- rewrite Hother by assumption. apply (di_flag _ _ _ _ I); assumption.
      * apply (di_open _ _ _ _ I).
      * intros p Hp. rewrite Hdo, Hother by auto. apply (di_fin _ _ _ _ I); assumption.
      * unfold prev_of. rewrite Hother by (apply Hold; apply (search_tree_root _ _ _ _ Htree)).
        apply (di_start _ _ _ _ I).
      * intros v z Hv Hn Hz. destruct (pos_eq_dec v nb) as [->|Hvn].
        -- right. exists cur. unfold prev_of. rewrite Hnb. simpl.
           split; [reflexivity|]. split; [assumption|].
           split; [assumption | split; [assumption|]].
           rewrite Hdnb, Hdo by auto. reflexivity.
        -- rewrite Hother in Hz by assumption.
           destruct (di_front _ _ _ _ I v z Hv Hn Hz) as [H | [u [Hpu [Hu Hl]]]].
           ++ left; assumption.
           ++ right. exists u. unfold prev_of. rewrite Hother by assumption.
              split; [assumption|]. split; [assumption|]. apply Hlink; auto.
      * intros _; assumption.
      * intros v Hv. apply (di_pending _ _ _ _ I). right; assumption.
      * intros u v Hu Hs Hn. rewrite (Hdo u) by auto.
        destruct (pos_eq_dec v nb) as [->|Hvn].
        -- left. exists t. rewrite Hnb. simpl. split; [reflexivity|].
           destruct (di_closed _ _ _ _ I u nb Hu Hs Hn) as [[z [Hz Hle]] | [-> _]].
           ++ rewrite Hz in Elt. simpl in Elt. apply Z.ltb_lt in Elt. lia.
           ++ unfold t. lia.
        -- rewrite Hother by assumption.
           destruct (di_closed _ _ _ _ I u v Hu Hs Hn) as [H | [Hu' [Hv|Hv]]].
           ++ left; assumption.
           ++ congruence.
           ++ right; split; assumption.
      * intros x c Hx Hw. rewrite Hdo by auto. apply (di_optimal _ _ _ _ I); assumption.
    + (* the distance of [nb] is kept *)
      apply Hsame. intros v Hs Hn ->.
      destruct (distance (node (st_grid st) nb)) as [z|]; [|discriminate].
      exists z. split; [reflexivity|]. simpl in Elt. apply Z.ltb_ge in Elt. assumption.
  - (* [nb] is visited or a wall *)
    apply Hsame. intros v [[_ Hw] _] Hn ->. exfalso.
    rewrite <- (static_isWall _ _ nb Hst) in Hw. rewrite Hw in Etest.
    simpl in Etest. rewrite andb_true_r in Etest. apply negb_false_iff in Etest.
    apply (di_flag _ _ _ _ I nb Hvnb) in Etest. contradiction.
Qed.

Lemma dij_fold (unvisited : list pos) (cur : pos) (pending : list pos) :
  forall st,
    dij_inv st unvisited cur pending ->
    dij_inv (fold_left (dijkstra_relax cur) pending st) unvisited cur [].
Proof.
  induction pending as [|nb pending IH]; intros st I; cbn [fold_left].
  - assumption.
  - apply IH. apply dij_step. assumption.
Qed.

Lemma dij_visited_relax (cur : pos) (pending : list pos) (st : state) :
  st_visited (fold_left (dijkstra_relax cur) pending st) = st_visited st.
Proof.
  revert st; induction pending as [|nb pending IH]; intros st; cbn [fold_left].
  - reflexivity.
  - rewrite IH. unfold dijkstra_relax.
    destruct (_ && _); [|reflexivity]. destruct (num_ltb _ _); reflexivity.
Qed.

Lemma dij_loop_correct (speed : Z) (fuel : nat) :
  forall st unvisited cur0,
    dij_inv st unvisited cur0 [] ->
    ~ In e (st_visited st) ->
    (length unvisited < fuel)%nat ->
    exists out, dijkstra_loop fuel s e speed unvisited st = Returned out /\
                search_post g0 s e (Some (weight_sum g0)) out.
Proof.
  induction fuel as [|fuel IH]; intros st unvisited cur0 I Hend Hfuel; [lia|].
  cbn [dijkstra_loop].
  assert (HeU : In e unvisited).
  { apply (di_unvisited _ _ _ _ I). split; [apply Hin | assumption]. }
  destruct (sort_by (distance_leb (st_grid st)) unvisited) as [|cur rest] eqn:Hsort.
  - apply sort_by_nil in Hsort. subst unvisited. destruct HeU.
  - destruct (distance_leb_head _ _ _ _ Hsort) as [Hperm Hmin].
    assert (HcurU : In cur unvisited).
    { apply (Permutation_in _ Hperm). left; reflexivity. }
    destruct (proj1 (di_unvisited _ _ _ _ I cur) HcurU) as [Hvcur Hncur].
    destruct (isWall (node (st_grid st) cur) || is_inf (distance (node (st_grid st) cur)))
      eqn:Etest.
    + (* nothing reachable is left *)
      eexists; split; [reflexivity|]. split; [apply stats_ok_not_found|]. right.
      split; [reflexivity|]. split.
      * intros Hc. destruct (connected_walk g0 (weight_of g0) s e Hc) as [c Hw].
        destruct (dij_front_valid _ _ _ _ _ I Hw Hend) as [z [[Hz1 [Hz2 Hz3]] _]].
        assert (HzU : In z unvisited) by (apply (di_unvisited _ _ _ _ I); split; assumption).
        specialize (Hmin z HzU). rewrite Hz3 in Hmin.
        destruct (distance (node (st_grid st) cur)) as [zc|] eqn:Hdc; [|discriminate].
        simpl in Etest. rewrite orb_false_r in Etest.
        rewrite (static_isWall _ g0 cur (di_static _ _ _ _ I)) in Etest.
        destruct (di_front _ _ _ _ I cur zc Hvcur Hncur Hdc) as [[-> _] | [u [_ [_ [Ho _]]]]].
        -- destruct Hin as [_ [_ Hws] _]. congruence.
        -- destruct Ho as [_ Ho]. congruence.
      * split; [reflexivity|]. split.
        -- simpl. destruct (st_visited st) eqn:E; [constructor|].
           rewrite <- E. apply (search_tree_NoDup _ _ _ _ (di_tree _ _ _ _ I ltac:(congruence))).
        -- simpl. apply (di_flag _ _ _ _ I).
    + apply orb_false_iff in Etest. destruct Etest as [Hwall Hinf].
      pose proof (dij_pop _ _ _ _ _ speed I Hsort Hwall Hinf) as I1. cbv zeta in I1.
      set (st1 := pause s e speed cur (visit cur st)) in *.
      assert (Hvis1 : st_visited st1 = st_visited st ++ [cur])
        by (unfold st1; rewrite pause_visited; reflexivity).
      assert (Htree1 : search_tree (prev_of (st_grid st1)) (dij_link (st_grid st1)) s
                                   (st_visited st1)).
      { apply (di_tree _ _ _ _ I1). rewrite Hvis1. destruct (st_visited st); discriminate. }
      destruct (pos_eqb cur e) eqn:Ecur.
      * (* the end is visited *)
        apply pos_eqb_eq in Ecur. subst cur.
        assert (He : In e (st_visited st1)).
        { rewrite Hvis1. apply in_or_app; right; left; reflexivity. }
        destruct (reconstruct_tree g0 (st_grid st1) _ s e _ (di_static _ _ _ _ I1) Htree1
                    (fun p Hp => proj1 (di_open _ _ _ _ I1 p Hp)) He)
          as [p [Hrec [Htrail [Hndp _]]]].
        rewrite Hrec. eexists; split; [reflexivity|].
        split; [apply stats_ok_found|]. left.
        assert (Hpath : is_path g0 s e p).
        { apply (trail_is_path g0 (dij_link (st_grid st1))).
          - intros a b [Ho [Ha _]]. split; assumption.
          - apply Hin.
          - assumption. }
        split; [reflexivity|]. split; [assumption|]. split; [assumption|].
        intros q Hq. cbn [snd finish_found path found_result].
        rewrite !weight_sum_cost. change (fun p0 : pos => weight (node g0 p0)) with (weight_of g0).
        rewrite (trail_cost (dij_link (st_grid st1)) (weight_of g0) (dist_of (st_grid st1)) s e p).
        -- pose proof (di_optimal _ _ _ _ I1 e _ He (is_path_walk g0 (weight_of g0) s e q Hq)).
           destruct (di_start _ _ _ _ I1) as [Hds _].
           unfold dist_of at 2. rewrite Hds. lia.
        -- intros a b [_ [_ Hl]]. assumption.
        -- assumption.
      * apply pos_eqb_neq in Ecur.
        apply (IH _ rest cur (dij_fold _ _ _ _ I1)).
        -- rewrite dij_visited_relax, Hvis1. intros H. apply in_app_or in H.
           destruct H as [H|[H|[]]]; [contradiction | congruence].
        -- pose proof (Permutation_length Hperm) as Hl. simpl in Hl. lia.
Qed.

(** [dijkstra] returns, and its result is either a path of least total
    weight or the failure record when no open path exists. *)
Lemma dijkstra_correct (speed : Z) :
  exists out, dijkstra g0 s e speed = Returned out /\
              search_post g0 s e (Some (weight_sum g0)) out.
Proof.
  unfold dijkstra, resolve.
  destruct Hin as [Hwf [Hvs Hws] [Hve Hwe]].
  rewrite (valid_get _ s) by (apply valid_reset; assumption).
  rewrite (valid_get _ e) by (apply valid_reset; assumption).
  apply (dij_loop_correct speed _ _ _ s dij_init).
  - simpl. tauto.
  - unfold cells. lia.
Qed.

End DijkstraProof.

(* ================================================================== *)
(** * Correctness of astar *)
(* ================================================================== *)

Lemma fscore_leb_head (g : Grid) (l : list pos) (x : pos) (r : list pos) :
  sort_by (fscore_leb g) l = x :: r ->
  Permutation (x :: r) l /\
  forall y, In y l -> num_leb (fscore g x) (fscore g y) = true.
Proof.
  apply sort_by_head.
  - intros a b. apply num_leb_total.
  - intros a b c. apply num_leb_trans.
Qed.

(** The Manhattan estimate is consistent when every step costs at least 1. *)
Lemma manhattan_consistent (g : Grid) (e u v : pos) :
  wf_grid g -> valid g e -> open g u -> step g u v -> 1 <= weight_of g v ->
  manhattan g u e <= weight_of g v + manhattan g v e.
Proof.
  intros Hwf He [Hu _] [[Hv _] Ha] Hw. unfold manhattan.
  rewrite (wf_row g u Hwf Hu), (wf_col g u Hwf Hu), (wf_row g v Hwf Hv), (wf_col g v Hwf Hv).
  unfold adjacent in Ha. lia.
Qed.

Section AstarProof.

Variable g0 : Grid.
Variables s e : pos.
Hypothesis Hin : valid_input g0 s e.
Hypothesis Hweights : forall p, open g0 p -> 1 <= weight_of g0 p.

Definition hcost (p : pos) : Z := manhattan g0 p e.

(** Invariant of the two nested loops of [astar]. *)
Record ast_inv (st : state) (openSet : list pos) (cur : pos) (pending : list pos)
  : Prop := {
  ai_static : static (st_grid st) = static g0;
  ai_nodup : NoDup openSet;
  ai_member : forall p, In p openSet ->
      open g0 p /\ ~ In p (st_visited st) /\
      distance (node (st_grid st) p) = Fin (dist_of (st_grid st) p) /\
      heuristic (node (st_grid st) p) = hcost p;
  ai_tree : st_visited st <> [] ->
      search_tree (prev_of (st_grid st)) (dij_link g0 (st_grid st)) s (st_visited st);
  ai_flag : forall p, valid g0 p ->
      (isVisited (node (st_grid st) p) = true <-> In p (st_visited st));
  ai_open : forall p, In p (st_visited st) -> open g0 p;
  ai_fin : forall p, In p (st_visited st) ->
      distance (node (st_grid st) p) = Fin (dist_of (st_grid st) p);
  ai_start : distance (node (st_grid st) s) = Fin 0 /\ prev_of (st_grid st) s = None;
  ai_first : ~ In s (st_visited st) -> In s openSet /\ st_visited st = [];
  ai_front : forall v, In v openSet ->
      (v = s /\ st_visited st = []) \/
      (exists u, prev_of (st_grid st) v = Some u /\ In u (st_visited st) /\
                 dij_link g0 (st_grid st) u v);
  ai_cur : pending <> [] -> In cur (st_visited st);
  ai_pending : forall v, In v pending -> valid g0 v /\ adjacent cur v;
  ai_closed : forall u v, In u (st_visited st) -> step g0 u v -> ~ In v (st_visited st) ->
      (In v openSet /\ dist_of (st_grid st) v <= dist_of (st_grid st) u + weight_of g0 v) \/
      (u = cur /\ In v pending);
  ai_optimal : forall x c, In x (st_visited st) -> walk g0 (weight_of g0) s x c ->
      dist_of (st_grid st) x <= c
}.

Lemma ast_init :
  ast_inv (mkState (grid_upd s (set_heuristic (manhattan (reset_grid astar_reset g0) s e))
                      (grid_upd s (set_distance (Fin 0)) (reset_grid astar_reset g0))) [] [])
          [s] s [].
Proof.
  destruct Hin as [Hwf [Hvs Hws] He].
  assert (Hst1 : static (reset_grid astar_reset g0) = static g0)
    by (apply static_reset; intros n; reflexivity).
  rewrite (static_manhattan _ g0 s e Hst1).
  assert (Hnode : forall p, valid g0 p ->
            node (grid_upd s (set_heuristic (manhattan g0 s e))
                    (grid_upd s (set_distance (Fin 0)) (reset_grid astar_reset g0))) p =
            if pos_eqb s p
            then set_heuristic (manhattan g0 s e)
                   (set_distance (Fin 0) (astar_reset (node g0 p)))
            else astar_reset (node g0 p)).
  { intros p Hp.
    assert (valid (reset_grid astar_reset g0) p) by (apply valid_reset; assumption).
    node_simpl. rewrite node_reset by assumption.
    destruct (pos_eqb s p); reflexivity. }
  constructor; simpl.
  - rewrite !static_upd by auto. assumption.
  - repeat constructor; simpl; tauto.
  - intros p [<-|[]]. unfold dist_of. rewrite Hnode by assumption. rewrite pos_eqb_refl.
    simpl. repeat split; auto.
  - congruence.
  - intros p Hp. rewrite Hnode by assumption.
    destruct (pos_eqb s p); simpl; split; try discriminate; tauto.
  - tauto.
  - tauto.
  - unfold prev_of. rewrite Hnode by assumption. rewrite pos_eqb_refl. split; reflexivity.
  - auto.
  - intros v [<-|[]]. left; auto.
  - congruence.
  - tauto.
  - tauto.
  - tauto.
Qed.

Lemma ast_front (st : state) (openSet : list pos) (cur : pos) (c : Z) (y : pos) :
  ast_inv st openSet cur [] ->
  walk g0 (weight_of g0) s y c -> ~ In y (st_visited st) ->
  exists z, In z openSet /\ dist_of (st_grid st) z + hcost z <= c + hcost y.
Proof.
  intros I.
  apply (frontier_bound g0 (weight_of g0) s (fun x => In x (st_visited st))
           (fun z => In z openSet) (dist_of (st_grid st)) hcost).
  - intros x. destruct (in_dec pos_eq_dec x (st_visited st)); tauto.
  - intros u v Hu Hs. apply manhattan_consistent; try assumption; try apply Hin.
    apply Hweights. apply Hs.
  - apply (ai_optimal _ _ _ _ I).
  - intros u v Hu Hs Hn.
    destruct (ai_closed _ _ _ _ I u v Hu Hs Hn) as [H | [_ []]]. assumption.
  - intros Hn. destruct (ai_first _ _ _ _ I Hn) as [Hs _]. split; [assumption|].
    destruct (ai_start _ _ _ _ I) as [Hd _]. unfold dist_of. rewrite Hd. lia.
Qed.

(** Visiting the node [cur] that the sort put first. *)
Lemma ast_pop (st : state) (openSet rest : list pos) (cur cur0 : pos) (speed : Z) :
  ast_inv st openSet cur0 [] ->
  sort_by (fscore_leb (st_grid st)) openSet = cur :: rest ->
  let st1 := pause s e speed cur (visit cur st) in
  ast_inv st1 rest cur (getNeighbors (st_grid st1) cur).
Proof.
  intros I Hsort st1.
  destruct (fscore_leb_head _ _ _ _ Hsort) as [Hperm Hmin].
  assert (Hg : st_grid st1 = grid_upd cur (set_isVisited true) (st_grid st))
    by (unfold st1; rewrite pause_grid; reflexivity).
  assert (Hvis : st_visited st1 = st_visited st ++ [cur])
    by (unfold st1; rewrite pause_visited; reflexivity).
  destruct Hin as [Hwf [Hvs Hws] _].
  pose proof (ai_static _ _ _ _ I) as Hst.
  assert (Hwf' : wf_grid (st_grid st)).
  { apply (static_wf g0); [symmetry|]; assumption. }
  assert (HcurO : In cur openSet).
  { apply (Permutation_in _ Hperm). left; reflexivity. }
  destruct (ai_member _ _ _ _ I cur HcurO) as [Hopen [Hncur [Hdc Hhc]]].
  assert (Hvcur : valid g0 cur) by apply Hopen.
  assert (Hvalid : forall p, valid g0 p -> valid (st_grid st) p).
  { intros p Hp. apply (static_valid g0); [symmetry|]; assumption. }
  pose proof (Permutation_NoDup (Permutation_sym Hperm) (ai_nodup _ _ _ _ I)) as Hnd.
  inversion Hnd as [|? ? Hnr Hndr]; subst.
  assert (Hrest : forall p, In p rest -> In p openSet /\ p <> cur).
  { intros p Hp. split; [apply (Permutation_in _ Hperm); right; assumption|].
    intros ->. contradiction. }
  set (g1 := grid_upd cur (set_isVisited true) (st_grid st)) in *.
  assert (Hn1 : forall p, node g1 p = if pos_eqb cur p then set_isVisited true (node (st_grid st) p)
                                      else node (st_grid st) p).
  { intros p. unfold g1. destruct (pos_eq_dec cur p) as [<-|Hn].
    - rewrite node_upd_same by auto. rewrite pos_eqb_refl. reflexivity.
    - rewrite node_upd_other by assumption. apply pos_eqb_neq in Hn. rewrite Hn. reflexivity. }
  assert (Hd1 : forall p, distance (node g1 p) = distance (node (st_grid st) p)).
  { intros p. rewrite Hn1. destruct (pos_eqb cur p); reflexivity. }
  assert (Hh1 : forall p, heuristic (node g1 p) = heuristic (node (st_grid st) p)).
  { intros p. rewrite Hn1. destruct (pos_eqb cur p); reflexivity. }
  assert (Hp1 : forall p, prev_of g1 p = prev_of (st_grid st) p).
  { intros p. unfold prev_of. rewrite Hn1. destruct (pos_eqb cur p); reflexivity. }
  assert (Hdo1 : forall p, dist_of g1 p = dist_of (st_grid st) p).
  { intros p. unfold dist_of. rewrite Hd1. reflexivity. }
  assert (Hlink : forall u v, dij_link g0 (st_grid st) u v -> dij_link g0 g1 u v).
  { intros u v [Ho [Ha Hl]]. split; [assumption | split; [assumption|]].
    rewrite !Hdo1. assumption. }
  assert (Hopt : forall c, walk g0 (weight_of g0) s cur c -> dist_of (st_grid st) cur <= c).
  { intros c Hw.
    destruct (ast_front _ _ _ _ _ I Hw Hncur) as [z [HzO Hle]].
    destruct (ai_member _ _ _ _ I z HzO) as [_ [_ [Hdz Hhz]]].
    specialize (Hmin z HzO). unfold fscore in Hmin.
    rewrite Hdc, Hdz, Hhc, Hhz in Hmin. simpl in Hmin. apply Z.leb_le in Hmin. lia. }
  constructor; rewrite ?Hg, ?Hvis; fold g1.
  - unfold g1. rewrite static_upd by auto. assumption.
  - assumption.
  - intros p Hp. destruct (Hrest p Hp) as [HpO Hpc].
    destruct (ai_member _ _ _ _ I p HpO) as [Ho [Hn [Hd Hh]]].
    rewrite Hd1, Hdo1, Hh1. repeat split; try assumption; try apply Ho.
    intros H. apply in_app_or in H. destruct H as [H|[H|[]]]; [contradiction|congruence].
  - intros _.
    destruct (ai_front _ _ _ _ I cur HcurO) as [[Hs Hnil] | [u [Hpu [Hu Hl]]]].
    + subst cur. rewrite Hnil. simpl. constructor. rewrite Hp1. apply (ai_start _ _ _ _ I).
    + apply tree_snoc with (u := u); auto.
      * apply (search_tree_ext (prev_of (st_grid st)) _ (dij_link g0 (st_grid st))).
        -- apply (ai_tree _ _ _ _ I). intros E. rewrite E in Hu. destruct Hu.
        -- intros v _. apply Hp1.
        -- intros a b _ _. apply Hlink.
      * rewrite Hp1. assumption.
  - intros p Hp. rewrite in_app_iff. simpl. rewrite Hn1.
    destruct (pos_eqb cur p) eqn:E.
    + apply pos_eqb_eq in E. simpl. tauto.
    + apply pos_eqb_neq in E. rewrite (ai_flag _ _ _ _ I p Hp).
      split; [tauto | intros [H|[H|[]]]; [assumption | congruence]].
  - intros p Hp. apply in_app_or in Hp. destruct Hp as [Hp|[<-|[]]].
    + apply (ai_open _ _ _ _ I); assumption.
    + assumption.
  - intros p Hp. rewrite Hd1, Hdo1. apply in_app_or in Hp. destruct Hp as [Hp|[<-|[]]].
    + apply (ai_fin _ _ _ _ I); assumption.
    + assumption.
  - rewrite Hd1, Hp1. apply (ai_start _ _ _ _ I).
  - intros Hn. exfalso. apply Hn.
    destruct (in_dec pos_eq_dec s (st_visited st)) as [H|H].
    + apply in_or_app; left; assumption.
    + destruct (ai_first _ _ _ _ I H) as [HsO Hnil].
      destruct (ai_front _ _ _ _ I cur HcurO) as [[-> _] | [u [_ [Hu _]]]].
      * apply in_or_app; right; left; reflexivity.
      * rewrite Hnil in Hu. destruct Hu.
  - intros v Hv. right. destruct (Hrest v Hv) as [HvO Hvc].
    destruct (ai_front _ _ _ _ I v HvO) as [[-> Hnil] | [u [Hpu [Hu Hl]]]].
    + exfalso. destruct (ai_front _ _ _ _ I cur HcurO) as [[-> _] | [u [_ [Hu _]]]].
      * congruence.
      * rewrite Hnil in Hu. destruct Hu.
    + exists u. rewrite Hp1. split; [assumption|]. split; [apply in_or_app; left; assumption|].
      apply Hlink; assumption.
  - intros _. apply in_or_app; right; left; reflexivity.
  - intros v Hv. unfold g1 in Hv.
    rewrite (static_getNeighbors _ (st_grid st)) in Hv by (apply static_upd; auto).
    split.
    + apply (static_valid (st_grid st)); [assumption|].
      eapply In_getNeighbors_valid; eassumption.
    + apply (In_getNeighbors (st_grid st) cur v Hwf' (Hvalid _ Hvcur)). assumption.
  - intros u v Hu Hs Hn. rewrite !Hdo1.
    assert (Hn' : ~ In v (st_visited st)) by (intros H; apply Hn; apply in_or_app; left; assumption).
    apply in_app_or in Hu. destruct Hu as [Hu|[<-|[]]].
    + destruct (ai_closed _ _ _ _ I u v Hu Hs Hn') as [[HvO Hle] | [_ []]]. left.
      split; [|assumption].
      apply (Permutation_in _ (Permutation_sym Hperm)) in HvO.
      destruct HvO as [<-|HvO]; [|assumption].
      exfalso; apply Hn; apply in_or_app; right; left; reflexivity.
    + right. split; [reflexivity|]. unfold g1.
      rewrite (static_getNeighbors _ (st_grid st)) by (apply static_upd; auto).
      destruct Hs as [[Hv _] Ha].
      apply (In_getNeighbors (st_grid st) cur v Hwf' (Hvalid _ Hvcur)). split; auto.
  - intros x c Hx Hw. rewrite Hdo1. apply in_app_or in Hx. destruct Hx as [Hx|[<-|[]]].
    + apply (ai_optimal _ _ _ _ I); assumption.
    + apply Hopt; assumption.
Qed.


(** Relaxing one neighbour of [cur]. *)
Lemma ast_step (st : state) (openSet : list pos) (cur nb : pos) (pending : list pos) :
  ast_inv st openSet cur (nb :: pending) ->
  ast_inv (fst (astar_relax cur e (st, openSet) nb))
          (snd (astar_relax cur e (st, openSet) nb)) cur pending.
Proof.
  intros I.
  destruct Hin as [Hwf _ _].
  pose proof (ai_static _ _ _ _ I) as Hst.
  assert (Hne : nb :: pending <> []) by discriminate.
  pose proof (ai_cur _ _ _ _ I Hne) as Hcur.
  destruct (ai_pending _ _ _ _ I nb (or_introl eq_refl)) as [Hvnb Hadj].
  assert (Hvnb' : valid (st_grid st) nb).
  { apply (static_valid g0); [symmetry|]; assumption. }
  assert (Hsame : (forall v, step g0 cur v -> ~ In v (st_visited st) -> v = nb ->
                     In v openSet /\
                     dist_of (st_grid st) v <= dist_of (st_grid st) cur + weight_of g0 v) ->
                  ast_inv st openSet cur pending).
  { intros Hnb. constructor; try apply I.
    - intros _; assumption.
    - intros v Hv. apply (ai_pending _ _ _ _ I). right; assumption.
    - intros u v Hu Hs Hn.
      destruct (ai_closed _ _ _ _ I u v Hu Hs Hn) as [H | [Hu' [Hv|Hv]]].
      + left; assumption.
      + subst u. left. apply Hnb; auto.
      + right; split; assumption. }
  unfold astar_relax.
  destruct (isVisited (node (st_grid st) nb) || isWall (node (st_grid st) nb)) eqn:Etest.
  - (* [nb] is visited or a wall *)
    cbn [fst snd]. apply Hsame. intros v [[_ Hw] _] Hn ->. exfalso.
    rewrite <- (static_isWall _ _ nb Hst) in Hw. rewrite Hw in Etest.
    rewrite orb_false_r in Etest.
    apply (ai_flag _ _ _ _ I nb Hvnb) in Etest. contradiction.
  - apply orb_false_iff in Etest. destruct Etest as [Ev Ew].
    assert (Hnv : ~ In nb (st_visited st)).
    { intros H. apply (ai_flag _ _ _ _ I nb Hvnb) in H. congruence. }
    assert (Hopen : open g0 nb).
    { split; [assumption|]. rewrite <- (static_isWall _ _ nb Hst). assumption. }
    rewrite (ai_fin _ _ _ _ I cur Hcur). cbn [num_add].
    assert (Hwnb : weight (node (st_grid st) nb) = weight_of g0 nb).
    { unfold weight_of. apply static_weight; assumption. }
    rewrite Hwnb.
    set (t := dist_of (st_grid st) cur + weight_of g0 nb).
    destruct (negb (includes openSet nb) || num_ltb (Fin t) (distance (node (st_grid st) nb)))
      eqn:Eupd.
    + (* [nb] enters the open set or improves *)
      cbn [fst snd].
      match goal with |- ast_inv ?x ?o _ _ => set (st' := x); set (O' := o) end.
      set (g' := grid_upd nb (set_previousNode (Some cur))
                   (grid_upd nb (set_heuristic (manhattan (st_grid st) nb e))
                      (grid_upd nb (set_distance (Fin t)) (st_grid st)))).
      assert (Hg' : st_grid st' = g') by reflexivity.
      assert (Hvis' : st_visited st' = st_visited st) by reflexivity.
      clearbody st'.
      assert (HO' : forall p, In p O' <-> In p openSet \/ p = nb).
      { intros p. unfold O'. destruct (includes openSet nb) eqn:Einc; simpl.
        - apply includes_In in Einc. split; [tauto | intros [H| ->]; assumption].
        - rewrite in_app_iff. simpl. split; [intros [H|[H|[]]]; auto | intros [H|H]; auto]. }
      assert (HndO' : NoDup O').
      { unfold O'. destruct (includes openSet nb) eqn:Einc; simpl.
        - apply (ai_nodup _ _ _ _ I).
        - apply includes_not_In in Einc. apply NoDup_app.
          + apply (ai_nodup _ _ _ _ I).
          + repeat constructor; simpl; tauto.
          + intros a Ha [<-|[]]. contradiction. }
      clearbody O'.
      assert (Hother : forall p, p <> nb -> node g' p = node (st_grid st) p).
      { intros p Hp. unfold g'. rewrite !node_upd_other by congruence. reflexivity. }
      assert (Hnb : node g' nb =
                    set_previousNode (Some cur)
                      (set_heuristic (hcost nb) (set_distance (Fin t) (node (st_grid st) nb)))).
      { unfold g'. node_simpl. rewrite pos_eqb_refl.
        unfold hcost. rewrite (static_manhattan _ g0 nb e Hst). reflexivity. }
      assert (Hdo : forall p, p <> nb -> dist_of g' p = dist_of (st_grid st) p).
      { intros p Hp. unfold dist_of. rewrite Hother by assumption. reflexivity. }
      assert (Hdnb : dist_of g' nb = t) by (unfold dist_of; rewrite Hnb; reflexivity).
      assert (Hold : forall p, In p (st_visited st) -> p <> nb)
        by (intros p Hp ->; contradiction).
      assert (Hlink : forall u v, u <> nb -> v <> nb ->
                dij_link g0 (st_grid st) u v -> dij_link g0 g' u v).
      { intros u v Hu Hv [Ho [Ha Hl]]. split; [assumption | split; [assumption|]].
        rewrite !Hdo by assumption. assumption. }
      assert (Htree : search_tree (prev_of (st_grid st)) (dij_link g0 (st_grid st)) s
                                  (st_visited st)).
      { apply (ai_tree _ _ _ _ I). intros E. rewrite E in Hcur. destruct Hcur. }
      assert (Hlnb : dij_link g0 g' cur nb).
      { split; [assumption | split; [assumption|]]. rewrite Hdnb, Hdo by auto. reflexivity. }
      constructor; rewrite ?Hg', ?Hvis'.
      * unfold g'. rewrite !static_upd by auto. assumption.
      * assumption.
      * intros p Hp. apply HO' in Hp. destruct (pos_eq_dec p nb) as [->|Hpn].
        -- rewrite Hnb, Hdnb. simpl. auto.
        -- destruct Hp as [Hp|Hp]; [|contradiction].
           rewrite Hother, Hdo by assumption. apply (ai_member _ _ _ _ I); assumption.
      * intros _. apply (search_tree_ext _ _ _ _ _ _ Htree).
        -- intros v Hv. unfold prev_of. rewrite Hother by auto. reflexivity.
        -- intros u v Hu Hv. apply Hlink; auto.
      * intros p Hp. destruct (pos_eq_dec p nb) as [->|Hpn].
        -- rewrite Hnb. simpl. apply (ai_flag _ _ _ _ I); assumption.
        -- rewrite Hother by assumption. apply (ai_flag _ _ _ _ I); assumption.
      * apply (ai_open _ _ _ _ I).
      * intros p Hp. rewrite Hdo, Hother by auto. apply (ai_fin _ _ _ _ I); assumption.
      * unfold prev_of. rewrite Hother by (apply Hold; apply (search_tree_root _ _ _ _ Htree)).
        apply (ai_start _ _ _ _ I).
      * intros Hn. exfalso. apply Hn. apply (search_tree_root _ _ _ _ Htree).
      * intros v Hv. apply HO' in Hv. right. destruct (pos_eq_dec v nb) as [->|Hvn].
        -- exists cur. unfold prev_of. rewrite Hnb. simpl. auto.
        -- destruct Hv as [Hv|Hv]; [|contradiction].
           destruct (ai_front _ _ _ _ I v Hv) as [[_ Hnil] | [u [Hpu [Hu Hl]]]].
           ++ rewrite Hnil in Hcur. destruct Hcur.
           ++ exists u. unfold prev_of. rewrite Hother by assumption.
              split; [assumption|]. split; [assumption|]. apply Hlink; auto.
      * intros _; assumption.
      * intros v Hv. apply (ai_pending _ _ _ _ I). right; assumption.
      * intros u v Hu Hs Hn. rewrite (Hdo u) by auto.
        destruct (pos_eq_dec v nb) as [->|Hvn].
        -- left. split; [apply HO'; right; reflexivity|]. rewrite Hdnb.
           destruct (ai_closed _ _ _ _ I u nb Hu Hs Hn) as [[HnbO Hle] | [-> _]].
           ++ destruct (ai_member _ _ _ _ I nb HnbO) as [_ [_ [Hdnb' _]]].
              apply includes_In in HnbO. rewrite HnbO, Hdnb' in Eupd. simpl in Eupd.
              apply Z.ltb_lt in Eupd. lia.
           ++ unfold t. lia.
        -- rewrite Hdo by assumption.
           destruct (ai_closed _ _ _ _ I u v Hu Hs Hn) as [[HvO Hle] | [Hu' [Hv|Hv]]].
           ++ left. split; [apply HO'; left; assumption | assumption].
           ++ congruence.
           ++ right; split; assumption.
      * intros x c Hx Hw. rewrite Hdo by auto. apply (ai_optimal _ _ _ _ I); assumption.
    + (* [nb] is in the open set with a distance at least as good *)
      cbn [fst snd]. apply Hsame. intros v Hs Hn ->.
      apply orb_false_iff in Eupd. destruct Eupd as [Einc Elt].
      apply negb_false_iff in Einc. apply includes_In in Einc.
      split; [assumption|].
      destruct (ai_member _ _ _ _ I nb Einc) as [_ [_ [Hdnb' _]]].
      rewrite Hdnb' in Elt. simpl in Elt. apply Z.ltb_ge in Elt. fold t. assumption.
Qed.

Lemma ast_fold (cur : pos) (pending : list pos) :
  forall st openSet,
    ast_inv st openSet cur pending ->
    ast_inv (fst (fold_left (astar_relax cur e) pending (st, openSet)))
            (snd (fold_left (astar_relax cur e) pending (st, openSet))) cur [].
Proof.
  induction pending as [|nb pending IH]; intros st openSet I; cbn [fold_left].
  - assumption.
  - pose proof (ast_step _ _ _ _ _ I) as I'.
    destruct (astar_relax cur e (st, openSet) nb) as [st' openSet']. apply IH. assumption.
Qed.

Lemma ast_visited_relax (cur : pos) (pending : list pos) (acc : state * list pos) :
  st_visited (fst (fold_left (astar_relax cur e) pending acc)) = st_visited (fst acc).
Proof.
  revert acc; induction pending as [|nb pending IH]; intros acc; cbn [fold_left].
  - reflexivity.
  - rewrite IH. destruct acc as [st openSet]. unfold astar_relax.
    destruct (_ || _); [reflexivity|]. destruct (_ || _); reflexivity.
Qed.

Lemma ast_visited_bound (st : state) (openSet : list pos) (cur : pos) (pending : list pos) :
  ast_inv st openSet cur pending -> (length (st_visited st) <= cells g0)%nat.
Proof.
  intros I. destruct (st_visited st) as [|v vs] eqn:E; [simpl; lia|]. rewrite <- E.
  apply NoDup_valid_length.
  - apply (search_tree_NoDup _ _ _ _ (ai_tree _ _ _ _ I ltac:(congruence))).
  - intros p Hp. apply (ai_open _ _ _ _ I p Hp).
Qed.

Lemma ast_loop_correct (speed : Z) (fuel : nat) :
  forall st openSet cur0,
    ast_inv st openSet cur0 [] ->
    ~ In e (st_visited st) ->
    (cells g0 + 1 <= fuel + length (st_visited st))%nat ->
    exists out, astar_loop fuel s e speed openSet st = Returned out /\
                search_post g0 s e (Some (weight_sum g0)) out.
Proof.
  induction fuel as [|fuel IH]; intros st openSet cur0 I Hend Hfuel.
  { pose proof (ast_visited_bound _ _ _ _ I). simpl in Hfuel. lia. }
  cbn [astar_loop].
  destruct (sort_by (fscore_leb (st_grid st)) openSet) as [|cur rest] eqn:Hsort.
  - (* the open set is empty *)
    apply sort_by_nil in Hsort. subst openSet.
    eexists; split; [reflexivity|]. split; [apply stats_ok_not_found|]. right.
    split; [reflexivity|]. split.
    + intros Hc. destruct (connected_walk g0 (weight_of g0) s e Hc) as [c Hw].
      destruct (ast_front _ _ _ _ _ I Hw Hend) as [z [[] _]].
    + split; [reflexivity|]. split.
      * simpl. destruct (st_visited st) eqn:E; [constructor|].
        rewrite <- E. apply (search_tree_NoDup _ _ _ _ (ai_tree _ _ _ _ I ltac:(congruence))).
      * simpl. apply (ai_flag _ _ _ _ I).
  - destruct (fscore_leb_head _ _ _ _ Hsort) as [Hperm Hmin].
    assert (HcurO : In cur openSet).
    { apply (Permutation_in _ Hperm). left; reflexivity. }
    destruct (ai_member _ _ _ _ I cur HcurO) as [[Hvcur Hwcur] [Hncur _]].
    rewrite (static_isWall _ g0 cur (ai_static _ _ _ _ I)), Hwcur.
    pose proof (ast_pop _ _ _ _ _ speed I Hsort) as I1. cbv zeta in I1.
    set (st1 := pause s e speed cur (visit cur st)) in *.
    assert (Hvis1 : st_visited st1 = st_visited st ++ [cur])
      by (unfold st1; rewrite pause_visited; reflexivity).
    assert (Htree1 : search_tree (prev_of (st_grid st1)) (dij_link g0 (st_grid st1)) s
                                 (st_visited st1)).
    { apply (ai_tree _ _ _ _ I1). rewrite Hvis1. destruct (st_visited st); discriminate. }
    destruct (pos_eqb cur e) eqn:Ecur.
    + (* the end is visited *)
      apply pos_eqb_eq in Ecur. subst cur.
      assert (He : In e (st_visited st1)).
      { rewrite Hvis1. apply in_or_app; right; left; reflexivity. }
      destruct (reconstruct_tree g0 (st_grid st1) _ s e _ (ai_static _ _ _ _ I1) Htree1
                  (fun p Hp => proj1 (ai_open _ _ _ _ I1 p Hp)) He)
        as [p [Hrec [Htrail [Hndp _]]]].
      rewrite Hrec. eexists; split; [reflexivity|].
      split; [apply stats_ok_found|]. left.
      assert (Hpath : is_path g0 s e p).
      { apply (trail_is_path g0 (dij_link g0 (st_grid st1))).
        - intros a b [Ho [Ha _]]. split; assumption.
        - apply Hin.
        - assumption. }
      split; [reflexivity|]. split; [assumption|]. split; [assumption|].
      intros q Hq. cbn [snd finish_found path found_result].
      rewrite !weight_sum_cost. change (fun p0 : pos => weight (node g0 p0)) with (weight_of g0).
      rewrite (trail_cost (dij_link g0 (st_grid st1)) (weight_of g0) (dist_of (st_grid st1)) s e p).
      * pose proof (ai_optimal _ _ _ _ I1 e _ He (is_path_walk g0 (weight_of g0) s e q Hq)).
        destruct (ai_start _ _ _ _ I1) as [Hds _].
        unfold dist_of at 2. rewrite Hds. lia.
      * intros a b [_ [_ Hl]]. assumption.
      * assumption.
    + apply pos_eqb_neq in Ecur.
      pose proof (ast_fold _ _ _ _ I1) as I2.
      pose proof (ast_visited_relax cur (getNeighbors (st_grid st1) cur) (st1, rest)) as Hv2.
      destruct (fold_left (astar_relax cur e) (getNeighbors (st_grid st1) cur) (st1, rest))
        as [st2 openSet2].
      cbn [fst snd] in I2, Hv2.
      apply (IH _ _ cur I2).
      * rewrite Hv2, Hvis1. intros H. apply in_app_or in H.
        destruct H as [H|[H|[]]]; [contradiction | congruence].
      * rewrite Hv2, Hvis1, length_app. simpl. lia.
Qed.

(** [astar] returns, and its result is either a path of least total weight
    or the failure record when no open path exists. *)
Lemma astar_correct (speed : Z) :
  exists out, astar g0 s e speed = Returned out /\
              search_post g0 s e (Some (weight_sum g0)) out.
Proof.
  unfold astar, resolve.
  destruct Hin as [Hwf [Hvs Hws] [Hve Hwe]].
  rewrite (valid_get _ s) by (apply valid_reset; assumption).
  rewrite (valid_get _ e) by (apply valid_reset; assumption).
  apply (ast_loop_correct speed _ _ _ s ast_init).
  - simpl. tauto.
  - simpl. lia.
Qed.

End AstarProof.

(* ================================================================== *)
(** * Correctness of greedy *)
(* ================================================================== *)

(** What [previousNode] records when no distance is kept. *)
Definition plain_link (g0 : Grid) (u v : pos) : Prop := open g0 v /\ adjacent u v.

Section GreedyProof.

Variable g0 : Grid.
Variables s e : pos.
Hypothesis Hin : valid_input g0 s e.

(** Invariant of the two nested loops of [greedy]. *)
Record gr_inv (st : state) (openSet : list pos) (cur : pos) (pending : list pos)
  : Prop := {
  gi_static : static (st_grid st) = static g0;
  gi_nodup : NoDup openSet;
  gi_member : forall p, In p openSet -> open g0 p /\ ~ In p (st_visited st);
  gi_tree : st_visited st <> [] ->
      search_tree (prev_of (st_grid st)) (plain_link g0) s (st_visited st);
  gi_flag : forall p, valid g0 p ->
      (isVisited (node (st_grid st) p) = true <-> In p (st_visited st));
  gi_open : forall p, In p (st_visited st) -> open g0 p;
  gi_start : prev_of (st_grid st) s = None;
  gi_first : ~ In s (st_visited st) -> In s openSet /\ st_visited st = [];
  gi_front : forall v, In v openSet ->
      (v = s /\ st_visited st = []) \/
      (exists u, prev_of (st_grid st) v = Some u /\ In u (st_visited st) /\
                 plain_link g0 u v);
  gi_cur : pending <> [] -> In cur (st_visited st);
  gi_pending : forall v, In v pending -> valid g0 v /\ adjacent cur v;
  gi_closed : forall u v, In u (st_visited st) -> step g0 u v ->
      In v (st_visited st) \/ In v openSet \/ (u = cur /\ In v pending)
}.

Lemma gr_init :
  gr_inv (mkState (grid_upd s (set_heuristic (manhattan (reset_grid greedy_reset g0) s e))
                     (reset_grid greedy_reset g0)) [] [])
         [s] s [].
Proof.
  destruct Hin as [Hwf [Hvs Hws] He].
  assert (Hnode : forall p, valid g0 p ->
            node (grid_upd s (set_heuristic (manhattan (reset_grid greedy_reset g0) s e))
                    (reset_grid greedy_reset g0)) p =
            if pos_eqb s p
            then set_heuristic (manhattan (reset_grid greedy_reset g0) s e)
                   (greedy_reset (node g0 p))
            else greedy_reset (node g0 p)).
  { intros p Hp.
    assert (valid (reset_grid greedy_reset g0) p) by (apply valid_reset; assumption).
    node_simpl. rewrite node_reset by assumption.
    destruct (pos_eqb s p); reflexivity. }
  constructor; simpl.
  - rewrite !static_upd by auto. apply static_reset. intros n; reflexivity.
  - repeat constructor; simpl; tauto.
  - intros p [<-|[]]. split; [split; assumption | tauto].
  - congruence.
  - intros p Hp. rewrite Hnode by assumption.
    destruct (pos_eqb s p); simpl; split; try discriminate; tauto.
  - tauto.
  - unfold prev_of. rewrite Hnode by assumption. rewrite pos_eqb_refl. reflexivity.
  - auto.
  - intros v [<-|[]]. left; auto.
  - congruence.
  - tauto.
  - tauto.
Qed.

(** Visiting the node [cur] that the sort put first. *)
Lemma gr_pop (st : state) (openSet rest : list pos) (cur cur0 : pos) (speed : Z) :
  gr_inv st openSet cur0 [] ->
  Permutation (cur :: rest) openSet ->
  let st1 := pause s e speed cur (visit cur st) in
  gr_inv st1 rest cur (getNeighbors (st_grid st1) cur).
Proof.
  intros I Hperm st1.
  assert (Hg : st_grid st1 = grid_upd cur (set_isVisited true) (st_grid st))
    by (unfold st1; rewrite pause_grid; reflexivity).
  assert (Hvis : st_visited st1 = st_visited st ++ [cur])
    by (unfold st1; rewrite pause_visited; reflexivity).
  destruct Hin as [Hwf [Hvs Hws] _].
  pose proof (gi_static _ _ _ _ I) as Hst.
  assert (Hwf' : wf_grid (st_grid st)).
  { apply (static_wf g0); [symmetry|]; assumption. }
  assert (HcurO : In cur openSet).
  { apply (Permutation_in _ Hperm). left; reflexivity. }
  destruct (gi_member _ _ _ _ I cur HcurO) as [Hopen Hncur].
  assert (Hvcur : valid g0 cur) by apply Hopen.
  assert (Hvalid : forall p, valid g0 p -> valid (st_grid st) p).
  { intros p Hp. apply (static_valid g0); [symmetry|]; assumption. }
  pose proof (Permutation_NoDup (Permutation_sym Hperm) (gi_nodup _ _ _ _ I)) as Hnd.
  inversion Hnd as [|? ? Hnr Hndr]; subst.
  assert (Hrest : forall p, In p rest -> In p openSet /\ p <> cur).
  { intros p Hp. split; [apply (Permutation_in _ Hperm); right; assumption|].
    intros ->. contradiction. }
  set (g1 := grid_upd cur (set_isVisited true) (st_grid st)) in *.
  assert (Hn1 : forall p, node g1 p = if pos_eqb cur p then set_isVisited true (node (st_grid st) p)
                                      else node (st_grid st) p).
  { intros p. unfold g1. destruct (pos_eq_dec cur p) as [<-|Hn].
    - rewrite node_upd_same by auto. rewrite pos_eqb_refl. reflexivity.
    - rewrite node_upd_other by assumption. apply pos_eqb_neq in Hn. rewrite Hn. reflexivity. }
  assert (Hp1 : forall p, prev_of g1 p = prev_of (st_grid st) p).
  { intros p. unfold prev_of. rewrite Hn1. destruct (pos_eqb cur p); reflexivity. }
  constructor; rewrite ?Hg, ?Hvis; fold g1.
  - unfold g1. rewrite static_upd by auto. assumption.
  - assumption.
  - intros p Hp. destruct (Hrest p Hp) as [HpO Hpc].
    destruct (gi_member _ _ _ _ I p HpO) as [Ho Hn]. split; [assumption|].
    intros H. apply in_app_or in H. destruct H as [H|[H|[]]]; [contradiction|congruence].
  - intros _.
    destruct (gi_front _ _ _ _ I cur HcurO) as [[Hs Hnil] | [u [Hpu [Hu Hl]]]].
    + subst cur. rewrite Hnil. simpl. constructor. rewrite Hp1. apply (gi_start _ _ _ _ I).
    + apply tree_snoc with (u := u); auto.
      * apply (search_tree_ext (prev_of (st_grid st)) _ (plain_link g0)).
        -- apply (gi_tree _ _ _ _ I). intros E. rewrite E in Hu. destruct Hu.
        -- intros v _. apply Hp1.
        -- auto.
      * rewrite Hp1. assumption.
  - intros p Hp. rewrite in_app_iff. simpl. rewrite Hn1.
    destruct (pos_eqb cur p) eqn:E.
    + apply pos_eqb_eq in E. simpl. tauto.
    + apply pos_eqb_neq in E. rewrite (gi_flag _ _ _ _ I p Hp).
      split; [tauto | intros [H|[H|[]]]; [assumption | congruence]].
  - intros p Hp. apply in_app_or in Hp. destruct Hp as [Hp|[<-|[]]].
    + apply (gi_open _ _ _ _ I); assumption.
    + assumption.
  - rewrite Hp1. apply (gi_start _ _ _ _ I).
  - intros Hn. exfalso. apply Hn.
    destruct (in_dec pos_eq_dec s (st_visited st)) as [H|H].
    + apply in_or_app; left; assumption.
    + destruct (gi_first _ _ _ _ I H) as [HsO Hnil].
      destruct (gi_front _ _ _ _ I cur HcurO) as [[-> _] | [u [_ [Hu _]]]].
      * apply in_or_app; right; left; reflexivity.
      * rewrite Hnil in Hu. destruct Hu.
  - intros v Hv. right. destruct (Hrest v Hv) as [HvO Hvc].
    destruct (gi_front _ _ _ _ I v HvO) as [[-> Hnil] | [u [Hpu [Hu Hl]]]].
    + exfalso. destruct (gi_front _ _ _ _ I cur HcurO) as [[-> _] | [u [_ [Hu _]]]].
      * congruence.
      * rewrite Hnil in Hu. destruct Hu.
    + exists u. rewrite Hp1. split; [assumption|]. split; [apply in_or_app; left; assumption|].
      assumption.
  - intros _. apply in_or_app; right; left; reflexivity.
  - intros v Hv. unfold g1 in Hv.
    rewrite (static_getNeighbors _ (st_grid st)) in Hv by (apply static_upd; auto).
    split.
    + apply (static_valid (st_grid st)); [assumption|].
      eapply In_getNeighbors_valid; eassumption.
    + apply (In_getNeighbors (st_grid st) cur v Hwf' (Hvalid _ Hvcur)). assumption.
  - intros u v Hu Hs. rewrite in_app_iff.
    apply in_app_or in Hu. destruct Hu as [Hu|[<-|[]]].
    + destruct (gi_closed _ _ _ _ I u v Hu Hs) as [H | [HvO | [_ []]]]; [tauto|].
      apply (Permutation_in _ (Permutation_sym Hperm)) in HvO.
      destruct HvO as [<-|HvO]; [left; right; left; reflexivity | right; left; assumption].
    + right; right. split; [reflexivity|]. unfold g1.
      rewrite (static_getNeighbors _ (st_grid st)) by (apply static_upd; auto).
      destruct Hs as [[Hv _] Ha].
      apply (In_getNeighbors (st_grid st) cur v Hwf' (Hvalid _ Hvcur)). split; auto.
Qed.

(** Looking at one neighbour of [cur]. *)
Lemma gr_step (st : state) (openSet : list pos) (cur nb : pos) (pending : list pos) :
  gr_inv st openSet cur (nb :: pending) ->
  gr_inv (fst (greedy_discover cur e (st, openSet) nb))
         (snd (greedy_discover cur e (st, openSet) nb)) cur pending.
Proof.
  intros I.
  destruct Hin as [Hwf _ _].
  pose proof (gi_static _ _ _ _ I) as Hst.
  assert (Hne : nb :: pending <> []) by discriminate.
  pose proof (gi_cur _ _ _ _ I Hne) as Hcur.
  destruct (gi_pending _ _ _ _ I nb (or_introl eq_refl)) as [Hvnb Hadj].
  assert (Hvnb' : valid (st_grid st) nb).
  { apply (static_valid g0); [symmetry|]; assumption. }
  unfold greedy_discover.
  destruct (negb (isVisited (node (st_grid st) nb)) && negb (isWall (node (st_grid st) nb))
            && negb (includes openSet nb)) eqn:Etest; cbn [fst snd].
  - (* [nb] enters the open set *)
    apply andb_true_iff in Etest. destruct Etest as [Etest Einc].
    apply andb_true_iff in Etest. destruct Etest as [Ev Ew].
    apply negb_true_iff in Ev, Ew, Einc. apply includes_not_In in Einc.
    assert (Hnv : ~ In nb (st_visited st)).
    { intros H. apply (gi_flag _ _ _ _ I nb Hvnb) in H. congruence. }
    assert (Hopen : open g0 nb).
    { split; [assumption|]. rewrite <- (static_isWall _ _ nb Hst). assumption. }
    match goal with |- gr_inv ?x _ _ _ => set (st' := x) end.
    set (g' := grid_upd nb (set_previousNode (Some cur))
                 (grid_upd nb (set_heuristic (manhattan (st_grid st) nb e)) (st_grid st))).
    assert (Hg' : st_grid st' = g') by reflexivity.
    assert (Hvis' : st_visited st' = st_visited st) by reflexivity.
    clearbody st'.
    assert (Hother : forall p, p <> nb -> node g' p = node (st_grid st) p).
    { intros p Hp. unfold g'. rewrite !node_upd_other by congruence. reflexivity. }
    assert (Hnb : node g' nb =
                  set_previousNode (Some cur)
                    (set_heuristic (manhattan (st_grid st) nb e) (node (st_grid st) nb))).
    { unfold g'. node_simpl. rewrite pos_eqb_refl. reflexivity. }
    assert (Hold : forall p, In p (st_visited st) -> p <> nb)
      by (intros p Hp ->; contradiction).
    assert (Htree : search_tree (prev_of (st_grid st)) (plain_link g0) s (st_visited st)).
    { apply (gi_tree _ _ _ _ I). intros E. rewrite E in Hcur. destruct Hcur. }
    constructor; rewrite ?Hg', ?Hvis'.
    + unfold g'. rewrite !static_upd by auto. assumption.
    + apply NoDup_app.
      * apply (gi_nodup _ _ _ _ I).
      * repeat constructor; simpl; tauto.
      * intros a Ha [<-|[]]. contradiction.
    + intros p Hp. apply in_app_or in Hp. destruct Hp as [Hp|[<-|[]]].
      * apply (gi_member _ _ _ _ I); assumption.
      * split; assumption.
    + intros _. apply (search_tree_ext _ _ _ _ _ _ Htree).
      * intros v Hv. unfold prev_of. rewrite Hother by auto. reflexivity.
      * auto.
    + intros p Hp. destruct (pos_eq_dec p nb) as [->|Hpn].
      * rewrite Hnb. simpl. apply (gi_flag _ _ _ _ I); assumption.
      * rewrite Hother by assumption. apply (gi_flag _ _ _ _ I); assumption.
    + apply (gi_open _ _ _ _ I).
    + unfold prev_of. rewrite Hother by (apply Hold; apply (search_tree_root _ _ _ _ Htree)).
      apply (gi_start _ _ _ _ I).
    + intros Hn. exfalso. apply Hn. apply (search_tree_root _ _ _ _ Htree).
    + intros v Hv. right. apply in_app_or in Hv. destruct Hv as [Hv|[<-|[]]].
      * assert (Hvn : v <> nb) by (intros ->; contradiction).
        destruct (gi_front _ _ _ _ I v Hv) as [[_ Hnil] | [u [Hpu [Hu Hl]]]].
        -- rewrite Hnil in Hcur. destruct Hcur.
        -- exists u. unfold prev_of. rewrite Hother by assumption. auto.
      * exists cur. unfold prev_of. rewrite Hnb. simpl.
        split; [reflexivity|]. split; [assumption|]. split; assumption.
    + intros _; assumption.
    + intros v Hv. apply (gi_pending _ _ _ _ I). right; assumption.
    + intros u v Hu Hs. rewrite in_app_iff.
      destruct (gi_closed _ _ _ _ I u v Hu Hs) as [H | [H | [Hu' [Hv|Hv]]]]; auto.
      subst v. right; left; right; left; reflexivity.
  - (* [nb] is skipped *)
    constructor; try apply I.
    + intros _; assumption.
    + intros v Hv. apply (gi_pending _ _ _ _ I). right; assumption.
    + intros u v Hu Hs.
      destruct (gi_closed _ _ _ _ I u v Hu Hs) as [H | [H | [Hu' [Hv|Hv]]]]; auto.
      subst v u. destruct Hs as [[_ Hw] _].
      rewrite <- (static_isWall _ _ nb Hst) in Hw. rewrite Hw in Etest. simpl in Etest.
      rewrite andb_true_r in Etest.
      apply andb_false_iff in Etest. destruct Etest as [Ev|Einc].
      * apply negb_false_iff in Ev. left. apply (gi_flag _ _ _ _ I nb Hvnb). assumption.
      * apply negb_false_iff in Einc. apply includes_In in Einc. right; left; assumption.
Qed.

Lemma gr_fold (cur : pos) (pending : list pos) :
  forall st openSet,
    gr_inv st openSet cur pending ->
    gr_inv (fst (fold_left (greedy_discover cur e) pending (st, openSet)))
           (snd (fold_left (greedy_discover cur e) pending (st, openSet))) cur [].
Proof.
  induction pending as [|nb pending IH]; intros st openSet I; cbn [fold_left].
  - assumption.
  - pose proof (gr_step _ _ _ _ _ I) as I'.
    destruct (greedy_discover cur e (st, openSet) nb) as [st' openSet']. apply IH. assumption.
Qed.

Lemma gr_visited_discover (cur : pos) (pending : list pos) (acc : state * list pos) :
  st_visited (fst (fold_left (greedy_discover cur e) pending acc)) = st_visited (fst acc).
Proof.
  revert acc; induction pending as [|nb pending IH]; intros acc; cbn [fold_left].
  - reflexivity.
  - rewrite IH. destruct acc as [st openSet]. unfold greedy_discover.
    destruct (_ && _); reflexivity.
Qed.

Lemma gr_visited_bound (st : state) (openSet : list pos) (cur : pos) (pending : list pos) :
  gr_inv st openSet cur pending -> (length (st_visited st) <= cells g0)%nat.
Proof.
  intros I. destruct (st_visited st) as [|v vs] eqn:E; [simpl; lia|]. rewrite <- E.
  apply NoDup_valid_length.
  - apply (search_tree_NoDup _ _ _ _ (gi_tree _ _ _ _ I ltac:(congruence))).
  - intros p Hp. apply (gi_open _ _ _ _ I p Hp).
Qed.

Lemma gr_loop_correct (speed : Z) (fuel : nat) :
  forall st openSet cur0,
    gr_inv st openSet cur0 [] ->
    ~ In e (st_visited st) ->
    (cells g0 + 1 <= fuel + length (st_visited st))%nat ->
    exists out, greedy_loop fuel s e speed openSet st = Returned out /\
                search_post g0 s e None out.
Proof.
  induction fuel as [|fuel IH]; intros st openSet cur0 I Hend Hfuel.
  { pose proof (gr_visited_bound _ _ _ _ I). simpl in Hfuel. lia. }
  cbn [greedy_loop].
  pose proof (sort_by_perm _ (heuristic_leb (st_grid st)) openSet) as Hperm.
  destruct (sort_by (heuristic_leb (st_grid st)) openSet) as [|cur rest].
  - (* the open set is empty *)
    apply Permutation_nil in Hperm. subst openSet.
    eexists; split; [reflexivity|]. split; [apply stats_ok_not_found|]. right.
    split; [reflexivity|]. split.
    + intros Hc. destruct (connected_walk g0 unit_cost s e Hc) as [c Hw].
      apply Hend.
      apply (closed_reach g0 unit_cost s (fun x => In x (st_visited st))) with (v := e) (c := c).
      * destruct (in_dec pos_eq_dec s (st_visited st)) as [H|H]; [assumption|].
        destruct (gi_first _ _ _ _ I H) as [[] _].
      * intros u v Hu Hs.
        destruct (gi_closed _ _ _ _ I u v Hu Hs) as [H | [[] | [_ []]]]. assumption.
      * assumption.
    + split; [reflexivity|]. split.
      * simpl. destruct (st_visited st) eqn:E; [constructor|].
        rewrite <- E. apply (search_tree_NoDup _ _ _ _ (gi_tree _ _ _ _ I ltac:(congruence))).
      * simpl. apply (gi_flag _ _ _ _ I).
  - assert (HcurO : In cur openSet).
    { apply (Permutation_in _ Hperm). left; reflexivity. }
    destruct (gi_member _ _ _ _ I cur HcurO) as [[Hvcur Hwcur] Hncur].
    rewrite (static_isWall _ g0 cur (gi_static _ _ _ _ I)), Hwcur.
    destruct (isVisited (node (st_grid st) cur)) eqn:Evis.
    { apply (gi_flag _ _ _ _ I cur Hvcur) in Evis. contradiction. }
    cbn [orb].
    pose proof (gr_pop _ _ _ _ _ speed I Hperm) as I1. cbv zeta in I1.
    set (st1 := pause s e speed cur (visit cur st)) in *.
    assert (Hvis1 : st_visited st1 = st_visited st ++ [cur])
      by (unfold st1; rewrite pause_visited; reflexivity).
    assert (Htree1 : search_tree (prev_of (st_grid st1)) (plain_link g0) s (st_visited st1)).
    { apply (gi_tree _ _ _ _ I1). rewrite Hvis1. destruct (st_visited st); discriminate. }
    destruct (pos_eqb cur e) eqn:Ecur.
    + (* the end is visited *)
      apply pos_eqb_eq in Ecur. subst cur.
      assert (He : In e (st_visited st1)).
      { rewrite Hvis1. apply in_or_app; right; left; reflexivity. }
      destruct (reconstruct_tree g0 (st_grid st1) _ s e _ (gi_static _ _ _ _ I1) Htree1
                  (fun p Hp => proj1 (gi_open _ _ _ _ I1 p Hp)) He)
        as [p [Hrec [Htrail [Hndp _]]]].
      rewrite Hrec. eexists; split; [reflexivity|].
      split; [apply stats_ok_found|]. left.
      split; [reflexivity|]. split; [|split; [assumption | exact Logic.I]].
      apply (trail_is_path g0 (plain_link g0)); [auto | apply Hin | assumption].
    + apply pos_eqb_neq in Ecur.
      pose proof (gr_fold _ _ _ _ I1) as I2.
      pose proof (gr_visited_discover cur (getNeighbors (st_grid st1) cur) (st1, rest)) as Hv2.
      destruct (fold_left (greedy_discover cur e) (getNeighbors (st_grid st1) cur) (st1, rest))
        as [st2 openSet2].
      cbn [fst snd] in I2, Hv2.
      apply (IH _ _ cur I2).
      * rewrite Hv2, Hvis1. intros H. apply in_app_or in H.
        destruct H as [H|[H|[]]]; [contradiction | congruence].
      * rewrite Hv2, Hvis1, length_app. simpl. lia.
Qed.

(** [greedy] returns, and its result is either a simple open path or the
    failure record when no open path exists. *)
Lemma greedy_correct (speed : Z) :
  exists out, greedy g0 s e speed = Returned out /\ search_post g0 s e None out.
Proof.
  unfold greedy, resolve.
  destruct Hin as [Hwf [Hvs Hws] [Hve Hwe]].
  rewrite (valid_get _ s) by (apply valid_reset; assumption).
  rewrite (valid_get _ e) by (apply valid_reset; assumption).
  apply (gr_loop_correct speed _ _ _ s gr_init).
  - simpl. tauto.
  - simpl. lia.
Qed.

End GreedyProof.

(* ================================================================== *)
(** * Correctness of dfs *)
(* ================================================================== *)

Section DfsProof.

Variable g0 : Grid.
Variables s e : pos.
Hypothesis Hin : valid_input g0 s e.

(** What holds of the store between any two steps of [dfsRecursive]. *)
Record dfs_inv (st : state) : Prop := {
  fi_static : static (st_grid st) = static g0;
  fi_tree : st_visited st <> [] ->
      search_tree (prev_of (st_grid st)) (plain_link g0) s (st_visited st);
  fi_flag : forall p, valid g0 p ->
      (isVisited (node (st_grid st) p) = true <-> In p (st_visited st));
  fi_open : forall p, In p (st_visited st) -> open g0 p;
  fi_start : prev_of (st_grid st) s = None
}.

Lemma dfs_visited_bound (st : state) :
  dfs_inv st -> (length (st_visited st) <= cells g0)%nat.
Proof.
  intros I. destruct (st_visited st) as [|v vs] eqn:E; [simpl; lia|]. rewrite <- E.
  apply NoDup_valid_length.
  - apply (search_tree_NoDup _ _ _ _ (fi_tree _ I ltac:(congruence))).
  - intros p Hp. apply (fi_open _ I p Hp).
Qed.

(** The result of a call of [dfsRecursive] or of its loop over the
    neighbours, started with the visited list [before]. *)
Definition dfs_post (before : list pos) (st' : state) (b : bool) : Prop :=
  dfs_inv st' /\
  if b then In e (st_visited st')
  else ~ In e (st_visited st') /\
       forall u v, In u (st_visited st') -> ~ In u before -> step g0 u v ->
                   In v (st_visited st').

Lemma dfs_visit (st : state) (cur : pos) :
  dfs_inv st -> open g0 cur -> ~ In cur (st_visited st) ->
  (st_visited st = [] /\ cur = s \/
   exists u, prev_of (st_grid st) cur = Some u /\ In u (st_visited st) /\ adjacent u cur) ->
  dfs_inv (visit cur st).
Proof.
  intros I Hopen Hn Hprev.
  pose proof (fi_static _ I) as Hst.
  assert (Hvcur : valid (st_grid st) cur).
  { apply (static_valid g0); [symmetry; assumption | apply Hopen]. }
  set (g1 := grid_upd cur (set_isVisited true) (st_grid st)).
  assert (Hn1 : forall p, node g1 p = if pos_eqb cur p then set_isVisited true (node (st_grid st) p)
                                      else node (st_grid st) p).
  { intros p. unfold g1. destruct (pos_eq_dec cur p) as [<-|Hne].
    - rewrite node_upd_same by auto. rewrite pos_eqb_refl. reflexivity.
    - rewrite node_upd_other by assumption. apply pos_eqb_neq in Hne. rewrite Hne. reflexivity. }
  assert (Hp1 : forall p, prev_of g1 p = prev_of (st_grid st) p).
  { intros p. unfold prev_of. rewrite Hn1. destruct (pos_eqb cur p); reflexivity. }
  constructor; rewrite ?visit_grid, ?visit_visited; fold g1.
  - unfold g1. rewrite static_upd by auto. assumption.
  - intros _. destruct Hprev as [[Hnil ->] | [u [Hpu [Hu Ha]]]].
    + rewrite Hnil. simpl. constructor. rewrite Hp1. apply (fi_start _ I).
    + apply tree_snoc with (u := u); auto.
      * apply (search_tree_ext (prev_of (st_grid st)) _ (plain_link g0)).
        -- apply (fi_tree _ I). intros E. rewrite E in Hu. destruct Hu.
        -- intros v _. apply Hp1.
        -- auto.
      * rewrite Hp1. assumption.
      * split; assumption.
  - intros p Hp. rewrite in_app_iff. simpl. rewrite Hn1.
    destruct (pos_eqb cur p) eqn:E.
    + apply pos_eqb_eq in E. simpl. tauto.
    + apply pos_eqb_neq in E. rewrite (fi_flag _ I p Hp).
      split; [tauto | intros [H|[H|[]]]; [assumption | congruence]].
  - intros p Hp. apply in_app_or in Hp. destruct Hp as [Hp|[<-|[]]].
    + apply (fi_open _ I); assumption.
    + assumption.
  - rewrite Hp1. apply (fi_start _ I).
Qed.

Lemma dfs_set_prev (st : state) (cur nb : pos) :
  dfs_inv st -> In cur (st_visited st) -> ~ In nb (st_visited st) ->
  dfs_inv (with_grid (grid_upd nb (set_previousNode (Some cur))) st).
Proof.
  intros I Hcur Hn.
  assert (Htree : search_tree (prev_of (st_grid st)) (plain_link g0) s (st_visited st)).
  { apply (fi_tree _ I). intros E. rewrite E in Hcur. destruct Hcur. }
  assert (Hother : forall p, p <> nb ->
            node (grid_upd nb (set_previousNode (Some cur)) (st_grid st)) p = node (st_grid st) p).
  { intros p Hp. rewrite node_upd_other by congruence. reflexivity. }
  assert (Hold : forall p, In p (st_visited st) -> p <> nb)
    by (intros p Hp ->; contradiction).
  constructor; cbn [with_grid st_grid st_visited].
  - rewrite static_upd by auto. apply (fi_static _ I).
  - intros _. apply (search_tree_ext _ _ _ _ _ _ Htree).
    + intros v Hv. unfold prev_of. rewrite Hother by auto. reflexivity.
    + auto.
  - intros p Hp. destruct (pos_eq_dec p nb) as [->|Hpn].
    + rewrite node_upd_same.
      * simpl. apply (fi_flag _ I); assumption.
      * apply (static_valid g0); [symmetry; apply (fi_static _ I) | assumption].
    + rewrite Hother by assumption. apply (fi_flag _ I); assumption.
  - apply (fi_open _ I).
  - unfold prev_of. rewrite Hother by (apply Hold; apply (search_tree_root _ _ _ _ Htree)).
    apply (fi_start _ I).
Qed.

Section Neighbours.

Variable speed : Z.
Variable fuel : nat.

(** The recursive calls behave as stated. *)
Hypothesis IHrec : forall cur st,
  dfs_inv st -> ~ In e (st_visited st) -> open g0 cur -> ~ In cur (st_visited st) ->
  (st_visited st = [] /\ cur = s \/
   exists u, prev_of (st_grid st) cur = Some u /\ In u (st_visited st) /\ adjacent u cur) ->
  (cells g0 + 1 <= fuel + length (st_visited st))%nat ->
  exists st' b new, dfsRecursive fuel e speed cur st = Returned (st', b) /\
                st_visited st' = st_visited st ++ cur :: new /\
                dfs_post (st_visited st) st' b.

Lemma dfs_neighbors_correct (cur : pos) (nbs : list pos) :
  forall st,
    dfs_inv st -> ~ In e (st_visited st) -> In cur (st_visited st) ->
    (forall v, In v nbs -> valid g0 v /\ adjacent cur v) ->
    (cells g0 + 1 <= fuel + length (st_visited st))%nat ->
    exists st' b new, dfs_neighbors (dfsRecursive fuel e speed) cur nbs st = Returned (st', b) /\
                  st_visited st' = st_visited st ++ new /\
                  dfs_post (st_visited st) st' b /\
                  (b = false -> forall v, In v nbs -> open g0 v -> In v (st_visited st')).
Proof.
  induction nbs as [|nb nbs IH]; intros st I Hend Hcur Hnbs Hfuel; cbn [dfs_neighbors].
  - exists st, false, []. rewrite app_nil_r.
    split; [reflexivity|]. split; [reflexivity|]. split.
    + split; [assumption|]. split; [assumption|]. intros u v Hu Hn. contradiction.
    + intros _ v [].
  - destruct (Hnbs nb (or_introl eq_refl)) as [Hvnb Hadj].
    assert (Hnbs' : forall v, In v nbs -> valid g0 v /\ adjacent cur v)
      by (intros v Hv; apply Hnbs; right; assumption).
    destruct (negb (isVisited (node (st_grid st) nb)) && negb (isWall (node (st_grid st) nb)))
      eqn:Etest.
    + apply andb_true_iff in Etest. destruct Etest as [Ev Ew].
      apply negb_true_iff in Ev, Ew.
      assert (Hnv : ~ In nb (st_visited st)).
      { intros H. apply (fi_flag _ I nb Hvnb) in H. congruence. }
      assert (Hopen : open g0 nb).
      { split; [assumption|]. rewrite <- (static_isWall _ _ nb (fi_static _ I)). assumption. }
      set (stp := with_grid (grid_upd nb (set_previousNode (Some cur))) st).
      assert (Ip : dfs_inv stp) by (apply dfs_set_prev; assumption).
      assert (Hpv : st_visited stp = st_visited st) by reflexivity.
      destruct (IHrec nb stp Ip) as [st1 [b1 [new1 [Hrun [Hvis1 [I1 Hb1]]]]]];
        rewrite ?Hpv; try assumption.
      { right. exists cur. split; [|split; assumption].
        unfold prev_of, stp. cbn [with_grid st_grid]. rewrite node_upd_same.
        - reflexivity.
        - apply (static_valid g0); [symmetry; apply (fi_static _ I) | assumption]. }
      rewrite Hrun. rewrite Hpv in Hvis1. destruct b1.
      * (* the end was reached below [nb] *)
        exists st1, true, (nb :: new1).
        split; [reflexivity|]. split; [assumption|]. split; [split; assumption|]. discriminate.
      * destruct Hb1 as [Hend1 Hcl1].
        destruct (IH st1 I1 Hend1) as [st2 [b2 [new2 [Hrun2 [Hvis2 [[I2 Hb2] Hall2]]]]]];
          try assumption.
        { rewrite Hvis1. apply in_or_app; left; assumption. }
        { rewrite Hvis1, length_app. lia. }
        rewrite Hrun2. exists st2, b2, ((nb :: new1) ++ new2).
        split; [reflexivity|]. split; [rewrite Hvis2, Hvis1, <- app_assoc; reflexivity|].
        split; [split; [assumption|]|].
        -- destruct b2; [assumption|]. destruct Hb2 as [Hend2 Hcl2]. split; [assumption|].
           intros u v Hu Hn Hs.
           destruct (in_dec pos_eq_dec u (st_visited st1)) as [Hu1|Hu1].
           ++ rewrite Hvis2. apply in_or_app; left. apply (Hcl1 u v Hu1 Hn Hs).
           ++ apply (Hcl2 u v Hu Hu1 Hs).
        -- intros -> v [<-|Hv] Ho.
           ++ rewrite Hvis2, Hvis1. apply in_or_app; left. apply in_or_app; right; left; reflexivity.
           ++ apply Hall2; auto.
    + destruct (IH st I Hend Hcur Hnbs' Hfuel) as [st2 [b2 [new2 [Hrun2 [Hvis2 [Hp2 Hall2]]]]]].
      rewrite Hrun2. exists st2, b2, new2.
      split; [reflexivity|]. split; [assumption|]. split; [assumption|].
      intros -> v [<-|Hv] Ho.
      * destruct Ho as [_ Hw]. rewrite <- (static_isWall _ _ nb (fi_static _ I)) in Hw.
        rewrite Hw in Etest. simpl in Etest. rewrite andb_true_r in Etest.
        apply negb_false_iff in Etest. apply (fi_flag _ I nb Hvnb) in Etest.
        rewrite Hvis2. apply in_or_app; left; assumption.
      * apply Hall2; auto.
Qed.

End Neighbours.

Lemma dfsRecursive_correct (speed : Z) (fuel : nat) :
  forall cur st,
    dfs_inv st -> ~ In e (st_visited st) -> open g0 cur -> ~ In cur (st_visited st) ->
    (st_visited st = [] /\ cur = s \/
     exists u, prev_of (st_grid st) cur = Some u /\ In u (st_visited st) /\ adjacent u cur) ->
    (cells g0 + 1 <= fuel + length (st_visited st))%nat ->
    exists st' b new, dfsRecursive fuel e speed cur st = Returned (st', b) /\
                  st_visited st' = st_visited st ++ cur :: new /\
                  dfs_post (st_visited st) st' b.
Proof.
  induction fuel as [|fuel IH]; intros cur st I Hend Hopen Hn Hprev Hfuel.
  { pose proof (dfs_visited_bound _ I). simpl in Hfuel. lia. }
  cbn [dfsRecursive].
  destruct Hin as [Hwf _ _].
  pose proof (fi_static _ I) as Hst.
  destruct Hopen as [Hvcur Hwcur].
  rewrite (static_isWall _ g0 cur Hst), Hwcur.
  destruct (isVisited (node (st_grid st) cur)) eqn:Evis.
  { apply (fi_flag _ I cur Hvcur) in Evis. contradiction. }
  cbn [orb].
  pose proof (dfs_visit st cur I (conj Hvcur Hwcur) Hn Hprev) as I1.
  destruct (pos_eqb cur e) eqn:Ecur; cbn [negb].
  - apply pos_eqb_eq in Ecur. subst cur.
    exists (visit e st), true, [].
    split; [reflexivity|]. split; [reflexivity|]. split; [assumption|].
    rewrite visit_visited. apply in_or_app; right; left; reflexivity.
  - apply pos_eqb_neq in Ecur.
    set (st2 := emit (Sleep (inject_Z (101 - speed))) (visit cur st)).
    assert (I2 : dfs_inv st2) by (constructor; apply I1).
    assert (Hvis2 : st_visited st2 = st_visited st ++ [cur]) by reflexivity.
    assert (Hg2 : st_grid st2 = grid_upd cur (set_isVisited true) (st_grid st)) by reflexivity.
    assert (Hwf' : wf_grid (st_grid st)).
    { apply (static_wf g0); [symmetry|]; assumption. }
    assert (Hvcur' : valid (st_grid st) cur).
    { apply (static_valid g0); [symmetry|]; assumption. }
    assert (Hnbs : forall v, In v (getNeighbors (st_grid st2) cur) <-> valid g0 v /\ adjacent cur v).
    { intros v. rewrite Hg2.
      rewrite (static_getNeighbors _ (st_grid st)) by (apply static_upd; auto).
      rewrite (In_getNeighbors (st_grid st) cur v Hwf' Hvcur'). split.
      - intros [Hv Ha]. split; [|assumption]. apply (static_valid (st_grid st)); assumption.
      - intros [Hv Ha]. split; [|assumption].
        apply (static_valid g0); [symmetry|]; assumption. }
    destruct (dfs_neighbors_correct speed fuel IH cur (getNeighbors (st_grid st2) cur) st2 I2)
      as [st3 [b [new [Hrun [Hvis3 [[I3 Hb] Hall]]]]]].
    + rewrite Hvis2. intros H. apply in_app_or in H.
      destruct H as [H|[H|[]]]; [contradiction | congruence].
    + rewrite Hvis2. apply in_or_app; right; left; reflexivity.
    + intros v Hv. apply Hnbs; assumption.
    + rewrite Hvis2, length_app. simpl. lia.
    + fold st2. rewrite Hrun. exists st3, b, new.
      split; [reflexivity|]. split; [rewrite Hvis3, Hvis2, <- app_assoc; reflexivity|].
      split; [assumption|]. destruct b; [assumption|].
      destruct Hb as [Hend3 Hcl]. specialize (Hall eq_refl).
      split; [assumption|].
      intros u v Hu Hnu Hs.
      destruct (in_dec pos_eq_dec u (st_visited st2)) as [Hu2|Hu2].
      * rewrite Hvis2 in Hu2. apply in_app_or in Hu2.
        destruct Hu2 as [Hu2|[<-|[]]]; [contradiction|].
        apply Hall; [|apply Hs]. apply Hnbs. destruct Hs as [[Hv _] Ha]. split; assumption.
      * apply (Hcl u v Hu Hu2 Hs).
Qed.

(** [dfs] returns, and its result is either a simple open path or the
    failure record when no open path exists. *)
Lemma dfs_correct (speed : Z) :
  exists out, dfs g0 s e speed = Returned out /\ search_post g0 s e None out.
Proof.
  unfold dfs, resolve.
  destruct Hin as [Hwf [Hvs Hws] [Hve Hwe]].
  rewrite (valid_get _ s) by (apply valid_reset; assumption).
  rewrite (valid_get _ e) by (apply valid_reset; assumption).
  assert (I0 : dfs_inv (mkState (reset_grid dfs_reset g0) [] [])).
  { constructor; simpl.
    - apply static_reset. intros n; reflexivity.
    - congruence.
    - intros p Hp. rewrite node_reset by assumption. simpl. split; [discriminate | tauto].
    - tauto.
    - unfold prev_of. rewrite node_reset by assumption. reflexivity. }
  destruct (dfsRecursive_correct speed (S (cells g0)) s _ I0)
    as [st [b [new [Hrun [Hvis [I Hb]]]]]].
  { simpl. tauto. }
  { split; assumption. }
  { simpl. tauto. }
  { left. split; reflexivity. }
  { simpl. lia. }
  rewrite Hrun. simpl in Hvis.
  assert (Htree : search_tree (prev_of (st_grid st)) (plain_link g0) s (st_visited st)).
  { apply (fi_tree _ I). rewrite Hvis. discriminate. }
  destruct b.
  - destruct (reconstruct_tree g0 (st_grid st) _ s e _ (fi_static _ I) Htree
                (fun p Hp => proj1 (fi_open _ I p Hp)) Hb)
      as [p [Hrec [Htrail [Hndp _]]]].
    rewrite Hrec. eexists; split; [reflexivity|].
    split; [apply stats_ok_found|]. left.
    split; [reflexivity|]. split; [|split; [assumption | exact Logic.I]].
    apply (trail_is_path g0 (plain_link g0)); [auto | split; assumption | assumption].
  - destruct Hb as [Hend Hcl].
    eexists; split; [reflexivity|]. split; [apply stats_ok_not_found|]. right.
    split; [reflexivity|]. split.
    + intros Hc. destruct (connected_walk g0 unit_cost s e Hc) as [c Hw].
      apply Hend.
      apply (closed_reach g0 unit_cost s (fun x => In x (st_visited st))) with (v := e) (c := c).
      * rewrite Hvis. left; reflexivity.
      * intros u v Hu Hs. apply (Hcl u v Hu); [simpl; tauto | assumption].
      * assumption.
    + split; [reflexivity|]. split.
      * simpl. apply (search_tree_NoDup _ _ _ _ Htree).
      * simpl. apply (fi_flag _ I).
Qed.

End DfsProof.

(* ================================================================== *)
(** * Keys of the bidirectional search *)
(* ================================================================== *)

(** No character of [str] is a minus sign. *)
Fixpoint no_dash (str : string) : Prop :=
  match str with
  | EmptyString => True
  | String c rest => c <> "-"%char /\ no_dash rest
  end.

Lemma no_dash_uint (d : Decimal.uint) : no_dash (NilEmpty.string_of_uint d).
Proof.
  induction d; simpl; try split; try assumption; try discriminate; exact I.
Qed.

Lemma string_of_Z_nonneg (z : Z) : 0 <= z -> no_dash (string_of_Z z).
Proof.
  intros Hz. unfold string_of_Z. destruct z as [|p|p]; simpl.
  - split; [discriminate | exact I].
  - unfold NilZero.string_of_uint. destruct (Pos.to_uint p) eqn:E.
    + simpl. split; [discriminate | exact I].
    + rewrite <- E. apply no_dash_uint.
    + rewrite <- E. apply no_dash_uint.
    + rewrite <- E. apply no_dash_uint.
    + rewrite <- E. apply no_dash_uint.
    + rewrite <- E. apply no_dash_uint.
    + rewrite <- E. apply no_dash_uint.
    + rewrite <- E. apply no_dash_uint.
    + rewrite <- E. apply no_dash_uint.
    + rewrite <- E. apply no_dash_uint.
    + rewrite <- E. apply no_dash_uint.
  - lia.
Qed.

Lemma string_of_Z_inj (a b : Z) : 0 <= a -> 0 <= b -> string_of_Z a = string_of_Z b -> a = b.
Proof.
  intros Ha Hb H. unfold string_of_Z in H.
  assert (Hi : forall z, 0 <= z ->
             NilZero.int_of_string (NilZero.string_of_int (Z.to_int z)) = Some (Z.to_int z)).
  { intros z Hz. apply NilZero.isi.
    - destruct z as [|p|p]; simpl; try discriminate.
      intros E. injection E as E. pose proof (DecimalPos.Unsigned.to_uint_nonnil p). congruence.
    - destruct z as [|p|p]; simpl; try discriminate. lia. }
  pose proof (Hi a Ha) as Ea. pose proof (Hi b Hb) as Eb. rewrite H in Ea.
  rewrite Ea in Eb. injection Eb as Eb.
  rewrite <- (DecimalZ.of_to a), <- (DecimalZ.of_to b). rewrite Eb. reflexivity.
Qed.

Lemma append_dash_inj (a a' b b' : string) :
  no_dash a -> no_dash a' ->
  String.append a (String "-"%char b) = String.append a' (String "-"%char b') ->
  a = a' /\ b = b'.
Proof.
  revert a'. induction a as [|c a IH]; intros [|c' a'] Ha Ha' H; simpl in *.
  - injection H as H. auto.
  - injection H as H1 H2. destruct Ha' as [Hc _]. congruence.
  - injection H as H1 H2. destruct Ha as [Hc _]. congruence.
  - injection H as H1 H2. destruct Ha as [_ Ha], Ha' as [_ Ha'].
    destruct (IH a' Ha Ha' H2) as [-> ->]. subst. auto.
Qed.

(** Nodes with non-negative indices have distinct keys. *)
Lemma nodeKey_inj (n n' : GridNode) :
  0 <= row n -> 0 <= col n -> 0 <= row n' -> 0 <= col n' ->
  nodeKey n = nodeKey n' -> row n = row n' /\ col n = col n'.
Proof.
  intros Hr Hc Hr' Hc' H. unfold nodeKey in H.
  apply append_dash_inj in H; try (apply string_of_Z_nonneg; assumption).
  destruct H as [H1 H2]. split; apply string_of_Z_inj; assumption.
Qed.

(** The key of the cell at [p]. *)
Definition key (g : Grid) (p : pos) : string := nodeKey (node g p).

Lemma static_key (g g' : Grid) (p : pos) : static g = static g' -> key g p = key g' p.
Proof.
  intros H. unfold key, nodeKey.
  rewrite (static_row g g' p H), (static_col g g' p H). reflexivity.
Qed.

Lemma valid_nonneg (g : Grid) (p : pos) : valid g p -> 0 <= fst p /\ 0 <= snd p.
Proof. intros H. apply valid_iff in H. tauto. Qed.

Lemma key_inj (g : Grid) (p q : pos) :
  wf_grid g -> valid g p -> valid g q -> key g p = key g q -> p = q.
Proof.
  intros Hwf Hp Hq H. unfold key in H.
  pose proof (valid_nonneg g p Hp) as [Hp1 Hp2].
  pose proof (valid_nonneg g q Hq) as [Hq1 Hq2].
  apply nodeKey_inj in H;
    rewrite ?(wf_row g p Hwf Hp), ?(wf_col g p Hwf Hp),
            ?(wf_row g q Hwf Hq), ?(wf_col g q Hwf Hq) in *; try assumption.
  destruct p, q; simpl in *. destruct H; congruence.
Qed.

Lemma set_has_In (k : string) (l : list string) : set_has k l = true <-> In k l.
Proof.
  unfold set_has. rewrite existsb_exists. split.
  - intros [x [Hx E]]. apply String.eqb_eq in E. subst; assumption.
  - intros H. exists k. split; [assumption | apply String.eqb_refl].
Qed.

Lemma set_has_keys (g : Grid) (l : list pos) (p : pos) :
  wf_grid g -> valid g p -> (forall q, In q l -> valid g q) ->
  (set_has (key g p) (map (key g) l) = true <-> In p l).
Proof.
  intros Hwf Hp Hl. rewrite set_has_In, in_map_iff. split.
  - intros [q [E Hq]]. apply key_inj in E; auto. subst; assumption.
  - intros H. exists p; auto.
Qed.

Lemma follow_acc (prev : pos -> option pos) (fuel : nat) (cur : option pos) (acc : list pos) :
  follow prev fuel cur acc =
  match follow prev fuel cur [] with
  | Some p => Some (p ++ acc)
  | None => None
  end.
Proof.
  revert cur acc. induction fuel as [|fuel IH]; intros [c|] acc; simpl; try reflexivity.
  rewrite (IH (prev c) (c :: acc)), (IH (prev c) [c]).
  destruct (follow prev fuel (prev c) []); [|reflexivity].
  rewrite <- app_assoc. reflexivity.
Qed.

Lemma start_chain_follow (g : Grid) (parents : list (string * pos))
      (fuel : nat) (cur : option pos) (acc : list pos) :
  start_chain fuel g parents cur acc =
  follow (fun c => map_get (key g c) parents) fuel cur acc.
Proof.
  revert cur acc; induction fuel as [|fuel IH]; intros [c|] acc; simpl; auto.
Qed.

Lemma end_chain_follow (g : Grid) (parents : list (string * pos))
      (fuel : nat) (cur : option pos) (acc : list pos) :
  end_chain fuel g parents cur acc =
  match follow (fun c => map_get (key g c) parents) fuel cur [] with
  | Some p => Some (acc ++ rev p)
  | None => None
  end.
Proof.
  revert cur acc; induction fuel as [|fuel IH]; intros [c|] acc; simpl;
    rewrite ?app_nil_r; try reflexivity.
  rewrite IH. fold (key g c).
  rewrite (follow_acc _ fuel (map_get (key g c) parents) [c]).
  destruct (follow _ fuel (map_get (key g c) parents) []) as [p|]; [|reflexivity].
  rewrite rev_app_distr. simpl. rewrite <- app_assoc. reflexivity.
Qed.

(** Reversal and concatenation of paths. *)
Lemma is_path_rev (g : Grid) (s e : pos) (l : list pos) :
  is_path g s e l -> is_path g e s (rev l).
Proof.
  intros H; induction H; simpl.
  - constructor; assumption.
  - eapply is_path_snoc; [eassumption | assumption | apply adjacent_sym; assumption].
Qed.

Lemma is_path_app (g : Grid) (s m w e : pos) (l1 l2 : list pos) :
  is_path g s m l1 -> adjacent m w -> is_path g w e l2 -> is_path g s e (l1 ++ l2).
Proof.
  intros H1 Ha H2. induction H1; simpl.
  - econstructor; eassumption.
  - econstructor; [assumption | eassumption | apply IHis_path; assumption].
Qed.

(* ================================================================== *)
(** * One direction of the bidirectional search *)
(* ================================================================== *)

Section BidiSide.

Variable g0 : Grid.
Hypothesis Hwf : wf_grid g0.
(** The cell the direction starts from. *)
Variable r : pos.
Hypothesis Hr : open g0 r.

Definition bidi_link (d : pos -> Z) (u v : pos) : Prop :=
  open g0 v /\ adjacent u v /\ d v = d u + 1.

(** [parents.get(key)] *)
Definition par_of (sd : side) (v : pos) : option pos := map_get (key g0 v) (sd_parents sd).

(** Invariant of one direction: [done] are the cells it has dequeued, [d]
    the depth of each discovered cell in its tree of parents, [cur] the
    current cell and [pending] its neighbours still to be looked at. *)
Record side_inv (sd : side) (done : list pos) (d : pos -> Z) (cur : pos) (pending : list pos)
  : Prop := {
  si_keys : sd_visited sd = map (key g0) (done ++ sd_queue sd);
  si_tree : search_tree (par_of sd) (bidi_link d) r (done ++ sd_queue sd);
  si_open : forall p, In p (done ++ sd_queue sd) -> open g0 p;
  si_root : d r = 0;
  si_parent : forall v u, In v (done ++ sd_queue sd) -> par_of sd v = Some u -> In u done;
  si_level : exists k A B,
      sd_queue sd = A ++ B /\
      (forall x, In x done -> d x <= k) /\
      (forall a, In a A -> d a = k) /\
      (forall b, In b B -> d b = k + 1) /\
      (pending <> [] -> d cur = k);
  si_cur : pending <> [] -> In cur done;
  si_pending : forall v, In v pending -> valid g0 v /\ adjacent cur v;
  si_closed : forall u v, In u done -> step g0 u v ->
      (In v (done ++ sd_queue sd) /\ d v <= d u + 1) \/ (u = cur /\ In v pending);
  si_optimal : forall x c, In x done -> walk g0 unit_cost r x c -> d x <= c
}.

Lemma side_init :
  side_inv (mkSide [r] (set_add (key g0 r) []) []) [] (fun _ => 0) r [].
Proof.
  constructor; simpl; try tauto.
  - constructor. reflexivity.
  - intros p [<-|[]]. assumption.
  - intros v u _ H. discriminate.
  - exists 0, [r], []. repeat split; simpl; tauto.
Qed.

Lemma side_has (sd : side) (done : list pos) (d : pos -> Z) (cur : pos) (pending : list pos)
      (p : pos) :
  side_inv sd done d cur pending -> valid g0 p ->
  (set_has (key g0 p) (sd_visited sd) = true <-> In p (done ++ sd_queue sd)).
Proof.
  intros I Hp. rewrite (si_keys _ _ _ _ _ I). apply set_has_keys; auto.
  intros q Hq. apply (si_open _ _ _ _ _ I q Hq).
Qed.

Lemma side_nodup (sd : side) (done : list pos) (d : pos -> Z) (cur : pos) (pending : list pos) :
  side_inv sd done d cur pending -> NoDup (done ++ sd_queue sd).
Proof. intros I. apply (search_tree_NoDup _ _ _ _ (si_tree _ _ _ _ _ I)). Qed.

Lemma side_root (sd : side) (done : list pos) (d : pos -> Z) (cur : pos) (pending : list pos) :
  side_inv sd done d cur pending -> In r (done ++ sd_queue sd).
Proof. intros I. apply (search_tree_root _ _ _ _ (si_tree _ _ _ _ _ I)). Qed.

(** Depths do not decrease from the dequeued cells to the queue, and the
    head of the queue is the shallowest queued cell. *)
Lemma side_order (sd : side) (done : list pos) (d : pos -> Z) (cur0 : pos)
      (cur : pos) (rest : list pos) (z : pos) :
  side_inv sd done d cur0 [] -> sd_queue sd = cur :: rest -> In z (sd_queue sd) ->
  d cur <= d z /\ forall u, In u done -> d u <= d z.
Proof.
  intros I Hq Hz.
  destruct (si_level _ _ _ _ _ I) as [k [A [B [HAB [Hd [HA [HB _]]]]]]].
  assert (Hzk : d z = k \/ d z = k + 1).
  { rewrite HAB in Hz. apply in_app_or in Hz. destruct Hz; [left; auto | right; auto]. }
  rewrite Hq in HAB. destruct A as [|a A]; simpl in HAB.
  - assert (d cur = k + 1) by (apply HB; rewrite <- HAB; left; reflexivity).
    assert (d z = k + 1) by (apply HB; rewrite <- HAB, <- Hq; assumption).
    split; [lia|]. intros u Hu. specialize (Hd u Hu). lia.
  - injection HAB as <- _.
    assert (d cur = k) by (apply HA; left; reflexivity).
    split; [lia|]. intros u Hu. specialize (Hd u Hu). lia.
Qed.

Lemma side_frontier (sd : side) (done : list pos) (d : pos -> Z) (cur0 : pos)
      (y : pos) (c : Z) :
  side_inv sd done d cur0 [] ->
  walk g0 unit_cost r y c -> ~ In y done ->
  exists z, In z (sd_queue sd) /\ d z + 0 <= c + 0.
Proof.
  intros I.
  apply (frontier_bound g0 unit_cost r (fun x => In x done) (fun x => In x (sd_queue sd))
                        d (fun _ => 0)).
  - intros x. destruct (in_dec pos_eq_dec x done); tauto.
  - intros u v _ _. unfold unit_cost. lia.
  - apply (si_optimal _ _ _ _ _ I).
  - intros u v Hu Hs Hn.
    destruct (si_closed _ _ _ _ _ I u v Hu Hs) as [[Hv Hd] | [_ []]].
    apply in_app_or in Hv. unfold unit_cost. split; [tauto | assumption].
  - intros Hn. pose proof (side_root _ _ _ _ _ I) as Hs. apply in_app_or in Hs.
    split; [tauto|]. rewrite (si_root _ _ _ _ _ I). lia.
Qed.

(** The depth of the head of the queue is its distance from the root. *)
Lemma side_head_optimal (sd : side) (done : list pos) (d : pos -> Z) (cur0 : pos)
      (cur : pos) (rest : list pos) (c : Z) :
  side_inv sd done d cur0 [] -> sd_queue sd = cur :: rest ->
  walk g0 unit_cost r cur c -> d cur <= c.
Proof.
  intros I Hq Hw.
  assert (Hn : ~ In cur done).
  { apply (NoDup_app_not_in _ _ _ (side_nodup _ _ _ _ _ I)). rewrite Hq. left; reflexivity. }
  destruct (side_frontier _ _ _ _ _ _ I Hw Hn) as [z [Hz Hle]].
  destruct (side_order _ _ _ _ _ _ z I Hq Hz) as [H _]. lia.
Qed.

(** Every cell nearer to the root than a dequeued cell, or than the head of
    the queue, has been dequeued. *)
Lemma side_ball (sd : side) (done : list pos) (d : pos -> Z) (cur0 : pos)
      (u x : pos) (c : Z) :
  side_inv sd done d cur0 [] ->
  In u done \/ (exists rest, sd_queue sd = u :: rest) ->
  walk g0 unit_cost r x c -> c < d u -> In x done.
Proof.
  intros I Hu Hw Hc.
  destruct (in_dec pos_eq_dec x done) as [H|Hn]; [assumption|]. exfalso.
  destruct (side_frontier _ _ _ _ _ _ I Hw Hn) as [z [Hz Hle]].
  destruct (sd_queue sd) as [|q rest] eqn:Hq; [destruct Hz|].
  rewrite <- Hq in Hz.
  destruct (side_order _ _ _ _ _ _ z I Hq Hz) as [H1 H2].
  destruct Hu as [Hu | [rest' Hu]].
  - specialize (H2 u Hu). lia.
  - injection Hu as -> _. lia.
Qed.

(** Taking [cur] off the queue. *)
Lemma side_pop (g : Grid) (sd : side) (done : list pos) (d : pos -> Z) (cur0 : pos)
      (cur : pos) (rest : list pos) :
  static g = static g0 ->
  side_inv sd done d cur0 [] -> sd_queue sd = cur :: rest ->
  side_inv (mkSide rest (sd_visited sd) (sd_parents sd)) (done ++ [cur]) d cur
           (getNeighbors g cur).
Proof.
  intros Hst I Hq.
  assert (Happ : (done ++ [cur]) ++ rest = done ++ sd_queue sd).
  { rewrite Hq, <- app_assoc. reflexivity. }
  assert (Hcur : In cur (done ++ sd_queue sd)).
  { rewrite Hq. apply in_or_app; right; left; reflexivity. }
  assert (Hvcur : valid g0 cur) by apply (si_open _ _ _ _ _ I cur Hcur).
  constructor; cbn [sd_queue sd_visited sd_parents]; rewrite ?Happ.
  - apply (si_keys _ _ _ _ _ I).
  - apply (si_tree _ _ _ _ _ I).
  - apply (si_open _ _ _ _ _ I).
  - apply (si_root _ _ _ _ _ I).
  - intros v u Hv Hp. apply in_or_app; left. apply (si_parent _ _ _ _ _ I v u Hv Hp).
  - destruct (si_level _ _ _ _ _ I) as [k [A [B [HAB [Hd [HA [HB _]]]]]]].
    rewrite Hq in HAB. destruct A as [|a A]; simpl in HAB.
    + exists (k + 1), rest, []. rewrite app_nil_r.
      assert (HB' : forall b, In b (cur :: rest) -> d b = k + 1)
        by (rewrite HAB; assumption).
      repeat split.
      * intros x Hx. apply in_app_or in Hx. destruct Hx as [Hx|[<-|[]]].
        -- specialize (Hd x Hx). lia.
        -- rewrite HB' by (left; reflexivity). lia.
      * intros a Ha. apply HB'. right; assumption.
      * intros b [].
      * intros _. apply HB'. left; reflexivity.
    + injection HAB as <- ->. exists k, A, B. repeat split.
      * intros x Hx. apply in_app_or in Hx. destruct Hx as [Hx|[<-|[]]].
        -- auto.
        -- rewrite HA by (left; reflexivity). lia.
      * intros a Ha. apply HA. right; assumption.
      * assumption.
      * intros _. apply HA. left; reflexivity.
  - intros _. apply in_or_app; right; left; reflexivity.
  - intros v Hv. rewrite (static_getNeighbors g g0 cur Hst) in Hv. split.
    + eapply In_getNeighbors_valid; eassumption.
    + apply (In_getNeighbors g0 cur v Hwf Hvcur). assumption.
  - intros u v Hu Hs. apply in_app_or in Hu. destruct Hu as [Hu|[<-|[]]].
    + destruct (si_closed _ _ _ _ _ I u v Hu Hs) as [H | [_ []]]. left; assumption.
    + right. split; [reflexivity|]. rewrite (static_getNeighbors g g0 cur Hst).
      destruct Hs as [[Hv _] Ha].
      apply (In_getNeighbors g0 cur v Hwf Hvcur). split; assumption.
  - intros x c Hx Hw. apply in_app_or in Hx. destruct Hx as [Hx|[<-|[]]].
    + apply (si_optimal _ _ _ _ _ I); assumption.
    + eapply side_head_optimal; eassumption.
Qed.

(** Looking at one neighbour of [cur]. *)
Lemma side_step (g : Grid) (sd : side) (done : list pos) (d : pos -> Z)
      (cur nb : pos) (pending : list pos) :
  static g = static g0 ->
  side_inv sd done d cur (nb :: pending) ->
  exists d', side_inv (bidi_discover g cur sd nb) done d' cur pending.
Proof.
  intros Hst I.
  assert (Hne : nb :: pending <> []) by discriminate.
  pose proof (si_cur _ _ _ _ _ I Hne) as Hcur.
  destruct (si_pending _ _ _ _ _ I nb (or_introl eq_refl)) as [Hvnb Hadj].
  destruct (si_level _ _ _ _ _ I) as [k [A [B [HAB [Hd [HA [HB Hk]]]]]]].
  specialize (Hk Hne).
  assert (Hlev : forall v, In v (done ++ sd_queue sd) -> d v <= k + 1).
  { intros v Hv. apply in_app_or in Hv. destruct Hv as [Hv|Hv].
    - specialize (Hd v Hv). lia.
    - rewrite HAB in Hv. apply in_app_or in Hv. destruct Hv as [Hv|Hv].
      + rewrite (HA v Hv). lia.
      + rewrite (HB v Hv). lia. }
  unfold bidi_discover. fold (key g nb). rewrite (static_key g g0 nb Hst).
  rewrite (static_isWall g g0 nb Hst).
  destruct (negb (isWall (node g0 nb)) && negb (set_has (key g0 nb) (sd_visited sd)))
    eqn:Etest.
  - (* [nb] is discovered *)
    apply andb_true_iff in Etest. destruct Etest as [Ew Eh].
    apply negb_true_iff in Ew, Eh.
    assert (Hnv : ~ In nb (done ++ sd_queue sd)).
    { intros H. apply (side_has _ _ _ _ _ nb I Hvnb) in H. congruence. }
    assert (Hopen : open g0 nb) by (split; assumption).
    assert (Hcn : cur <> nb).
    { intros ->. apply Hnv. apply in_or_app; left; assumption. }
    assert (Hold : forall p, In p (done ++ sd_queue sd) -> p <> nb)
      by (intros p Hp ->; contradiction).
    set (d' := fun p => if pos_eqb p nb then d cur + 1 else d p).
    assert (Hd'o : forall p, p <> nb -> d' p = d p).
    { intros p Hp. unfold d'. apply pos_eqb_neq in Hp. rewrite Hp. reflexivity. }
    assert (Hd'nb : d' nb = d cur + 1).
    { unfold d'. rewrite pos_eqb_refl. reflexivity. }
    set (sd' := mkSide (sd_queue sd ++ [nb]) (set_add (key g0 nb) (sd_visited sd))
                       (map_set (key g0 nb) cur (sd_parents sd))).
    assert (Hpar : forall p, valid g0 p -> par_of sd' p =
                     if pos_eqb p nb then Some cur else par_of sd p).
    { intros p Hp. unfold par_of, sd'. cbn [sd_parents map_set map_get].
      destruct (String.eqb (key g0 p) (key g0 nb)) eqn:E.
      - apply String.eqb_eq in E. apply key_inj in E; auto. subst p.
        rewrite pos_eqb_refl. reflexivity.
      - destruct (pos_eqb p nb) eqn:E'; [|reflexivity].
        apply pos_eqb_eq in E'. subst p. rewrite String.eqb_refl in E. discriminate. }
    assert (Hparo : forall p, In p (done ++ sd_queue sd) -> par_of sd' p = par_of sd p).
    { intros p Hp. rewrite Hpar by apply (si_open _ _ _ _ _ I p Hp).
      pose proof (Hold p Hp) as Hn. apply pos_eqb_neq in Hn. rewrite Hn. reflexivity. }
    assert (Happ : done ++ sd_queue sd' = (done ++ sd_queue sd) ++ [nb]).
    { unfold sd'. cbn [sd_queue]. rewrite app_assoc. reflexivity. }
    exists d'. fold sd'.
    constructor; rewrite ?Happ.
    + unfold sd'. cbn [sd_visited]. unfold set_add. rewrite Eh.
      rewrite (si_keys _ _ _ _ _ I), !map_app. reflexivity.
    + apply tree_snoc with (u := cur).
      * apply (search_tree_ext _ _ _ _ _ _ (si_tree _ _ _ _ _ I)).
        -- assumption.
        -- intros u v Hu Hv [Ho [Ha Hl]]. split; [assumption | split; [assumption|]].
           rewrite !Hd'o by auto. assumption.
      * assumption.
      * rewrite Hpar by assumption. rewrite pos_eqb_refl. reflexivity.
      * apply in_or_app; left; assumption.
      * split; [assumption | split; [assumption|]].
        rewrite Hd'nb, Hd'o by assumption. reflexivity.
    + intros p Hp. apply in_app_or in Hp. destruct Hp as [Hp|[<-|[]]].
      * apply (si_open _ _ _ _ _ I); assumption.
      * assumption.
    + rewrite Hd'o; [apply (si_root _ _ _ _ _ I)|].
      apply Hold. apply (side_root _ _ _ _ _ I).
    + intros v u Hv Hp. apply in_app_or in Hv. destruct Hv as [Hv|[<-|[]]].
      * rewrite Hparo in Hp by assumption. apply (si_parent _ _ _ _ _ I v u Hv Hp).
      * rewrite Hpar, pos_eqb_refl in Hp by assumption. injection Hp as <-. assumption.
    + exists k, A, (B ++ [nb]). unfold sd'. cbn [sd_queue]. repeat split.
      * rewrite HAB, <- app_assoc. reflexivity.
      * intros x Hx. rewrite Hd'o; [auto|]. apply Hold. apply in_or_app; left; assumption.
      * intros a Ha. rewrite Hd'o; [auto|]. apply Hold.
        rewrite HAB. apply in_or_app; right. apply in_or_app; left; assumption.
      * intros b Hb. apply in_app_or in Hb. destruct Hb as [Hb|[<-|[]]].
        -- rewrite Hd'o; [auto|]. apply Hold.
           rewrite HAB. apply in_or_app; right. apply in_or_app; right; assumption.
        -- rewrite Hd'nb. lia.
      * intros _. rewrite Hd'o by assumption. assumption.
    + intros _. assumption.
    + intros v Hv. apply (si_pending _ _ _ _ _ I). right; assumption.
    + intros u v Hu Hs.
      assert (Hun : u <> nb) by (apply Hold; apply in_or_app; left; assumption).
      destruct (si_closed _ _ _ _ _ I u v Hu Hs) as [[Hv Hdv] | [Hu' [Hv|Hv]]].
      * left. split; [apply in_or_app; left; assumption|].
        rewrite !Hd'o by auto. assumption.
      * subst v u. left. split; [apply in_or_app; right; left; reflexivity|].
        rewrite Hd'nb, Hd'o by assumption. lia.
      * right; split; assumption.
    + intros x c Hx Hw. rewrite Hd'o.
      * apply (si_optimal _ _ _ _ _ I); assumption.
      * apply Hold. apply in_or_app; left; assumption.
  - (* [nb] is skipped *)
    exists d. constructor; try apply I.
    + exists k, A, B. repeat split; try assumption. intros _; assumption.
    + intros _; assumption.
    + intros v Hv. apply (si_pending _ _ _ _ _ I). right; assumption.
    + intros u v Hu Hs.
      destruct (si_closed _ _ _ _ _ I u v Hu Hs) as [H | [Hu' [Hv|Hv]]].
      * left; assumption.
      * subst v u. left.
        destruct Hs as [[_ Hw] _]. rewrite Hw in Etest.
        simpl in Etest. apply negb_false_iff in Etest.
        apply (side_has _ _ _ _ _ nb I Hvnb) in Etest.
        split; [assumption|]. specialize (Hlev nb Etest). lia.
      * right; split; assumption.
Qed.

Lemma side_fold (g : Grid) (done : list pos) (cur : pos) (pending : list pos) :
  static g = static g0 ->
  forall sd d,
    side_inv sd done d cur pending ->
    exists d', side_inv (fold_left (bidi_discover g cur) pending sd) done d' cur [].
Proof.
  intros Hst. induction pending as [|nb pending IH]; intros sd d I; cbn [fold_left].
  - exists d; assumption.
  - destruct (side_step g _ _ _ _ _ _ Hst I) as [d' I']. apply (IH _ d' I').
Qed.

End BidiSide.

(* ================================================================== *)
(** * Where two breadth-first searches meet *)
(* ================================================================== *)

Lemma walk_rev (g : Grid) (s y : pos) (c : Z) :
  walk g unit_cost s y c -> walk g unit_cost y s c.
Proof.
  intros H; induction H as [Hs | u v c Hw IH [Hv Ha]].
  - constructor; assumption.
  - replace (c + unit_cost v) with (unit_cost u + c) by (unfold unit_cost; lia).
    apply walk_cons; [assumption | apply adjacent_sym; assumption | assumption].
Qed.

(** The grid is bipartite: the length of a walk has the parity of the
    Manhattan distance of its ends. *)
Lemma walk_parity (g : Grid) (s y : pos) (c : Z) :
  walk g unit_cost s y c ->
  Z.even (c + fst s + snd s + fst y + snd y) = true.
Proof.
  intros H; induction H as [Hs | u v c Hw IH [Hv Ha]].
  - replace (0 + fst s + snd s + fst s + snd s) with (2 * (fst s + snd s)) by lia.
    apply Z.even_mul.
  - unfold adjacent in Ha. unfold unit_cost.
    rewrite Z.even_spec in *. destruct IH as [k Hk].
    assert (C : (fst v = fst u - 1 /\ snd v = snd u) \/ (fst v = fst u + 1 /\ snd v = snd u) \/
                (fst v = fst u /\ snd v = snd u - 1) \/ (fst v = fst u /\ snd v = snd u + 1))
      by lia.
    destruct C as [[E1 E2]|[[E1 E2]|[[E1 E2]|[E1 E2]]]].
    + exists k. lia.
    + exists (k + 1). lia.
    + exists k. lia.
    + exists (k + 1). lia.
Qed.

Lemma walk_same_parity (g : Grid) (s y : pos) (c1 c2 : Z) :
  walk g unit_cost s y c1 -> walk g unit_cost s y c2 -> c1 <= c2 + 1 -> c1 <= c2.
Proof.
  intros H1 H2 Hle.
  pose proof (walk_parity g s y c1 H1) as P1. pose proof (walk_parity g s y c2 H2) as P2.
  rewrite Z.even_spec in P1, P2. destruct P1 as [k1 K1], P2 as [k2 K2]. lia.
Qed.

Section Meeting.

Variable g : Grid.
Variables s e : pos.
(** The cells each search has dequeued, and the radius up to which it has
    dequeued everything. *)
Variables A B : pos -> Prop.
Variables a b : Z.

Hypothesis ball_A : forall x c, walk g unit_cost s x c -> c < a -> A x.
Hypothesis ball_B : forall y c, walk g unit_cost e y c -> c < b -> B y.
Hypothesis apart : forall x y, A x -> B y -> x <> y /\ ~ adjacent x y.
Hypothesis end_not_A : ~ A e.
Hypothesis start_not_B : ~ B s.

Lemma meet_cross (y : pos) (c : Z) :
  walk g unit_cost s y c ->
  forall c', walk g unit_cost e y c' -> c' < b -> c + c' < a + b -> False.
Proof.
  intros H; induction H as [Hs | u v c Hw IH [Hv Ha]]; intros c' Hw' Hb Hsum.
  - apply start_not_B. apply (ball_B s c'); assumption.
  - unfold unit_cost in Hsum.
    assert (HBv : B v) by (apply (ball_B v c'); assumption).
    destruct (Z_lt_dec c a) as [Hca|Hca].
    + assert (HAu : A u) by (apply (ball_A u c); assumption).
      destruct (apart u v HAu HBv) as [_ Hna]. contradiction.
    + apply (IH (c' + unit_cost u)).
      * apply walk_step with (u := v); [assumption|].
        split; [apply (walk_open g unit_cost s u c Hw) | apply adjacent_sym; assumption].
      * unfold unit_cost. lia.
      * unfold unit_cost. lia.
Qed.

(** No path from start to end is shorter than the two radii together. *)
Lemma meet_bound (D : Z) : 0 <= a -> 0 <= b -> walk g unit_cost s e D -> a + b <= D.
Proof.
  intros Ha Hb Hw.
  destruct (Z_lt_dec D (a + b)) as [Hlt|Hge]; [exfalso | lia].
  destruct (Z.eq_dec b 0) as [Hb0|Hb0].
  - apply end_not_A. apply (ball_A e D); [assumption | lia].
  - apply (meet_cross e D Hw 0).
    + constructor. apply (walk_open g unit_cost s e D Hw).
    + lia.
    + lia.
Qed.

End Meeting.

Section TreeFacts.

Variable prev : pos -> option pos.
Variable link : pos -> pos -> Prop.
Variable r : pos.

Lemma search_tree_parent (vs : list pos) (v : pos) :
  search_tree prev link r vs -> In v vs ->
  (v = r /\ prev v = None) \/ (exists u, prev v = Some u /\ In u vs /\ link u v).
Proof.
  intros H; induction H as [Hs | vs v0 u Ht IH Hn Hp Hu Hl]; intros Hv.
  - destruct Hv as [<-|[]]. left; auto.
  - apply in_app_or in Hv. destruct Hv as [Hv|[<-|[]]].
    + destruct (IH Hv) as [H | [u' [H1 [H2 H3]]]]; [left; assumption|].
      right. exists u'. split; [assumption|]. split; [apply in_or_app; left|]; assumption.
    + right. exists u. split; [assumption|]. split; [apply in_or_app; left|]; assumption.
Qed.

(** What is known of every parent can be added to the links. *)
Lemma search_tree_strengthen (P : pos -> Prop) (vs : list pos) :
  search_tree prev link r vs ->
  (forall v u, In v vs -> prev v = Some u -> P u) ->
  search_tree prev (fun u v => link u v /\ P u) r vs.
Proof.
  intros H; induction H as [Hs | vs v0 u Ht IH Hn Hp Hu Hl]; intros HP.
  - constructor; assumption.
  - econstructor; try eassumption.
    + apply IH. intros v u' Hv. apply HP. apply in_or_app; left; assumption.
    + split; [assumption|]. apply (HP v0 u); [apply in_or_app; right; left; reflexivity|].
      assumption.
Qed.

Lemma trail_members (P : pos -> Prop) (v : pos) (p : list pos) :
  trail (fun u v => link u v /\ P u) r v p ->
  forall x, In x p -> x = v \/ P x.
Proof.
  intros H; induction H as [| u v p Ht IH [Hl HP]]; intros x Hx.
  - destruct Hx as [<-|[]]. left; reflexivity.
  - apply in_app_or in Hx. destruct Hx as [Hx|[<-|[]]].
    + right. destruct (IH x Hx) as [->|H]; assumption.
    + left; reflexivity.
Qed.

Lemma trail_last (v : pos) (p : list pos) : trail link r v p -> In v p.
Proof.
  intros H; destruct H; [left; reflexivity | apply in_or_app; right; left; reflexivity].
Qed.

End TreeFacts.

(* ================================================================== *)
(** * Correctness of bidirectional *)
(* ================================================================== *)

Lemma follow_ext (prev prev' : pos -> option pos) (fuel : nat) (cur : option pos)
      (acc : list pos) :
  (forall c, prev c = prev' c) -> follow prev fuel cur acc = follow prev' fuel cur acc.
Proof.
  intros H. revert cur acc. induction fuel as [|fuel IH]; intros [c|] acc; simpl; auto.
  rewrite H. apply IH.
Qed.

Lemma side_inv_cur (g0 : Grid) (r : pos) (sd : side) (done : list pos) (d : pos -> Z)
      (cur cur' : pos) :
  side_inv g0 r sd done d cur [] -> side_inv g0 r sd done d cur' [].
Proof.
  intros I. constructor; try apply I.
  - destruct (si_level _ _ _ _ _ _ _ I) as [k [A [B [H1 [H2 [H3 [H4 _]]]]]]].
    exists k, A, B. repeat split; try assumption. congruence.
  - congruence.
  - intros v [].
  - intros u v Hu Hs. destruct (si_closed _ _ _ _ _ _ _ I u v Hu Hs) as [H | [_ []]].
    left; assumption.
Qed.

(** The chain of parents of a discovered cell [m]. *)
Lemma side_chain (g0 g : Grid) (r : pos) (sd : side) (done : list pos) (d : pos -> Z)
      (cur0 m : pos) :
  wf_grid g0 -> open g0 r -> static g = static g0 ->
  side_inv g0 r sd done d cur0 [] -> In m (done ++ sd_queue sd) ->
  exists p, follow (fun c => map_get (key g c) (sd_parents sd)) (S (cells g)) (Some m) []
            = Some p /\
            is_path g0 r m p /\ NoDup p /\
            (forall x, In x p -> x = m \/ In x done) /\
            edge_count p = d m.
Proof.
  intros Hwf Hr Hst I Hm.
  pose proof (search_tree_strengthen _ _ _ (fun u => In u done) _
                (si_tree _ _ _ _ _ _ _ I) (si_parent _ _ _ _ _ _ _ I)) as Ht.
  destruct (follow_tree _ _ _ _ Ht m Hm) as [p [Hp1 [Hp2 [Hp3 Hp4]]]].
  exists p. repeat split.
  - rewrite (follow_ext _ (par_of g0 sd)).
    + rewrite Hp4; [rewrite app_nil_r; reflexivity|].
      rewrite (static_cells g g0 Hst).
      pose proof (NoDup_valid_length g0 _ (side_nodup _ _ _ _ _ _ _ I)
                    (fun q Hq => proj1 (si_open _ _ _ _ _ _ _ I q Hq))). lia.
    + intros c. unfold par_of. rewrite (static_key g g0 c Hst). reflexivity.
  - apply (trail_is_path g0 (fun u v => bidi_link g0 d u v /\ In u done)); try assumption.
    intros x y [[Ho [Ha _]] _]. split; assumption.
  - assumption.
  - intros x Hx. apply (trail_members _ _ _ _ _ Hp1 x Hx).
  - rewrite edge_count_cost by (eapply trail_nonempty; eassumption).
    change (fun _ : pos => 1) with unit_cost.
    rewrite (trail_cost (fun u v => bidi_link g0 d u v /\ In u done) unit_cost d r m p).
    + rewrite (si_root _ _ _ _ _ _ _ I). lia.
    + intros x y [[_ [_ Hl]] _]. unfold unit_cost. assumption.
    + assumption.
Qed.

Section BidiProof.

Variable g0 : Grid.
Variables s e : pos.
Hypothesis Hin : valid_input g0 s e.

(** Invariant of the main loop, stated for the direction [me] (rooted at
    [rm]) that is about to move and the opposite direction [other]. *)
Record pair_inv (st : state) (rm ro : pos) (me other : side) (doneM doneO : list pos)
       (dM dO : pos -> Z) : Prop := {
  pi_static : static (st_grid st) = static g0;
  pi_flag : forall p, valid g0 p ->
      (isVisited (node (st_grid st) p) = true <-> In p (st_visited st));
  pi_nodup : NoDup (st_visited st);
  pi_visited : forall p, In p (st_visited st) <-> In p doneM \/ In p doneO;
  pi_me : side_inv g0 rm me doneM dM rm [];
  pi_other : side_inv g0 ro other doneO dO ro [];
  pi_cross : forall x y, In x doneM -> In y doneO -> x <> y /\ ~ adjacent x y;
  pi_other_root : ~ In ro doneM;
  pi_my_root : ~ In rm doneO
}.

Lemma pair_inv_sym (st : state) (rm ro : pos) (me other : side) (doneM doneO : list pos)
      (dM dO : pos -> Z) :
  pair_inv st rm ro me other doneM doneO dM dO ->
  pair_inv st ro rm other me doneO doneM dO dM.
Proof.
  intros I. constructor; try apply I.
  - intros p. rewrite (pi_visited _ _ _ _ _ _ _ _ _ I). tauto.
  - intros x y Hx Hy. destruct (pi_cross _ _ _ _ _ _ _ _ _ I y x Hy Hx) as [H1 H2].
    split; [congruence|]. intros H. apply H2. apply adjacent_sym; assumption.
Qed.

(** One of the two blocks of the main loop. *)
Lemma half_correct (dedup : bool) (speed : Z) (st : state) (rm ro : pos) (me other : side)
      (doneM doneO : list pos) (dM dO : pos -> Z) :
  open g0 rm -> open g0 ro ->
  pair_inv st rm ro me other doneM doneO dM dO ->
  match bidi_half dedup s e speed me other st with
  | Continue me' st' =>
      (sd_queue me = [] /\ me' = me /\ st' = st) \/
      (exists cur rest dM', sd_queue me = cur :: rest /\
                            pair_inv st' rm ro me' other (doneM ++ [cur]) doneO dM' dO)
  | Meet m st' =>
      static (st_grid st') = static g0 /\
      (exists rest, sd_queue me = m :: rest) /\
      In m (doneO ++ sd_queue other)
  end.
Proof.
  intros Hrm Hro I. destruct Hin as [Hwf _ _].
  pose proof (pi_static _ _ _ _ _ _ _ _ _ I) as Hst.
  pose proof (pi_me _ _ _ _ _ _ _ _ _ I) as IM.
  pose proof (pi_other _ _ _ _ _ _ _ _ _ I) as IO.
  unfold bidi_half. destruct (sd_queue me) as [|cur rest] eqn:Hq.
  - left. auto.
  - assert (Hcur : In cur (doneM ++ sd_queue me)).
    { rewrite Hq. apply in_or_app; right; left; reflexivity. }
    assert (Hocur : open g0 cur) by apply (si_open _ _ _ _ _ _ _ IM cur Hcur).
    assert (Hvcur : valid g0 cur) by apply Hocur.
    assert (Hvcur' : valid (st_grid st) cur).
    { apply (static_valid g0); [symmetry|]; assumption. }
    set (g1 := grid_upd cur (set_isVisited true) (st_grid st)).
    assert (Hst1 : static g1 = static g0).
    { unfold g1. rewrite static_upd by auto. assumption. }
    match goal with
    | |- context [set_has (nodeKey (node (st_grid ?x) cur)) _] => set (st4 := x)
    end.
    assert (Hg4 : st_grid st4 = g1).
    { unfold st4. destruct (negb (pos_eqb cur s) && negb (pos_eqb cur e));
        destruct (dedup && includes _ cur); reflexivity. }
    assert (Hv4 : st_visited st4 =
                  if dedup && includes (st_visited st) cur then st_visited st
                  else st_visited st ++ [cur]).
    { unfold st4. destruct (negb (pos_eqb cur s) && negb (pos_eqb cur e));
        cbn [with_grid st_visited]; destruct (dedup && includes (st_visited st) cur);
        reflexivity. }
    clearbody st4. rewrite Hg4.
    fold (key g1 cur). rewrite (static_key g1 g0 cur Hst1).
    destruct (set_has (key g0 cur) (sd_visited other)) eqn:Ehas.
    + (* the two searches meet at [cur] *)
      split; [rewrite Hg4; assumption|]. split; [exists rest; reflexivity|].
      apply (side_has g0 Hwf ro _ _ _ _ _ cur IO Hvcur). assumption.
    + right.
      assert (HnO : ~ In cur (doneO ++ sd_queue other)).
      { intros H. apply (side_has g0 Hwf ro _ _ _ _ _ cur IO Hvcur) in H. congruence. }
      assert (HnM : ~ In cur doneM).
      { apply (NoDup_app_not_in _ _ _ (side_nodup _ _ _ _ _ _ _ IM)).
        rewrite Hq. left; reflexivity. }
      assert (Hnv : ~ In cur (st_visited st)).
      { intros H. apply (pi_visited _ _ _ _ _ _ _ _ _ I) in H. destruct H as [H|H].
        - contradiction.
        - apply HnO. apply in_or_app; left; assumption. }
      assert (Hv4' : st_visited st4 = st_visited st ++ [cur]).
      { rewrite Hv4. apply includes_not_In in Hnv. rewrite Hnv, andb_false_r. reflexivity. }
      pose proof (side_pop g0 Hwf rm g1 _ _ _ _ cur rest Hst1 IM Hq) as IM1.
      destruct (side_fold g0 Hwf rm g1 _ cur _ Hst1 _ _ IM1) as [dM' IM2].
      apply (side_inv_cur _ _ _ _ _ _ rm) in IM2.
      exists cur, rest, dM'. split; [reflexivity|].
      constructor; rewrite ?Hg4, ?Hv4'.
      * assumption.
      * intros p Hp. rewrite in_app_iff. simpl. unfold g1.
        destruct (pos_eq_dec cur p) as [<-|Hn].
        -- rewrite node_upd_same by auto. simpl. tauto.
        -- rewrite node_upd_other by assumption.
           rewrite (pi_flag _ _ _ _ _ _ _ _ _ I p Hp).
           split; [tauto | intros [H|[H|[]]]; [assumption | congruence]].
      * apply NoDup_app; [apply (pi_nodup _ _ _ _ _ _ _ _ _ I)
                         | repeat constructor; simpl; tauto |].
        intros x Hx [<-|[]]. contradiction.
      * intros p. rewrite !in_app_iff, (pi_visited _ _ _ _ _ _ _ _ _ I). simpl. tauto.
      * assumption.
      * assumption.
      * intros x y Hx Hy. apply in_app_or in Hx. destruct Hx as [Hx|[<-|[]]].
        -- apply (pi_cross _ _ _ _ _ _ _ _ _ I); assumption.
        -- split.
           ++ intros ->. apply HnO. apply in_or_app; left; assumption.
           ++ intros Ha. apply HnO.
              destruct (si_closed _ _ _ _ _ _ _ IO y cur Hy) as [[H _] | [_ []]].
              ** split; [assumption | apply adjacent_sym; assumption].
              ** assumption.
      * intros H. apply in_app_or in H. destruct H as [H|[<-|[]]].
        -- apply (pi_other_root _ _ _ _ _ _ _ _ _ I); assumption.
        -- apply HnO. apply (side_root _ _ _ _ _ _ _ IO).
      * apply (pi_my_root _ _ _ _ _ _ _ _ _ I).
Qed.


Lemma edge_count_nonneg (p : list pos) : p <> [] -> 0 <= edge_count p.
Proof. unfold edge_count. destruct p; [congruence|]. simpl length. lia. Qed.

Lemma unit_walk_nonneg (x y : pos) (c : Z) : walk g0 unit_cost x y c -> 0 <= c.
Proof. apply walk_nonneg. intros p _. unfold unit_cost. lia. Qed.

(** The radius up to which a direction has dequeued every cell, as seen
    from a discovered cell [m]: the depth of [m] when [m] heads the queue,
    and otherwise the depth of its parent (0 for the root). *)
Lemma side_radius (r : pos) (sd : side) (done : list pos) (d : pos -> Z) (m : pos) :
  open g0 r ->
  side_inv g0 r sd done d r [] -> In m (done ++ sd_queue sd) -> 0 <= d m ->
  exists a, 0 <= a /\ d m <= a + 1 /\
            ((exists rest, sd_queue sd = m :: rest) -> d m = a) /\
            (forall x c, walk g0 unit_cost r x c -> c < a -> In x done) /\
            (~ In m done -> m <> r ->
             exists w, par_of g0 sd m = Some w /\ In w done /\ adjacent w m).
Proof.
  intros Hr I Hm Hd. destruct Hin as [Hwf _ _].
  assert (Hpar : m <> r -> exists w, par_of g0 sd m = Some w /\ In w done /\ adjacent w m /\
                                     d m = d w + 1).
  { intros Hne.
    destruct (search_tree_parent _ _ _ _ m (si_tree _ _ _ _ _ _ _ I) Hm)
      as [[H _] | [w [Hw [_ [_ [Ha Hl]]]]]]; [contradiction|].
    exists w. repeat split; try assumption. apply (si_parent _ _ _ _ _ _ _ I m w Hm Hw). }
  destruct (sd_queue sd) as [|q rest] eqn:Hq.
  - (* nothing is queued: [m] has been dequeued *)
    rewrite app_nil_r in Hm. exists (d m).
    split; [lia|]. split; [lia|]. split; [|split].
    + intros [rest' H]; discriminate.
    + intros x c Hw Hc. apply (side_ball g0 r sd done d r m x c I); auto.
    + intros Hn; contradiction.
  - destruct (pos_eq_dec q m) as [->|Hqm].
    + exists (d m).
      split; [lia|]. split; [lia|]. split; [|split].
      * reflexivity.
      * intros x c Hw Hc. apply (side_ball g0 r sd done d r m x c I); auto.
        right. exists rest. assumption.
      * intros Hn Hne. destruct (Hpar Hne) as [w [H1 [H2 [H3 _]]]]. exists w; auto.
    + destruct (pos_eq_dec m r) as [->|Hne].
      * exists 0. rewrite (si_root _ _ _ _ _ _ _ I).
        split; [lia|]. split; [lia|]. split; [|split].
        -- intros [rest' H]. congruence.
        -- intros x c Hw Hc. pose proof (unit_walk_nonneg _ _ _ Hw). lia.
        -- intros _ H; congruence.
      * destruct (Hpar Hne) as [w [H1 [H2 [H3 H4]]]].
        assert (Hdw : 0 <= d w).
        { destruct (side_chain g0 g0 r sd done d r w Hwf Hr eq_refl I)
            as [p [_ [Hp [_ [_ Hc]]]]].
          - apply in_or_app; left; assumption.
          - rewrite <- Hc. apply edge_count_nonneg. eapply is_path_nonempty; eassumption. }
        exists (d w).
        split; [lia|]. split; [lia|]. split; [|split].
        -- intros [rest' Hx]. congruence.
        -- intros x c Hw Hc. apply (side_ball g0 r sd done d r w x c I); auto.
        -- intros _ _. exists w; auto.
Qed.

(** The path through a cell that both directions have discovered, one of
    them having it at the head of its queue. *)
Lemma meeting_path (st : state) (g : Grid) (ss es : side) (doneS doneE : list pos)
      (dS dE : pos -> Z) (m : pos) :
  pair_inv st s e ss es doneS doneE dS dE ->
  static g = static g0 ->
  In m (doneS ++ sd_queue ss) -> In m (doneE ++ sd_queue es) ->
  (exists rest, sd_queue ss = m :: rest) \/ (exists rest, sd_queue es = m :: rest) ->
  exists p, reconstructBidirectionalPath g m (sd_parents ss) (sd_parents es) = Some p /\
            is_path g0 s e p /\ NoDup p /\
            forall q, is_path g0 s e q -> edge_count p <= edge_count q.
Proof.
  intros I Hst HmS HmE Hhead.
  destruct Hin as [Hwf Hos Hoe].
  pose proof (pi_me _ _ _ _ _ _ _ _ _ I) as IS.
  pose proof (pi_other _ _ _ _ _ _ _ _ _ I) as IE.
  destruct (side_chain g0 g s ss doneS dS s m Hwf Hos Hst IS HmS)
    as [pS [HfS [HpS [HndS [HmemS HcS]]]]].
  assert (HdS : 0 <= dS m).
  { rewrite <- HcS. apply edge_count_nonneg. eapply is_path_nonempty; eassumption. }
  assert (HdE : 0 <= dE m).
  { destruct (side_chain g0 g e es doneE dE e m Hwf Hoe Hst IE HmE) as [p [_ [Hp [_ [_ Hc]]]]].
    rewrite <- Hc. apply edge_count_nonneg. eapply is_path_nonempty; eassumption. }
  destruct (side_radius s ss doneS dS m Hos IS HmS HdS) as [a [Ha [HaS [HheadS [HballS HparS]]]]].
  destruct (side_radius e es doneE dE m Hoe IE HmE HdE) as [b [Hb [HbE [HheadE [HballE HparE]]]]].
  (* the meeting cell has not been dequeued by the end side *)
  assert (HmnE : ~ In m doneE).
  { intros HmdE. destruct Hhead as [[rest Hq] | [rest Hq]].
    - assert (HmnS : ~ In m doneS).
      { apply (NoDup_app_not_in _ _ _ (side_nodup _ _ _ _ _ _ _ IS)).
        rewrite Hq. left; reflexivity. }
      destruct (pos_eq_dec m s) as [->|Hms].
      + apply (pi_my_root _ _ _ _ _ _ _ _ _ I). assumption.
      + destruct (HparS HmnS Hms) as [w [_ [Hw Hadj]]].
        destruct (pi_cross _ _ _ _ _ _ _ _ _ I w m Hw HmdE) as [_ Hna]. contradiction.
    - apply (NoDup_app_not_in _ _ m (side_nodup _ _ _ _ _ _ _ IE));
        [rewrite Hq; left; reflexivity | assumption]. }
  (* lower bound on every path *)
  assert (Hlow : forall D, walk g0 unit_cost s e D -> a + b <= D).
  { intros D HD.
    apply (meet_bound g0 s e (fun x => In x doneS) (fun y => In y doneE) a b); try assumption.
    - apply (pi_cross _ _ _ _ _ _ _ _ _ I).
    - apply (pi_other_root _ _ _ _ _ _ _ _ _ I).
    - apply (pi_my_root _ _ _ _ _ _ _ _ _ I). }
  assert (Hsum : dS m + dE m <= a + b + 1).
  { destruct Hhead as [Hq | Hq].
    - rewrite (HheadS Hq). lia.
    - rewrite (HheadE Hq). lia. }
  assert (Hopt : forall p, is_path g0 s e p -> edge_count p = dS m + dE m ->
                 forall q, is_path g0 s e q -> edge_count p <= edge_count q).
  { intros p Hp Hc q Hq.
    pose proof (is_path_walk g0 unit_cost s e p Hp) as Wp.
    pose proof (is_path_walk g0 unit_cost s e q Hq) as Wq.
    rewrite (edge_count_cost p), (edge_count_cost q) in *
      by (eapply is_path_nonempty; eassumption).
    change (fun _ : pos => 1) with unit_cost in *.
    apply (walk_same_parity g0 s e _ _ Wp Wq).
    specialize (Hlow _ Wq). lia. }
  unfold reconstructBidirectionalPath.
  rewrite start_chain_follow, HfS, end_chain_follow.
  fold (key g m). rewrite (static_key g g0 m Hst). fold (par_of g0 es m).
  destruct (pos_eq_dec m e) as [->|Hme].
  - (* the end itself *)
    destruct (search_tree_parent _ _ _ _ e (si_tree _ _ _ _ _ _ _ IE) HmE)
      as [[_ Hnone] | [w [Hw [Hwin [_ [_ Hl]]]]]].
    + rewrite Hnone. cbn [follow rev]. rewrite !app_nil_r.
      eexists; split; [reflexivity|]. split; [assumption|]. split; [assumption|].
      apply Hopt; [assumption|]. rewrite (si_root _ _ _ _ _ _ _ IE). lia.
    + pose proof (si_root _ _ _ _ _ _ _ IE) as H0.
      assert (0 <= dE w).
      { destruct (side_chain g0 g e es doneE dE e w Hwf Hoe Hst IE Hwin)
          as [p [_ [Hp [_ [_ Hc]]]]].
        rewrite <- Hc. apply edge_count_nonneg. eapply is_path_nonempty; eassumption. }
      lia.
  - destruct (HparE HmnE Hme) as [w [Hw [HwE Hadj]]].
    assert (HwinE : In w (doneE ++ sd_queue es)) by (apply in_or_app; left; assumption).
    destruct (side_chain g0 g e es doneE dE e w Hwf Hoe Hst IE HwinE)
      as [pE [HfE [HpE [HndE [HmemE HcE]]]]].
    rewrite Hw, HfE. cbn [app].
    assert (HdEm : dE m = dE w + 1).
    { destruct (search_tree_parent _ _ _ _ m (si_tree _ _ _ _ _ _ _ IE) HmE)
        as [[H _] | [w' [Hw' [_ [_ [_ Hl]]]]]]; [contradiction|].
      rewrite Hw in Hw'. injection Hw' as <-. assumption. }
    assert (Hpath : is_path g0 s e (pS ++ rev pE)).
    { apply (is_path_app g0 s m w e); [assumption | apply adjacent_sym; assumption|].
      apply is_path_rev; assumption. }
    eexists; split; [reflexivity|]. split; [assumption|]. split.
    + apply NoDup_app; [assumption | apply NoDup_rev; assumption|].
      intros x HxS HxE. apply in_rev in HxE.
      assert (HxdE : In x doneE) by (destruct (HmemE x HxE) as [->|H]; assumption).
      destruct (HmemS x HxS) as [->|HxdS]; [contradiction|].
      destruct (pi_cross _ _ _ _ _ _ _ _ _ I x x HxdS HxdE) as [H _]. congruence.
    + apply Hopt; [assumption|].
      unfold edge_count in *. rewrite length_app, length_rev. lia.
Qed.


Lemma pair_done_bound (st : state) (rm ro : pos) (me other : side) (doneM doneO : list pos)
      (dM dO : pos -> Z) :
  pair_inv st rm ro me other doneM doneO dM dO ->
  (length doneM <= cells g0)%nat /\ (length doneO <= cells g0)%nat.
Proof.
  intros I. split.
  - pose proof (pi_me _ _ _ _ _ _ _ _ _ I) as IM.
    apply NoDup_valid_length.
    + apply (NoDup_app_remove_r _ _ (side_nodup _ _ _ _ _ _ _ IM)).
    + intros p Hp. apply (si_open _ _ _ _ _ _ _ IM p). apply in_or_app; left; assumption.
  - pose proof (pi_other _ _ _ _ _ _ _ _ _ I) as IO.
    apply NoDup_valid_length.
    + apply (NoDup_app_remove_r _ _ (side_nodup _ _ _ _ _ _ _ IO)).
    + intros p Hp. apply (si_open _ _ _ _ _ _ _ IO p). apply in_or_app; left; assumption.
Qed.

(** What the main loop hands to the end of [bidirectional]. *)
Definition bidi_post (res : option pos * side * side * state) : Prop :=
  match res with
  | (Some m, ss, es, st) =>
      exists p, reconstructBidirectionalPath (st_grid st) m (sd_parents ss) (sd_parents es)
                = Some p /\
                is_path g0 s e p /\ NoDup p /\
                forall q, is_path g0 s e q -> edge_count p <= edge_count q
  | (None, _, _, st) =>
      ~ connected g0 s e /\ NoDup (st_visited st) /\
      forall p, valid g0 p -> (isVisited (node (st_grid st) p) = true <-> In p (st_visited st))
  end.

Lemma bidi_loop_correct (speed : Z) (fuel : nat) :
  forall st ss es doneS doneE dS dE,
    pair_inv st s e ss es doneS doneE dS dE ->
    (2 * cells g0 + 1 <= fuel + length doneS + length doneE)%nat ->
    exists res, bidi_loop fuel s e speed ss es st = Returned res /\ bidi_post res.
Proof.
  induction fuel as [|fuel IH]; intros st ss es doneS doneE dS dE I Hfuel.
  { destruct (pair_done_bound _ _ _ _ _ _ _ _ _ I). simpl in Hfuel. lia. }
  destruct Hin as [Hwf Hos Hoe].
  pose proof (pi_me _ _ _ _ _ _ _ _ _ I) as IS.
  pose proof (pi_other _ _ _ _ _ _ _ _ _ I) as IE.
  assert (Hbody : sd_queue ss <> [] \/ sd_queue es <> [] ->
    exists res,
      match bidi_half false s e speed ss es st with
      | Meet m st1 => Returned (Some m, ss, es, st1)
      | Continue ss1 st1 =>
          match bidi_half true s e speed es ss1 st1 with
          | Meet m st2 => Returned (Some m, ss1, es, st2)
          | Continue es1 st2 => bidi_loop fuel s e speed ss1 es1 st2
          end
      end = Returned res /\ bidi_post res).
  { intros Hnonempty.
    pose proof (half_correct false speed st s e ss es _ _ _ _ Hos Hoe I) as H1.
    destruct (bidi_half false s e speed ss es st) as [m st1 | ss1 st1].
    - (* the start side meets the end side *)
      destruct H1 as [Hst1 [[rest Hq] HmE]].
      eexists; split; [reflexivity|]. cbn [bidi_post].
      apply (meeting_path st (st_grid st1) ss es doneS doneE dS dE m I Hst1).
      + rewrite Hq. apply in_or_app; right; left; reflexivity.
      + assumption.
      + left. exists rest; assumption.
    - assert (H1' : exists doneS1 dS1,
                pair_inv st1 s e ss1 es doneS1 doneE dS1 dE /\
                (length doneS <= length doneS1)%nat /\
                (sd_queue ss <> [] -> length doneS1 = S (length doneS))).
      { destruct H1 as [[Hq [-> ->]] | [cur [rest [dS1 [Hq I1]]]]].
        - exists doneS, dS. split; [assumption|]. split; [lia | congruence].
        - exists (doneS ++ [cur]), dS1. rewrite length_app. simpl.
          split; [assumption|]. split; lia. }
      destruct H1' as [doneS1 [dS1 [I1 [Hlen1 Hlen1']]]].
      pose proof (half_correct true speed st1 e s es ss1 _ _ _ _ Hoe Hos
                    (pair_inv_sym _ _ _ _ _ _ _ _ _ I1)) as H2.
      destruct (bidi_half true s e speed es ss1 st1) as [m st2 | es1 st2].
      + (* the end side meets the start side *)
        destruct H2 as [Hst2 [[rest Hq] HmS]].
        eexists; split; [reflexivity|]. cbn [bidi_post].
        apply (meeting_path st1 (st_grid st2) ss1 es doneS1 doneE dS1 dE m I1 Hst2).
        * assumption.
        * rewrite Hq. apply in_or_app; right; left; reflexivity.
        * right. exists rest; assumption.
      + assert (H2' : exists doneE1 dE1,
                  pair_inv st2 s e ss1 es1 doneS1 doneE1 dS1 dE1 /\
                  (length doneE <= length doneE1)%nat /\
                  (sd_queue es <> [] -> length doneE1 = S (length doneE))).
        { destruct H2 as [[Hq [-> ->]] | [cur [rest [dE1 [Hq I2]]]]].
          - exists doneE, dE. split; [assumption|]. split; [lia | congruence].
          - exists (doneE ++ [cur]), dE1. rewrite length_app. simpl.
            split; [apply pair_inv_sym; assumption|]. split; lia. }
        destruct H2' as [doneE1 [dE1 [I2 [Hlen2 Hlen2']]]].
        apply (IH _ _ _ _ _ _ _ I2).
        destruct Hnonempty as [Hn|Hn]; [specialize (Hlen1' Hn) | specialize (Hlen2' Hn)]; lia. }
  cbn [bidi_loop].
  destruct (sd_queue ss) as [|a qa] eqn:HqS.
  - destruct (sd_queue es) as [|b qb] eqn:HqE.
    + (* both queues are empty *)
      eexists; split; [reflexivity|]. cbn [bidi_post].
      split; [|split; [apply (pi_nodup _ _ _ _ _ _ _ _ _ I) | apply (pi_flag _ _ _ _ _ _ _ _ _ I)]].
      intros Hc. destruct (connected_walk g0 unit_cost s e Hc) as [c Hw].
      apply (pi_other_root _ _ _ _ _ _ _ _ _ I).
      apply (closed_reach g0 unit_cost s (fun x => In x doneS)) with (v := e) (c := c).
      * pose proof (side_root _ _ _ _ _ _ _ IS) as H. rewrite HqS, app_nil_r in H. assumption.
      * intros u v Hu Hs.
        destruct (si_closed _ _ _ _ _ _ _ IS u v Hu Hs) as [[H _] | [_ []]].
        rewrite HqS, app_nil_r in H. assumption.
      * assumption.
    + apply Hbody. right; discriminate.
  - apply Hbody. left; discriminate.
Qed.

(** [bidirectional] returns, and its result is either a shortest path
    (fewest edges) or the failure record when no open path exists. *)
Lemma bidirectional_correct (speed : Z) :
  exists out, bidirectional g0 s e speed = Returned out /\
              search_post g0 s e (Some edge_count) out.
Proof.
  unfold bidirectional, resolve.
  destruct Hin as [Hwf [Hvs Hws] [Hve Hwe]].
  rewrite (valid_get _ s) by (apply valid_reset; assumption).
  rewrite (valid_get _ e) by (apply valid_reset; assumption).
  set (g1 := reset_grid bidi_reset g0).
  assert (Hst1 : static g1 = static g0) by (apply static_reset; intros n; reflexivity).
  fold (key g1 s). fold (key g1 e).
  rewrite (static_key g1 g0 s Hst1), (static_key g1 g0 e Hst1).
  assert (I0 : pair_inv (mkState g1 [] []) s e
                        (mkSide [s] (set_add (key g0 s) []) [])
                        (mkSide [e] (set_add (key g0 e) []) [])
                        [] [] (fun _ => 0) (fun _ => 0)).
  { constructor; simpl; try tauto.
    - intros p Hp. unfold g1. rewrite node_reset by assumption. simpl.
      split; [discriminate | tauto].
    - constructor.
    - apply side_init. split; assumption.
    - apply side_init. split; assumption. }
  destruct (bidi_loop_correct speed (S (2 * cells g0)) _ _ _ _ _ _ _ I0)
    as [[[[m ss'] es'] st'] [Hrun Hpost]].
  { simpl. lia. }
  rewrite Hrun. destruct m as [m|]; cbn [bidi_post] in Hpost.
  - destruct Hpost as [p [Hrec [Hpath [Hnd Hopt]]]]. rewrite Hrec.
    eexists; split; [reflexivity|]. split; [apply stats_ok_found|]. left.
    split; [reflexivity|]. split; [assumption|]. split; assumption.
  - destruct Hpost as [Hnc [Hnd Hflag]].
    eexists; split; [reflexivity|]. split; [apply stats_ok_not_found|]. right.
    split; [reflexivity|]. split; [assumption|].
    split; [reflexivity|]. split; assumption.
Qed.

End BidiProof.


(* ================================================================== *)
(** * The six searches together *)
(* ================================================================== *)

(** ** Checking an input by computation *)

(** Every node of a row records the indices [r], [c], [c + 1], ... and has a
    weight of at least 1 (the interface sets 1 or 5). *)
Fixpoint row_okb (r c : nat) (ns : list GridNode) : bool :=
  match ns with
  | [] => true
  | n :: ns' =>
      (row n =? Z.of_nat r) && (col n =? Z.of_nat c) && (1 <=? weight n) &&
      row_okb r (S c) ns'
  end.

Fixpoint rows_okb (w r : nat) (g : Grid) : bool :=
  match g with
  | [] => true
  | x :: g' => (length x =? w)%nat && row_okb r 0 x && rows_okb w (S r) g'
  end.

Definition grid_okb (g : Grid) : bool := rows_okb (length (hd [] g)) 0 g.

Definition openb (g : Grid) (p : pos) : bool :=
  match grid_get g p with
  | Some n => negb (isWall n)
  | None => false
  end.

Definition search_inputb (g : Grid) (s e : pos) : bool :=
  grid_okb g && openb g s && openb g e.

Definition adjacentb (p q : pos) : bool :=
  Z.abs (fst p - fst q) + Z.abs (snd p - snd q) =? 1.

Fixpoint is_pathb (g : Grid) (s e : pos) (l : list pos) : bool :=
  match l with
  | [] => false
  | p :: l' =>
      pos_eqb p s && openb g p &&
      match l' with
      | [] => pos_eqb p e
      | q :: _ => adjacentb p q && is_pathb g q e l'
      end
  end.

(** The searches that read [weight]. *)
Definition uses_weights (a : Algorithm) : bool :=
  match a with
  | Dijkstra | Astar => true
  | _ => false
  end.

(** The inputs of a search in the data model: a well-formed grid, start and
    end inside it and not walls and, for the searches that read the weights,
    every weight at least 1 (the interface sets 1 or 5). *)
Definition search_input (a : Algorithm) (g : Grid) (s e : pos) : Prop :=
  valid_input g s e /\
  (uses_weights a = true -> forall p, open g p -> 1 <= weight (node g p)).

(** [p] is a cheapest open path from [s] to [e] for the measure [cost]. *)
Definition shortest (cost : list pos -> Z) (g : Grid) (s e : pos) (p : list pos) : Prop :=
  is_path g s e p /\ forall q, is_path g s e q -> cost p <= cost q.

(** The measure each search minimises, if any. *)
Definition path_cost (a : Algorithm) (g : Grid) : option (list pos -> Z) :=
  match a with
  | Dijkstra | Astar => Some (weight_sum g)
  | Bfs | Bidirectional => Some edge_count
  | Dfs | Greedy => None
  end.

Lemma row_okb_nth (r : nat) (ns : list GridNode) :
  forall c, row_okb r c ns = true ->
  forall j n, nth_error ns j = Some n ->
  row n = Z.of_nat r /\ col n = Z.of_nat (c + j) /\ 1 <= weight n.
Proof.
  induction ns as [|x ns IH]; intros c H j n Hj.
  - destruct j; discriminate.
  - cbn [row_okb] in H. rewrite !andb_true_iff in H.
    destruct H as [[[Hr Hc] Hw] Hrest].
    destruct j as [|j]; cbn [nth_error] in Hj.
    + injection Hj as <-. rewrite Nat.add_0_r.
      apply Z.eqb_eq in Hr, Hc. apply Z.leb_le in Hw. auto.
    + replace (c + S j)%nat with (S c + j)%nat by lia.
      apply (IH (S c) Hrest j n Hj).
Qed.

Lemma rows_okb_nth (w : nat) (g : Grid) :
  forall r, rows_okb w r g = true ->
  forall i x, nth_error g i = Some x ->
  length x = w /\ row_okb (r + i) 0 x = true.
Proof.
  induction g as [|y g IH]; intros r H i x Hi.
  - destruct i; discriminate.
  - cbn [rows_okb] in H. rewrite !andb_true_iff in H.
    destruct H as [[Hl Hrow] Hrest].
    destruct i as [|i]; cbn [nth_error] in Hi.
    + injection Hi as <-. rewrite Nat.add_0_r. apply Nat.eqb_eq in Hl. auto.
    + replace (r + S i)%nat with (S r + i)%nat by lia.
      apply (IH (S r) Hrest i x Hi).
Qed.

Lemma grid_okb_get (g : Grid) (p : pos) (n : GridNode) :
  grid_okb g = true -> grid_get g p = Some n ->
  row n = fst p /\ col n = snd p /\ 1 <= weight n.
Proof.
  unfold grid_okb, grid_get. intros Hok H.
  destruct ((0 <=? fst p) && (0 <=? snd p)) eqn:Hb; [|discriminate].
  apply andb_true_iff in Hb. destruct Hb as [Hr Hc].
  apply Z.leb_le in Hr, Hc.
  destruct (nth_error g (Z.to_nat (fst p))) as [x|] eqn:Hx; [|discriminate].
  destruct (rows_okb_nth _ g 0%nat Hok _ x Hx) as [_ Hrow].
  destruct (row_okb_nth _ x 0%nat Hrow _ n H) as (H1 & H2 & H3).
  cbn [Nat.add] in H1, H2. rewrite Z2Nat.id in H1, H2 by assumption. auto.
Qed.

Lemma grid_okb_wf (g : Grid) : grid_okb g = true -> wf_grid g.
Proof.
  intros Hok. split.
  - intros r Hr. apply In_nth_error in Hr. destruct Hr as [i Hi].
    apply (rows_okb_nth _ g 0%nat Hok i r Hi).
  - intros p n H. destruct (grid_okb_get g p n Hok H) as (H1 & H2 & _). auto.
Qed.

Lemma openb_open (g : Grid) (p : pos) : openb g p = true <-> open g p.
Proof.
  unfold openb, open, valid, node.
  destruct (grid_get g p) as [n|].
  - rewrite negb_true_iff. split; [intros H; split; [discriminate|assumption]|tauto].
  - split; [discriminate|]. intros [H _]. congruence.
Qed.

Lemma search_inputb_valid (g : Grid) (s e : pos) :
  search_inputb g s e = true -> valid_input g s e.
Proof.
  unfold search_inputb. rewrite !andb_true_iff. intros [[Hg Hs] He].
  constructor; [apply grid_okb_wf; assumption | apply openb_open; assumption ..].
Qed.

Lemma search_inputb_weights (g : Grid) (s e : pos) :
  search_inputb g s e = true -> forall p, open g p -> 1 <= weight (node g p).
Proof.
  unfold search_inputb. rewrite !andb_true_iff. intros [[Hg Hs] He].
  intros p [Hv _]. apply (grid_okb_get g p (node g p) Hg). apply valid_get; assumption.
Qed.

Lemma search_inputb_sound (g : Grid) (s e : pos) :
  search_inputb g s e = true -> forall a, search_input a g s e.
Proof.
  intros H a. split; [apply search_inputb_valid; assumption|].
  intros _. apply search_inputb_weights with (s := s) (e := e). assumption.
Qed.

Lemma is_pathb_sound (g : Grid) (l : list pos) :
  forall s e, is_pathb g s e l = true -> is_path g s e l.
Proof.
  induction l as [|p l IH]; intros s e H; [discriminate|].
  cbn [is_pathb] in H. rewrite !andb_true_iff in H. destruct H as [[Hp Ho] H].
  apply pos_eqb_eq in Hp. subst p. apply openb_open in Ho.
  destruct l as [|q l'].
  - apply pos_eqb_eq in H. subst e. constructor; assumption.
  - apply andb_true_iff in H. destruct H as [Ha H].
    apply (path_cons g s q e); [assumption| |apply IH; assumption].
    unfold adjacentb in Ha. apply Z.eqb_eq in Ha. exact Ha.
Qed.

(** ** One statement for the six *)

Lemma algorithms_correct (a : Algorithm) (g : Grid) (s e : pos) (speed : Z) :
  search_input a g s e ->
  exists out, algorithms a g s e speed = Returned out /\
              search_post g s e (path_cost a g) out.
Proof.
  intros [Hin Hw].
  destruct a; cbn [algorithms path_cost]; cbn [uses_weights] in Hw.
  - apply dijkstra_correct; [assumption|].
    intros p Hp. unfold weight_of. specialize (Hw eq_refl p Hp). lia.
  - apply astar_correct; [assumption|]. apply Hw. reflexivity.
  - apply bfs_correct; assumption.
  - apply dfs_correct; assumption.
  - apply greedy_correct; assumption.
  - apply bidirectional_correct; assumption.
Qed.

Lemma found_not_failed (g : Grid) (s e : pos) (c : option (list pos -> Z))
      (out : state * AlgorithmResult) :
  search_post g s e c out -> connected g s e -> found_post g s e c (snd out).
Proof.
  intros [_ [H|[_ [H _]]]] Hc; [assumption|contradiction].
Qed.

Lemma failed_not_found (g : Grid) (s e : pos) (c : option (list pos -> Z))
      (out : state * AlgorithmResult) :
  search_post g s e c out -> pathFound (stats (snd out)) = false ->
  failed_post g s e (fst out) (snd out).
Proof.
  intros [_ [[H _]|H]] Hf; [congruence|assumption].
Qed.

Lemma run_optimal (c : list pos -> Z) (g : Grid) (s e : pos)
      (run : outcome (state * AlgorithmResult)) :
  (exists out, run = Returned out /\ search_post g s e (Some c) out) ->
  connected g s e ->
  exists st r, run = Returned (st, r) /\
               pathFound (stats r) = true /\ shortest c g s e (path r).
Proof.
  intros [[st r] [Hrun Hpost]] Hcon.
  apply found_not_failed in Hpost; [|assumption].
  destruct Hpost as (Hf & Hp & _ & Hmin).
  exists st, r. split; [assumption|]. split; [assumption|]. split; assumption.
Qed.

(** Consecutive cells of a path are adjacent. *)
Lemma is_path_adjacent (g : Grid) (s e : pos) (l : list pos) :
  is_path g s e l ->
  forall i p q, nth_error l i = Some p -> nth_error l (S i) = Some q -> adjacent p q.
Proof.
  intros H; induction H as [s Hs | s u e l Hs Ha Hl IH]; intros i p q Hp Hq.
  - destruct i as [|i]; cbn in Hq; [discriminate | destruct i; discriminate].
  - destruct i as [|i].
    + cbn in Hp, Hq. injection Hp as <-.
      destruct (is_path_hd g u e l Hl) as [t ->]. cbn in Hq. injection Hq as <-. assumption.
    + cbn in Hp. change (nth_error l (S i) = Some q) in Hq. apply (IH i p q Hp Hq).
Qed.

(** ** The statistics of a result, for any input *)

Ltac shape IH :=
  repeat match goal with
  | H : Returned _ = Returned _ |- _ =>
      injection H as <-; first [apply stats_ok_found | apply stats_ok_not_found]
  | H : OutOfFuel = Returned _ |- _ => discriminate H
  | H : Throws = Returned _ |- _ => discriminate H
  | H : (match ?x with _ => _ end) = Returned _ |- _ => destruct x eqn:?
  | H : _ = Returned _ |- _ => apply IH in H; exact H
  end.

Lemma dijkstra_loop_stats (s e : pos) (speed : Z) (fuel : nat) :
  forall unvisitedNodes st out,
  dijkstra_loop fuel s e speed unvisitedNodes st = Returned out -> stats_ok (snd out).
Proof.
  induction fuel as [|fuel IH]; intros q st out H; cbn [dijkstra_loop] in H; shape IH.
Qed.

Lemma astar_loop_stats (s e : pos) (speed : Z) (fuel : nat) :
  forall openSet st out,
  astar_loop fuel s e speed openSet st = Returned out -> stats_ok (snd out).
Proof.
  induction fuel as [|fuel IH]; intros q st out H; cbn [astar_loop] in H; shape IH.
Qed.

Lemma bfs_loop_stats (s e : pos) (speed : Z) (fuel : nat) :
  forall queue st out,
  bfs_loop fuel s e speed queue st = Returned out -> stats_ok (snd out).
Proof.
  induction fuel as [|fuel IH]; intros q st out H; cbn [bfs_loop] in H; shape IH.
Qed.

Lemma greedy_loop_stats (s e : pos) (speed : Z) (fuel : nat) :
  forall openSet st out,
  greedy_loop fuel s e speed openSet st = Returned out -> stats_ok (snd out).
Proof.
  induction fuel as [|fuel IH]; intros q st out H; cbn [greedy_loop] in H; shape IH.
Qed.

Lemma algorithms_stats (a : Algorithm) (g : Grid) (s e : pos) (speed : Z)
      (out : state * AlgorithmResult) :
  algorithms a g s e speed = Returned out -> stats_ok (snd out).
Proof.
  destruct a; cbn [algorithms];
    [unfold dijkstra | unfold astar | unfold bfs | unfold dfs | unfold greedy
     | unfold bidirectional]; unfold resolve; intros H.
  - shape (dijkstra_loop_stats s e speed (S (cells g))).
  - shape (astar_loop_stats s e speed (S (S (cells g)))).
  - shape (bfs_loop_stats s e speed (S (cells g))).
  - shape I.
  - shape (greedy_loop_stats s e speed (S (S (cells g)))).
  - shape I.
Qed.

(* ================================================================== *)
(** * Forests of cells *)
(* ================================================================== *)

(** A set [N] of cells with the adjacency of the grid is a forest when,
    whatever cell [r] is taken as the root, its class has a depth function:
    the root alone has depth 0, every other cell has exactly one neighbour
    one level up, and all its other neighbours are one level down. *)
Section Forest.

Variable N : pos -> Prop.
Variable cls : pos -> Z.

Definition tree_at (r : pos) (d : pos -> Z) : Prop :=
  d r = 0 /\
  forall x, N x -> cls x = cls r ->
    0 <= d x /\
    (d x = 0 -> x = r) /\
    (x <> r -> exists y, N y /\ adjacent x y /\ d y = d x - 1) /\
    (forall y, N y -> adjacent x y ->
       d y = d x + 1 \/
       (d y = d x - 1 /\ forall z, N z -> adjacent x z -> d z = d x - 1 -> z = y)).

Definition forest : Prop :=
  (forall x y, N x -> N y -> adjacent x y -> cls x = cls y) /\
  (forall r, N r -> exists d, tree_at r d).

(** A path through cells of [N]. *)
Inductive npath : pos -> pos -> list pos -> Prop :=
| npath_one (s : pos) : N s -> npath s s [s]
| npath_cons (s u e : pos) (l : list pos) :
    N s -> adjacent s u -> npath u e l -> npath s e (s :: l).

Lemma npath_hd (s e : pos) (l : list pos) : npath s e l -> exists t, l = s :: t.
Proof. intros H; inversion H; eauto. Qed.

Lemma npath_start (s e : pos) (l : list pos) : npath s e l -> N s.
Proof. intros H; inversion H; assumption. Qed.

Lemma npath_inv1 (s e a : pos) : npath s e [a] -> s = a /\ e = a /\ N a.
Proof.
  intros H. inversion H as [? Hs | ? u ? ? Hs Ha Hu]; subst; [auto|].
  inversion Hu.
Qed.

Lemma npath_inv2 (s e a b : pos) (l : list pos) :
  npath s e (a :: b :: l) -> s = a /\ N a /\ adjacent a b /\ npath b e (b :: l).
Proof.
  intros H. inversion H as [|? u ? ? Hs Ha Hu]; subst.
  destruct (npath_hd _ _ _ Hu) as [t Ht]. injection Ht as -> ->. auto.
Qed.

Lemma npath_end_in (s e : pos) (l : list pos) : npath s e l -> In e l.
Proof. intros H; induction H; [left; reflexivity | right; assumption]. Qed.

Hypothesis Hforest : forest.

Lemma npath_cls (s e : pos) (l : list pos) : npath s e l -> cls s = cls e.
Proof.
  intros H; induction H as [s Hs | s u e l Hs Ha Hl IH]; [reflexivity|].
  rewrite <- IH. apply (proj1 Hforest); [assumption | eapply npath_start; eassumption | assumption].
Qed.

(** Going up from any cell of the class reaches the root. *)
Lemma tree_path (r : pos) (d : pos -> Z) :
  tree_at r d ->
  forall n x, N x -> cls x = cls r -> d x = Z.of_nat n -> exists l, npath x r l.
Proof.
  intros [Hr Ht] n. induction n as [|n IH]; intros x Hx Hc Hd.
  - destruct (Ht x Hx Hc) as (_ & H0 & _). rewrite (H0 Hd).
    exists [r]. constructor. rewrite <- (H0 Hd). assumption.
  - destruct (Ht x Hx Hc) as (_ & H0 & Hpar & _).
    destruct Hpar as (y & Hy & Ha & Hdy).
    { intros ->. lia. }
    destruct (IH y Hy) as [l Hl].
    + rewrite <- Hc. symmetry. apply (proj1 Hforest); assumption.
    + lia.
    + exists (x :: l). econstructor; eassumption.
Qed.

(** A path that starts by going down a level never comes back to the
    root without passing twice through a cell. *)
Lemma no_descent (r : pos) (d : pos -> Z) :
  tree_at r d ->
  forall l a b, npath a r (a :: b :: l) -> cls a = cls r -> d b = d a + 1 ->
  NoDup (a :: b :: l) -> False.
Proof.
  intros [Hr Ht] l. induction l as [|c l IH]; intros a b Hp Hc Hd Hnd.
  - apply npath_inv2 in Hp. destruct Hp as (_ & Ha & Hab & Hb).
    apply npath_inv1 in Hb. destruct Hb as (_ & Hbr & _).
    destruct (Ht a Ha Hc) as (H0 & _). rewrite <- Hbr in Hd at 1. lia.
  - apply npath_inv2 in Hp. destruct Hp as (_ & Ha & Hab & Hb).
    pose proof Hb as Hb'.
    apply npath_inv2 in Hb'. destruct Hb' as (_ & Hbn & Hbc & Hcp).
    assert (Hcb : cls b = cls r).
    { rewrite <- Hc. symmetry. apply (proj1 Hforest); [| |assumption]; try assumption.
      }
    assert (Hcn : N c) by (eapply npath_start; eassumption).
    destruct (Ht b Hbn Hcb) as (_ & _ & _ & Hnb).
    destruct (Hnb c Hcn Hbc) as [Hup | [Hdown Huniq]].
    + apply (IH b c Hb Hcb Hup). inversion Hnd; assumption.
    + assert (Hac : a = c).
      { apply Huniq; [assumption | apply adjacent_sym; assumption | lia]. }
      subst c. inversion Hnd as [|? ? Hnin _]. apply Hnin. right; left; reflexivity.
Qed.

(** The first step of a simple path to the root goes up. *)
Lemma first_step_up (r : pos) (d : pos -> Z) (a b : pos) (l : list pos) :
  tree_at r d -> npath a r (a :: b :: l) -> cls a = cls r -> NoDup (a :: b :: l) ->
  d b = d a - 1.
Proof.
  intros Ht Hp Hc Hnd. pose proof Ht as [Hr Ht'].
  pose proof Hp as Hp'.
  apply npath_inv2 in Hp'. destruct Hp' as (_ & Ha & Hab & Hb).
  assert (Hbn : N b) by (eapply npath_start; eassumption).
  destruct (Ht' a Ha Hc) as (_ & _ & _ & Hnb).
  destruct (Hnb b Hbn Hab) as [Hup | [Hdown _]]; [|assumption].
  exfalso. eapply no_descent; eassumption.
Qed.

(** Two simple paths to the root are the same path. *)
Lemma simple_path_unique (r : pos) (d : pos -> Z) :
  tree_at r d ->
  forall l1 l2 x, npath x r l1 -> npath x r l2 -> NoDup l1 -> NoDup l2 -> l1 = l2.
Proof.
  intros Ht.
  assert (Hloop : forall l t, npath r r (r :: l :: t) -> NoDup (r :: l :: t) -> False).
  { intros l t Hl Hn. apply npath_inv2 in Hl. destruct Hl as (_ & _ & _ & Hl).
    apply npath_end_in in Hl. inversion Hn; contradiction. }
  intros l1. induction l1 as [|a l1 IH]; intros l2 x H1 H2 Hn1 Hn2.
  - inversion H1.
  - destruct (npath_hd _ _ _ H1) as [t1 E1]. injection E1 as <- <-.
    destruct (npath_hd _ _ _ H2) as [t2 ->].
    destruct l1 as [|u1 s1], t2 as [|u2 s2].
    + reflexivity.
    + exfalso. apply npath_inv1 in H1. destruct H1 as (_ & <- & _).
      eapply Hloop; eassumption.
    + exfalso. apply npath_inv1 in H2. destruct H2 as (_ & <- & _).
      eapply Hloop; eassumption.
    + assert (Hc : cls a = cls r) by (eapply npath_cls; eassumption).
      pose proof (first_step_up r d a u1 s1 Ht H1 Hc Hn1) as Hd1.
      pose proof (first_step_up r d a u2 s2 Ht H2 Hc Hn2) as Hd2.
      apply npath_inv2 in H1. destruct H1 as (_ & Ha1 & Hab1 & Hb1).
      apply npath_inv2 in H2. destruct H2 as (_ & Ha2 & Hab2 & Hb2).
      destruct Ht as [Hr Ht'].
      destruct (Ht' a Ha1 Hc) as (_ & _ & _ & Hnb).
      assert (Hu1 : N u1) by (eapply npath_start; eassumption).
      assert (Hu2 : N u2) by (eapply npath_start; eassumption).
      destruct (Hnb u1 Hu1 Hab1) as [Hup | [_ Huniq]]; [lia|].
      assert (u2 = u1) by (apply Huniq; assumption). subst u2.
      f_equal. apply (IH (u1 :: s2) u1); try assumption.
      * inversion Hn1; assumption.
      * inversion Hn2; assumption.
Qed.

End Forest.

(** ** Joining two trees through a new cell *)

(** A cell [m] outside [N] whose only neighbours in [N] are [u] and [v],
    of different classes, is added, and the two classes are merged. *)
Section Glue.

Variables N N' : pos -> Prop.
Variables cls cls' : pos -> Z.
Variables m u v : pos.

Hypothesis HN' : forall x, N' x <-> N x \/ x = m.
Hypothesis Hm : ~ N m.
Hypothesis Hu : N u.
Hypothesis Hv : N v.
Hypothesis Hmu : adjacent m u.
Hypothesis Hmv : adjacent m v.
Hypothesis Hm_only : forall y, N y -> adjacent m y -> y = u \/ y = v.
Hypothesis Hne : cls u <> cls v.
Hypothesis Hcls' : forall x, N x -> cls' x = if cls x =? cls v then cls u else cls x.
Hypothesis Hcls'm : cls' m = cls u.
Hypothesis HF : forest N cls.

Lemma adjacent_irrefl (x : pos) : ~ adjacent x x.
Proof. unfold adjacent. lia. Qed.

Lemma glue_cls'_u : cls' u = cls u.
Proof.
  rewrite (Hcls' u Hu). destruct (cls u =? cls v) eqn:E; [|reflexivity].
  apply Z.eqb_eq in E. contradiction.
Qed.

Lemma glue_cls'_v : cls' v = cls u.
Proof. rewrite (Hcls' v Hv), Z.eqb_refl. reflexivity. Qed.

Lemma glue_adjacent : forall x y, N' x -> N' y -> adjacent x y -> cls' x = cls' y.
Proof.
  intros x y Hx Hy Ha. apply HN' in Hx, Hy.
  destruct Hx as [Hx | ->], Hy as [Hy | ->].
  - rewrite (Hcls' x Hx), (Hcls' y Hy), (proj1 HF x y Hx Hy Ha). reflexivity.
  - apply adjacent_sym in Ha. destruct (Hm_only x Hx Ha) as [-> | ->].
    + rewrite glue_cls'_u, Hcls'm. reflexivity.
    + rewrite glue_cls'_v, Hcls'm. reflexivity.
  - destruct (Hm_only y Hy Ha) as [-> | ->].
    + rewrite glue_cls'_u, Hcls'm. reflexivity.
    + rewrite glue_cls'_v, Hcls'm. reflexivity.
  - reflexivity.
Qed.

(** The tree seen from a root [r] on the side of [p], where [p] and [q] are
    [u] and [v] in one order or the other. *)
Section Side.

Variables r p q : pos.
Variables dA dB : pos -> Z.
Hypothesis Hr : N r.
Hypothesis Hp : N p.
Hypothesis Hq : N q.
Hypothesis Hcp : cls p = cls r.
Hypothesis Hcq : cls q <> cls r.
Hypothesis Hmp : adjacent m p.
Hypothesis Hmq : adjacent m q.
Hypothesis Hpq_only : forall y, N y -> adjacent m y -> y = p \/ y = q.
Hypothesis Hmem : forall x, N x -> cls' x = cls' r -> cls x = cls r \/ cls x = cls q.
Hypothesis HdA : tree_at N cls r dA.
Hypothesis HdB : tree_at N cls q dB.

Definition glue_depth (x : pos) : Z :=
  if pos_eqb x m then dA p + 1
  else if cls x =? cls q then dB x + dA p + 2
  else dA x.

Lemma glue_depth_m : glue_depth m = dA p + 1.
Proof. unfold glue_depth. rewrite pos_eqb_refl. reflexivity. Qed.

Lemma glue_depth_A (x : pos) : N x -> cls x = cls r -> glue_depth x = dA x.
Proof.
  intros Hx Hc. unfold glue_depth.
  destruct (pos_eqb x m) eqn:E; [apply pos_eqb_eq in E; subst; contradiction|].
  destruct (cls x =? cls q) eqn:E2; [|reflexivity].
  apply Z.eqb_eq in E2. congruence.
Qed.

Lemma glue_depth_B (x : pos) : N x -> cls x = cls q -> glue_depth x = dB x + dA p + 2.
Proof.
  intros Hx Hc. unfold glue_depth.
  destruct (pos_eqb x m) eqn:E; [apply pos_eqb_eq in E; subst; contradiction|].
  rewrite Hc, Z.eqb_refl. reflexivity.
Qed.

Lemma glue_side : tree_at N' cls' r glue_depth.
Proof.
  destruct HdA as [HA0 HA], HdB as [HB0 HB].
  assert (HdAp : 0 <= dA p) by (apply (HA p Hp Hcp)).
  split; [rewrite glue_depth_A by auto; assumption|].
  intros x Hx Hcx. apply HN' in Hx. destruct Hx as [Hx | ->].
  - destruct (Hmem x Hx Hcx) as [Hc | Hc].
    + (* a cell of the class of the root *)
      rewrite (glue_depth_A x Hx Hc).
      destruct (HA x Hx Hc) as (H0 & Hz & Hpar & Hnb).
      split; [assumption|]. split; [assumption|]. split.
      * intros Hne'. destruct (Hpar Hne') as (y & Hy & Ha & Hd).
        exists y. split; [apply HN'; left; assumption|]. split; [assumption|].
        rewrite glue_depth_A; [assumption | assumption |].
        rewrite <- Hc. symmetry. apply (proj1 HF); assumption.
      * intros y Hy Ha. apply HN' in Hy. destruct Hy as [Hy | ->].
        -- assert (Hcy : cls y = cls r).
           { rewrite <- Hc. symmetry. apply (proj1 HF); assumption. }
           rewrite (glue_depth_A y Hy Hcy).
           destruct (Hnb y Hy Ha) as [Hup | [Hdown Huniq]]; [left; assumption|].
           right. split; [assumption|].
           intros z Hz' Haz Hdz. apply HN' in Hz'. destruct Hz' as [Hz' | ->].
           ++ apply Huniq; [assumption | assumption |].
              rewrite glue_depth_A in Hdz; [assumption | assumption |].
              rewrite <- Hc. symmetry. apply (proj1 HF); assumption.
           ++ exfalso. apply adjacent_sym in Haz.
              destruct (Hpq_only x Hx Haz) as [-> | ->]; [|congruence].
              rewrite glue_depth_m in Hdz. lia.
        -- left. apply adjacent_sym in Ha.
           destruct (Hpq_only x Hx Ha) as [-> | ->]; [|congruence].
           rewrite glue_depth_m. reflexivity.
    + (* a cell of the other class *)
      rewrite (glue_depth_B x Hx Hc).
      destruct (HB x Hx Hc) as (H0 & Hz & Hpar & Hnb).
      assert (Hxr : x <> r) by (intros ->; congruence).
      split; [lia|]. split; [intros; lia|]. split.
      * intros _. destruct (pos_eq_dec x q) as [-> | Hxq].
        -- exists m. split; [apply HN'; right; reflexivity|].
           split; [apply adjacent_sym; assumption|].
           rewrite glue_depth_m, HB0. lia.
        -- destruct (Hpar Hxq) as (y & Hy & Ha & Hd).
           exists y. split; [apply HN'; left; assumption|]. split; [assumption|].
           rewrite glue_depth_B; [lia | assumption |].
           rewrite <- Hc. symmetry. apply (proj1 HF); assumption.
      * intros y Hy Ha. apply HN' in Hy. destruct Hy as [Hy | ->].
        -- assert (Hcy : cls y = cls q).
           { rewrite <- Hc. symmetry. apply (proj1 HF); assumption. }
           rewrite (glue_depth_B y Hy Hcy).
           destruct (Hnb y Hy Ha) as [Hup | [Hdown Huniq]]; [left; lia|].
           right. split; [lia|].
           intros z Hz' Haz Hdz. apply HN' in Hz'. destruct Hz' as [Hz' | ->].
           ++ apply Huniq; [assumption | assumption |].
              rewrite glue_depth_B in Hdz; [lia | assumption |].
              rewrite <- Hc. symmetry. apply (proj1 HF); assumption.
           ++ exfalso. apply adjacent_sym in Haz.
              destruct (Hpq_only x Hx Haz) as [-> | ->]; [congruence|].
              destruct (HB y Hy Hcy) as (Hy0 & _). lia.
        -- right. apply adjacent_sym in Ha.
           destruct (Hpq_only x Hx Ha) as [-> | ->]; [congruence|].
           rewrite glue_depth_m, HB0. split; [lia|].
           intros z Hz' Haz Hdz. apply HN' in Hz'. destruct Hz' as [Hz' | ->]; [|reflexivity].
           exfalso.
           assert (Hcz : cls z = cls q) by (symmetry; apply (proj1 HF); assumption).
           rewrite (glue_depth_B z Hz' Hcz) in Hdz.
           destruct (HB z Hz' Hcz) as (Hz0 & _). lia.
  - (* the new cell *)
    rewrite glue_depth_m.
    split; [lia|]. split; [intros; lia|]. split.
    + intros _. exists p. split; [apply HN'; left; assumption|].
      split; [assumption|]. rewrite glue_depth_A by auto. lia.
    + intros y Hy Ha. apply HN' in Hy.
      destruct Hy as [Hy | ->]; [|exfalso; eapply adjacent_irrefl; eassumption].
      destruct (Hpq_only y Hy Ha) as [-> | ->].
      * right. rewrite glue_depth_A by auto. split; [lia|].
        intros z Hz' Haz Hdz. apply HN' in Hz'.
        destruct Hz' as [Hz' | ->]; [|exfalso; eapply adjacent_irrefl; eassumption].
        destruct (Hpq_only z Hz' Haz) as [-> | ->]; [reflexivity|].
        exfalso. rewrite glue_depth_B in Hdz by auto. lia.
      * left. rewrite glue_depth_B by auto. lia.
Qed.

End Side.

(** The tree seen from the new cell. *)
Section Middle.

Variables dA dB : pos -> Z.
Hypothesis HdA : tree_at N cls u dA.
Hypothesis HdB : tree_at N cls v dB.

Definition middle_depth (x : pos) : Z :=
  if pos_eqb x m then 0
  else if cls x =? cls v then dB x + 1
  else dA x + 1.

Lemma middle_depth_A (x : pos) : N x -> cls x = cls u -> middle_depth x = dA x + 1.
Proof.
  intros Hx Hc. unfold middle_depth.
  destruct (pos_eqb x m) eqn:E; [apply pos_eqb_eq in E; subst; contradiction|].
  destruct (cls x =? cls v) eqn:E2; [|reflexivity].
  apply Z.eqb_eq in E2. congruence.
Qed.

Lemma middle_depth_B (x : pos) : N x -> cls x = cls v -> middle_depth x = dB x + 1.
Proof.
  intros Hx Hc. unfold middle_depth.
  destruct (pos_eqb x m) eqn:E; [apply pos_eqb_eq in E; subst; contradiction|].
  rewrite Hc, Z.eqb_refl. reflexivity.
Qed.

Lemma middle_depth_m : middle_depth m = 0.
Proof. unfold middle_depth. rewrite pos_eqb_refl. reflexivity. Qed.

Lemma glue_middle : tree_at N' cls' m middle_depth.
Proof.
  destruct HdA as [HA0 HA], HdB as [HB0 HB].
  split; [apply middle_depth_m|].
  intros x Hx Hcx. apply HN' in Hx. destruct Hx as [Hx | ->].
  - assert (Hmem : cls x = cls u \/ cls x = cls v).
    { rewrite Hcls'm, (Hcls' x Hx) in Hcx.
      destruct (cls x =? cls v) eqn:E; [right; apply Z.eqb_eq; assumption | left; assumption]. }
    assert (Hxm : x <> m) by (intros ->; contradiction).
    destruct Hmem as [Hc | Hc].
    + rewrite (middle_depth_A x Hx Hc).
      destruct (HA x Hx Hc) as (H0 & Hz & Hpar & Hnb).
      split; [lia|]. split; [intros; lia|]. split.
      * intros _. destruct (pos_eq_dec x u) as [-> | Hxu].
        -- exists m. split; [apply HN'; right; reflexivity|].
           split; [apply adjacent_sym; assumption|].
           rewrite middle_depth_m, HA0. lia.
        -- destruct (Hpar Hxu) as (y & Hy & Ha & Hd).
           exists y. split; [apply HN'; left; assumption|]. split; [assumption|].
           rewrite middle_depth_A; [lia | assumption |].
           rewrite <- Hc. symmetry. apply (proj1 HF); assumption.
      * intros y Hy Ha. apply HN' in Hy. destruct Hy as [Hy | ->].
        -- assert (Hcy : cls y = cls u).
           { rewrite <- Hc. symmetry. apply (proj1 HF); assumption. }
           rewrite (middle_depth_A y Hy Hcy).
           destruct (Hnb y Hy Ha) as [Hup | [Hdown Huniq]]; [left; lia|].
           right. split; [lia|].
           intros z Hz' Haz Hdz. apply HN' in Hz'. destruct Hz' as [Hz' | ->].
           ++ apply Huniq; [assumption | assumption |].
              rewrite middle_depth_A in Hdz; [lia | assumption |].
              rewrite <- Hc. symmetry. apply (proj1 HF); assumption.
           ++ exfalso. apply adjacent_sym in Haz.
              destruct (Hm_only x Hx Haz) as [-> | ->]; [|congruence].
              destruct (HA y Hy Hcy) as (Hy0 & _). lia.
        -- right. apply adjacent_sym in Ha.
           destruct (Hm_only x Hx Ha) as [-> | ->]; [|congruence].
           rewrite middle_depth_m, HA0. split; [lia|].
           intros z Hz' Haz Hdz. apply HN' in Hz'. destruct Hz' as [Hz' | ->]; [|reflexivity].
           exfalso.
           assert (Hcz : cls z = cls u) by (symmetry; apply (proj1 HF); assumption).
           rewrite (middle_depth_A z Hz' Hcz) in Hdz.
           destruct (HA z Hz' Hcz) as (Hz0 & _). lia.
    + rewrite (middle_depth_B x Hx Hc).
      destruct (HB x Hx Hc) as (H0 & Hz & Hpar & Hnb).
      split; [lia|]. split; [intros; lia|]. split.
      * intros _. destruct (pos_eq_dec x v) as [-> | Hxv].
        -- exists m. split; [apply HN'; right; reflexivity|].
           split; [apply adjacent_sym; assumption|].
           rewrite middle_depth_m, HB0. lia.
        -- destruct (Hpar Hxv) as (y & Hy & Ha & Hd).
           exists y. split; [apply HN'; left; assumption|]. split; [assumption|].
           rewrite middle_depth_B; [lia | assumption |].
           rewrite <- Hc. symmetry. apply (proj1 HF); assumption.
      * intros y Hy Ha. apply HN' in Hy. destruct Hy as [Hy | ->].
        -- assert (Hcy : cls y = cls v).
           { rewrite <- Hc. symmetry. apply (proj1 HF); assumption. }
           rewrite (middle_depth_B y Hy Hcy).
           destruct (Hnb y Hy Ha) as [Hup | [Hdown Huniq]]; [left; lia|].
           right. split; [lia|].
           intros z Hz' Haz Hdz. apply HN' in Hz'. destruct Hz' as [Hz' | ->].
           ++ apply Huniq; [assumption | assumption |].
              rewrite middle_depth_B in Hdz; [lia | assumption |].
              rewrite <- Hc. symmetry. apply (proj1 HF); assumption.
           ++ exfalso. apply adjacent_sym in Haz.
              destruct (Hm_only x Hx Haz) as [-> | ->]; [congruence|].
              destruct (HB y Hy Hcy) as (Hy0 & _). lia.
        -- right. apply adjacent_sym in Ha.
           destruct (Hm_only x Hx Ha) as [-> | ->]; [congruence|].
           rewrite middle_depth_m, HB0. split; [lia|].
           intros z Hz' Haz Hdz. apply HN' in Hz'. destruct Hz' as [Hz' | ->]; [|reflexivity].
           exfalso.
           assert (Hcz : cls z = cls v) by (symmetry; apply (proj1 HF); assumption).
           rewrite (middle_depth_B z Hz' Hcz) in Hdz.
           destruct (HB z Hz' Hcz) as (Hz0 & _). lia.
  - rewrite middle_depth_m.
    split; [lia|]. split; [reflexivity|]. split; [intros H; contradiction H; reflexivity|].
    intros y Hy Ha. apply HN' in Hy.
    destruct Hy as [Hy | ->]; [|exfalso; eapply adjacent_irrefl; eassumption].
    left. destruct (Hm_only y Hy Ha) as [-> | ->].
    + rewrite middle_depth_A by auto. lia.
    + rewrite middle_depth_B by auto. lia.
Qed.

End Middle.

(** A class that is not touched keeps its trees. *)
Lemma glue_other (r : pos) (d : pos -> Z) :
  N r -> cls r <> cls u -> cls r <> cls v -> tree_at N cls r d -> tree_at N' cls' r d.
Proof.
  intros Hr Hru Hrv [H0 Ht]. split; [assumption|].
  assert (Hcr : cls' r = cls r).
  { rewrite (Hcls' r Hr). destruct (cls r =? cls v) eqn:E; [|reflexivity].
    apply Z.eqb_eq in E. contradiction. }
  assert (Hold : forall x, N' x -> cls' x = cls' r -> N x /\ cls x = cls r).
  { intros x Hx Hc. apply HN' in Hx. destruct Hx as [Hx | ->].
    - split; [assumption|]. rewrite Hcr, (Hcls' x Hx) in Hc.
      destruct (cls x =? cls v); [congruence | assumption].
    - rewrite Hcls'm, Hcr in Hc. congruence. }
  assert (Hnbr : forall x y, N x -> cls x = cls r -> N' y -> adjacent x y -> N y).
  { intros x y Hx Hc Hy Ha. apply HN' in Hy. destruct Hy as [Hy | ->]; [assumption|].
    exfalso. apply adjacent_sym in Ha. destruct (Hm_only x Hx Ha) as [-> | ->]; congruence. }
  intros x Hx Hcx. destruct (Hold x Hx Hcx) as [Hxn Hc].
  destruct (Ht x Hxn Hc) as (Hd0 & Hz & Hpar & Hnb).
  split; [assumption|]. split; [assumption|]. split.
  - intros Hne'. destruct (Hpar Hne') as (y & Hy & Ha & Hd).
    exists y. split; [apply HN'; left; assumption | auto].
  - intros y Hy Ha. pose proof (Hnbr x y Hxn Hc Hy Ha) as Hyn.
    destruct (Hnb y Hyn Ha) as [Hup | [Hdown Huniq]]; [left; assumption|].
    right. split; [assumption|].
    intros z Hz' Haz Hdz. apply Huniq; [|assumption|assumption].
    apply (Hnbr x z Hxn Hc Hz' Haz).
Qed.

Lemma glue_forest : forest N' cls'.
Proof.
  split; [exact glue_adjacent|].
  intros r Hr. apply HN' in Hr.
  destruct (proj2 HF u Hu) as [dU HdU].
  destruct (proj2 HF v Hv) as [dV HdV].
  destruct Hr as [Hr | ->].
  - destruct (proj2 HF r Hr) as [d Hd].
    destruct (Z.eq_dec (cls r) (cls u)) as [Hru | Hru].
    + exists (glue_depth u v d dV).
      apply (glue_side r u v d dV); auto; try congruence.
      intros x Hx Hc. rewrite (Hcls' x Hx), (Hcls' r Hr) in Hc.
      destruct (cls x =? cls v) eqn:E.
      * right. apply Z.eqb_eq; assumption.
      * left. destruct (cls r =? cls v) eqn:E2; [|assumption].
        apply Z.eqb_eq in E2. congruence.
    + destruct (Z.eq_dec (cls r) (cls v)) as [Hrv | Hrv].
      * exists (glue_depth v u d dU).
        apply (glue_side r v u d dU); auto; try congruence.
        -- intros y Hy Ha. destruct (Hm_only y Hy Ha); auto.
        -- intros x Hx Hc. rewrite (Hcls' x Hx), (Hcls' r Hr) in Hc.
           rewrite Hrv, Z.eqb_refl in Hc.
           destruct (cls x =? cls v) eqn:E.
           ++ left. apply Z.eqb_eq in E. congruence.
           ++ right. assumption.
      * exists d. apply glue_other; assumption.
  - exists (middle_depth dU dV). apply glue_middle; assumption.
Qed.

End Glue.

(* ================================================================== *)
(** * Reasoning about the maze generators *)
(* ================================================================== *)

Section MazeLogic.
Import Maze.

(** Total correctness of a computation: from a state in [P] it returns, in
    a state and with a value in [Q]. *)
Definition hoare {A : Type} (P : mstate -> Prop) (m : M A) (Q : A -> mstate -> Prop) : Prop :=
  forall st, P st -> exists a st', m st = Returned (a, st') /\ Q a st'.

Lemma hoare_ret {A : Type} (P : mstate -> Prop) (a : A) (Q : A -> mstate -> Prop) :
  (forall st, P st -> Q a st) -> hoare P (ret a) Q.
Proof. intros H st Hst. exists a, st. split; [reflexivity | apply H; assumption]. Qed.

Lemma hoare_bind {A B : Type} (P : mstate -> Prop) (m : M A) (Q : A -> mstate -> Prop)
      (k : A -> M B) (R : B -> mstate -> Prop) :
  hoare P m Q -> (forall a, hoare (Q a) (k a) R) -> hoare P (bind m k) R.
Proof.
  intros Hm Hk st Hst. destruct (Hm st Hst) as (a & st1 & E1 & Hq).
  destruct (Hk a st1 Hq) as (b & st2 & E2 & Hr).
  exists b, st2. unfold bind. rewrite E1. split; assumption.
Qed.

Lemma hoare_conseq {A : Type} (P P' : mstate -> Prop) (m : M A)
      (Q Q' : A -> mstate -> Prop) :
  hoare P' m Q' -> (forall st, P st -> P' st) -> (forall a st, Q' a st -> Q a st) ->
  hoare P m Q.
Proof.
  intros H HP HQ st Hst. destruct (H st (HP st Hst)) as (a & st' & E & Hq).
  exists a, st'. split; [assumption | apply HQ; assumption].
Qed.

Lemma hoare_pre {A : Type} (P : mstate -> Prop) (F : Prop) (m : M A)
      (Q : A -> mstate -> Prop) :
  (F -> hoare P m Q) -> hoare (fun st => F /\ P st) m Q.
Proof. intros H st [HF Hst]. apply (H HF st Hst). Qed.

Lemma hoare_for_each {A : Type} (I : mstate -> Prop) (l : list A) (body : A -> M unit) :
  (forall x, In x l -> hoare I (body x) (fun _ => I)) ->
  hoare I (for_each l body) (fun _ => I).
Proof.
  induction l as [|x l IH]; intros H; cbn [for_each].
  - apply hoare_ret. auto.
  - eapply hoare_bind.
    + apply H. left; reflexivity.
    + intros u. apply IH. intros y Hy. apply H. right; assumption.
Qed.

(** The rule for a loop with a local variable: [J i b] holds before the
    iteration of index [i] when the variable is [b]. *)
Lemma hoare_fold_m {A B : Type} (J : nat -> B -> mstate -> Prop)
      (body : B -> A -> M B) (l : list A) :
  forall (i : nat) (b : B),
  (forall k x b', nth_error l k = Some x -> hoare (J (i + k)%nat b') (body b' x) (J (S (i + k)))) ->
  hoare (J i b) (fold_m body l b) (J (i + length l)%nat).
Proof.
  induction l as [|x l IH]; intros i b H; cbn [fold_m length].
  - apply hoare_ret. intros st Hst. rewrite Nat.add_0_r. assumption.
  - eapply hoare_bind.
    + apply (hoare_conseq _ (J (i + 0)%nat b) _ _ (J (S (i + 0)))).
      * apply (H 0%nat x b). reflexivity.
      * intros st Hst. rewrite Nat.add_0_r. assumption.
      * intros a st Hst. exact Hst.
    + intros b'. rewrite Nat.add_0_r.
      replace (i + S (length l))%nat with (S i + length l)%nat by lia.
      apply IH. intros k y b'' Hk.
      replace (S i + k)%nat with (i + S k)%nat by lia.
      apply H. exact Hk.
Qed.

(** ** The shape of the grid *)

Definition rect (R C : Z) (g : Grid) : Prop :=
  Z.of_nat (length g) = R /\ forall r, In r g -> Z.of_nat (length r) = C.

Lemma rect_valid (R C : Z) (g : Grid) (p : pos) :
  rect R C g -> (valid g p <-> inside (R, C) p = true).
Proof.
  intros [HR HC]. rewrite valid_iff. unfold inside. cbn [fst snd].
  rewrite !andb_true_iff, !Z.leb_le, !Z.ltb_lt. split.
  - intros (H1 & H2 & r & Hr & Hlt).
    assert (Hin : In r g) by (eapply nth_error_In; eassumption).
    apply HC in Hin.
    assert (Z.to_nat (fst p) < length g)%nat by (apply nth_error_Some; congruence).
    lia.
  - intros (((H1 & H2) & H3) & H4).
    split; [assumption|]. split; [assumption|].
    destruct (nth_error g (Z.to_nat (fst p))) as [r|] eqn:E.
    + exists r. split; [reflexivity|].
      assert (Hin : In r g) by (eapply nth_error_In; eassumption).
      apply HC in Hin. lia.
    + apply nth_error_None in E. lia.
Qed.

Lemma rect_upd (R C : Z) (g : Grid) (p : pos) (f : GridNode -> GridNode) :
  rect R C g -> rect R C (grid_upd p f g).
Proof.
  intros [HR HC]. unfold grid_upd.
  destruct ((0 <=? fst p) && (0 <=? snd p)); [|split; assumption].
  split.
  - rewrite length_list_upd. assumption.
  - intros r Hr. apply In_nth_error in Hr. destruct Hr as [i Hi].
    rewrite nth_error_list_upd in Hi.
    destruct (Nat.eqb _ i).
    + destruct (nth_error g i) as [r0|] eqn:E; [|discriminate].
      cbn in Hi. injection Hi as <-. rewrite length_list_upd.
      apply HC. eapply nth_error_In; eassumption.
    + apply HC. eapply nth_error_In; eassumption.
Qed.

Lemma rect_map (R C : Z) (g : Grid) (f : GridNode -> GridNode) :
  rect R C g -> rect R C (map (map f) g).
Proof.
  intros [HR HC]. split.
  - rewrite length_map. assumption.
  - intros r Hr. apply in_map_iff in Hr. destruct Hr as (r0 & <- & Hr0).
    rewrite length_map. apply HC. assumption.
Qed.

(** ** What every generator keeps *)

(** [n] is the working copy of [n0] but for its wall flag, and it is not a
    wall if it is the start or the end. *)
Definition kept (n0 n : GridNode) : Prop :=
  set_isWall false n = maze_copy n0 /\ (flagged n = true -> isWall n = false).

Definition maze_inv (g0 g : Grid) : Prop :=
  forall p,
    match grid_get g0 p, grid_get g p with
    | Some n0, Some n => kept n0 n
    | None, None => True
    | _, _ => False
    end.

Lemma kept_flagged (n0 n : GridNode) : kept n0 n -> flagged n = flagged n0.
Proof.
  intros [H _]. unfold flagged.
  assert (H1 : isStart (set_isWall false n) = isStart (maze_copy n0)) by (rewrite H; reflexivity).
  assert (H2 : isEnd (set_isWall false n) = isEnd (maze_copy n0)) by (rewrite H; reflexivity).
  cbn in H1, H2. rewrite H1, H2. reflexivity.
Qed.

Lemma maze_inv_copy (g0 : Grid) : maze_inv g0 (map (map maze_copy) g0).
Proof.
  intros p. change (map (map maze_copy) g0) with (reset_grid maze_copy g0).
  rewrite grid_get_reset. destruct (grid_get g0 p) as [n0|]; cbn; [|exact I].
  split; [reflexivity | reflexivity].
Qed.

Lemma maze_inv_open (g0 g : Grid) (p : pos) :
  maze_inv g0 g -> maze_inv g0 (grid_upd p (set_isWall false) g).
Proof.
  intros H q. specialize (H q). rewrite grid_get_upd.
  destruct (pos_eqb p q); [|exact H].
  destruct (grid_get g0 q) as [n0|], (grid_get g q) as [n|]; cbn; try exact H.
  destruct H as [H1 H2]. split; [exact H1 | reflexivity].
Qed.

Lemma maze_inv_wall (g0 g : Grid) (p : pos) :
  maze_inv g0 g -> flagged (node g p) = false ->
  maze_inv g0 (grid_upd p (set_isWall true) g).
Proof.
  intros H Hf q. specialize (H q). rewrite grid_get_upd.
  destruct (pos_eqb p q) eqn:E; [|exact H].
  apply pos_eqb_eq in E. subst q. unfold node in Hf.
  destruct (grid_get g0 p) as [n0|], (grid_get g p) as [n|]; cbn; try exact H.
  destruct H as [H1 H2]. split; [exact H1|].
  intros Hfl. unfold flagged in Hfl, Hf. cbn in Hfl. congruence.
Qed.

(** ** The invariant of a run and the primitive steps *)

Variables (g0 : Grid) (R C : Z).
Hypothesis HR : 1 <= R.
Hypothesis HC : 1 <= C.

Definition minv (st : mstate) : Prop :=
  rect R C (m_grid st) /\ maze_inv g0 (m_grid st).

Lemma hoare_dims (P : mstate -> Prop) (Q : Z * Z -> mstate -> Prop) :
  (forall st, P st -> rect R C (m_grid st) /\ Q (R, C) st) ->
  hoare P dims Q.
Proof.
  intros H st Hst. destruct (H st Hst) as [[H1 H2] Hq].
  unfold dims. destruct (m_grid st) as [|r g] eqn:E.
  - cbn in H1. lia.
  - exists (R, C), st. split; [|assumption].
    rewrite <- H1, <- (H2 r) by (left; reflexivity). reflexivity.
Qed.

Lemma hoare_read (P : mstate -> Prop) (p : pos) (Q : GridNode -> mstate -> Prop) :
  (forall st, P st -> valid (m_grid st) p /\ Q (node (m_grid st) p) st) ->
  hoare P (read p) Q.
Proof.
  intros H st Hst. destruct (H st Hst) as [Hv Hq].
  unfold read. rewrite (valid_get _ _ Hv). eauto.
Qed.

Lemma hoare_write_wall (P : mstate -> Prop) (b : bool) (p : pos)
      (Q : unit -> mstate -> Prop) :
  (forall st, P st -> valid (m_grid st) p /\
                      Q tt (mkM (grid_upd p (set_isWall b) (m_grid st)) (m_next st))) ->
  hoare P (write_wall b p) Q.
Proof.
  intros H st Hst. destruct (H st Hst) as [Hv Hq].
  unfold write_wall. rewrite (valid_get _ _ Hv). eauto.
Qed.

Lemma hoare_random (P : mstate -> Prop) (rnd : rng) (Q : Q -> mstate -> Prop) :
  (forall st, P st -> Q (rnd (m_next st)) (mkM (m_grid st) (S (m_next st)))) ->
  hoare P (random rnd) Q.
Proof. intros H st Hst. unfold random. eauto. Qed.

(** Steps that leave the invariant alone. *)
Lemma minv_next (st : mstate) (k : nat) : minv st -> minv (mkM (m_grid st) k).
Proof. intros H; exact H. Qed.

Lemma minv_open (st : mstate) (p : pos) :
  minv st -> minv (mkM (grid_upd p (set_isWall false) (m_grid st)) (m_next st)).
Proof.
  intros [H1 H2]. split; [apply rect_upd; assumption | apply maze_inv_open; assumption].
Qed.

Lemma minv_wall (st : mstate) (p : pos) :
  minv st -> flagged (node (m_grid st) p) = false ->
  minv (mkM (grid_upd p (set_isWall true) (m_grid st)) (m_next st)).
Proof.
  intros [H1 H2] Hf. split; [apply rect_upd; assumption | apply maze_inv_wall; assumption].
Qed.

Lemma minv_valid (st : mstate) (p : pos) :
  minv st -> inside (R, C) p = true -> valid (m_grid st) p.
Proof. intros [H _] Hp. apply (rect_valid R C); assumption. Qed.

Lemma hoare_random_minv (rnd : rng) :
  hoare minv (random rnd) (fun _ => minv).
Proof. apply hoare_random. intros st H. exact H. Qed.

Lemma hoare_random_floor_minv (rnd : rng) (n : Q) :
  hoare minv (random_floor rnd n) (fun _ => minv).
Proof.
  unfold random_floor. eapply hoare_bind; [apply hoare_random_minv|].
  intros x. apply hoare_ret. auto.
Qed.

Lemma hoare_maybe_update (onUpdate : bool) (rnd : rng) :
  hoare minv (maybe_update onUpdate rnd) (fun _ => minv).
Proof.
  unfold maybe_update. destruct onUpdate.
  - eapply hoare_bind; [apply hoare_random_minv|]. intros u. apply hoare_ret. auto.
  - apply hoare_ret. auto.
Qed.

Lemma hoare_set_unless_flagged (b : bool) (p : pos) :
  inside (R, C) p = true ->
  hoare minv (set_unless_flagged b p) (fun _ => minv).
Proof.
  intros Hp. unfold set_unless_flagged.
  eapply hoare_bind.
  - apply (hoare_read minv p (fun n st => minv st /\ n = node (m_grid st) p)).
    intros st Hst. split; [apply minv_valid; assumption | split; [assumption|reflexivity]].
  - intros n. destruct (flagged n) eqn:Hf.
    + apply hoare_ret. intros st [H _]. exact H.
    + apply hoare_write_wall. intros st [H Hn]. split; [apply minv_valid; assumption|].
      destruct b.
      * apply minv_wall; [assumption|]. rewrite <- Hn. assumption.
      * apply minv_open; assumption.
Qed.

Lemma hoare_dims_minv :
  hoare minv dims (fun d st => d = (R, C) /\ minv st).
Proof. apply hoare_dims. intros st H. split; [apply H | split; [reflexivity|assumption]]. Qed.

Lemma In_upto (n x : Z) : In x (upto n) <-> 0 <= x < n.
Proof.
  unfold upto. rewrite in_map_iff. split.
  - intros (i & <- & Hi). apply in_seq in Hi. lia.
  - intros H. exists (Z.to_nat x). split; [lia|]. apply in_seq. lia.
Qed.

Lemma In_evens (n x : Z) : In x (evens n) <-> 0 <= x < n /\ Z.even x = true.
Proof.
  unfold evens. rewrite in_map_iff. split.
  - intros (i & <- & Hi). apply in_seq in Hi. split.
    + assert (Z.of_nat i < (n + 1) / 2) by lia.
      assert (2 * ((n + 1) / 2) <= n + 1) by (apply Z.mul_div_le; lia).
      lia.
    + rewrite Z.even_mul. reflexivity.
  - intros [H He]. apply Z.even_spec in He. destruct He as [k ->].
    exists (Z.to_nat k). split; [lia|]. apply in_seq.
    assert (k + 1 <= (n + 1) / 2) by (apply Z.div_le_lower_bound; lia).
    lia.
Qed.

Lemma In_from_to (a b x : Z) : In x (from_to a b) <-> a <= x <= b.
Proof.
  unfold from_to. rewrite in_map_iff. split.
  - intros (i & <- & Hi). apply in_seq in Hi. lia.
  - intros H. exists (Z.to_nat (x - a)). split; [lia|]. apply in_seq. lia.
Qed.

Lemma inside_iff (p : pos) :
  inside (R, C) p = true <-> 0 <= fst p < R /\ 0 <= snd p < C.
Proof.
  unfold inside. cbn [fst snd]. rewrite !andb_true_iff, !Z.leb_le, !Z.ltb_lt. tauto.
Qed.

(** ** The loops that need no counting *)

Lemma fill_walls_minv : hoare minv fill_walls (fun _ => minv).
Proof.
  unfold fill_walls. eapply hoare_bind; [apply hoare_dims_minv|].
  intros d. apply hoare_conseq with (P' := fun st => d = (R, C) /\ minv st) (Q' := fun _ => minv);
    [|auto|auto].
  apply hoare_pre. intros ->. cbn [fst snd].
  apply hoare_for_each. intros r Hr. apply hoare_for_each. intros c Hc.
  apply hoare_set_unless_flagged. apply inside_iff. cbn [fst snd].
  apply In_upto in Hr, Hc. lia.
Qed.

Lemma generateRandomMaze_minv (rnd : rng) :
  hoare minv (generateRandomMaze rnd) (fun _ => minv).
Proof.
  unfold generateRandomMaze. eapply hoare_bind; [apply hoare_dims_minv|].
  intros d. apply hoare_conseq with (P' := fun st => d = (R, C) /\ minv st) (Q' := fun _ => minv);
    [|auto|auto].
  apply hoare_pre. intros ->. cbn [fst snd].
  apply hoare_for_each. intros r Hr. apply hoare_for_each. intros c Hc.
  apply In_upto in Hr, Hc.
  assert (Hin : inside (R, C) (r, c) = true) by (apply inside_iff; cbn [fst snd]; lia).
  eapply hoare_bind.
  - apply (hoare_read minv (r, c) (fun n st => minv st /\ n = node (m_grid st) (r, c))).
    intros st Hst. split; [apply minv_valid; assumption | split; [assumption|reflexivity]].
  - intros n. destruct (flagged n) eqn:Hf.
    + apply hoare_ret. intros st [H _]. exact H.
    + eapply hoare_bind.
      * apply (hoare_random _ rnd (fun _ st => minv st /\ n = node (m_grid st) (r, c))).
        intros st H. exact H.
      * intros x. destruct (Qltb x (35 # 100)).
        -- apply hoare_write_wall. intros st [H Hn].
           split; [apply minv_valid; assumption|].
           apply minv_wall; [assumption|]. rewrite <- Hn. assumption.
        -- apply hoare_ret. intros st [H _]. exact H.
Qed.


(** ** Random numbers *)

Variable rnd : rng.
Hypothesis Hrnd : forall i, (0 <= rnd i)%Q /\ (rnd i < 1)%Q.

Lemma floor_range (x : Q) (n : Z) :
  (0 <= x)%Q -> (x < 1)%Q -> 0 < n -> 0 <= Qfloor (x * inject_Z n) < n.
Proof.
  intros H0 H1 Hn.
  assert (Hq : (0 < inject_Z n)%Q)
    by (change (inject_Z 0 < inject_Z n)%Q; rewrite <- Zlt_Qlt; assumption).
  split.
  - change 0 with (Qfloor 0). apply Qfloor_resp_le.
    apply Qmult_le_0_compat; [assumption | apply Qlt_le_weak; assumption].
  - rewrite Zlt_Qlt. eapply Qle_lt_trans; [apply Qfloor_le|].
    setoid_replace (inject_Z n) with (1 * inject_Z n)%Q at 2 by ring.
    apply Qmult_lt_compat_r; assumption.
Qed.

Lemma hoare_random_floor (P : mstate -> Prop) (n : Z) (Q : Z -> mstate -> Prop) :
  0 < n ->
  (forall st k, P st -> 0 <= k < n -> Q k (mkM (m_grid st) (S (m_next st)))) ->
  hoare P (random_floor rnd (inject_Z n)) Q.
Proof.
  intros Hn H. unfold random_floor. eapply hoare_bind.
  - apply (hoare_random P rnd (fun x st => exists st0, P st0 /\ x = rnd (m_next st0) /\
                                           st = mkM (m_grid st0) (S (m_next st0)))).
    intros st Hst. exists st. auto.
  - intros x. apply hoare_ret. intros st (st0 & Hst0 & -> & ->).
    apply H; [assumption|]. apply floor_range; [apply Hrnd | apply Hrnd | assumption].
Qed.

Lemma nth_z_Some {A : Type} (l : list A) (i : Z) :
  0 <= i < Z.of_nat (length l) -> exists x, nth_z l i = Some x /\ In x l.
Proof.
  intros H. unfold nth_z. destruct (i <? 0) eqn:E; [apply Z.ltb_lt in E; lia|].
  destruct (nth_error l (Z.to_nat i)) as [x|] eqn:Ex.
  - exists x. split; [reflexivity|]. eapply nth_error_In; eassumption.
  - apply nth_error_None in Ex. lia.
Qed.

Lemma hoare_midpoint {A : Type} (P : mstate -> Prop) (a b : Z) (k : Z -> M A)
      (Q : A -> mstate -> Prop) :
  Z.even (a + b) = true -> hoare P (k ((a + b) / 2)) Q ->
  hoare P (bind (midpoint a b) k) Q.
Proof.
  intros He H st Hst. unfold bind, midpoint. rewrite He. cbn. apply H. assumption.
Qed.

(** ** binary *)

Lemma generateBinaryTreeMaze_minv (onUpdate : bool) :
  hoare minv (generateBinaryTreeMaze onUpdate rnd) (fun _ => minv).
Proof.
  unfold generateBinaryTreeMaze. eapply hoare_bind; [apply hoare_dims_minv|].
  intros d. apply hoare_conseq with (P' := fun st => d = (R, C) /\ minv st) (Q' := fun _ => minv);
    [|auto|auto].
  apply hoare_pre. intros ->. cbn [fst snd].
  eapply hoare_bind; [apply fill_walls_minv|]. intros u.
  apply hoare_for_each. intros r Hr. apply hoare_for_each. intros c Hc.
  apply In_evens in Hr, Hc. destruct Hr as [Hr Her], Hc as [Hc Hec].
  eapply hoare_bind.
  { apply hoare_set_unless_flagged. apply inside_iff. cbn [fst snd]. lia. }
  intros u1.
  set (neighbors := (if 0 <? r then [(r - 2, c)] else []) ++
                    (if c <? C - 2 then [(r, c + 2)] else [])).
  assert (Hnb : forall q, In q neighbors ->
                  (q = (r - 2, c) /\ 0 < r) \/ (q = (r, c + 2) /\ c < C - 2)).
  { intros q Hq. subst neighbors. apply in_app_or in Hq. destruct Hq as [Hq|Hq].
    - destruct (0 <? r) eqn:E; [|destruct Hq]. apply Z.ltb_lt in E.
      destruct Hq as [<-|[]]. left; auto.
    - destruct (c <? C - 2) eqn:E; [|destruct Hq]. apply Z.ltb_lt in E.
      destruct Hq as [<-|[]]. right; auto. }
  clearbody neighbors. destruct neighbors as [|q0 neighbors'] eqn:En.
  { apply hoare_ret. auto. }
  rewrite <- En in *. 
  assert (Hlen : 0 < Z.of_nat (length neighbors)) by (rewrite En; cbn [length]; lia).
  eapply hoare_bind.
  { apply (hoare_random_floor minv _
             (fun k st => minv st /\ 0 <= k < Z.of_nat (length neighbors)) Hlen).
    intros st k Hst Hk. split; assumption. }
  intros i. apply hoare_conseq with
    (P' := fun st => 0 <= i < Z.of_nat (length neighbors) /\ minv st) (Q' := fun _ => minv);
    [|tauto|auto].
  apply hoare_pre. intros Hi.
  destruct (nth_z_Some neighbors i Hi) as (chosen & -> & Hch).
  assert (Her' : exists k, r = 2 * k) by (apply Z.even_spec; assumption).
  assert (Hec' : exists k, c = 2 * k) by (apply Z.even_spec; assumption).
  destruct Her' as [kr Hkr], Hec' as [kc Hkc].
  destruct (Hnb chosen Hch) as [[-> Hpos]|[-> Hpos]]; cbn [fst snd].
  - apply hoare_midpoint.
    { replace (r + (r - 2)) with (2 * (r - 1)) by lia. rewrite Z.even_mul. reflexivity. }
    apply hoare_midpoint.
    { replace (c + c) with (2 * c) by lia. rewrite Z.even_mul. reflexivity. }
    eapply hoare_bind; [|intros u2; apply hoare_maybe_update].
    apply hoare_set_unless_flagged. apply inside_iff. cbn [fst snd].
    replace (r + (r - 2)) with ((r - 1) * 2) by lia.
    replace (c + c) with (c * 2) by lia.
    rewrite !Z.div_mul by lia. lia.
  - apply hoare_midpoint.
    { replace (r + r) with (2 * r) by lia. rewrite Z.even_mul. reflexivity. }
    apply hoare_midpoint.
    { replace (c + (c + 2)) with (2 * (c + 1)) by lia. rewrite Z.even_mul. reflexivity. }
    eapply hoare_bind; [|intros u2; apply hoare_maybe_update].
    apply hoare_set_unless_flagged. apply inside_iff. cbn [fst snd].
    replace (r + r) with (r * 2) by lia.
    replace (c + (c + 2)) with ((c + 1) * 2) by lia.
    rewrite !Z.div_mul by lia. lia.
Qed.


(** ** sidewinder *)

Lemma nth_error_evens (n : Z) (k : nat) (x : Z) :
  nth_error (evens n) k = Some x -> x = 2 * Z.of_nat k.
Proof.
  unfold evens. rewrite nth_error_map.
  destruct (nth_error (seq 0 (Z.to_nat ((n + 1) / 2))) k) as [y|] eqn:E; [|discriminate].
  cbn. intros H. injection H as <-.
  assert (Hk : (k < length (seq 0 (Z.to_nat ((n + 1) / 2))))%nat)
    by (apply nth_error_Some; congruence).
  rewrite length_seq in Hk.
  apply (nth_error_nth _ _ 0%nat) in E. rewrite seq_nth in E by assumption.
  cbn in E. subst y. reflexivity.
Qed.

Lemma hoare_run_column (runStart c : Z) :
  Z.even runStart = true -> Z.even c = true -> 0 <= runStart <= c ->
  hoare minv (run_column rnd runStart c) (fun v st => minv st /\ runStart <= v <= c).
Proof.
  intros H1 H2 H3. unfold run_column, random_floor.
  apply Z.even_spec in H1, H2. destruct H1 as [a ->], H2 as [b ->].
  eapply hoare_bind.
  { eapply hoare_bind.
    - apply (hoare_random minv rnd (fun x st => minv st /\ (0 <= x)%Q /\ (x < 1)%Q)).
      intros st Hst. split; [exact Hst | apply Hrnd].
    - intros x. apply hoare_ret.
      intros st Hst. instantiate (1 := fun k st => minv st /\ 0 <= k < b - a + 1).
      cbn beta. destruct Hst as (Hst & Hx0 & Hx1). split; [assumption|].
      assert (Hq : ((2 * b - 2 * a # 2) + inject_Z 1 == inject_Z (b - a + 1))%Q).
      { unfold Qeq, Qplus, inject_Z. cbn [Qnum Qden]. lia. }
      rewrite Hq. apply floor_range; [assumption | assumption | lia]. }
  intros k. apply hoare_ret. intros st [Hst Hk]. split; [assumption | lia].
Qed.

Lemma generateSidewinderMaze_minv (onUpdate : bool) :
  hoare minv (generateSidewinderMaze onUpdate rnd) (fun _ => minv).
Proof.
  unfold generateSidewinderMaze. eapply hoare_bind; [apply hoare_dims_minv|].
  intros d. apply hoare_conseq with (P' := fun st => d = (R, C) /\ minv st) (Q' := fun _ => minv);
    [|auto|auto].
  apply hoare_pre. intros ->. cbn [fst snd].
  eapply hoare_bind; [apply fill_walls_minv|]. intros u.
  apply hoare_for_each. intros r Hr.
  apply In_evens in Hr. destruct Hr as [Hr Her].
  set (J := fun (k : nat) (b : Z) (st : mstate) =>
              minv st /\ Z.even b = true /\ 0 <= b <= 2 * Z.of_nat k).
  eapply hoare_bind; [|intros b; apply hoare_ret; intros st Hst; apply Hst].
  apply hoare_conseq with (P' := J 0%nat 0) (Q' := J (0 + length (evens C))%nat).
  2:{ intros st Hst. split; [assumption|]. split; [reflexivity | lia]. }
  2:{ intros a st Hst. exact (proj1 Hst). }
  apply hoare_fold_m. intros k c b Hk. cbn [Nat.add].
  assert (Hc : In c (evens C)) by (eapply nth_error_In; eassumption).
  apply In_evens in Hc. destruct Hc as [Hc Hec].
  apply nth_error_evens in Hk.
  unfold J.
  apply hoare_conseq with
    (P' := fun st => (Z.even b = true /\ 0 <= b <= 2 * Z.of_nat k) /\ minv st)
    (Q' := fun b' st => minv st /\ Z.even b' = true /\ 0 <= b' <= 2 * Z.of_nat (S k));
    [|tauto|auto].
  apply hoare_pre. intros [Heb Hb].
  eapply hoare_bind.
  { apply hoare_set_unless_flagged. apply inside_iff. cbn [fst snd]. lia. }
  intros u1.
  eapply hoare_bind.
  { instantiate (1 := fun carveEast st => minv st /\ (carveEast = true -> c < C - 2)).
    destruct (c <? C - 2) eqn:E.
    - apply Z.ltb_lt in E. destruct (r =? 0).
      + apply hoare_ret. auto.
      + eapply hoare_bind; [apply hoare_random_minv|].
        intros x. apply hoare_ret. auto.
    - apply hoare_ret. intros st Hst. split; [assumption | discriminate]. }
  intros carveEast.
  apply hoare_conseq with
    (P' := fun st => (carveEast = true -> c < C - 2) /\ minv st)
    (Q' := fun b' st => minv st /\ Z.even b' = true /\ 0 <= b' <= 2 * Z.of_nat (S k));
    [|tauto|auto].
  apply hoare_pre. intros Hce.
  eapply hoare_bind.
  { instantiate (1 := fun b' st => minv st /\ Z.even b' = true /\ 0 <= b' <= 2 * Z.of_nat (S k)).
    destruct carveEast.
    - eapply hoare_bind.
      + apply hoare_set_unless_flagged. apply inside_iff. cbn [fst snd].
        specialize (Hce eq_refl). lia.
      + intros u2. apply hoare_ret. intros st Hst.
        split; [assumption|]. split; [assumption | lia].
    - eapply hoare_bind.
      + instantiate (1 := fun _ => minv).
        destruct ((0 <? r) && negb false) eqn:E.
        * rewrite andb_true_r in E. apply Z.ltb_lt in E.
          eapply hoare_bind.
          -- apply (hoare_run_column b c Heb Hec). lia.
          -- intros runCol.
             apply hoare_conseq
               with (P' := fun st => b <= runCol <= c /\ minv st) (Q' := fun _ => minv);
               [|tauto|auto].
             apply hoare_pre. intros Hrc.
             apply hoare_set_unless_flagged. apply inside_iff. cbn [fst snd]. lia.
        * apply hoare_ret. auto.
      + intros u2. apply hoare_ret. intros st Hst.
        split; [assumption|]. split.
        * rewrite Z.even_add, Hec. reflexivity.
        * lia. }
  intros b'.
  eapply hoare_bind.
  { instantiate (1 := fun _ st => minv st /\ Z.even b' = true /\ 0 <= b' <= 2 * Z.of_nat (S k)).
    intros st (Hst & Hrest). destruct (hoare_maybe_update onUpdate rnd st Hst) as (a & st' & E & Hq).
    exists a, st'. split; [assumption|]. split; assumption. }
  intros u3. apply hoare_ret. auto.
Qed.

(** ** recursive *)

Lemma open_line_minv (line : Z -> pos) (a b hole : Z) :
  (forall i, a <= i <= b -> inside (R, C) (line i) = true) ->
  hoare minv (open_line line a b hole) (fun _ => minv).
Proof.
  intros H. unfold open_line. apply hoare_for_each. intros i Hi.
  apply In_from_to in Hi. destruct (i =? hole).
  - apply hoare_ret. auto.
  - apply hoare_set_unless_flagged. apply H. assumption.
Qed.

Lemma divide_minv (onUpdate : bool) (fuel : nat) :
  forall x1 y1 x2 y2 horizontal,
  0 <= x1 <= x2 -> x2 < C -> 0 <= y1 <= y2 -> y2 < R ->
  (x2 - x1) + (y2 - y1) < Z.of_nat fuel ->
  hoare minv (divide fuel onUpdate rnd x1 y1 x2 y2 horizontal) (fun _ => minv).
Proof.
  induction fuel as [|fuel IH]; intros x1 y1 x2 y2 horizontal Hx Hx2 Hy Hy2 Hm.
  - lia.
  - cbn [divide].
    destruct ((x2 - x1 <? 2) || (y2 - y1 <? 2)) eqn:E.
    + apply hoare_ret. auto.
    + apply orb_false_iff in E. destruct E as [E1 E2].
      apply Z.ltb_ge in E1, E2.
      destruct horizontal.
      * assert (Hy' : y1 + 1 <= (y1 + y2) / 2 <= y2 - 1).
        { split.
          - apply Z.div_le_lower_bound; lia.
          - assert ((y1 + y2) / 2 < y2) by (apply Z.div_lt_upper_bound; lia). lia. }
        eapply hoare_bind; [apply hoare_random_floor_minv|]. intros r.
        eapply hoare_bind.
        { apply open_line_minv. intros i Hi. apply inside_iff. cbn [fst snd]. lia. }
        intros u1. eapply hoare_bind.
        { apply IH; lia. }
        intros u2. apply IH; lia.
      * assert (Hx' : x1 + 1 <= (x1 + x2) / 2 <= x2 - 1).
        { split.
          - apply Z.div_le_lower_bound; lia.
          - assert ((x1 + x2) / 2 < x2) by (apply Z.div_lt_upper_bound; lia). lia. }
        eapply hoare_bind; [apply hoare_random_floor_minv|]. intros r.
        eapply hoare_bind.
        { apply open_line_minv. intros i Hi. apply inside_iff. cbn [fst snd]. lia. }
        intros u1. eapply hoare_bind.
        { apply IH; lia. }
        intros u2. apply IH; lia.
Qed.

Lemma generateRecursiveMaze_minv (onUpdate : bool) :
  hoare minv (generateRecursiveMaze onUpdate rnd) (fun _ => minv).
Proof.
  unfold generateRecursiveMaze. eapply hoare_bind; [apply hoare_dims_minv|].
  intros d. apply hoare_conseq with (P' := fun st => d = (R, C) /\ minv st) (Q' := fun _ => minv);
    [|auto|auto].
  apply hoare_pre. intros ->. cbn [fst snd].
  eapply hoare_bind; [apply fill_walls_minv|]. intros u.
  apply divide_minv; lia.
Qed.


(** ** prim *)

(** Steps that only read the grid leave the state as it is. *)
Lemma addWalls_returns (st : mstate) (p : pos) (walls : list pos) :
  minv st -> Forall (fun q => inside (R, C) q = true) walls ->
  exists walls', addWalls p walls st = Returned (walls', st) /\
                 Forall (fun q => inside (R, C) q = true) walls' /\
                 (length walls' <= length walls + 4)%nat.
Proof.
  intros Hst Hw.
  set (J := fun (k : nat) (w : list pos) (x : mstate) =>
              x = st /\ Forall (fun q => inside (R, C) q = true) w /\
              (length w <= length walls + k)%nat).
  assert (H : hoare (fun x => x = st) (addWalls p walls) (J 4%nat)).
  { unfold addWalls. eapply hoare_bind.
    - apply (hoare_dims _ (fun d x => d = (R, C) /\ x = st)).
      intros x ->. split; [apply Hst | auto].
    - intros d.
      apply hoare_conseq with (P' := fun x => d = (R, C) /\ x = st) (Q' := J 4%nat); [|auto|auto].
      apply hoare_pre. intros ->.
      apply hoare_conseq with (P' := J 0%nat walls)
                              (Q' := J (0 + length Maze.directions)%nat).
      2:{ intros x ->. unfold J. split; [reflexivity|]. split; [assumption | lia]. }
      2:{ intros a x Hx. exact Hx. }
      apply hoare_fold_m. intros k dir w Hk. cbn [Nat.add]. unfold J.
      destruct (inside (R, C) (fst p + fst dir, snd p + snd dir)) eqn:E.
      + eapply hoare_bind.
        * apply (hoare_read _ _ (fun _ x => x = st /\
                   Forall (fun q => inside (R, C) q = true) w /\
                   (length w <= length walls + k)%nat)).
          intros x (-> & H1 & H2). split; [apply minv_valid; assumption | auto].
        * intros n. destruct (isWall n && negb (flagged n)).
          -- apply hoare_ret. intros x (-> & H1 & H2). split; [reflexivity|]. split.
             ++ apply Forall_app. split; [assumption|]. constructor; [assumption|constructor].
             ++ rewrite length_app. cbn [length]. unfold pos in *. lia.
          -- apply hoare_ret. intros x (-> & H1 & H2). split; [reflexivity|].
             split; [assumption | lia].
      + apply hoare_ret. intros x (-> & H1 & H2). split; [reflexivity|].
        split; [assumption | lia]. }
  destruct (H st eq_refl) as (w & st' & E & -> & H1 & H2).
  exists w. auto.
Qed.

Lemma getNeighbors_returns (st : mstate) (p : pos) :
  minv st -> exists neighbors, Maze.getNeighbors p st = Returned (neighbors, st).
Proof.
  intros Hst.
  assert (H : hoare (fun x => x = st) (Maze.getNeighbors p) (fun _ x => x = st)).
  { unfold Maze.getNeighbors. eapply hoare_bind.
    - apply (hoare_dims _ (fun d x => d = (R, C) /\ x = st)).
      intros x ->. split; [apply Hst | auto].
    - intros d.
      apply hoare_conseq with (P' := fun x => d = (R, C) /\ x = st) (Q' := fun _ x => x = st);
        [|auto|auto].
      apply hoare_pre. intros ->.
      set (J := fun (_ : nat) (_ : list GridNode) (x : mstate) => x = st).
      apply hoare_conseq with (P' := J 0%nat [])
                              (Q' := J (0 + length Maze.directions)%nat).
      2:{ intros x ->. reflexivity. }
      2:{ intros a x Hx. exact Hx. }
      apply hoare_fold_m. intros k dir w Hk. unfold J.
      destruct (inside (R, C) (fst p + fst dir, snd p + snd dir)) eqn:E.
      + eapply hoare_bind.
        * apply (hoare_read _ _ (fun _ x => x = st)).
          intros x ->. split; [apply minv_valid; assumption | auto].
        * intros n. apply hoare_ret. auto.
      + apply hoare_ret. auto. }
  destruct (H st eq_refl) as (w & st' & E & ->). exists w. assumption.
Qed.

Definition count_walls (g : Grid) : nat := length (filter isWall (concat g)).

Lemma count_row_open (l : list GridNode) (i : nat) (x : GridNode) :
  nth_error l i = Some x -> isWall x = true ->
  S (length (filter isWall (list_upd i (set_isWall false) l))) = length (filter isWall l).
Proof.
  revert i; induction l as [|a l IH]; intros [|i] H Hw; cbn in H; try discriminate.
  - injection H as ->. cbn. rewrite Hw. reflexivity.
  - cbn. destruct (isWall a); cbn; rewrite <- (IH i H Hw); reflexivity.
Qed.

Lemma count_walls_open (g : Grid) (p : pos) (n : GridNode) :
  grid_get g p = Some n -> isWall n = true ->
  S (count_walls (grid_upd p (set_isWall false) g)) = count_walls g.
Proof.
  unfold grid_get, grid_upd, count_walls.
  destruct ((0 <=? fst p) && (0 <=? snd p)); [|discriminate].
  generalize (Z.to_nat (fst p)) as i.
  induction g as [|a g IH]; intros [|i] H Hw; cbn in H; try discriminate.
  - cbn. rewrite !filter_app, !length_app.
    rewrite <- (count_row_open a _ n H Hw). reflexivity.
  - cbn. rewrite !filter_app, !length_app.
    rewrite <- (IH i H Hw). lia.
Qed.

Lemma count_walls_le (g : Grid) : rect R C g -> Z.of_nat (count_walls g) <= R * C.
Proof.
  intros [H1 H2]. unfold count_walls.
  assert (Hlen : (length (filter isWall (concat g)) <= length (concat g))%nat)
    by apply filter_length_le.
  assert (Hc : Z.of_nat (length (concat g)) = Z.of_nat (length g) * C).
  { clear H1 Hlen. induction g as [|a g IH]; [reflexivity|].
    cbn [concat length]. rewrite length_app, Nat2Z.inj_add, Nat2Z.inj_succ.
    rewrite IH by (intros r Hr; apply H2; right; assumption).
    rewrite (H2 a) by (left; reflexivity). lia. }
  lia.
Qed.

Definition pinv (n : nat) (st : mstate) : Prop :=
  minv st /\ (count_walls (m_grid st) <= n)%nat.

Lemma In_splice1 {A : Type} (l : list A) (i : nat) (x : A) :
  In x (splice1 i l) -> In x l.
Proof.
  revert i; induction l as [|a l IH]; intros [|i] H; cbn in *; auto.
  destruct H as [H|H]; [left; assumption | right; eapply IH; eassumption].
Qed.

Lemma length_splice1 {A : Type} (l : list A) (i : nat) :
  (i < length l)%nat -> S (length (splice1 i l)) = length l.
Proof.
  revert i; induction l as [|a l IH]; intros [|i] H; cbn in *; try lia.
  rewrite IH by lia. reflexivity.
Qed.

Lemma prim_loop_minv (onUpdate : bool) (fuel : nat) :
  forall walls n,
  Forall (fun q => inside (R, C) q = true) walls ->
  (length walls + 4 * n < fuel)%nat ->
  hoare (pinv n) (prim_loop fuel onUpdate rnd (R, C) walls) (fun _ => minv).
Proof.
  induction fuel as [|fuel IH]; intros walls n Hw Hm; [lia|].
  cbn [prim_loop]. destruct walls as [|w0 walls0] eqn:Ew.
  { apply hoare_ret. intros st [H _]. exact H. }
  rewrite <- Ew in *. 
  assert (Hlen : 0 < Z.of_nat (length walls)) by (rewrite Ew; cbn [length]; lia).
  eapply hoare_bind.
  { apply (hoare_random_floor (pinv n) _
             (fun k st => pinv n st /\ 0 <= k < Z.of_nat (length walls)) Hlen).
    intros st k Hst Hk. split; assumption. }
  intros i. apply hoare_conseq with
    (P' := fun st => 0 <= i < Z.of_nat (length walls) /\ pinv n st) (Q' := fun _ => minv);
    [|tauto|auto].
  apply hoare_pre. intros Hi.
  destruct (nth_z_Some walls i Hi) as (wall & -> & Hwall).
  assert (Hin : inside (R, C) wall = true).
  { rewrite Forall_forall in Hw. apply Hw. assumption. }
  rewrite Hin.
  assert (Hw1 : Forall (fun q => inside (R, C) q = true) (splice1 (Z.to_nat i) walls)).
  { rewrite Forall_forall in *. intros x Hx. apply Hw. eapply In_splice1; eassumption. }
  assert (Hl1 : S (length (splice1 (Z.to_nat i) walls)) = length walls).
  { apply length_splice1. lia. }
  assert (Hskip : hoare (pinv n)
                    (prim_loop fuel onUpdate rnd (R, C) (splice1 (Z.to_nat i) walls))
                    (fun _ => minv)).
  { apply IH; [assumption | lia]. }
  eapply hoare_bind.
  { apply (hoare_read (pinv n) wall
             (fun x st => pinv n st /\ x = node (m_grid st) wall)).
    intros st Hst. split; [apply minv_valid; [apply Hst | assumption] | auto]. }
  intros x. destruct (isWall x && negb (flagged x)) eqn:Ex.
  2:{ eapply hoare_conseq; [apply Hskip | tauto | auto]. }
  apply andb_true_iff in Ex. destruct Ex as [Exw _].
  intros st [[Hst Hcnt] Hx].
  destruct (getNeighbors_returns st wall Hst) as [nbs Enb].
  unfold bind at 1. rewrite Enb.
  destruct ((length (filter (fun m => negb (isWall m)) nbs) =? 1)%nat).
  2:{ apply Hskip. split; assumption. }
  assert (Hv : valid (m_grid st) wall) by (apply minv_valid; assumption).
  unfold bind at 1. unfold write_wall at 1. rewrite (valid_get _ _ Hv).
  set (st1 := mkM (grid_upd wall (set_isWall false) (m_grid st)) (m_next st)).
  assert (Hst1 : minv st1) by (apply minv_open; assumption).
  assert (Hc1 : S (count_walls (m_grid st1)) = count_walls (m_grid st)).
  { apply (count_walls_open _ _ (node (m_grid st) wall)).
    - apply valid_get; assumption.
    - rewrite <- Hx. assumption. }
  destruct (addWalls_returns st1 wall _ Hst1 Hw1) as (walls2 & E2 & Hw2 & Hl2).
  unfold bind at 1. rewrite E2.
  destruct (hoare_maybe_update onUpdate rnd st1 Hst1) as (u & st2 & E3 & Hst2).
  unfold bind at 1. rewrite E3.
  assert (Hg2 : m_grid st2 = m_grid st1).
  { unfold maybe_update in E3. destruct onUpdate; cbn in E3; injection E3 as _ <-; reflexivity. }
  destruct n as [|n]; [lia|].
  apply (IH walls2 n Hw2); [lia|].
  split; [assumption|]. rewrite Hg2. lia.
Qed.

Lemma generatePrimMaze_minv (onUpdate : bool) :
  hoare minv (generatePrimMaze onUpdate rnd) (fun _ => minv).
Proof.
  unfold generatePrimMaze. eapply hoare_bind; [apply hoare_dims_minv|].
  intros d. apply hoare_conseq with (P' := fun st => d = (R, C) /\ minv st) (Q' := fun _ => minv);
    [|auto|auto].
  apply hoare_pre. intros ->. cbn [fst snd].
  eapply hoare_bind; [apply fill_walls_minv|]. intros u.
  eapply hoare_bind.
  { apply (hoare_random_floor minv R (fun k st => minv st /\ 0 <= k < R)); [lia|].
    intros st k Hst Hk. split; assumption. }
  intros startRow.
  apply hoare_conseq with (P' := fun st => 0 <= startRow < R /\ minv st) (Q' := fun _ => minv);
    [|tauto|auto].
  apply hoare_pre. intros Hsr.
  eapply hoare_bind.
  { apply (hoare_random_floor minv C (fun k st => minv st /\ 0 <= k < C)); [lia|].
    intros st k Hst Hk. split; assumption. }
  intros startCol.
  apply hoare_conseq with (P' := fun st => 0 <= startCol < C /\ minv st) (Q' := fun _ => minv);
    [|tauto|auto].
  apply hoare_pre. intros Hsc.
  eapply hoare_bind.
  { apply hoare_set_unless_flagged. apply inside_iff. cbn [fst snd]. lia. }
  intros u1 st Hst.
  destruct (addWalls_returns st (startRow, startCol) [] Hst (Forall_nil _))
    as (walls & E & Hw & Hl).
  unfold bind at 1. rewrite E.
  apply (prim_loop_minv onUpdate _ walls (Z.to_nat (R * C)) Hw).
  - cbn [length] in Hl. lia.
  - split; [assumption|].
    assert (H := count_walls_le (m_grid st) (proj1 Hst)). lia.
Qed.


(** ** kruskal: the union-find structure *)

Definition id_ok (i : Z) : Prop := 0 <= i < R * C.

(** [row * cols + col] *)
Definition cell_id (p : pos) : Z := fst p * C + snd p.

(** [parent[Math.floor(i / cols)][i % cols]] *)
Definition pval (P : parents) (i : Z) : option Z := parent_get P (i / C) (Z.rem i C).

Definition p_shape (P : parents) : Prop :=
  Z.of_nat (length P) = R /\ forall r, In r P -> Z.of_nat (length r) = C.

Lemma id_coords (i : Z) :
  id_ok i -> 0 <= i / C < R /\ 0 <= Z.rem i C < C /\ i / C * C + Z.rem i C = i.
Proof.
  intros [H0 H1]. rewrite Z.rem_mod_nonneg by lia.
  split; [split; [apply Z.div_pos; lia | apply Z.div_lt_upper_bound; lia]|].
  split; [apply Z.mod_pos_bound; lia|].
  pose proof (Z.div_mod i C). lia.
Qed.

Lemma cell_id_coords (p : pos) :
  inside (R, C) p = true ->
  id_ok (cell_id p) /\ cell_id p / C = fst p /\ Z.rem (cell_id p) C = snd p.
Proof.
  intros H; apply inside_iff in H. unfold cell_id, id_ok.
  assert (H1 : 0 <= fst p * C + snd p < R * C) by nia.
  split; [assumption|].
  rewrite Z.rem_mod_nonneg by lia.
  rewrite Z.div_add_l by lia. rewrite Z.div_small by lia.
  split; [lia|].
  rewrite Z.add_comm, Z_mod_plus_full. apply Z.mod_small; lia.
Qed.

Lemma cell_id_inj (p q : pos) :
  inside (R, C) p = true -> inside (R, C) q = true -> cell_id p = cell_id q -> p = q.
Proof.
  intros Hp Hq H.
  destruct (cell_id_coords p Hp) as (_ & H1 & H2).
  destruct (cell_id_coords q Hq) as (_ & H3 & H4).
  rewrite H in H1, H2. destruct p, q; cbn [fst snd] in *. congruence.
Qed.

Lemma nth_z_list_upd {A : Type} (f : A -> A) (l : list A) (i j : Z) :
  0 <= i ->
  nth_z (list_upd (Z.to_nat i) f l) j =
  if i =? j then option_map f (nth_z l j) else nth_z l j.
Proof.
  intros Hi. unfold nth_z. destruct (j <? 0) eqn:E.
  - destruct (i =? j); reflexivity.
  - apply Z.ltb_ge in E. rewrite nth_error_list_upd.
    destruct (i =? j) eqn:E2.
    + apply Z.eqb_eq in E2. subst j. rewrite Nat.eqb_refl. reflexivity.
    + apply Z.eqb_neq in E2.
      destruct (Nat.eqb (Z.to_nat i) (Z.to_nat j)) eqn:E3; [|reflexivity].
      apply Nat.eqb_eq in E3. lia.
Qed.

Lemma parent_get_set (P : parents) (r c v r' c' : Z) :
  0 <= r -> 0 <= c ->
  parent_get (parent_set r c v P) r' c' =
  if (r =? r') && (c =? c') then option_map (fun _ => v) (parent_get P r' c')
  else parent_get P r' c'.
Proof.
  intros Hr Hc. unfold parent_get, parent_set.
  replace ((0 <=? r) && (0 <=? c)) with true
    by (symmetry; apply andb_true_iff; split; apply Z.leb_le; assumption).
  rewrite (nth_z_list_upd _ P r r' Hr).
  destruct (r =? r'); cbn [andb].
  - destruct (nth_z P r') as [l|]; cbn [option_map];
      [|destruct (c =? c'); reflexivity].
    apply (nth_z_list_upd _ l c c' Hc).
  - reflexivity.
Qed.

Lemma pval_set (P : parents) (a v i : Z) :
  id_ok a -> id_ok i ->
  pval (parent_set (a / C) (Z.rem a C) v P) i =
  if a =? i then option_map (fun _ => v) (pval P i) else pval P i.
Proof.
  intros Ha Hi. unfold pval.
  destruct (id_coords a Ha) as (Ha1 & Ha2 & Ha3).
  destruct (id_coords i Hi) as (Hi1 & Hi2 & Hi3).
  rewrite parent_get_set by lia.
  destruct (a =? i) eqn:E.
  - apply Z.eqb_eq in E. subst i. rewrite !Z.eqb_refl. reflexivity.
  - apply Z.eqb_neq in E.
    destruct ((a / C =? i / C) && (Z.rem a C =? Z.rem i C)) eqn:E2; [|reflexivity].
    apply andb_true_iff in E2. destruct E2 as [E2 E3].
    apply Z.eqb_eq in E2, E3. rewrite E2, E3 in Ha3. lia.
Qed.

Lemma p_shape_set (P : parents) (r c v : Z) : p_shape P -> p_shape (parent_set r c v P).
Proof.
  intros [H1 H2]. unfold parent_set.
  destruct ((0 <=? r) && (0 <=? c)); [|split; assumption].
  split.
  - rewrite length_list_upd. assumption.
  - intros x Hx. apply In_nth_error in Hx. destruct Hx as [i Hi].
    rewrite nth_error_list_upd in Hi.
    destruct (Nat.eqb _ i).
    + destruct (nth_error P i) as [x0|] eqn:E; [|discriminate].
      cbn in Hi. injection Hi as <-. rewrite length_list_upd.
      apply H2. eapply nth_error_In; eassumption.
    + apply H2. eapply nth_error_In; eassumption.
Qed.

Lemma p_shape_get (P : parents) (i : Z) :
  p_shape P -> id_ok i -> exists j, pval P i = Some j.
Proof.
  intros [H1 H2] Hi. destruct (id_coords i Hi) as (Hr & Hc & _).
  unfold pval, parent_get, nth_z.
  destruct (i / C <? 0) eqn:E; [apply Z.ltb_lt in E; lia|].
  destruct (nth_error P (Z.to_nat (i / C))) as [l|] eqn:El.
  - destruct (Z.rem i C <? 0) eqn:E2; [apply Z.ltb_lt in E2; lia|].
    assert (Hl : Z.of_nat (length l) = C) by (apply H2; eapply nth_error_In; eassumption).
    destruct (nth_error l (Z.to_nat (Z.rem i C))) as [j|] eqn:Ej; [eauto|].
    apply nth_error_None in Ej. lia.
  - apply nth_error_None in El. lia.
Qed.

(** The classes are given by [rep]; [h] decreases along the parent links and
    is at least [- k], where [k] bounds the number of unions made. *)
Record uf_inv (P : parents) (rep : Z -> Z) (h : Z -> Z) (k : Z) : Prop := {
  uf_shape : p_shape P;
  uf_parent : forall i, id_ok i ->
    exists j, pval P i = Some j /\ id_ok j /\ rep j = rep i /\
              (j = i -> rep i = i) /\ (j <> i -> h j < h i);
  uf_rep : forall i, id_ok i -> id_ok (rep i) /\ rep (rep i) = rep i;
  uf_h : forall i, id_ok i -> - k <= h i <= 0;
  uf_root : forall i, id_ok i -> h (rep i) <= h i
}.

Lemma uf_inv_weaken (P : parents) (rep h : Z -> Z) (k k' : Z) :
  uf_inv P rep h k -> k <= k' -> uf_inv P rep h k'.
Proof.
  intros [H1 H2 H3 H4 H5] Hk. constructor; try assumption.
  intros i Hi. specialize (H4 i Hi). lia.
Qed.

Lemma uf_root_parent (P : parents) (rep h : Z -> Z) (k i : Z) :
  uf_inv P rep h k -> id_ok i -> rep i = i -> pval P i = Some i.
Proof.
  intros H Hi Hr. destruct (uf_parent _ _ _ _ H i Hi) as (j & Hj & Hjok & Hrj & _ & Hlt).
  destruct (Z.eq_dec j i) as [->|Hne]; [assumption|].
  specialize (Hlt Hne). pose proof (uf_root _ _ _ _ H j Hjok) as Hroot.
  rewrite Hrj, Hr in Hroot. lia.
Qed.

Lemma nth_z_map_upto {A : Type} (f : Z -> A) (n i : Z) :
  0 <= i < n -> nth_z (map f (upto n)) i = Some (f i).
Proof.
  intros H. unfold nth_z, upto.
  destruct (i <? 0) eqn:E; [apply Z.ltb_lt in E; lia|].
  rewrite map_map, nth_error_map, nth_error_seq.
  destruct (Nat.ltb_spec (Z.to_nat i) (Z.to_nat n)); [|lia].
  cbn. rewrite Z2Nat.id by lia. reflexivity.
Qed.

Lemma uf_inv_init : uf_inv (parent_init (R, C)) (fun i => i) (fun _ => 0) 0.
Proof.
  constructor.
  - unfold parent_init, p_shape. cbn [fst snd]. split.
    + unfold upto. rewrite !length_map, length_seq. lia.
    + intros r Hr. apply in_map_iff in Hr. destruct Hr as (x & <- & _).
      unfold upto. rewrite !length_map, length_seq. lia.
  - intros i Hi. exists i. destruct (id_coords i Hi) as (Hr & Hc & Hrc).
    split; [|split; [assumption|split; [reflexivity|split; [reflexivity|congruence]]]].
    unfold pval, parent_get, parent_init. cbn [fst snd].
    rewrite nth_z_map_upto by assumption. rewrite nth_z_map_upto by assumption.
    rewrite Hrc. reflexivity.
  - intros i Hi. split; [assumption|reflexivity].
  - intros i Hi. lia.
  - intros i Hi. lia.
Qed.

Lemma find_ok (rep h : Z -> Z) (k : Z) (fuel : nat) :
  forall P i, uf_inv P rep h k -> id_ok i -> h i + k < Z.of_nat fuel ->
  exists P', find fuel C (i / C) (Z.rem i C) P = Returned (rep i, P') /\
             uf_inv P' rep h k.
Proof.
  induction fuel as [|fuel IH]; intros P i HP Hi Hf.
  - pose proof (uf_h _ _ _ _ HP i Hi). lia.
  - cbn [find]. destruct (id_coords i Hi) as (_ & _ & Hrc). rewrite Hrc.
    destruct (uf_parent _ _ _ _ HP i Hi) as (j & Hj & Hjok & Hrj & Hroot & Hlt).
    fold (pval P i). rewrite Hj.
    destruct (j =? i) eqn:E.
    + apply Z.eqb_eq in E. subst j. exists P. rewrite (Hroot eq_refl). auto.
    + apply Z.eqb_neq in E. specialize (Hlt E).
      destruct (IH P j HP Hjok) as (P' & E' & HP'); [lia|].
      rewrite E'. rewrite Hrj. eexists. split; [reflexivity|].
      destruct HP' as [H1 H2 H3 H4 H5].
      constructor; try assumption.
      * apply p_shape_set. assumption.
      * intros x Hx. rewrite pval_set by assumption.
        destruct (H2 x Hx) as (y & Hy & Hyok & Hry & Hyroot & Hylt).
        destruct (i =? x) eqn:Ex.
        -- apply Z.eqb_eq in Ex. subst x. rewrite Hy. cbn [option_map].
           exists (rep i). destruct (H3 i Hi) as [Hr1 Hr2].
           split; [reflexivity|]. split; [assumption|]. split; [assumption|].
           split; [congruence|]. intros Hne.
           pose proof (H5 j Hjok) as Hrootj. rewrite Hrj in Hrootj. lia.
        -- exists y. auto.
Qed.

(** The classes and the heights after [parent[root2] = root1]. *)
Definition merge (rep : Z -> Z) (root1 root2 : Z) : Z -> Z :=
  fun x => if rep x =? root2 then root1 else rep x.

Definition lower (h : Z -> Z) (root1 : Z) (k : Z) : Z -> Z :=
  fun x => if x =? root1 then - (k + 1) else h x.

Lemma uf_link (P : parents) (rep h : Z -> Z) (k root1 root2 : Z) :
  uf_inv P rep h k -> id_ok root1 -> id_ok root2 ->
  rep root1 = root1 -> rep root2 = root2 -> root1 <> root2 -> 0 <= k ->
  uf_inv (parent_set (root2 / C) (Z.rem root2 C) root1 P)
         (merge rep root1 root2) (lower h root1 k) (k + 1).
Proof.
  intros HP H1 H2 Hr1 Hr2 Hne Hk.
  pose proof HP as [Hs Hp Hr Hh Hroot].
  assert (Em1 : merge rep root1 root2 root1 = root1).
  { unfold merge. rewrite Hr1. destruct (root1 =? root2) eqn:E; [|reflexivity].
    apply Z.eqb_eq in E. contradiction. }
  constructor.
  - apply p_shape_set. assumption.
  - intros i Hi. rewrite pval_set by assumption.
    destruct (Hp i Hi) as (j & Hj & Hjok & Hrj & Hjroot & Hjlt).
    destruct (root2 =? i) eqn:E.
    + apply Z.eqb_eq in E. subst i. rewrite Hj. cbn [option_map].
      exists root1. split; [reflexivity|]. split; [assumption|].
      split; [|split].
      * rewrite Em1. unfold merge. rewrite Hr2, Z.eqb_refl. reflexivity.
      * intros; contradiction.
      * intros _. unfold lower. rewrite Z.eqb_refl.
        destruct (root2 =? root1) eqn:E; [apply Z.eqb_eq in E; congruence|].
        pose proof (Hh root2 H2). lia.
    + apply Z.eqb_neq in E. exists j. split; [assumption|]. split; [assumption|].
      split; [|split].
      * unfold merge. rewrite Hrj. reflexivity.
      * intros Hji. specialize (Hjroot Hji). unfold merge. rewrite Hjroot.
        destruct (i =? root2) eqn:E2; [apply Z.eqb_eq in E2; congruence | reflexivity].
      * intros Hji. specialize (Hjlt Hji). unfold lower.
        destruct (i =? root1) eqn:E1.
        -- apply Z.eqb_eq in E1. subst i.
           rewrite (uf_root_parent P rep h k root1 HP H1 Hr1) in Hj. congruence.
        -- destruct (j =? root1); [pose proof (Hh i Hi); lia | assumption].
  - intros i Hi. destruct (Hr i Hi) as [Hri1 Hri2].
    assert (Emi : merge rep root1 root2 i = if rep i =? root2 then root1 else rep i)
      by reflexivity.
    destruct (rep i =? root2) eqn:E; rewrite Emi.
    + split; [assumption | exact Em1].
    + split; [assumption|]. unfold merge. rewrite Hri2, E. reflexivity.
  - intros i Hi. unfold lower. pose proof (Hh i Hi). destruct (i =? root1); lia.
  - intros i Hi. unfold lower, merge.
    pose proof (Hh i Hi). pose proof (Hroot i Hi).
    destruct (rep i =? root2) eqn:E.
    + rewrite Z.eqb_refl. destruct (i =? root1); lia.
    + destruct (rep i =? root1) eqn:E1.
      * destruct (i =? root1); lia.
      * destruct (i =? root1) eqn:E2; [|assumption].
        apply Z.eqb_eq in E2. subst i. rewrite Hr1, Z.eqb_refl in E1. discriminate.
Qed.

Lemma union_ok (rep h : Z -> Z) (k : Z) (fuel : nat) (P : parents) (p1 p2 : pos) :
  uf_inv P rep h k -> 0 <= k < Z.of_nat fuel ->
  inside (R, C) p1 = true -> inside (R, C) p2 = true ->
  rep (cell_id p1) <> rep (cell_id p2) ->
  exists P', union fuel C p1 p2 P = Returned P' /\
             uf_inv P' (merge rep (rep (cell_id p1)) (rep (cell_id p2)))
                    (lower h (rep (cell_id p1)) k) (k + 1).
Proof.
  intros HP Hk Hp1 Hp2 Hne. unfold union.
  destruct (cell_id_coords p1 Hp1) as (Hi1 & <- & <-).
  destruct (cell_id_coords p2 Hp2) as (Hi2 & <- & <-).
  destruct (find_ok rep h k fuel P _ HP Hi1) as (P1 & E1 & HP1).
  { pose proof (uf_h _ _ _ _ HP _ Hi1). lia. }
  rewrite E1.
  destruct (find_ok rep h k fuel P1 _ HP1 Hi2) as (P2 & E2 & HP2).
  { pose proof (uf_h _ _ _ _ HP _ Hi2). lia. }
  rewrite E2.
  destruct (rep (cell_id p1) =? rep (cell_id p2)) eqn:E; [apply Z.eqb_eq in E; contradiction|].
  destruct (uf_rep _ _ _ _ HP2 _ Hi1) as [Hr1 Hr1'].
  destruct (uf_rep _ _ _ _ HP2 _ Hi2) as [Hr2 Hr2'].
  destruct (p_shape_get P2 _ (uf_shape _ _ _ _ HP2) Hr2) as [v Hv].
  fold (pval P2 (rep (cell_id p2))). rewrite Hv.
  eexists. split; [reflexivity|].
  apply uf_link; try assumption. lia.
Qed.


(** ** kruskal: the edges *)

(** [if (!grid[r][c].isStart && !grid[r][c].isEnd) grid[r][c].isWall = b]
    as a function on the grid. *)
Definition mark (b : bool) (p : pos) (g : Grid) : Grid :=
  if flagged (node g p) then g else grid_upd p (set_isWall b) g.

Lemma set_unless_flagged_returns (st : mstate) (b : bool) (p : pos) :
  valid (m_grid st) p ->
  set_unless_flagged b p st = Returned (tt, mkM (mark b p (m_grid st)) (m_next st)).
Proof.
  intros Hv. unfold set_unless_flagged, bind, read, mark, node.
  rewrite (valid_get _ _ Hv). destruct (flagged (node (m_grid st) p)).
  - destruct st; reflexivity.
  - unfold write_wall. rewrite (valid_get _ _ Hv). reflexivity.
Qed.

Lemma rect_mark (b : bool) (p : pos) (g : Grid) : rect R C g -> rect R C (mark b p g).
Proof. intros H. unfold mark. destruct (flagged _); [assumption | apply rect_upd; assumption]. Qed.

Lemma maze_inv_mark (p : pos) (g : Grid) : maze_inv g0 g -> maze_inv g0 (mark false p g).
Proof.
  intros H. unfold mark. destruct (flagged _); [assumption | apply maze_inv_open; assumption].
Qed.

Lemma maybe_update_returns (onUpdate : bool) (st : mstate) :
  exists k, maybe_update onUpdate rnd st = Returned (tt, mkM (m_grid st) k).
Proof.
  unfold maybe_update. destruct onUpdate; cbn.
  - eexists; reflexivity.
  - exists (m_next st). destruct st; reflexivity.
Qed.

(** Cells with even coordinates, and the edges between two of them. *)
Definition lattice (p : pos) : Prop :=
  inside (R, C) p = true /\ Z.even (fst p) = true /\ Z.even (snd p) = true.

Definition good_edge (e : edge) : Prop :=
  lattice (fst e) /\ lattice (snd e) /\
  (snd e = (fst (fst e) + 2, snd (fst e)) \/ snd e = (fst (fst e), snd (fst e) + 2)).

Definition mid (e : edge) : pos :=
  ((fst (fst e) + fst (snd e)) / 2, (snd (fst e) + snd (snd e)) / 2).

Lemma all_edges_iff (e : edge) : In e (all_edges (R, C)) <-> good_edge e.
Proof.
  unfold all_edges, good_edge, lattice. cbn [fst snd].
  rewrite in_flat_map. split.
  - intros (r & Hr & H). rewrite in_flat_map in H. destruct H as (c & Hc & H).
    apply In_evens in Hr, Hc. destruct Hr as [Hr Her], Hc as [Hc Hec].
    apply in_app_or in H. destruct H as [H|H].
    + destruct (r + 2 <? R) eqn:E; [|destruct H]. apply Z.ltb_lt in E.
      destruct H as [<-|[]]. cbn [fst snd].
      rewrite !inside_iff. cbn [fst snd]. rewrite Z.even_add, Her.
      repeat split; auto; lia.
    + destruct (c + 2 <? C) eqn:E; [|destruct H]. apply Z.ltb_lt in E.
      destruct H as [<-|[]]. cbn [fst snd].
      rewrite !inside_iff. cbn [fst snd]. rewrite Z.even_add, Hec.
      repeat split; auto; lia.
  - destruct e as [[r c] [r2 c2]]. cbn [fst snd].
    rewrite !inside_iff. cbn [fst snd].
    intros ((Hin & Her & Hec) & (Hin2 & _) & H).
    exists r. split; [apply In_evens; split; [lia | assumption]|].
    rewrite in_flat_map. exists c. split; [apply In_evens; split; [lia | assumption]|].
    apply in_or_app. destruct H as [H|H]; injection H as -> ->.
    + left. destruct (r + 2 <? R) eqn:E; [left; reflexivity|].
      apply Z.ltb_ge in E. lia.
    + right. destruct (c + 2 <? C) eqn:E; [left; reflexivity|].
      apply Z.ltb_ge in E. lia.
Qed.

Lemma good_edge_mid (e : edge) :
  good_edge e ->
  Z.even (fst (fst e) + fst (snd e)) = true /\
  Z.even (snd (fst e) + snd (snd e)) = true /\
  inside (R, C) (mid e) = true /\
  (mid e = (fst (fst e) + 1, snd (fst e)) \/ mid e = (fst (fst e), snd (fst e) + 1)).
Proof.
  destruct e as [[r c] [r2 c2]]. unfold good_edge, lattice, mid. cbn [fst snd].
  rewrite !inside_iff. cbn [fst snd].
  intros ((Hin & Her & Hec) & (Hin2 & _) & H).
  destruct H as [H|H]; injection H as -> ->.
  - replace (r + (r + 2)) with ((r + 1) * 2) by lia.
    replace (c + c) with (c * 2) by lia.
    rewrite !Z.div_mul by lia. rewrite !Z.even_mul. cbn. rewrite !orb_true_r.
    repeat split; auto; try lia.
  - replace (c + (c + 2)) with ((c + 1) * 2) by lia.
    replace (r + r) with (r * 2) by lia.
    rewrite !Z.div_mul by lia. rewrite !Z.even_mul. cbn. rewrite !orb_true_r.
    repeat split; auto; try lia.
Qed.

(** What one edge does to the classes and to the grid. *)
Definition open_edge (e : edge) (g : Grid) : Grid :=
  mark false (mid e) (mark false (snd e) (mark false (fst e) g)).

Lemma process_edge_ok (rep h : Z -> Z) (k : Z) (fuel : nat) (onUpdate : bool)
      (P : parents) (e : edge) (st : mstate) :
  uf_inv P rep h k -> 0 <= k < Z.of_nat fuel -> rect R C (m_grid st) -> good_edge e ->
  exists P' st',
    process_edge fuel onUpdate rnd C P e st = Returned (P', st') /\
    ((rep (cell_id (fst e)) = rep (cell_id (snd e)) /\
      uf_inv P' rep h k /\ m_grid st' = m_grid st) \/
     (rep (cell_id (fst e)) <> rep (cell_id (snd e)) /\
      uf_inv P' (merge rep (rep (cell_id (fst e))) (rep (cell_id (snd e))))
             (lower h (rep (cell_id (fst e))) k) (k + 1) /\
      m_grid st' = open_edge e (m_grid st))).
Proof.
  intros HP Hk Hrect Hgood.
  destruct (good_edge_mid e Hgood) as (Hev1 & Hev2 & Hmid & _).
  destruct e as [p1 p2]. destruct Hgood as ((Hp1 & _) & (Hp2 & _) & _).
  cbn [fst snd] in *. unfold process_edge.
  destruct (cell_id_coords p1 Hp1) as (Hi1 & Hc1 & Hc1').
  destruct (cell_id_coords p2 Hp2) as (Hi2 & Hc2 & Hc2').
  destruct (find_ok rep h k fuel P _ HP Hi1) as (P1 & E1 & HP1).
  { pose proof (uf_h _ _ _ _ HP _ Hi1). lia. }
  rewrite Hc1, Hc1' in E1.
  destruct (find_ok rep h k fuel P1 _ HP1 Hi2) as (P2 & E2 & HP2).
  { pose proof (uf_h _ _ _ _ HP _ Hi2). lia. }
  rewrite Hc2, Hc2' in E2.
  unfold bind at 1. unfold lift at 1. rewrite E1. cbn [fst snd].
  unfold bind at 1. unfold lift at 1. rewrite E2. cbn [fst snd].
  destruct (rep (cell_id p1) =? rep (cell_id p2)) eqn:E.
  - apply Z.eqb_eq in E. exists P2, st. split; [reflexivity|]. left. auto.
  - apply Z.eqb_neq in E.
    destruct (union_ok rep h k fuel P2 p1 p2 HP2 Hk Hp1 Hp2 E) as (P' & E' & HP').
    unfold bind at 1. unfold lift at 1. rewrite E'.
    unfold bind at 1. rewrite set_unless_flagged_returns
      by (apply (rect_valid R C); assumption).
    cbn [m_grid m_next].
    assert (Hr1 : rect R C (mark false p1 (m_grid st))) by (apply rect_mark; assumption).
    unfold bind at 1. rewrite set_unless_flagged_returns
      by (apply (rect_valid R C); assumption).
    cbn [m_grid m_next].
    assert (Hr2 : rect R C (mark false p2 (mark false p1 (m_grid st))))
      by (apply rect_mark; assumption).
    unfold bind at 1. unfold midpoint at 1. rewrite Hev1. unfold ret at 1.
    unfold bind at 1. unfold midpoint at 1. rewrite Hev2. unfold ret at 1.
    unfold bind at 1. rewrite set_unless_flagged_returns
      by (apply (rect_valid R C); assumption).
    cbn [m_grid m_next].
    unfold bind at 1.
    match goal with |- context [maybe_update onUpdate rnd ?s] =>
      destruct (maybe_update_returns onUpdate s) as [k' Ek] end.
    rewrite Ek. unfold ret.
    eexists. eexists. split; [reflexivity|]. right.
    split; [assumption|]. split; [assumption|]. reflexivity.
Qed.

Lemma swap_ok {A : Type} (l : list A) (i j : Z) :
  0 <= i < Z.of_nat (length l) -> 0 <= j < Z.of_nat (length l) ->
  exists l', swap i j l = Some l' /\ Permutation l l'.
Proof.
  intros Hi Hj. unfold swap.
  destruct (nth_z_Some l i Hi) as (a & Ea & _).
  destruct (nth_z_Some l j Hj) as (b & Eb & _).
  rewrite Ea, Eb. eexists. split; [reflexivity|].
  apply Permutation_nth_error. split.
  - rewrite !length_list_upd. reflexivity.
  - exists (fun n => if Nat.eqb n (Z.to_nat j) then Z.to_nat i
                     else if Nat.eqb n (Z.to_nat i) then Z.to_nat j else n).
    split.
    + intros x y.
      destruct (Nat.eqb_spec x (Z.to_nat j)), (Nat.eqb_spec y (Z.to_nat j)),
               (Nat.eqb_spec x (Z.to_nat i)), (Nat.eqb_spec y (Z.to_nat i)); lia.
    + intros n. rewrite !nth_error_list_upd.
      unfold nth_z in Ea, Eb.
      destruct (i <? 0) eqn:E1; [apply Z.ltb_lt in E1; lia|].
      destruct (j <? 0) eqn:E2; [apply Z.ltb_lt in E2; lia|].
      rewrite (Nat.eqb_sym n (Z.to_nat j)), (Nat.eqb_sym n (Z.to_nat i)).
      destruct (Nat.eqb_spec (Z.to_nat j) n) as [<-|Hn1].
      * destruct (Nat.eqb_spec (Z.to_nat i) (Z.to_nat j)) as [Hij|Hij].
        -- rewrite Eb. cbn. symmetry. assumption.
        -- rewrite Eb. cbn. symmetry. assumption.
      * destruct (Nat.eqb_spec (Z.to_nat i) n) as [<-|Hn2].
        -- rewrite Ea. cbn. symmetry. assumption.
        -- reflexivity.
Qed.

Lemma shuffle_ok (edges : list edge) (st : mstate) :
  exists edges' st', shuffle rnd edges st = Returned (edges', st') /\
                     Permutation edges edges' /\ m_grid st' = m_grid st.
Proof.
  set (J := fun (_ : nat) (l : list edge) (x : mstate) =>
              m_grid x = m_grid st /\ Permutation edges l).
  set (idx := rev (map (fun k => Z.of_nat k) (seq 1 (length edges - 1)))).
  assert (H : hoare (J 0%nat edges) (shuffle rnd edges) (J (0 + length idx)%nat)).
  { unfold shuffle. fold idx. apply hoare_fold_m.
    intros k i l Hk. unfold J.
    assert (Hi : 1 <= i <= Z.of_nat (length edges) - 1).
    { apply nth_error_In in Hk. unfold idx in Hk. apply in_rev in Hk.
      apply in_map_iff in Hk. destruct Hk as (x & <- & Hx). apply in_seq in Hx. lia. }
    eapply hoare_bind.
    - apply (hoare_random_floor _ (i + 1)
               (fun j x => (m_grid x = m_grid st /\ Permutation edges l) /\ 0 <= j < i + 1));
        [lia|].
      intros x j Hx Hj. auto.
    - intros j.
      apply hoare_conseq with
        (P' := fun x => (0 <= j < i + 1 /\ Permutation edges l) /\ m_grid x = m_grid st)
        (Q' := fun l' x => m_grid x = m_grid st /\ Permutation edges l'); [|tauto|auto].
      apply hoare_pre. intros [Hj Hperm].
      assert (Hlen : length l = length edges) by (symmetry; apply Permutation_length; assumption).
      destruct (swap_ok l i j) as (l' & -> & Hl'); [lia | lia |].
      apply hoare_ret. intros x Hg. split; [assumption|].
      eapply Permutation_trans; eassumption. }
  destruct (H st) as (edges' & st' & E & Hg & Hp).
  { split; [reflexivity | apply Permutation_refl]. }
  exists edges', st'. auto.
Qed.

Lemma process_edge_minv (fuel : nat) (onUpdate : bool) (k : nat) (e : edge) (P : parents) :
  good_edge e -> (k < fuel)%nat ->
  hoare (fun st => minv st /\ exists rep h, uf_inv P rep h (Z.of_nat k))
        (process_edge fuel onUpdate rnd C P e)
        (fun P' st => minv st /\ exists rep h, uf_inv P' rep h (Z.of_nat (S k))).
Proof.
  intros He Hk st [[Hrect Hinv] (rep & h & HP)].
  destruct (process_edge_ok rep h (Z.of_nat k) fuel onUpdate P e st HP) as
    (P' & st' & E & Hcase); [lia | assumption | assumption |].
  exists P', st'. split; [assumption|].
  destruct Hcase as [(_ & HP' & Hg) | (_ & HP' & Hg)].
  - split.
    + unfold minv. rewrite Hg. split; assumption.
    + exists rep, h. apply (uf_inv_weaken _ _ _ _ _ HP'). lia.
  - split.
    + unfold minv. rewrite Hg. unfold open_edge. split.
      * repeat apply rect_mark. assumption.
      * repeat apply maze_inv_mark. assumption.
    + eexists. eexists. rewrite Nat2Z.inj_succ. unfold Z.succ. exact HP'.
Qed.

Lemma generateKruskalMaze_minv (onUpdate : bool) :
  hoare minv (generateKruskalMaze onUpdate rnd) (fun _ => minv).
Proof.
  unfold generateKruskalMaze. eapply hoare_bind; [apply hoare_dims_minv|].
  intros d. apply hoare_conseq with (P' := fun st => d = (R, C) /\ minv st) (Q' := fun _ => minv);
    [|auto|auto].
  apply hoare_pre. intros ->. cbn [fst snd].
  eapply hoare_bind; [apply fill_walls_minv|]. intros u.
  eapply hoare_bind.
  { instantiate (1 := fun edges st => minv st /\ Permutation (all_edges (R, C)) edges).
    intros st Hst. destruct (shuffle_ok (all_edges (R, C)) st) as (edges & st' & E & Hp & Hg).
    exists edges, st'. split; [assumption|]. split; [|assumption].
    unfold minv. rewrite Hg. assumption. }
  intros edges.
  apply hoare_conseq with
    (P' := fun st => Permutation (all_edges (R, C)) edges /\ minv st) (Q' := fun _ => minv);
    [|tauto|auto].
  apply hoare_pre. intros Hperm.
  eapply hoare_bind; [|intros P; apply hoare_ret; intros st Hst; apply Hst].
  set (J := fun (k : nat) (P : parents) (st : mstate) =>
              minv st /\ exists rep h, uf_inv P rep h (Z.of_nat k)).
  apply hoare_conseq with (P' := J 0%nat (parent_init (R, C)))
                          (Q' := J (0 + length edges)%nat).
  2:{ intros st Hst. split; [assumption|]. eexists. eexists. apply uf_inv_init. }
  2:{ intros P st Hst. exact (proj1 Hst). }
  apply hoare_fold_m. intros k e P Hk. cbn [Nat.add]. unfold J.
  apply process_edge_minv.
  - apply all_edges_iff. eapply Permutation_in; [apply Permutation_sym; eassumption|].
    eapply nth_error_In; eassumption.
  - assert (k < length edges)%nat by (apply nth_error_Some; congruence). lia.
Qed.

(** ** generateMaze *)

Lemma generator_minv (type : MazeType) (onUpdate : bool) :
  hoare minv (generator type onUpdate rnd) (fun _ => minv).
Proof.
  destruct type; cbn [generator].
  - apply generateRandomMaze_minv.
  - apply generateRecursiveMaze_minv.
  - apply generatePrimMaze_minv.
  - apply generateKruskalMaze_minv.
  - apply generateBinaryTreeMaze_minv.
  - apply generateSidewinderMaze_minv.
Qed.

(** ** kruskal: the maze is a tree *)

(** The cells that carry a flag have even coordinates. *)
Hypothesis Hflags : forall p n, grid_get g0 p = Some n -> flagged n = true ->
                                Z.even (fst p) = true /\ Z.even (snd p) = true.

(** The cell with even coordinates up and left of a cell, itself if both
    are even. *)
Definition anchor (p : pos) : pos := (2 * (fst p / 2), 2 * (snd p / 2)).

Definition cell_cls (rep : Z -> Z) (p : pos) : Z := rep (cell_id (anchor p)).

(** The cells of the graph: the cells with even coordinates and the open
    cells. *)
Definition knode (g : Grid) (p : pos) : Prop := lattice p \/ open g p.

Lemma even_half (z : Z) : Z.even z = true -> 2 * (z / 2) = z.
Proof.
  intros H. apply Z.even_spec in H. destruct H as [k ->].
  rewrite (Z.mul_comm 2 k), Z.div_mul by lia. lia.
Qed.

Lemma odd_half (z : Z) : Z.even z = false -> 2 * (z / 2) = z - 1.
Proof.
  intros H. rewrite <- Z.negb_odd in H. apply negb_false_iff in H.
  apply Z.odd_spec in H. destruct H as [k ->].
  replace (2 * k + 1) with (1 + k * 2) by lia.
  rewrite Z.div_add by lia. rewrite Z.div_small by lia. lia.
Qed.

Lemma anchor_lattice (p : pos) : lattice p -> anchor p = p.
Proof.
  intros (_ & H1 & H2). unfold anchor. rewrite (even_half _ H1), (even_half _ H2).
  destruct p; reflexivity.
Qed.

Lemma lattice_not_adjacent (p q : pos) : lattice p -> lattice q -> ~ adjacent p q.
Proof.
  intros (_ & H1 & H2) (_ & H3 & H4) Ha. unfold adjacent in Ha.
  apply Z.even_spec in H1, H2, H3, H4.
  destruct H1 as [a Ha1], H2 as [b Hb], H3 as [c Hc], H4 as [d Hd]. lia.
Qed.

Lemma open_inside (g : Grid) (p : pos) : rect R C g -> open g p -> inside (R, C) p = true.
Proof. intros Hr [Hv _]. apply (rect_valid R C g); assumption. Qed.

(** ** The grid after [Fill with walls] *)

Definition filled (g : Grid) (p : pos) : Prop :=
  flagged (node g p) = true \/ isWall (node g p) = true.

Definition fill_inv (S : pos -> Prop) (st : mstate) : Prop :=
  minv st /\ forall q, S q -> filled (m_grid st) q.

Lemma node_mark (b : bool) (p q : pos) (g : Grid) :
  valid g q ->
  node (mark b p g) q =
  if pos_eqb p q && negb (flagged (node g q)) then set_isWall b (node g q) else node g q.
Proof.
  intros Hv. unfold mark.
  destruct (pos_eqb p q) eqn:E.
  - apply pos_eqb_eq in E. subst q. destruct (flagged (node g p)) eqn:Ef; cbn [andb negb].
    + reflexivity.
    + rewrite node_upd by assumption. rewrite pos_eqb_refl. reflexivity.
  - cbn [andb]. destruct (flagged (node g p)); [reflexivity|].
    rewrite node_upd by assumption. rewrite E. reflexivity.
Qed.

Lemma valid_mark (b : bool) (p q : pos) (g : Grid) : valid (mark b p g) q <-> valid g q.
Proof. unfold mark. destruct (flagged _); [tauto | apply valid_upd]. Qed.

Lemma filled_mark (p q : pos) (g : Grid) :
  valid g q -> filled g q -> filled (mark true p g) q.
Proof.
  intros Hv H. unfold filled. rewrite node_mark by assumption.
  destruct (pos_eqb p q && negb (flagged (node g q))); [right; reflexivity | assumption].
Qed.

Lemma filled_mark_same (p : pos) (g : Grid) : valid g p -> filled (mark true p g) p.
Proof.
  intros Hv. unfold filled. rewrite node_mark by assumption. rewrite pos_eqb_refl.
  destruct (flagged (node g p)) eqn:E; cbn [andb negb]; [left; assumption | right; reflexivity].
Qed.

Lemma minv_mark_true (st : mstate) (p : pos) :
  minv st -> minv (mkM (mark true p (m_grid st)) (m_next st)).
Proof.
  intros Hst. unfold mark. destruct (flagged (node (m_grid st) p)) eqn:E.
  - exact Hst.
  - apply minv_wall; assumption.
Qed.

Lemma fill_cell (S : pos -> Prop) (p : pos) :
  inside (R, C) p = true -> (forall q, S q -> inside (R, C) q = true) ->
  hoare (fill_inv S) (set_unless_flagged true p) (fun _ => fill_inv (fun q => S q \/ q = p)).
Proof.
  intros Hp HS st [Hst Hf].
  assert (Hv : valid (m_grid st) p) by (apply minv_valid; assumption).
  exists tt. eexists. split; [apply set_unless_flagged_returns; assumption|].
  split; [apply minv_mark_true; assumption|].
  cbn [m_grid]. intros q [Hq | ->].
  - apply filled_mark; [apply minv_valid; auto | auto].
  - apply filled_mark_same. assumption.
Qed.

Lemma fill_row (r : Z) (l : list Z) :
  forall S, (forall c, In c l -> inside (R, C) (r, c) = true) ->
  (forall q, S q -> inside (R, C) q = true) ->
  hoare (fill_inv S) (for_each l (fun c => set_unless_flagged true (r, c)))
        (fun _ => fill_inv (fun q => S q \/ exists c, In c l /\ q = (r, c))).
Proof.
  induction l as [|c l IH]; intros S Hl HS; cbn [for_each].
  - apply hoare_ret. intros st [H1 H2]. split; [assumption|].
    intros q [Hq | (c & [] & _)]. apply H2; assumption.
  - eapply hoare_bind.
    + apply fill_cell; [apply Hl; left; reflexivity | assumption].
    + intros u. eapply hoare_conseq.
      * apply (IH (fun q => S q \/ q = (r, c))).
        -- intros c' Hc'. apply Hl. right; assumption.
        -- intros q [Hq | ->]; [apply HS; assumption | apply Hl; left; reflexivity].
      * auto.
      * intros a st [H1 H2]. split; [assumption|].
        intros q [Hq | (c' & [<- | Hc'] & ->)]; apply H2; eauto.
Qed.

Lemma fill_rows (lc : list Z) (lr : list Z) :
  forall S, (forall r c, In r lr -> In c lc -> inside (R, C) (r, c) = true) ->
  (forall q, S q -> inside (R, C) q = true) ->
  hoare (fill_inv S)
        (for_each lr (fun r => for_each lc (fun c => set_unless_flagged true (r, c))))
        (fun _ => fill_inv (fun q => S q \/ exists r c, In r lr /\ In c lc /\ q = (r, c))).
Proof.
  induction lr as [|r lr IH]; intros S Hl HS; cbn [for_each].
  - apply hoare_ret. intros st [H1 H2]. split; [assumption|].
    intros q [Hq | (r & c & [] & _)]. apply H2; assumption.
  - eapply hoare_bind.
    + apply fill_row; [|assumption]. intros c Hc. apply Hl; [left; reflexivity | assumption].
    + intros u. eapply hoare_conseq.
      * apply (IH (fun q => S q \/ exists c, In c lc /\ q = (r, c))).
        -- intros r' c' Hr' Hc'. apply Hl; [right; assumption | assumption].
        -- intros q [Hq | (c & Hc & ->)];
             [apply HS; assumption | apply Hl; [left; reflexivity | assumption]].
      * auto.
      * intros a st [H1 H2]. split; [assumption|].
        intros q [Hq | (r' & c' & [<- | Hr'] & Hc' & ->)]; apply H2; eauto 8.
Qed.

Lemma fill_walls_filled :
  hoare minv fill_walls
        (fun _ st => minv st /\ forall q, inside (R, C) q = true -> filled (m_grid st) q).
Proof.
  unfold fill_walls. eapply hoare_bind; [apply hoare_dims_minv|].
  intros d. apply hoare_conseq with (P' := fun st => d = (R, C) /\ minv st)
    (Q' := fun _ st => minv st /\ forall q, inside (R, C) q = true -> filled (m_grid st) q);
    [|auto|auto].
  apply hoare_pre. intros ->. cbn [fst snd].
  eapply hoare_conseq.
  - apply (fill_rows (upto C) (upto R) (fun _ => False)).
    + intros r c Hr Hc. apply In_upto in Hr, Hc. apply inside_iff. cbn [fst snd]. lia.
    + intros q [].
  - intros st Hst. split; [assumption | intros q []].
  - intros a st [H1 H2]. split; [assumption|].
    intros q Hq. apply H2. right. apply inside_iff in Hq.
    exists (fst q), (snd q). rewrite !In_upto. destruct q; cbn [fst snd] in *.
    repeat split; lia.
Qed.

(** ** The invariant of the loop over the edges *)

Record kinv (g : Grid) (rep : Z -> Z) : Prop := {
  k_rect : rect R C g;
  k_minv : maze_inv g0 g;
  k_forest : forest (knode g) (cell_cls rep);
  k_odd : forall p, open g p -> Z.even (fst p) = true \/ Z.even (snd p) = true;
  k_mid : forall x y, open g x -> ~ lattice x -> lattice y -> adjacent x y -> open g y
}.

Lemma even_false_odd (z : Z) : Z.even z = false <-> exists k, z = 2 * k + 1.
Proof.
  rewrite <- Z.negb_odd, negb_false_iff. apply Z.odd_spec.
Qed.

Lemma flagged_lattice (g : Grid) (p : pos) :
  rect R C g -> maze_inv g0 g -> valid g p -> flagged (node g p) = true ->
  lattice p /\ open g p.
Proof.
  intros Hr Hinv Hv Hf. specialize (Hinv p). unfold node in Hf.
  pose proof (valid_get _ _ Hv) as Hg. unfold open, node.
  destruct (grid_get g0 p) as [n0|] eqn:E0, (grid_get g p) as [n|] eqn:E;
    try contradiction; try discriminate.
  pose proof (kept_flagged _ _ Hinv) as Hk. destruct Hinv as [_ Hw].
  destruct (Hflags p n0 E0) as [H1 H2]; [congruence|].
  split; [|split; [assumption | apply Hw; assumption]].
  split; [apply (rect_valid R C g); assumption | split; assumption].
Qed.

Lemma open_mark (g : Grid) (p x : pos) :
  rect R C g -> maze_inv g0 g -> inside (R, C) p = true ->
  (open (mark false p g) x <-> open g x \/ x = p).
Proof.
  intros Hr Hinv Hp.
  assert (Hvp : valid g p) by (apply (rect_valid R C); assumption).
  unfold open. rewrite valid_mark. split.
  - intros [Hv Hw]. rewrite node_mark in Hw by assumption.
    destruct (pos_eqb p x) eqn:E.
    + right. symmetry. apply pos_eqb_eq. assumption.
    + left. split; assumption.
  - intros [[Hv Hw] | ->].
    + split; [assumption|]. rewrite node_mark by assumption.
      destruct (pos_eqb p x && negb (flagged (node g x))); [reflexivity | assumption].
    + split; [assumption|]. rewrite node_mark by assumption. rewrite pos_eqb_refl.
      destruct (flagged (node g p)) eqn:Ef; cbn [andb negb]; [|reflexivity].
      apply (flagged_lattice g p Hr Hinv Hvp Ef).
Qed.

Lemma open_open_edge (g : Grid) (e : edge) (x : pos) :
  rect R C g -> maze_inv g0 g -> good_edge e ->
  (open (open_edge e g) x <-> open g x \/ x = fst e \/ x = snd e \/ x = mid e).
Proof.
  intros Hr Hinv He. destruct (good_edge_mid e He) as (_ & _ & Hm & _).
  destruct He as ((Hu & _) & (Hv & _) & _). unfold open_edge.
  rewrite open_mark; [|repeat apply rect_mark; assumption
                      |repeat apply maze_inv_mark; assumption | assumption].
  rewrite open_mark; [|repeat apply rect_mark; assumption
                      |repeat apply maze_inv_mark; assumption | assumption].
  rewrite open_mark by assumption. tauto.
Qed.

(** The cells around the middle of an edge. *)
Lemma good_edge_geometry (e : edge) :
  good_edge e ->
  ~ lattice (mid e) /\ anchor (mid e) = fst e /\
  adjacent (mid e) (fst e) /\ adjacent (mid e) (snd e) /\
  (Z.even (fst (mid e)) = true \/ Z.even (snd (mid e)) = true) /\
  (forall y, adjacent (mid e) y ->
     y = fst e \/ y = snd e \/ (Z.even (fst y) = false /\ Z.even (snd y) = false)).
Proof.
  intros He. destruct (good_edge_mid e He) as (_ & _ & _ & Hm).
  destruct e as [[r c] [r2 c2]]. destruct He as ((_ & Her & Hec) & _ & Hv).
  cbn [fst snd] in *.
  pose proof Her as Her'. pose proof Hec as Hec'.
  apply Z.even_spec in Her', Hec'. destruct Her' as [a Ha], Hec' as [b Hb].
  assert (Hr1 : Z.even (r + 1) = false) by (apply even_false_odd; exists a; lia).
  assert (Hc1 : Z.even (c + 1) = false) by (apply even_false_odd; exists b; lia).
  clear Hm. destruct Hv as [Hv | Hv]; injection Hv as -> ->.
  - unfold mid. cbn [fst snd].
    replace (r + (r + 2)) with ((r + 1) * 2) by lia.
    replace (c + c) with (c * 2) by lia. rewrite !Z.div_mul by lia.
    split; [intros (_ & H & _); cbn [fst] in H; congruence|].
    split; [unfold anchor; cbn [fst snd]; rewrite (odd_half _ Hr1), (even_half _ Hec);
            f_equal; lia|].
    split; [unfold adjacent; cbn [fst snd]; lia|].
    split; [unfold adjacent; cbn [fst snd]; lia|].
    split; [right; assumption|].
    intros [yr yc] Hy. unfold adjacent in Hy. cbn [fst snd] in *.
    assert (Hcase : (yr = r /\ yc = c) \/ (yr = r + 2 /\ yc = c) \/
                    (yr = r + 1 /\ (yc = c - 1 \/ yc = c + 1))) by lia.
    destruct Hcase as [[-> ->] | [[-> ->] | [-> Hyc]]]; [left; reflexivity | right; left; reflexivity|].
    right; right. split; [assumption|]. apply even_false_odd.
    destruct Hyc as [-> | ->]; [exists (b - 1) | exists b]; lia.
  - unfold mid. cbn [fst snd].
    replace (r + r) with (r * 2) by lia.
    replace (c + (c + 2)) with ((c + 1) * 2) by lia. rewrite !Z.div_mul by lia.
    split; [intros (_ & _ & H); cbn [snd] in H; congruence|].
    split; [unfold anchor; cbn [fst snd]; rewrite (odd_half _ Hc1), (even_half _ Her);
            f_equal; lia|].
    split; [unfold adjacent; cbn [fst snd]; lia|].
    split; [unfold adjacent; cbn [fst snd]; lia|].
    split; [left; assumption|].
    intros [yr yc] Hy. unfold adjacent in Hy. cbn [fst snd] in *.
    assert (Hcase : (yr = r /\ yc = c) \/ (yr = r /\ yc = c + 2) \/
                    (yc = c + 1 /\ (yr = r - 1 \/ yr = r + 1))) by lia.
    destruct Hcase as [[-> ->] | [[-> ->] | [-> Hyr]]]; [left; reflexivity | right; left; reflexivity|].
    right; right. split; [|assumption]. apply even_false_odd.
    destruct Hyr as [-> | ->]; [exists (a - 1) | exists a]; lia.
Qed.

Lemma kinv_init (g : Grid) :
  rect R C g -> maze_inv g0 g -> (forall q, inside (R, C) q = true -> filled g q) ->
  kinv g (fun i => i).
Proof.
  intros Hr Hinv Hfill.
  assert (Hopen : forall p, open g p -> lattice p).
  { intros p Ho. pose proof (open_inside g p Hr Ho) as Hin. destruct Ho as [Hv Hw].
    destruct (Hfill p Hin) as [Hf | Hf]; [|congruence].
    apply (flagged_lattice g p Hr Hinv Hv Hf). }
  assert (Hnode : forall p, knode g p -> lattice p).
  { intros p [H | H]; [assumption | apply Hopen; assumption]. }
  constructor; try assumption.
  - split.
    + intros x y Hx Hy Ha. exfalso.
      apply (lattice_not_adjacent x y); auto.
    + intros r Hrn. exists (fun _ => 0). split; [reflexivity|].
      intros x Hx Hc.
      assert (Hxr : x = r).
      { unfold cell_cls in Hc.
        rewrite (anchor_lattice x (Hnode x Hx)), (anchor_lattice r (Hnode r Hrn)) in Hc.
        apply cell_id_inj; [apply (Hnode x Hx) | apply (Hnode r Hrn) | assumption]. }
      subst x. split; [lia|]. split; [reflexivity|]. split; [intros H; contradiction H; reflexivity|].
      intros y Hy Ha. exfalso. apply (lattice_not_adjacent r y); auto.
  - intros p Ho. left. apply (Hopen p Ho).
  - intros x y Ho Hnl. contradiction Hnl. apply Hopen. assumption.
Qed.

Lemma kinv_step (g : Grid) (rep : Z -> Z) (e : edge) :
  kinv g rep -> good_edge e ->
  rep (cell_id (fst e)) <> rep (cell_id (snd e)) ->
  kinv (open_edge e g) (merge rep (rep (cell_id (fst e))) (rep (cell_id (snd e)))).
Proof.
  intros [Hr Hinv HF Hodd Hmid] He Hne.
  destruct (good_edge_geometry e He) as (Hnl & Hanc & Hau & Hav & Hpar & Hnb).
  pose proof He as (Hu & Hv & _).
  assert (Hcu : cell_cls rep (fst e) = rep (cell_id (fst e)))
    by (unfold cell_cls; rewrite anchor_lattice by assumption; reflexivity).
  assert (Hcv : cell_cls rep (snd e) = rep (cell_id (snd e)))
    by (unfold cell_cls; rewrite anchor_lattice by assumption; reflexivity).
  pose proof (fun x => open_open_edge g e x Hr Hinv He) as Hopen.
  constructor.
  - unfold open_edge. repeat apply rect_mark. assumption.
  - unfold open_edge. repeat apply maze_inv_mark. assumption.
  - apply (glue_forest (knode g) (knode (open_edge e g)) (cell_cls rep)
             (cell_cls (merge rep (rep (cell_id (fst e))) (rep (cell_id (snd e)))))
             (mid e) (fst e) (snd e)).
    + intros x. unfold knode. rewrite Hopen. split.
      * intros [H | [H | [-> | [-> | ->]]]]; auto.
      * intros [[H | H] | ->]; auto.
    + intros [Hl | Ho]; [contradiction|].
      apply Hne. rewrite <- Hcu, <- Hcv.
      rewrite <- (proj1 HF (mid e) (fst e)); [|right; assumption | left; assumption | assumption].
      apply (proj1 HF (mid e) (snd e)); [right; assumption | left; assumption | assumption].
    + left; assumption.
    + left; assumption.
    + assumption.
    + assumption.
    + intros y Hy Ha. destruct (Hnb y Ha) as [H | [H | [H1 H2]]]; auto.
      exfalso. destruct Hy as [(_ & H3 & _) | Ho]; [congruence|].
      destruct (Hodd y Ho); congruence.
    + rewrite Hcu, Hcv. assumption.
    + intros x _. unfold cell_cls at 1. unfold merge. rewrite Hcu, Hcv. reflexivity.
    + unfold cell_cls at 1. unfold merge. rewrite Hanc, Hcu.
      destruct (rep (cell_id (fst e)) =? rep (cell_id (snd e))); reflexivity.
    + assumption.
  - intros p Hp. apply Hopen in Hp. destruct Hp as [Hp | [-> | [-> | ->]]].
    + apply Hodd; assumption.
    + left. apply Hu.
    + left. apply Hv.
    + assumption.
  - intros x y Hx Hnlx Hy Ha. apply Hopen. apply Hopen in Hx.
    destruct Hx as [Hx | [-> | [-> | ->]]].
    + left. apply (Hmid x y); assumption.
    + contradiction.
    + contradiction.
    + destruct (Hnb y Ha) as [H | [H | [H1 H2]]]; auto.
      exfalso. destruct Hy as (_ & H3 & _). congruence.
Qed.

(** The edges whose ends are in the same class. *)
Definition joined (rep : Z -> Z) (l : list edge) : Prop :=
  forall e, In e l -> rep (cell_id (fst e)) = rep (cell_id (snd e)).

Lemma joined_merge (rep : Z -> Z) (a b : Z) (l : list edge) :
  joined rep l -> joined (merge rep a b) l.
Proof. intros H e He. unfold merge. rewrite (H e He). reflexivity. Qed.

Lemma kruskal_fold (fuel : nat) (onUpdate : bool) (edges : list edge) :
  forall done P st rep h k,
  uf_inv P rep h k -> 0 <= k -> k + Z.of_nat (length edges) < Z.of_nat fuel ->
  kinv (m_grid st) rep -> joined rep done -> Forall good_edge edges ->
  exists P' st' rep',
    fold_m (process_edge fuel onUpdate rnd C) edges P st = Returned (P', st') /\
    kinv (m_grid st') rep' /\ joined rep' (done ++ edges).
Proof.
  induction edges as [|e edges IH]; intros done P st rep h k HP Hk Hf Hinv Hj Hgood.
  - exists P, st, rep. rewrite app_nil_r. auto.
  - cbn [fold_m]. cbn [length] in Hf.
    apply Forall_cons_iff in Hgood. destruct Hgood as [He Hrest].
    destruct (process_edge_ok rep h k fuel onUpdate P e st HP) as (P1 & st1 & E & Hcase);
      [lia | apply (k_rect _ _ Hinv) | assumption |].
    unfold bind. rewrite E.
    replace (done ++ e :: edges) with ((done ++ [e]) ++ edges)
      by (rewrite <- app_assoc; reflexivity).
    destruct Hcase as [(Heq & HP1 & Hg) | (Hne & HP1 & Hg)].
    + apply (IH (done ++ [e]) P1 st1 rep h k); try assumption; [lia | |].
      * rewrite Hg. assumption.
      * intros e' He'. apply in_app_or in He'. destruct He' as [He' | [<- | []]]; auto.
    + eapply (IH (done ++ [e]) P1 st1 _ _ (k + 1)); try eassumption; [lia | lia | |].
      * rewrite Hg. apply kinv_step; assumption.
      * intros e' He'. apply in_app_or in He'. destruct He' as [He' | [<- | []]].
        -- apply (joined_merge rep _ _ done Hj e' He').
        -- unfold merge. rewrite Z.eqb_refl.
           destruct (rep (cell_id (fst e)) =? rep (cell_id (snd e))) eqn:E2; [|reflexivity].
           apply Z.eqb_eq in E2. contradiction.
Qed.

(** ** From the invariant to the maze *)

(** Every open cell reaches every other, along exactly one path without
    repetition. *)
Definition perfect_maze (g : Grid) : Prop :=
  forall p q, open g p -> open g q ->
    connected g p q /\
    forall l1 l2, is_path g p q l1 -> NoDup l1 -> is_path g p q l2 -> NoDup l2 -> l1 = l2.

Lemma lattice_joined (rep : Z -> Z) :
  (forall e, good_edge e -> rep (cell_id (fst e)) = rep (cell_id (snd e))) ->
  forall p, lattice p -> rep (cell_id p) = rep (cell_id (0, 0)).
Proof.
  intros Hj.
  assert (H : forall n p, lattice p -> fst p + snd p <= 2 * Z.of_nat n ->
                          rep (cell_id p) = rep (cell_id (0, 0))).
  { induction n as [|n IH]; intros [r c] Hl Hn; pose proof Hl as (Hin & Her & Hec);
      apply inside_iff in Hin; cbn [fst snd] in *.
    - replace r with 0 by lia. replace c with 0 by lia. reflexivity.
    - pose proof Her as Her'. pose proof Hec as Hec'.
      apply Z.even_spec in Her', Hec'. destruct Her' as [a Ha], Hec' as [b Hb].
      destruct (Z_lt_le_dec r 2) as [Hr2 | Hr2].
      + destruct (Z_lt_le_dec c 2) as [Hc2 | Hc2].
        * replace r with 0 by lia. replace c with 0 by lia. reflexivity.
        * assert (Hq : lattice (r, c - 2)).
          { split; [apply inside_iff; cbn [fst snd]; lia|]. cbn [fst snd].
            split; [assumption|]. apply Z.even_spec. exists (b - 1). lia. }
          rewrite <- (IH (r, c - 2) Hq) by (cbn [fst snd]; lia).
          symmetry. apply (Hj ((r, c - 2), (r, c))).
          split; [assumption|]. split; [assumption|]. right. cbn [fst snd].
          f_equal. lia.
      + assert (Hq : lattice (r - 2, c)).
        { split; [apply inside_iff; cbn [fst snd]; lia|]. cbn [fst snd].
          split; [|assumption]. apply Z.even_spec. exists (a - 1). lia. }
        rewrite <- (IH (r - 2, c) Hq) by (cbn [fst snd]; lia).
        symmetry. apply (Hj ((r - 2, c), (r, c))).
        split; [assumption|]. split; [assumption|]. left. cbn [fst snd].
        f_equal. lia. }
  intros p Hp. apply (H (Z.to_nat (fst p + snd p)) p Hp).
  destruct Hp as (Hin & _). apply inside_iff in Hin. lia.
Qed.

Lemma anchor_inside (p : pos) : inside (R, C) p = true -> lattice (anchor p).
Proof.
  intros Hin. apply inside_iff in Hin. unfold anchor, lattice. cbn [fst snd].
  assert (H1 : 0 <= 2 * (fst p / 2) <= fst p).
  { split; [apply Z.mul_nonneg_nonneg; [lia | apply Z.div_pos; lia]
           | apply Z.mul_div_le; lia]. }
  assert (H2 : 0 <= 2 * (snd p / 2) <= snd p).
  { split; [apply Z.mul_nonneg_nonneg; [lia | apply Z.div_pos; lia]
           | apply Z.mul_div_le; lia]. }
  split; [apply inside_iff; cbn [fst snd]; lia|].
  rewrite !Z.even_mul. split; reflexivity.
Qed.

Lemma knode_inside (g : Grid) (p : pos) : rect R C g -> knode g p -> inside (R, C) p = true.
Proof. intros Hr [(H & _) | H]; [assumption | apply (open_inside g); assumption]. Qed.

Lemma npath_open (g : Grid) (rep : Z -> Z) (s e : pos) (l : list pos) :
  kinv g rep -> npath (knode g) s e l -> open g s -> is_path g s e l.
Proof.
  intros Hinv H. induction H as [s Hs | s u e l Hs Ha Hl IH]; intros Ho.
  - constructor. assumption.
  - apply (path_cons g s u e); [assumption | assumption |].
    apply IH. destruct (npath_start _ _ _ _ Hl) as [Hlu | Hou]; [|assumption].
    apply (k_mid g rep Hinv s u); try assumption.
    intros Hls. apply (lattice_not_adjacent s u); assumption.
Qed.

Lemma open_npath (g : Grid) (s e : pos) (l : list pos) :
  is_path g s e l -> npath (knode g) s e l.
Proof.
  intros H; induction H.
  - constructor. right; assumption.
  - econstructor; [right; assumption | eassumption | assumption].
Qed.

Lemma kinv_perfect (g : Grid) (rep : Z -> Z) :
  kinv g rep ->
  (forall e, good_edge e -> rep (cell_id (fst e)) = rep (cell_id (snd e))) ->
  perfect_maze g.
Proof.
  intros Hinv Hj p q Hp Hq.
  pose proof (k_forest g rep Hinv) as HF.
  assert (Hcls : forall x, knode g x -> cell_cls rep x = rep (cell_id (0, 0))).
  { intros x Hx. unfold cell_cls. apply (lattice_joined rep Hj).
    apply anchor_inside. apply (knode_inside g); [apply (k_rect g rep Hinv) | assumption]. }
  destruct (proj2 HF q (or_intror Hq)) as [d Hd].
  assert (Hc : cell_cls rep p = cell_cls rep q).
  { rewrite !Hcls; [reflexivity | right; assumption | right; assumption]. }
  split.
  - destruct (proj2 Hd p (or_intror Hp) Hc) as (Hd0 & _).
    destruct (tree_path (knode g) (cell_cls rep) HF q d Hd (Z.to_nat (d p)) p
                (or_intror Hp) Hc) as [l Hl]; [lia|].
    exists l. apply (npath_open g rep); assumption.
  - intros l1 l2 H1 Hn1 H2 Hn2.
    apply (simple_path_unique (knode g) (cell_cls rep) HF q d Hd l1 l2 p);
      try assumption; apply open_npath; assumption.
Qed.

Lemma generateKruskalMaze_perfect (onUpdate : bool) :
  hoare minv (generateKruskalMaze onUpdate rnd)
        (fun _ st => minv st /\ perfect_maze (m_grid st)).
Proof.
  unfold generateKruskalMaze. eapply hoare_bind; [apply hoare_dims_minv|].
  intros d. apply hoare_conseq with (P' := fun st => d = (R, C) /\ minv st)
    (Q' := fun _ st => minv st /\ perfect_maze (m_grid st)); [|auto|auto].
  apply hoare_pre. intros ->. cbn [fst snd].
  eapply hoare_bind; [apply fill_walls_filled|]. intros u st [[Hrect Hminv] Hfill].
  destruct (shuffle_ok (all_edges (R, C)) st) as (edges & st1 & E1 & Hperm & Hg1).
  unfold bind at 1. rewrite E1.
  assert (Hgood : Forall good_edge edges).
  { apply Forall_forall. intros e He. apply all_edges_iff.
    eapply Permutation_in; [apply Permutation_sym; eassumption | assumption]. }
  destruct (kruskal_fold (S (length edges)) onUpdate edges [] (parent_init (R, C)) st1
              (fun i => i) (fun _ => 0) 0) as (P' & st2 & rep' & E2 & Hk & Hj);
    try assumption.
  - apply uf_inv_init.
  - lia.
  - lia.
  - rewrite Hg1. apply kinv_init; assumption.
  - intros e [].
  - unfold bind at 1. rewrite E2. unfold ret. eexists. eexists. split; [reflexivity|].
    split.
    + split; [apply (k_rect _ _ Hk) | apply (k_minv _ _ Hk)].
    + apply (kinv_perfect _ rep' Hk). intros e He. apply Hj. cbn [app].
      eapply Permutation_in; [eassumption|]. apply all_edges_iff. assumption.
Qed.

End MazeLogic.

(* ================================================================== *)
(** * The delays of a run *)
(* ================================================================== *)

(** The discipline of the traces: a visit of a node other than the start and
    the end is followed by a delay of [d], a visit of the start or of the end
    is not followed by a delay, and the only other delays are those that
    follow the marking of a node of the path.  It is checked by an automaton
    that reads the trace. *)
Inductive pace : Type :=
| Ready          (* a visit or the marking of a node of the path may come *)
| Pause          (* the delay of a visit must come *)
| PathPause.     (* the delay after the marking of a node of the path must come *)

Definition pace_step (s e : pos) (d : Q) (st : pace) (ev : event) : option pace :=
  match st, ev with
  | Ready, Visit p => Some (if pos_eqb p s || pos_eqb p e then Ready else Pause)
  | Ready, Reveal _ => Some PathPause
  | Pause, Sleep d' => if Qeq_bool d' d then Some Ready else None
  | PathPause, Sleep _ => Some Ready
  | _, _ => None
  end.

Fixpoint pace_run (s e : pos) (d : Q) (st : pace) (tr : list event) : option pace :=
  match tr with
  | [] => Some st
  | ev :: tr' =>
      match pace_step s e d st ev with
      | Some st' => pace_run s e d st' tr'
      | None => None
      end
  end.

Definition paced (s e : pos) (d : Q) (tr : list event) : Prop :=
  pace_run s e d Ready tr = Some Ready.

(** The delay of a search for the speed [speed]. *)
Definition delay (a : Algorithm) (speed : Z) : Q :=
  match a with
  | Bidirectional => (101 - speed) # 2
  | _ => inject_Z (101 - speed)
  end.













Section Pacing.

Variables s e : pos.
Variable speed : Z.

Let d := inject_Z (101 - speed).










End Pacing.


(* ================================================================== *)
(** * Properties of the searches *)
(* ================================================================== *)

(** A 3x3 grid with a wall in the centre and a cell of weight 5 between the
    start [(0, 0)] and the end [(0, 2)]. *)
Definition sample_grid : Grid :=
  add_weights [(0, 1)] (add_walls [(1, 1)] (make_grid 3 3)).

(** A 3x3 grid whose middle column is walled off. *)
Definition sample_blocked : Grid :=
  add_walls [(0, 1); (1, 1); (2, 1)] (make_grid 3 3).

(** C1: on a grid of the data model (rectangular, nodes carrying their own
    indices, start and end inside the grid and not walls) in which an open
    4-connected path joins start and end, [dijkstra], [astar] and [bfs]
    return, report [pathFound] and give an open path from start to end of
    minimal cost: the sum of the weights of the entered cells for [dijkstra]
    (when no weight is negative) and [astar] (when every weight is at least
    1, as the weights 1 and 5 of the interface are), the number of edges for
    [bfs]. *)
Theorem shortest_path_searches_optimal (g : Grid) (s e : pos) (speed : Z) :
  valid_input g s e -> connected g s e ->
  ((forall p, open g p -> 0 <= weight (node g p)) ->
   exists st r, dijkstra g s e speed = Returned (st, r) /\
                pathFound (stats r) = true /\ shortest (weight_sum g) g s e (path r)) /\
  ((forall p, open g p -> 1 <= weight (node g p)) ->
   exists st r, astar g s e speed = Returned (st, r) /\
                pathFound (stats r) = true /\ shortest (weight_sum g) g s e (path r)) /\
  (exists st r, bfs g s e speed = Returned (st, r) /\
                pathFound (stats r) = true /\ shortest edge_count g s e (path r)).
Proof.
  intros Hin Hcon. split; [|split].
  - intros Hw. apply run_optimal; [|assumption]. apply dijkstra_correct; assumption.
  - intros Hw. apply run_optimal; [|assumption]. apply astar_correct; assumption.
  - apply run_optimal; [|assumption]. apply bfs_correct; assumption.
Qed.

Lemma shortest_path_searches_optimal_witness :
  valid_input sample_grid (0, 0) (0, 2) /\
  connected sample_grid (0, 0) (0, 2) /\
  (exists st r, dijkstra sample_grid (0, 0) (0, 2) 50 = Returned (st, r) /\
                pathFound (stats r) = true /\
                shortest (weight_sum sample_grid) sample_grid (0, 0) (0, 2) (path r)) /\
  (exists st r, astar sample_grid (0, 0) (0, 2) 50 = Returned (st, r) /\
                pathFound (stats r) = true /\
                shortest (weight_sum sample_grid) sample_grid (0, 0) (0, 2) (path r)) /\
  (exists st r, bfs sample_grid (0, 0) (0, 2) 50 = Returned (st, r) /\
                pathFound (stats r) = true /\
                shortest edge_count sample_grid (0, 0) (0, 2) (path r)).
Proof.
  assert (Hb : search_inputb sample_grid (0, 0) (0, 2) = true) by (vm_compute; reflexivity).
  assert (Hin : valid_input sample_grid (0, 0) (0, 2)) by (apply search_inputb_valid; exact Hb).
  assert (Hw : forall p, open sample_grid p -> 1 <= weight (node sample_grid p))
    by (apply (search_inputb_weights _ _ _ Hb)).
  assert (Hcon : connected sample_grid (0, 0) (0, 2)).
  { exists [(0, 0); (0, 1); (0, 2)]. apply is_pathb_sound. vm_compute. reflexivity. }
  split; [exact Hin|]. split; [exact Hcon|].
  destruct (shortest_path_searches_optimal sample_grid (0, 0) (0, 2) 50 Hin Hcon)
    as (Hd & Ha & Hbfs).
  split; [apply Hd; intros p Hp; specialize (Hw p Hp); lia|].
  split; [apply Ha; exact Hw | exact Hbfs].
Defined.

(** C2: on a grid of the data model in which an open 4-connected path joins
    start and end, each of the six searches returns a result whose
    [stats.pathFound] is true. *)
Theorem searches_complete (a : Algorithm) (g : Grid) (s e : pos) (speed : Z) :
  search_input a g s e -> connected g s e ->
  exists st r, algorithms a g s e speed = Returned (st, r) /\
               pathFound (stats r) = true.
Proof.
  intros Hin Hcon.
  destruct (algorithms_correct a g s e speed Hin) as [[st r] [Hrun Hpost]].
  apply found_not_failed in Hpost; [|assumption].
  exists st, r. split; [assumption|]. apply Hpost.
Qed.

Lemma searches_complete_witness :
  connected sample_grid (0, 0) (0, 2) /\
  forall a, search_input a sample_grid (0, 0) (0, 2) /\
            exists st r, algorithms a sample_grid (0, 0) (0, 2) 50 = Returned (st, r) /\
                         pathFound (stats r) = true.
Proof.
  assert (Hin : forall a, search_input a sample_grid (0, 0) (0, 2)).
  { apply search_inputb_sound. vm_compute. reflexivity. }
  assert (Hcon : connected sample_grid (0, 0) (0, 2)).
  { exists [(0, 0); (0, 1); (0, 2)]. apply is_pathb_sound. vm_compute. reflexivity. }
  split; [exact Hcon|].
  intros a. split; [exact (Hin a)|].
  exact (searches_complete a sample_grid (0, 0) (0, 2) 50 (Hin a) Hcon).
Defined.

(** C3: on a grid of the data model, whenever one of the six searches returns
    a result with [pathFound = true], the returned path starts at the start
    cell, ends at the end cell, its consecutive cells are orthogonally
    adjacent, each of its cells is in the grid and is not a wall, and no cell
    occurs twice. *)
Theorem searches_sound (a : Algorithm) (g : Grid) (s e : pos) (speed : Z)
        (st : state) (r : AlgorithmResult) :
  search_input a g s e ->
  algorithms a g s e speed = Returned (st, r) ->
  pathFound (stats r) = true ->
  hd_error (path r) = Some s /\
  last (path r) s = e /\
  (forall i p q, nth_error (path r) i = Some p -> nth_error (path r) (S i) = Some q ->
                 adjacent p q) /\
  (forall p, In p (path r) -> valid g p /\ isWall (node g p) = false) /\
  NoDup (path r).
Proof.
  intros Hin Hrun Hf.
  destruct (algorithms_correct a g s e speed Hin) as [out [Hrun' Hpost]].
  rewrite Hrun in Hrun'. injection Hrun' as <-.
  destruct Hpost as [_ [Hfound | [Hr _]]].
  - destruct Hfound as (_ & Hp & Hnd & _). cbn [snd] in Hp, Hnd.
    split; [|split; [|split; [|split]]].
    + destruct (is_path_hd g s e (path r) Hp) as [t ->]. reflexivity.
    + destruct (is_path_last g s e (path r) Hp) as [t ->]. apply last_last.
    + apply (is_path_adjacent g s e (path r) Hp).
    + intros p Hin'. apply (is_path_open g s e (path r) Hp p Hin').
    + assumption.
  - cbn [snd] in Hr. rewrite Hr in Hf. discriminate Hf.
Qed.

Lemma searches_sound_witness :
  exists st r,
    search_input Dfs sample_grid (0, 0) (2, 2) /\
    algorithms Dfs sample_grid (0, 0) (2, 2) 50 = Returned (st, r) /\
    pathFound (stats r) = true /\
    hd_error (path r) = Some (0, 0) /\
    last (path r) (0, 0) = (2, 2) /\
    (forall i p q, nth_error (path r) i = Some p -> nth_error (path r) (S i) = Some q ->
                   adjacent p q) /\
    (forall p, In p (path r) ->
               valid sample_grid p /\ isWall (node sample_grid p) = false) /\
    NoDup (path r).
Proof.
  assert (Hin : search_input Dfs sample_grid (0, 0) (2, 2)).
  { apply search_inputb_sound. vm_compute. reflexivity. }
  eexists. eexists.
  split; [exact Hin|].
  assert (Hrun : algorithms Dfs sample_grid (0, 0) (2, 2) 50 =
                 Returned (match algorithms Dfs sample_grid (0, 0) (2, 2) 50 with
                           | Returned out => out
                           | _ => (mkState [] [] [], not_found_result (mkState [] [] []))
                           end)).
  { vm_compute. reflexivity. }
  rewrite (surjective_pairing (match algorithms Dfs sample_grid (0, 0) (2, 2) 50 with
                               | Returned out => out
                               | _ => (mkState [] [] [], not_found_result (mkState [] [] []))
                               end)) in Hrun.
  split; [exact Hrun|].
  assert (Hf : pathFound (stats (snd (match algorithms Dfs sample_grid (0, 0) (2, 2) 50 with
                           | Returned out => out
                           | _ => (mkState [] [] [], not_found_result (mkState [] [] []))
                           end))) = true).
  { vm_compute. reflexivity. }
  split; [exact Hf|].
  exact (searches_sound Dfs sample_grid (0, 0) (2, 2) 50 _ _ Hin Hrun Hf).
Defined.

(** C4: on a grid of the data model (rectangular, nodes carrying their own
    indices, start and end inside the grid and not walls) in which an open
    4-connected path joins start and end, [bidirectional] returns, reports
    [pathFound] and gives an open path from start to end with the least
    possible number of edges. *)
Theorem bidirectional_optimal (g : Grid) (s e : pos) (speed : Z) :
  valid_input g s e -> connected g s e ->
  exists st r, bidirectional g s e speed = Returned (st, r) /\
               pathFound (stats r) = true /\ shortest edge_count g s e (path r).
Proof.
  intros Hin Hcon.
  apply run_optimal; [|assumption]. apply bidirectional_correct; assumption.
Qed.

Lemma bidirectional_optimal_witness :
  valid_input sample_grid (0, 0) (2, 2) /\
  connected sample_grid (0, 0) (2, 2) /\
  exists st r, bidirectional sample_grid (0, 0) (2, 2) 50 = Returned (st, r) /\
               pathFound (stats r) = true /\
               shortest edge_count sample_grid (0, 0) (2, 2) (path r).
Proof.
  assert (Hin : valid_input sample_grid (0, 0) (2, 2)).
  { apply search_inputb_valid. vm_compute. reflexivity. }
  assert (Hcon : connected sample_grid (0, 0) (2, 2)).
  { exists [(0, 0); (1, 0); (2, 0); (2, 1); (2, 2)]. apply is_pathb_sound.
    vm_compute. reflexivity. }
  split; [exact Hin|]. split; [exact Hcon|].
  exact (bidirectional_optimal sample_grid (0, 0) (2, 2) 50 Hin Hcon).
Defined.

(** C5: on a grid of the data model each of the six searches returns a
    result (it neither throws nor runs on); it reports [pathFound = false]
    exactly when no open path joins start and end, and then the result has an
    empty path, [pathLength = 0], [nodesInPath = 0], and [visitedNodes] is
    the array of visited nodes at the end of the run: without repetition, and
    holding exactly the cells marked visited in the grid. *)
Theorem searches_failure_result (a : Algorithm) (g : Grid) (s e : pos) (speed : Z) :
  search_input a g s e ->
  exists st r,
    algorithms a g s e speed = Returned (st, r) /\
    (pathFound (stats r) = false <-> ~ connected g s e) /\
    (pathFound (stats r) = false ->
     path r = [] /\ pathLength (stats r) = 0%nat /\ nodesInPath (stats r) = 0%nat /\
     nodesVisited (stats r) = length (visitedNodes r) /\
     visited_trace g st r).
Proof.
  intros Hin.
  destruct (algorithms_correct a g s e speed Hin) as [[st r] [Hrun Hpost]].
  exists st, r. split; [assumption|]. split.
  - split.
    + intros Hf. apply (failed_not_found _ _ _ _ _ Hpost Hf).
    + intros Hn. destruct Hpost as [_ [(_ & Hp & _) | (Hr & _)]].
      * exfalso. apply Hn. exists (path r). exact Hp.
      * cbn [snd fst] in Hr. rewrite Hr. reflexivity.
  - intros Hf. destruct (failed_not_found _ _ _ _ _ Hpost Hf) as (Hr & _ & Ht).
    cbn [snd fst] in Hr, Ht.
    split; [rewrite Hr; reflexivity|].
    split; [rewrite Hr; reflexivity|].
    split; [rewrite Hr; reflexivity|].
    split; [rewrite Hr; reflexivity|assumption].
Qed.

Lemma searches_failure_result_witness :
  search_input Greedy sample_blocked (0, 0) (0, 2) /\
  exists st r,
    algorithms Greedy sample_blocked (0, 0) (0, 2) 50 = Returned (st, r) /\
    (pathFound (stats r) = false <-> ~ connected sample_blocked (0, 0) (0, 2)) /\
    (pathFound (stats r) = false ->
     path r = [] /\ pathLength (stats r) = 0%nat /\ nodesInPath (stats r) = 0%nat /\
     nodesVisited (stats r) = length (visitedNodes r) /\
     visited_trace sample_blocked st r).
Proof.
  assert (Hin : search_input Greedy sample_blocked (0, 0) (0, 2)).
  { apply search_inputb_sound. vm_compute. reflexivity. }
  split; [exact Hin|].
  exact (searches_failure_result Greedy sample_blocked (0, 0) (0, 2) 50 Hin).
Defined.

(** C10: in every result returned by one of the six searches, on any grid
    and any start and end, [stats.pathLength] and [stats.nodesInPath] both
    equal the number of nodes of [path], and [stats.nodesVisited] equals the
    number of nodes of [visitedNodes]. *)
Theorem searches_stats_consistent (a : Algorithm) (g : Grid) (s e : pos) (speed : Z)
        (st : state) (r : AlgorithmResult) :
  algorithms a g s e speed = Returned (st, r) ->
  pathLength (stats r) = nodesInPath (stats r) /\
  pathLength (stats r) = length (path r) /\
  nodesInPath (stats r) = length (path r) /\
  nodesVisited (stats r) = length (visitedNodes r).
Proof.
  intros Hrun.
  destruct (algorithms_stats a g s e speed (st, r) Hrun) as (H1 & H2 & H3).
  cbn [snd] in H1, H2, H3. rewrite H1, H2. auto.
Qed.


(** The pair a run returned. *)
Definition run_result (o : outcome (state * AlgorithmResult)) : state * AlgorithmResult :=
  match o with
  | Returned out => out
  | _ => (mkState [] [] [], not_found_result (mkState [] [] []))
  end.

Lemma searches_stats_consistent_witness :
  let out := run_result (algorithms Astar sample_grid (0, 0) (2, 2) 50) in
  algorithms Astar sample_grid (0, 0) (2, 2) 50 = Returned (fst out, snd out) /\
  pathLength (stats (snd out)) = nodesInPath (stats (snd out)) /\
  pathLength (stats (snd out)) = length (path (snd out)) /\
  nodesInPath (stats (snd out)) = length (path (snd out)) /\
  nodesVisited (stats (snd out)) = length (visitedNodes (snd out)).
Proof.
  intros out.
  assert (Hrun : algorithms Astar sample_grid (0, 0) (2, 2) 50 = Returned (fst out, snd out)).
  { vm_compute. reflexivity. }
  split; [exact Hrun|].
  exact (searches_stats_consistent Astar sample_grid (0, 0) (2, 2) 50 (fst out) (snd out) Hrun).
Defined.

(** The events of a run. *)
Definition run_trace (o : outcome (state * AlgorithmResult)) : list event :=
  st_trace (fst (run_result o)).

(** C9: on the grid of one row and two cells, with the start on the left and
    the end on the right, [dfs] suspends for [101 - speed] after visiting the
    start node, which breaks the discipline of the delays, where the five
    other searches visit the start and the end without a delay.
    [dfsRecursive] only tests [currentNode !== endNode]. *)
Theorem dfs_delays_after_start_node :
  run_trace (dfs (make_grid 1 2) (0, 0) (0, 1) 50) =
    [Visit (0, 0); Sleep (inject_Z 51); Visit (0, 1)] /\
  ~ paced (0, 0) (0, 1) (delay Dfs 50) (run_trace (dfs (make_grid 1 2) (0, 0) (0, 1) 50)) /\
  forall a, a <> Dfs ->
    run_trace (algorithms a (make_grid 1 2) (0, 0) (0, 1) 50) = [Visit (0, 0); Visit (0, 1)].
Proof.
  split; [vm_compute; reflexivity|].
  split; [unfold paced; vm_compute; discriminate|].
  intros a Ha. destruct a; try (vm_compute; reflexivity). contradiction Ha. reflexivity.
Qed.



(** ** The delay of dfs after the start node *)

Lemma dfs_neighbors_trace (rec : pos -> state -> outcome (state * bool)) :
  (forall nb st st' b, rec nb st = Returned (st', b) ->
                       exists t, st_trace st' = st_trace st ++ t) ->
  forall nbs cur st st' b,
    dfs_neighbors rec cur nbs st = Returned (st', b) ->
    exists t, st_trace st' = st_trace st ++ t.
Proof.
  intros Hrec nbs. induction nbs as [|nb nbs IH]; intros cur st st' b H; cbn [dfs_neighbors] in H.
  - injection H as <- _. exists []. rewrite app_nil_r. reflexivity.
  - destruct (_ && _).
    + destruct (rec nb _) as [[st1 [|]]| |] eqn:E; try discriminate.
      * injection H as <- _. apply Hrec in E. exact E.
      * apply Hrec in E. destruct E as [t1 E]. cbn [st_trace with_grid] in E.
        apply IH in H. destruct H as [t2 H]. exists (t1 ++ t2).
        rewrite H, E, app_assoc. reflexivity.
    + apply IH in H. exact H.
Qed.

Lemma dfsRecursive_trace (e : pos) (speed : Z) (fuel : nat) :
  forall cur st st' b,
    dfsRecursive fuel e speed cur st = Returned (st', b) ->
    exists t, st_trace st' = st_trace st ++ t.
Proof.
  induction fuel as [|fuel IH]; intros cur st st' b H; cbn [dfsRecursive] in H; [discriminate|].
  destruct (_ || _).
  - injection H as <- _. exists []. rewrite app_nil_r. reflexivity.
  - destruct (pos_eqb cur e); cbn [negb] in H.
    + injection H as <- _. cbn [st_trace visit emit push_visited with_grid]. eauto.
    + apply (dfs_neighbors_trace _ IH) in H. destruct H as [t H].
      cbn [st_trace visit emit push_visited with_grid] in H.
      rewrite <- !app_assoc in H. eauto.
Qed.

Lemma revealPath_trace (s e : pos) (p : list pos) :
  forall st, exists t, st_trace (revealPath s e p st) = st_trace st ++ t.
Proof.
  unfold revealPath. induction p as [|x p IH]; intros st; cbn [fold_left].
  - exists []. rewrite app_nil_r. reflexivity.
  - destruct (IH (reveal_node s e st x)) as [t Ht]. rewrite Ht. unfold reveal_node.
    destruct (_ && _); [|eauto].
    cbn [st_trace emit with_grid]. rewrite <- !app_assoc. eauto.
Qed.

(** On every input of the data model whose start is not the end, the first
    two events of a run of [dfs] are the visit of the start node and a delay
    of [101 - speed]. *)
Theorem dfs_start_is_delayed (g : Grid) (s e : pos) (speed : Z)
        (st : state) (r : AlgorithmResult) :
  valid_input g s e -> s <> e ->
  dfs g s e speed = Returned (st, r) ->
  exists t, st_trace st = Visit s :: Sleep (inject_Z (101 - speed)) :: t.
Proof.
  intros [Hwf [Hvs Hws] [Hve Hwe]] Hne H. unfold dfs, resolve in H.
  rewrite (valid_get _ s) in H by (apply valid_reset; assumption).
  rewrite (valid_get _ e) in H by (apply valid_reset; assumption).
  cbn [dfsRecursive] in H. cbn [st_grid] in H.
  rewrite (node_reset g dfs_reset s Hvs) in H.
  cbn [dfs_reset set_previousNode set_isPath set_isVisited isWall isVisited] in H.
  rewrite Hws in H. cbn [orb] in H.
  assert (Ese : pos_eqb s e = false) by (apply pos_eqb_neq; assumption).
  rewrite Ese in H. cbn [negb] in H.
  match type of H with
  | match ?x with _ => _ end = _ => destruct x as [[st1 b]| |] eqn:E; try discriminate
  end.
  apply (dfs_neighbors_trace _ (dfsRecursive_trace e speed (cells g))) in E.
  destruct E as [t1 E]. cbn [st_trace visit emit push_visited with_grid app] in E.
  destruct b.
  - destruct (reconstructPath _ e); [|discriminate]. injection H as <- _.
    destruct (revealPath_trace s e l st1) as [t2 Ht2]. rewrite Ht2, E. cbn [app]. eauto.
  - injection H as <- _. rewrite E. cbn [app]. eauto.
Qed.

Lemma dfs_start_is_delayed_witness :
  let out := run_result (dfs sample_grid (0, 0) (2, 2) 50) in
  valid_input sample_grid (0, 0) (2, 2) /\
  dfs sample_grid (0, 0) (2, 2) 50 = Returned (fst out, snd out) /\
  exists t, st_trace (fst out) = Visit (0, 0) :: Sleep (inject_Z (101 - 50)) :: t.
Proof.
  intros out.
  assert (Hin : valid_input sample_grid (0, 0) (2, 2)).
  { apply search_inputb_valid. vm_compute. reflexivity. }
  assert (Hrun : dfs sample_grid (0, 0) (2, 2) 50 = Returned (fst out, snd out))
    by (vm_compute; reflexivity).
  split; [exact Hin|]. split; [exact Hrun|].
  apply (dfs_start_is_delayed sample_grid (0, 0) (2, 2) 50 (fst out) (snd out) Hin);
    [discriminate | exact Hrun].
Defined.

(* ================================================================== *)
(** * Properties of the maze generators *)
(* ================================================================== *)



(** The flags [isStart] and [isEnd] as the interface sets them. *)
Definition set_flags (s e : bool) (n : GridNode) : GridNode :=
  mkNode (row n) (col n) s e (isWall n) (isVisited n) (isPath n)
         (distance n) (heuristic n) (weight n) (previousNode n).

(** A 5x5 grid with the start at [(1, 3)] and the end at [(4, 4)]. *)
Definition sample_maze_input : Grid :=
  grid_upd (4, 4) (set_flags false true) (grid_upd (1, 3) (set_flags true false) (make_grid 5 5)).

(** A stream of random numbers. *)
Definition sample_rnd : Maze.rng :=
  fun i => match Nat.modulo i 4 with
           | 0%nat => 1 # 2
           | 1%nat => 1 # 10
           | 2%nat => 9 # 10
           | _ => 3 # 10
           end%Q.

Lemma sample_rnd_range (i : nat) : (0 <= sample_rnd i)%Q /\ (sample_rnd i < 1)%Q.
Proof.
  unfold sample_rnd. destruct (Nat.modulo i 4) as [|[|[|n]]]; split; reflexivity || discriminate.
Qed.

(** C6: for every maze type, every rectangular grid with at least one row
    and one column, every stream of random numbers in [0, 1) and whether or
    not a callback is given, [generateMaze] returns a grid of the same shape
    in which a cell flagged as start or end is not a wall, and every cell has
    the [isStart], [isEnd] and [weight] of the input cell; apart from
    [isWall], each cell is the working copy of the input cell, whose
    [isVisited] and [isPath] are false, [distance] infinite and
    [previousNode] null. *)
Theorem generateMaze_keeps_cells (grid : Grid) (R C : Z) (type : MazeType)
        (onUpdate : bool) (rnd : Maze.rng) :
  1 <= R -> 1 <= C -> rect R C grid ->
  (forall i, (0 <= rnd i)%Q /\ (rnd i < 1)%Q) ->
  exists g', Maze.generateMaze grid type onUpdate rnd = Returned g' /\
    forall p,
      match grid_get grid p, grid_get g' p with
      | Some n0, Some n =>
          (Maze.flagged n = true -> isWall n = false) /\
          isStart n = isStart n0 /\ isEnd n = isEnd n0 /\ weight n = weight n0 /\
          set_isWall false n = Maze.maze_copy n0 /\
          isVisited n = false /\ isPath n = false /\ distance n = PosInf /\
          previousNode n = None
      | None, None => True
      | _, _ => False
      end.
Proof.
  intros HR HC Hrect Hrnd. unfold Maze.generateMaze.
  destruct (generator_minv grid R C HR HC rnd Hrnd type onUpdate
              (Maze.mkM (map (map Maze.maze_copy) grid) 0)) as (u & st & E & Hst).
  { split; [apply rect_map; assumption | apply maze_inv_copy]. }
  rewrite E. exists (Maze.m_grid st). split; [reflexivity|].
  intros p. destruct Hst as [_ Hinv]. specialize (Hinv p).
  destruct (grid_get grid p) as [n0|], (grid_get (Maze.m_grid st) p) as [n|]; try exact Hinv.
  destruct Hinv as [Hcopy Hflag].
  assert (H : forall (f : GridNode -> bool),
             f (set_isWall false n) = f (Maze.maze_copy n0)) by (intros f; rewrite Hcopy; reflexivity).
  split; [assumption|].
  split; [exact (H isStart)|]. split; [exact (H isEnd)|].
  split; [exact (f_equal weight Hcopy)|]. split; [assumption|].
  split; [exact (H isVisited)|]. split; [exact (H isPath)|].
  split; [exact (f_equal distance Hcopy) | exact (f_equal previousNode Hcopy)].
Qed.

Lemma generateMaze_keeps_cells_witness :
  rect 5 5 sample_maze_input /\
  exists g', Maze.generateMaze sample_maze_input MKruskal true sample_rnd = Returned g' /\
    forall p,
      match grid_get sample_maze_input p, grid_get g' p with
      | Some n0, Some n =>
          (Maze.flagged n = true -> isWall n = false) /\
          isStart n = isStart n0 /\ isEnd n = isEnd n0 /\ weight n = weight n0 /\
          set_isWall false n = Maze.maze_copy n0 /\
          isVisited n = false /\ isPath n = false /\ distance n = PosInf /\
          previousNode n = None
      | None, None => True
      | _, _ => False
      end.
Proof.
  assert (Hrect : rect 5 5 sample_maze_input).
  { split; [reflexivity|]. intros r Hr. vm_compute in Hr.
    destruct Hr as [<-|[<-|[<-|[<-|[<-|[]]]]]]; reflexivity. }
  split; [exact Hrect|].
  apply (generateMaze_keeps_cells sample_maze_input 5 5 MKruskal true sample_rnd);
    [lia | lia | exact Hrect | exact sample_rnd_range].
Defined.

(** A failed breadth-first search shows that no open path exists. *)
Lemma not_connected_by_bfs (g : Grid) (s e : pos) :
  search_inputb g s e = true -> result_path (bfs g s e 50) = None -> ~ connected g s e.
Proof.
  intros Hin Hrun Hcon.
  destruct (algorithms_correct Bfs g s e 50 (search_inputb_sound g s e Hin Bfs))
    as (out & E & Hpost).
  cbn [algorithms] in E. rewrite E in Hrun.
  apply found_not_failed in Hpost; [|assumption].
  destruct out as [st r]. destruct Hpost as (Hf & _). cbn [snd] in Hf.
  cbn [result_path] in Hrun. rewrite Hf in Hrun. discriminate.
Qed.

(** C8: on a fresh 5x5 grid, when the first random number is 1/2, the
    recursive procedure returns a grid in which every cell is a wall except
    those of the middle row, and in the middle row only the cell chosen as
    [hole] is a wall: [divide] clears the flag [isWall] along the dividing
    line of a grid that was filled with walls, and skips the hole.  The open
    cells on the two sides of the hole are not connected. *)
Theorem recursive_division_opens_the_dividing_line :
  exists g',
    Maze.generateMaze (make_grid 5 5) MRecursive true sample_rnd = Returned g' /\
    map (map isWall) g' =
      [[true; true; true; true; true];
       [true; true; true; true; true];
       [false; false; true; false; false];
       [true; true; true; true; true];
       [true; true; true; true; true]] /\
    open g' (2, 1) /\ open g' (2, 3) /\ ~ connected g' (2, 1) (2, 3).
Proof.
  eexists. split; [vm_compute; reflexivity|].
  split; [vm_compute; reflexivity|].
  split; [apply openb_open; vm_compute; reflexivity|].
  split; [apply openb_open; vm_compute; reflexivity|].
  apply not_connected_by_bfs; vm_compute; reflexivity.
Qed.

(* ------------------------------------------------------------------ *)
(** ** The spanning-tree maze *)

Lemma wf_grid_rect (g : Grid) : wf_grid g -> rect (rows g) (cols g) g.
Proof.
  intros [H _]. split; [reflexivity|].
  intros r Hr. unfold cols. rewrite (H r Hr). reflexivity.
Qed.

Lemma wf_grid_maze (g0 g : Grid) (R C : Z) :
  1 <= R -> wf_grid g0 -> rect R C g -> maze_inv g0 g -> wf_grid g.
Proof.
  intros HR [_ Hidx] [H1 H2] Hinv. split.
  - intros r Hr. destruct g as [|r0 g]; [destruct Hr|].
    cbn [hd]. apply Nat2Z.inj. rewrite (H2 r Hr), (H2 r0) by (left; reflexivity).
    reflexivity.
  - intros p n Hn. specialize (Hinv p). rewrite Hn in Hinv.
    destruct (grid_get g0 p) as [n0|] eqn:E0; [|contradiction].
    destruct Hinv as [Hc _]. destruct (Hidx p n0 E0) as [Hr0 Hc0].
    assert (Hrow : row (set_isWall false n) = row (Maze.maze_copy n0)) by (rewrite Hc; reflexivity).
    assert (Hcol : col (set_isWall false n) = col (Maze.maze_copy n0)) by (rewrite Hc; reflexivity).
    cbn in Hrow, Hcol. split; congruence.
Qed.

(** The flags of a grid checked by computation. *)
Definition lattice_flagsb (g : Grid) : bool :=
  forallb (fun p => implb (Maze.flagged (node g p)) (Z.even (fst p) && Z.even (snd p)))
          (positions g).

Lemma lattice_flagsb_sound (g : Grid) :
  lattice_flagsb g = true ->
  forall p n, grid_get g p = Some n -> Maze.flagged n = true ->
              Z.even (fst p) = true /\ Z.even (snd p) = true.
Proof.
  unfold lattice_flagsb. rewrite forallb_forall. intros H p n Hn Hf.
  assert (Hv : valid g p) by (unfold valid; congruence).
  specialize (H p (proj2 (In_positions g p) Hv)).
  rewrite (node_get g p n Hn), Hf in H. cbn [implb] in H.
  apply andb_true_iff. assumption.
Qed.

(** A 5x5 grid with the start at [(0, 0)] and the end at [(4, 4)]. *)
Definition sample_corner_input : Grid :=
  grid_upd (4, 4) (set_flags false true) (grid_upd (0, 0) (set_flags true false) (make_grid 5 5)).

(** C7, restricted to what the code does: for every stream of random
    numbers in [0, 1), the spanning-tree (kruskal) procedure, run on a
    well-formed grid with at least one row and one column whose start and
    end cells, if any, have an even row and an even column, returns a
    perfect maze: any two open cells are joined by an open path, by exactly
    one open path without repeated cell, and a breadth-first search from one
    to the other finds a path. *)
Theorem kruskal_maze_is_perfect (grid : Grid) (onUpdate : bool) (rnd : Maze.rng) :
  wf_grid grid -> 1 <= rows grid -> 1 <= cols grid ->
  (forall i, (0 <= rnd i)%Q /\ (rnd i < 1)%Q) ->
  (forall p n, grid_get grid p = Some n -> Maze.flagged n = true ->
               Z.even (fst p) = true /\ Z.even (snd p) = true) ->
  exists g', Maze.generateMaze grid MKruskal onUpdate rnd = Returned g' /\
    perfect_maze g' /\
    forall p q speed, open g' p -> open g' q ->
      exists st r, bfs g' p q speed = Returned (st, r) /\ pathFound (stats r) = true.
Proof.
  intros Hwf HR HC Hrnd Hflags. unfold Maze.generateMaze. cbn [Maze.generator].
  pose proof (wf_grid_rect grid Hwf) as Hrect.
  destruct (generateKruskalMaze_perfect grid (rows grid) (cols grid) HR HC rnd Hrnd Hflags
              onUpdate (Maze.mkM (map (map Maze.maze_copy) grid) 0))
    as (u & st & E & [Hr Hinv] & Hperf).
  { split; [apply rect_map; assumption | apply maze_inv_copy]. }
  rewrite E. exists (Maze.m_grid st). split; [reflexivity|]. split; [assumption|].
  intros p q speed Hp Hq.
  assert (Hin : valid_input (Maze.m_grid st) p q).
  { constructor; [|assumption|assumption].
    apply (wf_grid_maze grid _ (rows grid) (cols grid)); assumption. }
  destruct (bfs_correct (Maze.m_grid st) p q Hin speed) as ([st' r] & Hrun & Hpost).
  exists st', r. split; [assumption|].
  apply (found_not_failed _ _ _ _ _ Hpost). apply (Hperf p q Hp Hq).
Qed.

Lemma kruskal_maze_is_perfect_witness :
  exists g', Maze.generateMaze sample_corner_input MKruskal true sample_rnd = Returned g' /\
    perfect_maze g' /\
    forall p q speed, open g' p -> open g' q ->
      exists st r, bfs g' p q speed = Returned (st, r) /\ pathFound (stats r) = true.
Proof.
  apply (kruskal_maze_is_perfect sample_corner_input true sample_rnd).
  - apply grid_okb_wf. vm_compute. reflexivity.
  - vm_compute. discriminate.
  - vm_compute. discriminate.
  - exact sample_rnd_range.
  - apply lattice_flagsb_sound. vm_compute. reflexivity.
Defined.

(** With the start off the even rows and columns, as the interface allows,
    the spanning-tree maze has a cycle: the start cell [(1, 3)] stays open
    between three passages. *)
Lemma kruskal_maze_with_start_has_cycle :
  exists g', Maze.generateMaze sample_maze_input MKruskal true sample_rnd = Returned g' /\
             ~ perfect_maze g'.
Proof.
  eexists. split; [vm_compute; reflexivity|].
  intros H.
  match type of H with perfect_maze ?g =>
    assert (Hp : open g (0, 3)) by (apply openb_open; vm_compute; reflexivity);
    assert (Hq : open g (1, 4)) by (apply openb_open; vm_compute; reflexivity);
    assert (H1 : is_path g (0, 3) (1, 4) [(0, 3); (0, 4); (1, 4)])
      by (apply is_pathb_sound; vm_compute; reflexivity);
    assert (H2 : is_path g (0, 3) (1, 4) [(0, 3); (1, 3); (1, 4)])
      by (apply is_pathb_sound; vm_compute; reflexivity)
  end.
  destruct (H (0, 3) (1, 4) Hp Hq) as [_ Hu].
  assert (Hneq : [(0, 3); (0, 4); (1, 4)] = [(0, 3); (1, 3); (1, 4)]).
  { apply Hu; try assumption;
      repeat constructor; cbn [In]; intuition discriminate. }
  discriminate Hneq.
Qed.

(** The frontier-growth (prim) procedure opens cells two steps apart and
    never the cell between them: on a fresh 5x5 grid the open cells are
    isolated. *)
Lemma prim_maze_is_not_connected :
  exists g',
    Maze.generateMaze (make_grid 5 5) MPrim true sample_rnd = Returned g' /\
    map (map isWall) g' =
      [[true; true; false; true; false];
       [true; true; true; true; true];
       [false; true; false; true; true];
       [true; true; true; true; true];
       [false; true; true; true; true]] /\
    open g' (0, 2) /\ open g' (0, 4) /\ ~ connected g' (0, 2) (0, 4).
Proof.
  eexists. split; [vm_compute; reflexivity|].
  split; [vm_compute; reflexivity|].
  split; [apply openb_open; vm_compute; reflexivity|].
  split; [apply openb_open; vm_compute; reflexivity|].
  apply not_connected_by_bfs; vm_compute; reflexivity.
Qed.


(* ================================================================== *)
(** * Further properties of the searches *)
(* ================================================================== *)

Lemma is_path_single (g : Grid) (s : pos) (l : list pos) :
  is_path g s s l -> NoDup l -> l = [s].
Proof.
  intros H Hnd. inversion H as [s' Hs | s' u e' l' Hs Ha Hl]; subst; [reflexivity|].
  exfalso. inversion Hnd as [|? ? Hn _]; subst. apply Hn.
  clear - Hl. induction Hl as [x Hx | x y z l Hx Ha Hl IH].
  - left; reflexivity.
  - right; assumption.
Qed.

(** The neighbours handed out by [getNeighbors] are exactly the cells of the
    grid next to the node in one of the four directions, walls included,
    each once and never more than four. *)
Theorem getNeighbors_four_way (g : Grid) (u : pos) :
  wf_grid g -> valid g u ->
  (forall v, In v (getNeighbors g u) <-> valid g v /\ adjacent u v) /\
  NoDup (getNeighbors g u) /\
  (length (getNeighbors g u) <= 4)%nat.
Proof.
  intros Hwf Hu. split; [|split].
  - intros v. apply In_getNeighbors; assumption.
  - apply NoDup_getNeighbors.
  - unfold getNeighbors.
    etransitivity; [apply filter_length_le|]. rewrite length_map. reflexivity.
Qed.

Lemma getNeighbors_four_way_witness :
  wf_grid sample_grid /\ valid sample_grid (0, 0) /\
  getNeighbors sample_grid (0, 0) = [(1, 0); (0, 1)] /\
  (forall v, In v (getNeighbors sample_grid (0, 0)) <->
             valid sample_grid v /\ adjacent (0, 0) v) /\
  NoDup (getNeighbors sample_grid (0, 0)) /\
  (length (getNeighbors sample_grid (0, 0)%Z) <= 4)%nat.
Proof.
  assert (Hwf : wf_grid sample_grid) by (apply grid_okb_wf; vm_compute; reflexivity).
  assert (Hv : valid sample_grid (0, 0)) by (vm_compute; discriminate).
  split; [exact Hwf|]. split; [exact Hv|]. split; [vm_compute; reflexivity|].
  exact (getNeighbors_four_way sample_grid (0, 0) Hwf Hv).
Defined.

(** [heuristic] never overestimates: the Manhattan distance between a cell
    and the end is at most the number of steps of any open path between
    them, and at most the sum of the weights of the cells the path enters
    when every weight is at least 1. *)
Theorem heuristic_never_overestimates (g : Grid) (p e : pos) (l : list pos) :
  wf_grid g -> is_path g p e l ->
  manhattan g p e <= edge_count l /\
  ((forall q, open g q -> 1 <= weight (node g q)) -> manhattan g p e <= weight_sum g l).
Proof.
  intros Hwf H. induction H as [s Hs | s u e l Hs Ha Hl [IH1 IH2]].
  - unfold manhattan, edge_count, weight_sum. simpl. split; intros; lia.
  - assert (Hou : open g u) by (eapply is_path_open_start; eassumption).
    assert (Hoe : open g e) by (eapply is_path_open_end; eassumption).
    assert (Hm : manhattan g s e <= 1 + manhattan g u e).
    { unfold manhattan.
      rewrite (wf_row g s Hwf (proj1 Hs)), (wf_col g s Hwf (proj1 Hs)),
              (wf_row g u Hwf (proj1 Hou)), (wf_col g u Hwf (proj1 Hou)).
      unfold adjacent in Ha. lia. }
    destruct (is_path_hd g u e l Hl) as [t ->].
    split.
    + unfold edge_count in *. cbn [length] in *. lia.
    + intros Hw. specialize (IH2 Hw). specialize (Hw u Hou).
      unfold weight_sum in *. cbn [tl fold_right] in *. lia.
Qed.

Lemma heuristic_never_overestimates_witness :
  let l := [(0, 0); (0, 1); (0, 2); (1, 2); (2, 2)] in
  wf_grid sample_grid /\ is_path sample_grid (0, 0) (2, 2) l /\
  manhattan sample_grid (0, 0) (2, 2) <= edge_count l /\
  ((forall q, open sample_grid q -> 1 <= weight (node sample_grid q)) ->
   manhattan sample_grid (0, 0) (2, 2) <= weight_sum sample_grid l).
Proof.
  cbv zeta.
  assert (Hwf : wf_grid sample_grid) by (apply grid_okb_wf; vm_compute; reflexivity).
  assert (Hp : is_path sample_grid (0, 0) (2, 2) [(0, 0); (0, 1); (0, 2); (1, 2); (2, 2)])
    by (apply is_pathb_sound; vm_compute; reflexivity).
  split; [exact Hwf|]. split; [exact Hp|].
  exact (heuristic_never_overestimates sample_grid (0, 0) (2, 2) _ Hwf Hp).
Defined.

(** When the start node is also the end node, each of the six searches
    returns at once with the path made of that one node. *)
Theorem search_to_the_start_itself (a : Algorithm) (g : Grid) (s : pos) (speed : Z) :
  search_input a g s s ->
  exists st r, algorithms a g s s speed = Returned (st, r) /\
               pathFound (stats r) = true /\ path r = [s] /\
               pathLength (stats r) = 1%nat /\ nodesInPath (stats r) = 1%nat.
Proof.
  intros Hin.
  destruct (algorithms_correct a g s s speed Hin) as [[st r] [Hrun Hpost]].
  assert (Hcon : connected g s s).
  { exists [s]. constructor. apply Hin. }
  pose proof Hpost as [[Hl [Hn _]] _].
  apply found_not_failed in Hpost; [|assumption].
  destruct Hpost as (Hf & Hp & Hnd & _). cbn [snd] in *.
  pose proof (is_path_single g s (path r) Hp Hnd) as Hone.
  exists st, r. rewrite Hl, Hn, Hone. repeat split; assumption.
Qed.

Lemma search_to_the_start_itself_witness :
  search_input Dfs sample_grid (2, 0) (2, 0) /\
  exists st r, algorithms Dfs sample_grid (2, 0) (2, 0) 50 = Returned (st, r) /\
               pathFound (stats r) = true /\ path r = [(2, 0)] /\
               pathLength (stats r) = 1%nat /\ nodesInPath (stats r) = 1%nat.
Proof.
  assert (Hin : search_input Dfs sample_grid (2, 0) (2, 0)).
  { apply search_inputb_sound. vm_compute. reflexivity. }
  split; [exact Hin|].
  exact (search_to_the_start_itself Dfs sample_grid (2, 0) 50 Hin).
Defined.



(** On one input of the data model with weights of at least 1 and an open
    path from start to end, the paths of [dijkstra] and [astar] have the
    same total weight, the paths of [bfs] and [bidirectional] have the same
    length, and no search returns a path that is lighter than the first or
    shorter than the second. *)
Theorem searches_compare (a : Algorithm) (g : Grid) (s e : pos) (speed : Z) :
  valid_input g s e -> (forall p, open g p -> 1 <= weight (node g p)) ->
  connected g s e ->
  exists sd rd sa ra sb rb si ri sx rx,
    dijkstra g s e speed = Returned (sd, rd) /\
    astar g s e speed = Returned (sa, ra) /\
    bfs g s e speed = Returned (sb, rb) /\
    bidirectional g s e speed = Returned (si, ri) /\
    algorithms a g s e speed = Returned (sx, rx) /\
    pathFound (stats rx) = true /\
    weight_sum g (path rd) = weight_sum g (path ra) /\
    weight_sum g (path rd) <= weight_sum g (path rx) /\
    pathLength (stats rb) = pathLength (stats ri) /\
    (pathLength (stats rb) <= pathLength (stats rx))%nat.
Proof.
  intros Hin Hw Hcon.
  assert (Hall : forall b, search_input b g s e) by (intros b; split; auto).
  assert (Hrun : forall b, exists st r,
             algorithms b g s e speed = Returned (st, r) /\
             stats_ok r /\ found_post g s e (path_cost b g) r).
  { intros b. destruct (algorithms_correct b g s e speed (Hall b)) as [[st r] [Hr Hp]].
    exists st, r. split; [assumption|]. split; [apply Hp|].
    apply (found_not_failed g s e _ (st, r) Hp Hcon). }
  destruct (Hrun Dijkstra) as [sd [rd [Hd [Hsd (_ & Hpd & _ & Hmd)]]]].
  destruct (Hrun Astar) as [sa [ra [Ha [Hsa (_ & Hpa & _ & Hma)]]]].
  destruct (Hrun Bfs) as [sb [rb [Hb [Hsb (_ & Hpb & _ & Hmb)]]]].
  destruct (Hrun Bidirectional) as [si [ri [Hi [Hsi (_ & Hpi & _ & Hmi)]]]].
  destruct (Hrun a) as [sx [rx [Hx [Hsx (Hfx & Hpx & _ & _)]]]].
  cbn [algorithms path_cost] in *.
  exists sd, rd, sa, ra, sb, rb, si, ri, sx, rx.
  repeat (split; [assumption|]).
  pose proof (Hmd _ Hpa). pose proof (Hma _ Hpd). pose proof (Hmd _ Hpx).
  pose proof (Hmb _ Hpi). pose proof (Hmi _ Hpb). pose proof (Hmb _ Hpx).
  destruct Hsb as [Hlb _], Hsi as [Hli _], Hsx as [Hlx _].
  rewrite Hlb, Hli, Hlx. unfold edge_count in *.
  repeat split; lia.
Qed.

Lemma searches_compare_witness :
  valid_input sample_grid (0, 0) (0, 2) /\
  (forall p, open sample_grid p -> 1 <= weight (node sample_grid p)) /\
  connected sample_grid (0, 0) (0, 2) /\
  exists sd rd sa ra sb rb si ri sx rx,
    dijkstra sample_grid (0, 0) (0, 2) 50 = Returned (sd, rd) /\
    astar sample_grid (0, 0) (0, 2) 50 = Returned (sa, ra) /\
    bfs sample_grid (0, 0) (0, 2) 50 = Returned (sb, rb) /\
    bidirectional sample_grid (0, 0) (0, 2) 50 = Returned (si, ri) /\
    algorithms Greedy sample_grid (0, 0) (0, 2) 50 = Returned (sx, rx) /\
    pathFound (stats rx) = true /\
    weight_sum sample_grid (path rd) = weight_sum sample_grid (path ra) /\
    weight_sum sample_grid (path rd) <= weight_sum sample_grid (path rx) /\
    pathLength (stats rb) = pathLength (stats ri) /\
    (pathLength (stats rb) <= pathLength (stats rx))%nat.
Proof.
  assert (Hin : valid_input sample_grid (0, 0) (0, 2)).
  { apply search_inputb_valid. vm_compute. reflexivity. }
  assert (Hw : forall p, open sample_grid p -> 1 <= weight (node sample_grid p)).
  { apply (search_inputb_weights sample_grid (0, 0) (0, 2)). vm_compute. reflexivity. }
  assert (Hcon : connected sample_grid (0, 0) (0, 2)).
  { exists [(0, 0); (0, 1); (0, 2)]. apply is_pathb_sound. vm_compute. reflexivity. }
  split; [exact Hin|]. split; [exact Hw|]. split; [exact Hcon|].
  exact (searches_compare Greedy sample_grid (0, 0) (0, 2) 50 Hin Hw Hcon).
Defined.


(* ================================================================== *)
(** * The fields a search leaves alone *)
(* ================================================================== *)

(** What a run ends with: the store [st0] at the end of the main loop,
    handed to the loop that reveals the path or returned as it is. *)
Definition ending (s e : pos) (P : state -> Prop) (out : state * AlgorithmResult) : Prop :=
  exists st0, P st0 /\
    (out = finish_not_found st0 \/ exists p, out = finish_found s e p st0).

Section Projection.

Context {T : Type}.
(** A view of a node through fields that the main loops never write. *)
Variable pr : GridNode -> T.

Definition view (g : Grid) : list (list T) := map (map pr) g.

Definition keeps (f : GridNode -> GridNode) : Prop := forall n, pr (f n) = pr n.

Lemma view_list_upd (f : GridNode -> GridNode) (l : list GridNode) (i : nat) :
  keeps f -> map pr (list_upd i f l) = map pr l.
Proof.
  intros Hf. revert i; induction l as [|x l IH]; intros [|i]; simpl; auto.
  - rewrite Hf; reflexivity.
  - rewrite IH; reflexivity.
Qed.

Lemma view_upd (g : Grid) (p : pos) (f : GridNode -> GridNode) :
  keeps f -> view (grid_upd p f g) = view g.
Proof.
  intros Hf. unfold grid_upd, view.
  destruct ((0 <=? fst p) && (0 <=? snd p)); [|reflexivity].
  generalize (Z.to_nat (fst p)) as i. induction g as [|r g IH]; intros [|i]; simpl; auto.
  - rewrite view_list_upd by assumption. reflexivity.
  - rewrite IH. reflexivity.
Qed.

Lemma view_reset (g : Grid) (f : GridNode -> GridNode) :
  keeps f -> view (reset_grid f g) = view g.
Proof.
  intros Hf. unfold view, reset_grid. rewrite map_map.
  apply map_ext. intros r. rewrite map_map. apply map_ext. apply Hf.
Qed.

Lemma view_get (g g' : Grid) (p : pos) :
  view g = view g' -> option_map pr (grid_get g p) = option_map pr (grid_get g' p).
Proof.
  intros H. unfold grid_get. destruct ((0 <=? fst p) && (0 <=? snd p)); [|reflexivity].
  assert (Hr : option_map (map pr) (nth_error g (Z.to_nat (fst p))) =
               option_map (map pr) (nth_error g' (Z.to_nat (fst p)))).
  { unfold view in H. rewrite <- !nth_error_map, H. reflexivity. }
  destruct (nth_error g _) as [r|], (nth_error g' _) as [r'|]; try discriminate; [|reflexivity].
  cbn in Hr. injection Hr as Hr. rewrite <- !nth_error_map, Hr. reflexivity.
Qed.

Lemma view_revealPath (s e : pos) (p : list pos) (st : state) :
  keeps (set_isPath true) ->
  view (st_grid (revealPath s e p st)) = view (st_grid st).
Proof.
  intros Hk. unfold revealPath. revert st.
  induction p as [|x p IH]; intros st; cbn [fold_left]; [reflexivity|].
  rewrite IH. unfold reveal_node. destruct (_ && _); [|reflexivity].
  cbn [st_grid emit with_grid]. apply view_upd. assumption.
Qed.

Hypothesis keeps_isVisited : forall b, keeps (set_isVisited b).
Hypothesis keeps_distance : forall d, keeps (set_distance d).
Hypothesis keeps_heuristic : forall h, keeps (set_heuristic h).
Hypothesis keeps_previousNode : forall p, keeps (set_previousNode p).

Lemma view_visit (cur : pos) (st : state) : view (st_grid (visit cur st)) = view (st_grid st).
Proof. cbn [visit emit push_visited with_grid st_grid]. apply view_upd. auto. Qed.

Lemma view_pause (s e : pos) (speed : Z) (cur : pos) (st : state) :
  view (st_grid (pause s e speed cur st)) = view (st_grid st).
Proof. rewrite pause_grid. reflexivity. Qed.

Lemma view_dijkstra_relax (cur : pos) (l : list pos) :
  forall st, view (st_grid (fold_left (dijkstra_relax cur) l st)) = view (st_grid st).
Proof.
  induction l as [|x l IH]; intros st; cbn [fold_left]; [reflexivity|].
  rewrite IH. unfold dijkstra_relax.
  destruct (_ && _); [|reflexivity]. destruct (num_ltb _ _); [|reflexivity].
  cbn [with_grid st_grid]. rewrite !view_upd by auto. reflexivity.
Qed.

Lemma view_astar_relax (cur e : pos) (l : list pos) :
  forall acc, view (st_grid (fst (fold_left (astar_relax cur e) l acc))) =
              view (st_grid (fst acc)).
Proof.
  induction l as [|x l IH]; intros acc; cbn [fold_left]; [reflexivity|].
  rewrite IH. destruct acc as [st q]. unfold astar_relax.
  destruct (_ || _); [reflexivity|]. destruct (_ || _); [|reflexivity].
  cbn [fst with_grid st_grid]. rewrite !view_upd by auto. reflexivity.
Qed.

Lemma view_bfs_discover (cur : pos) (l : list pos) :
  forall acc, view (st_grid (fst (fold_left (bfs_discover cur) l acc))) =
              view (st_grid (fst acc)).
Proof.
  induction l as [|x l IH]; intros acc; cbn [fold_left]; [reflexivity|].
  rewrite IH. destruct acc as [st q]. unfold bfs_discover.
  destruct (_ && _); [|reflexivity].
  cbn [fst with_grid push_visited st_grid]. rewrite !view_upd by auto. reflexivity.
Qed.

Lemma view_greedy_discover (cur e : pos) (l : list pos) :
  forall acc, view (st_grid (fst (fold_left (greedy_discover cur e) l acc))) =
              view (st_grid (fst acc)).
Proof.
  induction l as [|x l IH]; intros acc; cbn [fold_left]; [reflexivity|].
  rewrite IH. destruct acc as [st q]. unfold greedy_discover.
  destruct (_ && _); [|reflexivity].
  cbn [fst with_grid st_grid]. rewrite !view_upd by auto. reflexivity.
Qed.

Section Loops.

Variables s e : pos.
Variable speed : Z.

Let same (st : state) (st0 : state) : Prop := view (st_grid st0) = view (st_grid st).

Lemma ending_not_found (st st0 : state) :
  same st st0 -> ending s e (same st) (finish_not_found st0).
Proof. intros H. exists st0. split; [assumption | left; reflexivity]. Qed.

Lemma ending_found (st st0 : state) (p : list pos) :
  same st st0 -> ending s e (same st) (finish_found s e p st0).
Proof. intros H. exists st0. split; [assumption | right; exists p; reflexivity]. Qed.

Lemma ending_trans (st st1 : state) (out : state * AlgorithmResult) :
  same st st1 -> ending s e (same st1) out -> ending s e (same st) out.
Proof.
  intros H [st0 [H0 Hout]]. exists st0. split; [|assumption].
  unfold same in *. congruence.
Qed.

Lemma dijkstra_loop_view (fuel : nat) :
  forall q st out, dijkstra_loop fuel s e speed q st = Returned out ->
                   ending s e (same st) out.
Proof.
  induction fuel as [|fuel IH]; intros q st out H; cbn [dijkstra_loop] in H;
    [discriminate|].
  destruct (sort_by _ q) as [|cur rest];
    [injection H as <-; apply ending_not_found; reflexivity|].
  destruct (_ || _); [injection H as <-; apply ending_not_found; reflexivity|].
  destruct (pos_eqb cur e).
  - destruct (reconstructPath _ e); [|discriminate]. injection H as <-.
    apply ending_found. unfold same. rewrite view_pause, view_visit. reflexivity.
  - apply IH in H. eapply ending_trans; [|exact H].
    unfold same. rewrite view_dijkstra_relax, view_pause, view_visit. reflexivity.
Qed.

Lemma astar_loop_view (fuel : nat) :
  forall q st out, astar_loop fuel s e speed q st = Returned out ->
                   ending s e (same st) out.
Proof.
  induction fuel as [|fuel IH]; intros q st out H; cbn [astar_loop] in H;
    [discriminate|].
  destruct (sort_by _ q) as [|cur rest];
    [injection H as <-; apply ending_not_found; reflexivity|].
  destruct (isWall _); [apply IH in H; assumption|].
  destruct (pos_eqb cur e).
  - destruct (reconstructPath _ e); [|discriminate]. injection H as <-.
    apply ending_found. unfold same. rewrite view_pause, view_visit. reflexivity.
  - match type of H with context [fold_left ?f ?l ?a] =>
      pose proof (view_astar_relax cur e l a) as Ht; destruct (fold_left f l a) as [st2 q2]
    end.
    apply IH in H. eapply ending_trans; [|exact H].
    unfold same. cbn [fst] in Ht. rewrite Ht, view_pause, view_visit. reflexivity.
Qed.

Lemma greedy_loop_view (fuel : nat) :
  forall q st out, greedy_loop fuel s e speed q st = Returned out ->
                   ending s e (same st) out.
Proof.
  induction fuel as [|fuel IH]; intros q st out H; cbn [greedy_loop] in H;
    [discriminate|].
  destruct (sort_by _ q) as [|cur rest];
    [injection H as <-; apply ending_not_found; reflexivity|].
  destruct (_ || _); [apply IH in H; assumption|].
  destruct (pos_eqb cur e).
  - destruct (reconstructPath _ e); [|discriminate]. injection H as <-.
    apply ending_found. unfold same. rewrite view_pause, view_visit. reflexivity.
  - match type of H with context [fold_left ?f ?l ?a] =>
      pose proof (view_greedy_discover cur e l a) as Ht; destruct (fold_left f l a) as [st2 q2]
    end.
    apply IH in H. eapply ending_trans; [|exact H].
    unfold same. cbn [fst] in Ht. rewrite Ht, view_pause, view_visit. reflexivity.
Qed.

Lemma bfs_loop_view (fuel : nat) :
  forall q st out, bfs_loop fuel s e speed q st = Returned out ->
                   ending s e (same st) out.
Proof.
  induction fuel as [|fuel IH]; intros q st out H; cbn [bfs_loop] in H;
    [discriminate|].
  destruct q as [|cur rest]; [injection H as <-; apply ending_not_found; reflexivity|].
  destruct (pos_eqb cur e).
  - destruct (reconstructPath _ e); [|discriminate]. injection H as <-.
    apply ending_found. unfold same. rewrite view_pause. reflexivity.
  - match type of H with context [fold_left ?f ?l ?a] =>
      pose proof (view_bfs_discover cur l a) as Ht; destruct (fold_left f l a) as [st2 q2]
    end.
    apply IH in H. eapply ending_trans; [|exact H].
    unfold same. cbn [fst] in Ht. rewrite Ht, view_pause. reflexivity.
Qed.

Lemma dfs_neighbors_view (rec : pos -> state -> outcome (state * bool)) :
  (forall nb st st' b, rec nb st = Returned (st', b) -> same st st') ->
  forall nbs cur st st' b,
    dfs_neighbors rec cur nbs st = Returned (st', b) -> same st st'.
Proof.
  intros Hrec nbs; induction nbs as [|nb nbs IH]; intros cur st st' b H;
    cbn [dfs_neighbors] in H.
  - injection H as <- _. reflexivity.
  - destruct (_ && _); [|apply (IH _ _ _ _ H)].
    destruct (rec nb _) as [[st1 [|]]| |] eqn:E; try discriminate.
    + injection H as <- _. apply Hrec in E. unfold same in *.
      rewrite E. cbn [with_grid st_grid]. apply view_upd. auto.
    + apply Hrec in E. apply IH in H. unfold same in *.
      rewrite H, E. cbn [with_grid st_grid]. apply view_upd. auto.
Qed.

Lemma dfsRecursive_view (fuel : nat) :
  forall cur st st' b,
    dfsRecursive fuel e speed cur st = Returned (st', b) -> same st st'.
Proof.
  induction fuel as [|fuel IH]; intros cur st st' b H; cbn [dfsRecursive] in H;
    [discriminate|].
  destruct (_ || _); [injection H as <- _; reflexivity|].
  assert (Hv : forall x, same st (if negb (pos_eqb cur e)
                                  then emit (Sleep x) (visit cur st) else visit cur st)).
  { intros x. unfold same. destruct (negb _); cbn [emit st_grid]; apply view_visit. }
  destruct (pos_eqb cur e).
  - injection H as <- _. exact (Hv (inject_Z (101 - speed))).
  - apply (dfs_neighbors_view _ IH) in H. unfold same in *. rewrite H.
    exact (Hv (inject_Z (101 - speed))).
Qed.

Lemma bidi_half_view (dedup : bool) (me other : side) (st : state) :
  match bidi_half dedup s e speed me other st with
  | Meet _ st' => same st st'
  | Continue _ st' => same st st'
  end.
Proof.
  unfold bidi_half. destruct (sd_queue me) as [|cur rest]; [reflexivity|].
  match goal with |- context [set_has ?k ?v] => destruct (set_has k v) end.
  all: unfold same; destruct (dedup && includes _ cur);
       destruct (negb (pos_eqb cur s) && negb (pos_eqb cur e));
       cbn [st_grid emit push_visited with_grid]; apply view_upd; auto.
Qed.

Lemma bidi_loop_view (fuel : nat) :
  forall ss es st m ss' es' st',
  bidi_loop fuel s e speed ss es st = Returned (m, ss', es', st') -> same st st'.
Proof.
  induction fuel as [|fuel IH]; intros ss es st m ss' es' st' H; cbn [bidi_loop] in H;
    [discriminate|].
  assert (Hstep :
    match bidi_half false s e speed ss es st with
    | Meet m0 st1 => Returned (Some m0, ss, es, st1)
    | Continue ss1 st1 =>
        match bidi_half true s e speed es ss1 st1 with
        | Meet m0 st2 => Returned (Some m0, ss1, es, st2)
        | Continue es1 st2 => bidi_loop fuel s e speed ss1 es1 st2
        end
    end = Returned (m, ss', es', st') -> same st st').
  { clear H. intros H.
    pose proof (bidi_half_view false ss es st) as H1.
    destruct (bidi_half false s e speed ss es st) as [m0 st1 | ss1 st1].
    - injection H as _ _ _ <-. assumption.
    - pose proof (bidi_half_view true es ss1 st1) as H2.
      destruct (bidi_half true s e speed es ss1 st1) as [m0 st2 | es1 st2].
      + injection H as _ _ _ <-. unfold same in *. congruence.
      + apply IH in H. unfold same in *. congruence. }
  destruct (sd_queue ss), (sd_queue es); try (apply Hstep; assumption).
  injection H as _ _ _ <-. reflexivity.
Qed.

End Loops.

Hypothesis keeps_isPath_false : keeps (set_isPath false).

(** Every run ends on a store with the view of the grid it was given. *)
Lemma algorithms_view (a : Algorithm) (g : Grid) (s e : pos) (speed : Z)
      (out : state * AlgorithmResult) :
  algorithms a g s e speed = Returned out ->
  ending s e (fun st0 => view (st_grid st0) = view g) out.
Proof.
  assert (Hw : forall (P P' : state -> Prop) o,
             (forall st, P st -> P' st) -> ending s e P o -> ending s e P' o).
  { intros P P' o Hi [st0 [H0 Ho]]. exists st0. split; [apply Hi; assumption | assumption]. }
  intros H. destruct a; cbn [algorithms] in H.
  - unfold dijkstra, resolve in H.
    destruct (grid_get _ s); [|discriminate]. destruct (grid_get _ e); [|discriminate].
    apply dijkstra_loop_view in H. revert H. apply Hw. intros st ->.
    cbn [st_grid]. rewrite view_upd by auto. apply view_reset.
    intros n. unfold dijkstra_reset.
    rewrite keeps_isPath_false, keeps_isVisited, keeps_previousNode, keeps_distance.
    reflexivity.
  - unfold astar, resolve in H.
    destruct (grid_get _ s); [|discriminate]. destruct (grid_get _ e); [|discriminate].
    apply astar_loop_view in H. revert H. apply Hw. intros st ->.
    cbn [st_grid]. rewrite !view_upd by auto. apply view_reset.
    intros n. unfold astar_reset.
    rewrite keeps_isPath_false, keeps_isVisited, keeps_previousNode, keeps_heuristic,
      keeps_distance.
    reflexivity.
  - unfold bfs, resolve in H.
    destruct (grid_get _ s); [|discriminate]. destruct (grid_get _ e); [|discriminate].
    apply bfs_loop_view in H. revert H. apply Hw. intros st ->.
    cbn [st_grid]. rewrite !view_upd by auto. apply view_reset.
    intros n. unfold bfs_reset.
    rewrite keeps_isPath_false, keeps_isVisited, keeps_previousNode, keeps_distance.
    reflexivity.
  - unfold dfs, resolve in H.
    destruct (grid_get _ s); [|discriminate]. destruct (grid_get _ e); [|discriminate].
    destruct (dfsRecursive _ e speed s _) as [[st [|]]| |] eqn:E; try discriminate.
    all: apply dfsRecursive_view in E; cbn [st_grid] in E.
    all: assert (Hv : view (st_grid st) = view g)
      by (rewrite E; apply view_reset; intros n; unfold dfs_reset;
          rewrite keeps_previousNode, keeps_isPath_false, keeps_isVisited; reflexivity).
    + destruct (reconstructPath _ e) as [p|]; [|discriminate]. injection H as <-.
      exists st. split; [assumption | right; exists p; reflexivity].
    + injection H as <-. exists st. split; [assumption | left; reflexivity].
  - unfold greedy, resolve in H.
    destruct (grid_get _ s); [|discriminate]. destruct (grid_get _ e); [|discriminate].
    apply greedy_loop_view in H. revert H. apply Hw. intros st ->.
    cbn [st_grid]. rewrite !view_upd by auto. apply view_reset.
    intros n. unfold greedy_reset.
    rewrite keeps_isPath_false, keeps_isVisited, keeps_previousNode, keeps_heuristic.
    reflexivity.
  - unfold bidirectional, resolve in H.
    destruct (grid_get _ s); [|discriminate]. destruct (grid_get _ e); [|discriminate].
    destruct (bidi_loop _ s e speed _ _ _) as [[[[m ss'] es'] st]| |] eqn:E; try discriminate.
    apply bidi_loop_view in E; cbn [st_grid] in E.
    assert (Hv : view (st_grid st) = view g)
      by (rewrite E; apply view_reset; intros n; unfold bidi_reset;
          rewrite keeps_previousNode, keeps_isPath_false, keeps_isVisited; reflexivity).
    destruct m as [m|].
    + destruct (reconstructBidirectionalPath _ _ _ _) as [p|]; [|discriminate].
      injection H as <-. exists st. split; [assumption | right; exists p; reflexivity].
    + injection H as <-. exists st. split; [assumption | left; reflexivity].
Qed.

End Projection.

(** The fields of a node that describe the board: its indices, the start
    and end marks, the wall and the weight. *)
Definition layout (n : GridNode) : Z * Z * bool * bool * bool * Z :=
  (row n, col n, isStart n, isEnd n, isWall n, weight n).

(** No search alters the board: whatever the grid and the positions, the
    grid a search leaves behind has, cell by cell, the indices, start and end
    marks, walls and weights of the grid it was given. *)
Theorem searches_keep_layout (a : Algorithm) (g : Grid) (s e : pos) (speed : Z)
        (st : state) (r : AlgorithmResult) :
  algorithms a g s e speed = Returned (st, r) ->
  map (map layout) (st_grid st) = map (map layout) g.
Proof.
  intros H.
  apply (algorithms_view layout) in H; try (intros; intros n; reflexivity).
  destruct H as [st0 [H0 [Ho | [p Ho]]]].
  - injection Ho as -> _. exact H0.
  - injection Ho as -> _. fold (view layout (st_grid (revealPath s e p st0))).
    rewrite view_revealPath by (intros n; reflexivity). exact H0.
Qed.

Lemma searches_keep_layout_witness :
  let out := run_result (astar sample_grid (0, 0) (2, 2) 50) in
  algorithms Astar sample_grid (0, 0) (2, 2) 50 = Returned (fst out, snd out) /\
  map (map layout) (st_grid (fst out)) = map (map layout) sample_grid.
Proof.
  cbv zeta.
  assert (H : algorithms Astar sample_grid (0, 0) (2, 2) 50 =
              Returned (fst (run_result (astar sample_grid (0, 0) (2, 2) 50)),
                        snd (run_result (astar sample_grid (0, 0) (2, 2) 50))))
    by (vm_compute; reflexivity).
  split; [exact H|].
  exact (searches_keep_layout Astar sample_grid (0, 0) (2, 2) 50 _ _ H).
Defined.


(* ================================================================== *)
(** * The page keeps the data model *)
(* ================================================================== *)

Section Page.

Import Visualizer.

(** The board of the data model: every node carries its indices, the start
    and end marks sit on the nodes the state names and nowhere else, a node
    with a mark is not a wall, and a weight is 1 or 5. *)
Definition board_ok (g : Grid) (s e : option pos) : Prop :=
  (forall p n, grid_get g p = Some n ->
     row n = fst p /\ col n = snd p /\
     (isStart n = true <-> s = Some p) /\ (isEnd n = true <-> e = Some p) /\
     (isStart n = true \/ isEnd n = true -> isWall n = false) /\
     (weight n = 1 \/ weight n = 5)) /\
  (forall p, s = Some p -> valid g p) /\
  (forall p, e = Some p -> valid g p).

Record data_model (a : App) : Prop := {
  dm_size : 10 <= gridSize a <= 50;
  dm_rect : rect (gridSize a) (gridSize a) (grid a);
  dm_board : board_ok (grid a) (startNode a) (endNode a);
  dm_speed : 1 <= animationSpeed a <= 100;
  dm_idle : isRunning a = false;
  dm_saved : NoDup (map fst (previousStats a)) /\ (length (previousStats a) <= 5)%nat
}.

Lemma rect_wf (R C : Z) (g : Grid) (s e : option pos) :
  rect R C g -> board_ok g s e -> wf_grid g.
Proof.
  intros [H1 H2] [Hb _]. split.
  - intros r Hr. destruct g as [|r0 g]; [destruct Hr|].
    cbn [hd]. apply Nat2Z.inj. rewrite (H2 r Hr), (H2 r0) by (left; reflexivity).
    reflexivity.
  - intros p n Hn. destruct (Hb p n Hn) as (Hr & Hc & _). split; assumption.
Qed.

(** Two grids with the same nodes up to fields that the board ignores. *)
Lemma board_ok_layout (g g' : Grid) (s e : option pos) :
  (forall p, option_map layout (grid_get g' p) = option_map layout (grid_get g p)) ->
  board_ok g s e -> board_ok g' s e.
Proof.
  intros H [Hb [Hs He]].
  assert (Hv : forall p, valid g p -> valid g' p).
  { intros p Hp. unfold valid in *. specialize (H p).
    destruct (grid_get g p); [|congruence]. destruct (grid_get g' p); [congruence|discriminate]. }
  split; [|split; intros p Hp; apply Hv; auto].
  intros p n' Hn'. specialize (H p). rewrite Hn' in H.
  destruct (grid_get g p) as [n|] eqn:Hn; [|discriminate].
  cbn in H. injection H as Hr Hc H1 H2 H3 H4.
  specialize (Hb p n Hn). rewrite Hr, Hc, H1, H2, H3, H4. exact Hb.
Qed.

Lemma view_rect {T : Type} (pr : GridNode -> T) (R C : Z) (g g' : Grid) :
  view pr g' = view pr g -> rect R C g -> rect R C g'.
Proof.
  intros H [H1 H2]. unfold view in H. split.
  - rewrite <- H1. rewrite <- (length_map (map pr) g'), H, length_map. reflexivity.
  - intros r' Hr'. apply (in_map (map pr)) in Hr'. rewrite H in Hr'.
    apply in_map_iff in Hr'. destruct Hr' as [r [E Hr]].
    rewrite <- (H2 r Hr). rewrite <- (length_map pr r'), <- E, length_map. reflexivity.
Qed.

Lemma grid_get_new (n : Z) (p : pos) :
  grid_get (map (fun row => map (fun col => new_node row col) (Maze.upto n)) (Maze.upto n)) p =
  if Maze.inside (n, n) p then Some (new_node (fst p) (snd p)) else None.
Proof.
  unfold grid_get, Maze.inside. cbn [fst snd]. destruct p as [r c]. cbn [fst snd].
  destruct (0 <=? r) eqn:E1; cbn [andb].
  2:{ reflexivity. }
  destruct (0 <=? c) eqn:E2; cbn [andb].
  2:{ rewrite andb_false_r. reflexivity. }
  apply Z.leb_le in E1, E2.
  unfold Maze.upto. rewrite !nth_error_map, !nth_error_seq.
  destruct (r <? n) eqn:E3.
  - apply Z.ltb_lt in E3.
    destruct (Nat.ltb_spec (Z.to_nat r) (Z.to_nat n)); [|lia]. cbn.
    rewrite !nth_error_map, !nth_error_seq.
    destruct (c <? n) eqn:E4.
    + apply Z.ltb_lt in E4.
      destruct (Nat.ltb_spec (Z.to_nat c) (Z.to_nat n)); [|lia]. cbn.
      rewrite !Z2Nat.id by lia. reflexivity.
    + apply Z.ltb_ge in E4.
      destruct (Nat.ltb_spec (Z.to_nat c) (Z.to_nat n)); [lia|]. reflexivity.
  - apply Z.ltb_ge in E3.
    destruct (Nat.ltb_spec (Z.to_nat r) (Z.to_nat n)); [lia|]. reflexivity.
Qed.

Lemma rect_new (n : Z) :
  0 <= n ->
  rect n n (map (fun row => map (fun col => new_node row col) (Maze.upto n)) (Maze.upto n)).
Proof.
  intros Hn. unfold rect, Maze.upto. split.
  - rewrite !length_map, length_seq. lia.
  - intros r Hr. apply in_map_iff in Hr. destruct Hr as [x [<- _]].
    rewrite !length_map, length_seq. lia.
Qed.

Lemma board_ok_new (n : Z) :
  board_ok (map (fun row => map (fun col => new_node row col) (Maze.upto n)) (Maze.upto n))
           None None.
Proof.
  split; [|split; discriminate].
  intros p x Hx. rewrite grid_get_new in Hx.
  destruct (Maze.inside _ p); [|discriminate]. injection Hx as <-. cbn.
  repeat split; try discriminate; try (intros [H|H]; discriminate). left; reflexivity.
Qed.

Lemma data_model_initializeGrid (a : App) :
  10 <= gridSize a <= 50 -> 1 <= animationSpeed a <= 100 -> isRunning a = false ->
  NoDup (map fst (previousStats a)) /\ (length (previousStats a) <= 5)%nat ->
  data_model (initializeGrid a).
Proof.
  intros H1 H2 H3 H4. constructor; cbn; try assumption.
  - apply rect_new. lia.
  - apply board_ok_new.
Qed.

Lemma data_model_mounted : data_model mounted.
Proof.
  apply data_model_initializeGrid; cbn; try lia; try reflexivity.
  split; [constructor | lia].
Qed.

Lemma grid_get_nth_z (g : Grid) (r c : Z) :
  grid_get g (r, c) =
  match Maze.nth_z g r with
  | Some rw => Maze.nth_z rw c
  | None => None
  end.
Proof.
  unfold grid_get, Maze.nth_z. cbn [fst snd].
  destruct (Z.leb_spec 0 r), (Z.ltb_spec r 0); try lia; cbn [andb]; [|reflexivity].
  destruct (Z.leb_spec 0 c), (Z.ltb_spec c 0); try lia.
  - reflexivity.
  - destruct (nth_error g (Z.to_nat r)); reflexivity.
Qed.

Ltac cell H :=
  rewrite ?grid_get_upd in H;
  repeat match type of H with
  | context [pos_eqb ?a ?b] =>
      let E := fresh "E" in
      destruct (pos_eqb a b) eqn:E;
      [apply pos_eqb_eq in E; subst | apply pos_eqb_neq in E]
  end.

Lemma board_unmark_start (g : Grid) (q : pos) (e : option pos) :
  board_ok g (Some q) e -> board_ok (grid_upd q (set_isStart false) g) None e.
Proof.
  intros [Hb [Hs He]]. split; [|split].
  - intros p n' Hn'. rewrite grid_get_upd in Hn'.
    destruct (pos_eqb q p) eqn:E.
    + apply pos_eqb_eq in E. subst p.
      destruct (grid_get g q) as [n|] eqn:Hn; [|discriminate]. injection Hn' as <-.
      destruct (Hb q n Hn) as (H1 & H2 & H3 & H4 & H5 & H6). cbn.
      repeat split; try assumption; try discriminate; try apply H4.
      intros [H|H]; [discriminate|]. apply H5. right; assumption.
    + apply pos_eqb_neq in E.
      destruct (Hb p n' Hn') as (H1 & H2 & H3 & H4 & H5 & H6).
      repeat split; try assumption; try discriminate; try apply H4.
      intros H. apply H3 in H. congruence.
  - discriminate.
  - intros p Hp. apply valid_upd. apply He. assumption.
Qed.

Lemma board_unmark_end (g : Grid) (q : pos) (s : option pos) :
  board_ok g s (Some q) -> board_ok (grid_upd q (set_isEnd false) g) s None.
Proof.
  intros [Hb [Hs He]]. split; [|split].
  - intros p n' Hn'. rewrite grid_get_upd in Hn'.
    destruct (pos_eqb q p) eqn:E.
    + apply pos_eqb_eq in E. subst p.
      destruct (grid_get g q) as [n|] eqn:Hn; [|discriminate]. injection Hn' as <-.
      destruct (Hb q n Hn) as (H1 & H2 & H3 & H4 & H5 & H6). cbn.
      repeat split; try assumption; try discriminate; try apply H3.
      intros [H|H]; [|discriminate]. apply H5. left; assumption.
    + apply pos_eqb_neq in E.
      destruct (Hb p n' Hn') as (H1 & H2 & H3 & H4 & H5 & H6).
      repeat split; try assumption; try discriminate; try apply H3.
      intros H. apply H4 in H. congruence.
  - intros p Hp. apply valid_upd. apply Hs. assumption.
  - discriminate.
Qed.

Lemma board_mark_start (g : Grid) (p : pos) (e : option pos) :
  board_ok g None e -> valid g p ->
  board_ok (grid_upd p (set_isWall false) (grid_upd p (set_isStart true) g)) (Some p) e.
Proof.
  intros [Hb [Hs He]] Hp. split; [|split].
  - intros x n' Hn'. rewrite !grid_get_upd in Hn'.
    destruct (pos_eqb p x) eqn:E.
    + apply pos_eqb_eq in E. subst x.
      destruct (grid_get g p) as [n|] eqn:Hn; [|discriminate]. injection Hn' as <-.
      destruct (Hb p n Hn) as (H1 & H2 & H3 & H4 & H5 & H6). cbn.
      repeat split; try assumption; try reflexivity; apply H4.
    + apply pos_eqb_neq in E.
      destruct (Hb x n' Hn') as (H1 & H2 & H3 & H4 & H5 & H6).
      repeat split; try assumption; try apply H4.
      * intros H. apply H3 in H. discriminate.
      * intros H. congruence.
  - intros x Hx. injection Hx as <-. apply valid_upd, valid_upd. assumption.
  - intros x Hx. apply valid_upd, valid_upd. apply He. assumption.
Qed.

Lemma board_mark_end (g : Grid) (p : pos) (s : option pos) :
  board_ok g s None -> valid g p ->
  board_ok (grid_upd p (set_isWall false) (grid_upd p (set_isEnd true) g)) s (Some p).
Proof.
  intros [Hb [Hs He]] Hp. split; [|split].
  - intros x n' Hn'. rewrite !grid_get_upd in Hn'.
    destruct (pos_eqb p x) eqn:E.
    + apply pos_eqb_eq in E. subst x.
      destruct (grid_get g p) as [n|] eqn:Hn; [|discriminate]. injection Hn' as <-.
      destruct (Hb p n Hn) as (H1 & H2 & H3 & H4 & H5 & H6). cbn.
      repeat split; try assumption; try reflexivity; apply H3.
    + apply pos_eqb_neq in E.
      destruct (Hb x n' Hn') as (H1 & H2 & H3 & H4 & H5 & H6).
      repeat split; try assumption; try apply H3.
      * intros H. apply H4 in H. discriminate.
      * intros H. congruence.
  - intros x Hx. apply valid_upd, valid_upd. apply Hs. assumption.
  - intros x Hx. injection Hx as <-. apply valid_upd, valid_upd. assumption.
Qed.

(** A write to one node that keeps what the board looks at, or changes it
    to something the board allows. *)
Lemma board_ok_upd (g : Grid) (s e : option pos) (p : pos) (f : GridNode -> GridNode) :
  board_ok g s e ->
  (forall n, grid_get g p = Some n ->
     row (f n) = row n /\ col (f n) = col n /\
     isStart (f n) = isStart n /\ isEnd (f n) = isEnd n /\
     (isStart n = true \/ isEnd n = true -> isWall (f n) = false) /\
     (weight (f n) = 1 \/ weight (f n) = 5)) ->
  board_ok (grid_upd p f g) s e.
Proof.
  intros [Hb [Hs He]] Hf. split; [|split].
  - intros x n' Hn'. rewrite grid_get_upd in Hn'.
    destruct (pos_eqb p x) eqn:E.
    + apply pos_eqb_eq in E. subst x.
      destruct (grid_get g p) as [n|] eqn:Hn; [|discriminate]. injection Hn' as <-.
      destruct (Hb p n Hn) as (H1 & H2 & H3 & H4 & H5 & H6).
      destruct (Hf n eq_refl) as (F1 & F2 & F3 & F4 & F5 & F6).
      rewrite F1, F2, F3, F4. repeat split; try assumption; try apply H3; try apply H4.
    + apply Hb. assumption.
  - intros x Hx. apply valid_upd. apply Hs. assumption.
  - intros x Hx. apply valid_upd. apply He. assumption.
Qed.

Lemma data_model_setGrid (a : App) (g : Grid) :
  data_model a -> rect (gridSize a) (gridSize a) g ->
  board_ok g (startNode a) (endNode a) -> data_model (setGrid g a).
Proof. intros D Hr Hb. constructor; cbn; try assumption; apply D. Qed.

(** A click on a node of the grid. *)
Lemma data_model_click (a : App) (row col : Z) :
  data_model a -> grid_get (grid a) (row, col) <> None ->
  exists a', handleNodeClick row col a = Returned a' /\ data_model a'.
Proof.
  intros D Hv. unfold handleNodeClick. rewrite (dm_idle a D).
  pose proof Hv as Hv'. rewrite grid_get_nth_z in Hv'.
  destruct (Maze.nth_z (grid a) row) as [r|] eqn:Er; [|contradiction].
  destruct (Maze.nth_z r col) as [n|] eqn:En; [|contradiction].
  assert (Hn : grid_get (grid a) (row, col) = Some n).
  { rewrite grid_get_nth_z, Er. assumption. }
  pose proof (dm_board a D) as Hb. pose proof (dm_rect a D) as Hr.
  destruct (mode a).
  - (* wall *)
    destruct (negb (isStart n) && negb (isEnd n)) eqn:Ef;
      (eexists; split; [reflexivity|]); [|assumption].
    apply data_model_setGrid; [assumption | apply rect_upd; assumption |].
    apply board_ok_upd; [assumption|]. intros n0 Hn0. rewrite Hn in Hn0. injection Hn0 as <-.
    cbn. destruct Hb as [Hb _]. destruct (Hb _ _ Hn) as (_ & _ & _ & _ & _ & Hw).
    repeat split; try assumption.
    apply andb_true_iff in Ef. destruct Ef as [E1 E2].
    apply negb_true_iff in E1, E2. intros [H|H]; congruence.
  - (* start *)
    assert (Hg1 : exists g1, unmark set_isStart (startNode a) (grid a) = Some g1 /\
                             rect (gridSize a) (gridSize a) g1 /\
                             board_ok g1 None (endNode a) /\ valid g1 (row, col)).
    { unfold unmark. destruct (startNode a) as [q|] eqn:Es.
      - assert (Hq : valid (grid a) q) by (apply (proj1 (proj2 Hb)); reflexivity).
        rewrite (valid_get _ _ Hq). eexists; split; [reflexivity|].
        split; [apply rect_upd; assumption|].
        split; [apply board_unmark_start; assumption|]. apply valid_upd. assumption.
      - eexists; split; [reflexivity|]. split; [exact Hr|]. split; [exact Hb | exact Hv]. }
    destruct Hg1 as [g1 [-> [Hr1 [Hb1 Hv1]]]].
    eexists; split; [reflexivity|].
    constructor; cbn; try apply D.
    + apply rect_upd, rect_upd. assumption.
    + apply board_mark_start; assumption.
  - (* end *)
    assert (Hg1 : exists g1, unmark set_isEnd (endNode a) (grid a) = Some g1 /\
                             rect (gridSize a) (gridSize a) g1 /\
                             board_ok g1 (startNode a) None /\ valid g1 (row, col)).
    { unfold unmark. destruct (endNode a) as [q|] eqn:Es.
      - assert (Hq : valid (grid a) q) by (apply (proj2 (proj2 Hb)); reflexivity).
        rewrite (valid_get _ _ Hq). eexists; split; [reflexivity|].
        split; [apply rect_upd; assumption|].
        split; [apply board_unmark_end; assumption|]. apply valid_upd. assumption.
      - eexists; split; [reflexivity|]. split; [exact Hr|]. split; [exact Hb | exact Hv]. }
    destruct Hg1 as [g1 [-> [Hr1 [Hb1 Hv1]]]].
    eexists; split; [reflexivity|].
    constructor; cbn; try apply D.
    + apply rect_upd, rect_upd. assumption.
    + apply board_mark_end; assumption.
  - (* weight *)
    destruct (isWeightedMode a); [|eexists; split; [reflexivity | assumption]].
    destruct (negb (isStart n) && negb (isEnd n) && negb (isWall n)) eqn:Ef;
      (eexists; split; [reflexivity|]); [|assumption].
    apply data_model_setGrid; [assumption | apply rect_upd; assumption |].
    apply board_ok_upd; [assumption|]. intros n0 Hn0. rewrite Hn in Hn0. injection Hn0 as <-.
    cbn. repeat split.
    + destruct Hb as [Hb _]. apply (Hb _ _ Hn).
    + destruct (weight n =? 1); [right | left]; reflexivity.
Qed.

Lemma data_model_clearGrid (a : App) : data_model a -> data_model (clearGrid a).
Proof.
  intros D. constructor; cbn; try apply D.
  - apply rect_map. apply D.
  - apply (board_ok_layout (grid a)); [|apply D].
    intros p. change (map (map clear_node) (grid a)) with (reset_grid clear_node (grid a)).
    rewrite grid_get_reset. destruct (grid_get (grid a) p); reflexivity.
Qed.

Lemma data_model_resetGrid (a : App) : data_model a -> data_model (resetGrid a).
Proof.
  intros D. unfold resetGrid.
  pose proof (data_model_initializeGrid a (dm_size a D) (dm_speed a D) (dm_idle a D)
                (dm_saved a D)) as D'.
  constructor; cbn; try apply D'. split; [constructor | lia].
Qed.

Lemma data_model_setGridSize (a : App) (n : Z) :
  data_model a -> 10 <= n <= 50 -> data_model (setGridSize n a).
Proof.
  intros D Hn. unfold setGridSize. apply data_model_initializeGrid; cbn; try apply D.
  assumption.
Qed.

(** The board after a maze was generated on it. *)
Lemma board_ok_maze (g g' : Grid) (s e : option pos) :
  maze_inv g g' -> board_ok g s e -> board_ok g' s e.
Proof.
  intros Hm [Hb [Hs He]].
  assert (Hv : forall p, valid g p -> valid g' p).
  { intros p Hp. unfold valid in *. specialize (Hm p).
    destruct (grid_get g p); [|congruence]. destruct (grid_get g' p); [congruence|contradiction]. }
  split; [|split; intros p Hp; apply Hv; auto].
  intros p n' Hn'. specialize (Hm p). rewrite Hn' in Hm.
  destruct (grid_get g p) as [n|] eqn:Hn; [|contradiction].
  destruct Hm as [Hc Hf].
  assert (Hrow : row (set_isWall false n') = row (Maze.maze_copy n)) by (rewrite Hc; reflexivity).
  assert (Hcol : col (set_isWall false n') = col (Maze.maze_copy n)) by (rewrite Hc; reflexivity).
  assert (Hst : isStart (set_isWall false n') = isStart (Maze.maze_copy n))
    by (rewrite Hc; reflexivity).
  assert (Hen : isEnd (set_isWall false n') = isEnd (Maze.maze_copy n))
    by (rewrite Hc; reflexivity).
  assert (Hwe : weight (set_isWall false n') = weight (Maze.maze_copy n))
    by (rewrite Hc; reflexivity).
  cbn in Hrow, Hcol, Hst, Hen, Hwe.
  destruct (Hb p n Hn) as (H1 & H2 & H3 & H4 & H5 & H6).
  rewrite Hrow, Hcol, Hst, Hen, Hwe. repeat split; try assumption; try apply H3; try apply H4.
  intros H. apply Hf. unfold Maze.flagged. rewrite Hst, Hen.
  destruct H as [-> | ->]; [reflexivity | apply orb_true_r].
Qed.

Lemma data_model_generateMaze (a : App) (mazeType : MazeType) (rnd : Maze.rng) :
  data_model a -> (forall i, (0 <= rnd i)%Q /\ (rnd i < 1)%Q) ->
  exists a', generateMazeHandler mazeType rnd a = Returned a' /\ data_model a'.
Proof.
  intros D Hrnd. unfold generateMazeHandler, Maze.generateMaze. rewrite (dm_idle a D).
  pose proof (dm_size a D) as Hn.
  destruct (generator_minv (grid a) (gridSize a) (gridSize a) ltac:(lia) ltac:(lia) rnd Hrnd
              mazeType true (Maze.mkM (map (map Maze.maze_copy) (grid a)) 0))
    as (u & st & E & Hr & Hm).
  { split; [apply rect_map; apply D | apply maze_inv_copy]. }
  rewrite E. eexists; split; [reflexivity|].
  constructor; cbn; try apply D; try reflexivity.
  - assumption.
  - apply (board_ok_maze (grid a)); [assumption | apply D].
Qed.

(** The input that [runAlgorithm] hands to the search. *)
Lemma data_model_search_input (a : App) (alg : Algorithm) (s e : pos) :
  data_model a -> startNode a = Some s -> endNode a = Some e ->
  search_input alg (grid a) s e.
Proof.
  intros D Hs He. destruct (dm_board a D) as [Hb [Hvs Hve]].
  assert (Ho : forall p, valid (grid a) p ->
                 (isStart (node (grid a) p) = true \/ isEnd (node (grid a) p) = true) ->
                 open (grid a) p).
  { intros p Hp Hf. split; [assumption|].
    apply (Hb p (node (grid a) p) (valid_get _ _ Hp)). assumption. }
  split; [constructor|].
  - apply (rect_wf _ _ _ _ _ (dm_rect a D) (dm_board a D)).
  - apply Ho; [apply Hvs; assumption|]. left.
    apply (Hb s _ (valid_get _ _ (Hvs s Hs))). assumption.
  - apply Ho; [apply Hve; assumption|]. right.
    apply (Hb e _ (valid_get _ _ (Hve e He))). assumption.
  - intros _ p [Hp _].
    destruct (Hb p _ (valid_get _ _ Hp)) as (_ & _ & _ & _ & _ & [H|H]); rewrite H; lia.
Qed.

(** The grid a search leaves has the layout of the grid it was given. *)
Lemma run_keeps_layout (alg : Algorithm) (g : Grid) (s e : pos) (speed : Z)
      (out : state * AlgorithmResult) :
  algorithms alg g s e speed = Returned out ->
  view layout (st_grid (fst out)) = view layout g.
Proof.
  intros H.
  apply (algorithms_view layout) in H; try (intros; intros n; reflexivity).
  destruct H as [st0 [H0 [-> | [p ->]]]]; cbn [fst finish_not_found finish_found].
  - exact H0.
  - rewrite view_revealPath by (intros n; reflexivity). exact H0.
Qed.

Lemma data_model_runAlgorithm (a : App) :
  data_model a ->
  exists a', runAlgorithm a = Returned a' /\ data_model a'.
Proof.
  intros D. unfold runAlgorithm.
  destruct (startNode a) as [s|] eqn:Es; [|eexists; split; [reflexivity | assumption]].
  destruct (endNode a) as [e|] eqn:Ee; [|eexists; split; [reflexivity | assumption]].
  rewrite (dm_idle a D).
  destruct (algorithms_correct (selectedAlgorithm a) (grid a) s e (animationSpeed a)
              (data_model_search_input a _ s e D Es Ee)) as [[st r] [Hrun _]].
  rewrite Hrun. eexists; split; [reflexivity|].
  pose proof (run_keeps_layout _ _ _ _ _ _ Hrun) as Hl. cbn [fst] in Hl.
  pose proof (data_model_clearGrid a D) as Dc.
  assert (G1 : rect (gridSize a) (gridSize a) (st_grid st)).
  { apply (view_rect layout _ _ (grid a)); [assumption | apply D]. }
  assert (G2 : board_ok (st_grid st) (startNode a) (endNode a)).
  { apply (board_ok_layout (grid a)).
    - intros p. rewrite <- !(view_get layout _ _ p Hl). reflexivity.
    - apply D. }
  rewrite Es, Ee in G2.
  destruct (called_back (st_trace st)), (pathFound (stats r));
    constructor; cbn; rewrite ?Es, ?Ee; try assumption; try reflexivity;
    try apply D; try (rewrite <- Es, <- Ee; apply Dc); apply Dc.
Qed.

Lemma Algorithm_eqb_eq (x y : Algorithm) : Algorithm_eqb x y = true <-> x = y.
Proof. destruct x, y; cbn; split; intros H; try reflexivity; discriminate. Qed.

Lemma NoDup_skipn {A : Type} (n : nat) (l : list A) : NoDup l -> NoDup (skipn n l).
Proof.
  revert l; induction n as [|n IH]; intros l H; [assumption|].
  destruct l as [|x l]; [constructor|]. cbn. apply IH. inversion H; assumption.
Qed.

Lemma NoDup_map_filter {A B : Type} (f : A -> B) (t : A -> bool) (l : list A) :
  NoDup (map f l) -> NoDup (map f (filter t l)).
Proof.
  induction l as [|x l IH]; cbn; intros H; [constructor|].
  inversion H as [|? ? Hn Hnd]; subst. destruct (t x); cbn; [|apply IH; assumption].
  constructor; [|apply IH; assumption].
  intros Hi. apply Hn. apply in_map_iff in Hi. destruct Hi as [y [E Hy]].
  apply filter_In in Hy. apply in_map_iff. exists y. tauto.
Qed.

Lemma saved_handleSaveStats (l : list (Algorithm * VisualizationStats))
      (alg : Algorithm) (st : VisualizationStats) :
  NoDup (map fst l) ->
  let l' := slice_last 5 (filter (fun entry => negb (Algorithm_eqb (fst entry) alg)) l
                          ++ [(alg, st)]) in
  NoDup (map fst l') /\ (length l' <= 5)%nat.
Proof.
  intros H l'. unfold l', slice_last. split.
  - rewrite <- skipn_map. apply NoDup_skipn. rewrite map_app. cbn.
    apply NoDup_app; [apply NoDup_map_filter; assumption
                     | constructor; [intros []|constructor] |].
    intros x Hx [<-|[]]. apply in_map_iff in Hx. destruct Hx as [y [E Hy]].
    apply filter_In in Hy. destruct Hy as [_ Hy]. apply negb_true_iff in Hy.
    assert (Algorithm_eqb (fst y) (fst y) = true) by (apply Algorithm_eqb_eq; reflexivity).
    cbn in E. congruence.
  - rewrite length_skipn. lia.
Qed.

Lemma data_model_handleSaveStats (a : App) (alg : Algorithm) (st : VisualizationStats) :
  data_model a -> data_model (handleSaveStats alg st a).
Proof.
  intros D. constructor; cbn; try apply D.
  apply saved_handleSaveStats. apply D.
Qed.

Lemma data_model_perform (a : App) (act : Action) :
  data_model a -> offered a act ->
  exists a', perform act a = Returned a' /\ data_model a'.
Proof.
  intros D Ho. destruct act; cbn [perform offered] in *.
  - apply data_model_click; assumption.
  - eexists; split; [reflexivity|]. constructor; cbn; apply D.
  - eexists; split; [reflexivity|]. constructor; cbn; apply D.
  - eexists; split; [reflexivity|]. constructor; cbn; apply D.
  - eexists; split; [reflexivity|]. constructor; cbn; try apply D. assumption.
  - eexists; split; [reflexivity|]. apply data_model_setGridSize; tauto.
  - eexists; split; [reflexivity|]. apply data_model_clearGrid; assumption.
  - eexists; split; [reflexivity|]. apply data_model_resetGrid; assumption.
  - apply data_model_generateMaze; assumption.
  - apply data_model_runAlgorithm; assumption.
  - destruct (shownStats a) as [st|]; (eexists; split; [reflexivity|]); [|assumption].
    apply data_model_handleSaveStats; assumption.
  - eexists; split; [reflexivity|]. constructor; cbn; apply D.
Qed.

Lemma reachable_data_model (a : App) : reachable a -> data_model a.
Proof.
  intros H; induction H as [|a a' act H IH Ho Hp].
  - apply data_model_mounted.
  - destruct (data_model_perform a act IH Ho) as [a'' [E D]]. congruence.
Qed.

(** A page on which a start and an end were placed with four actions. *)
Definition sample_actions : list Action :=
  [ChooseMode StartMode; Click 0 0; ChooseMode EndMode; Click 0 2].

Definition perform_all (acts : list Action) (a : App) : outcome App :=
  fold_left (fun o act => match o with Returned x => perform act x | _ => o end)
            acts (Returned a).

Definition page_of (o : outcome App) : App :=
  match o with Returned a => a | _ => first_render end.

Definition sample_page : App := page_of (perform_all sample_actions mounted).

Lemma sample_page_reachable : reachable sample_page.
Proof.
  assert (H0 : reachable mounted) by constructor.
  assert (H1 : reachable (setMode StartMode mounted)).
  { apply (reach_step mounted _ (ChooseMode StartMode) H0); [discriminate | reflexivity]. }
  assert (H2 : reachable (page_of (perform (Click 0 0) (setMode StartMode mounted)))).
  { apply (reach_step _ _ (Click 0 0) H1); [intros Hx; vm_compute in Hx; discriminate Hx | vm_compute; reflexivity]. }
  set (a2 := page_of (perform (Click 0 0) (setMode StartMode mounted))) in *.
  assert (H3 : reachable (setMode EndMode a2)).
  { apply (reach_step a2 _ (ChooseMode EndMode) H2); [discriminate | reflexivity]. }
  apply (reach_step _ _ (Click 0 2) H3); [intros Hx; vm_compute in Hx; discriminate Hx | vm_compute; reflexivity].
Qed.

(** Whatever the user does on the page, its state stays in the data model:
    a square grid of the size of the slider, between 10 and 50, whose nodes
    carry their own indices; [isStart] and [isEnd] set on the nodes named by
    [startNode] and [endNode] and on no other; no wall under the start or
    the end; every weight 1 or 5; and at most five saved results, one per
    algorithm. *)
Theorem page_stays_in_the_data_model (a : App) : reachable a -> data_model a.
Proof. apply reachable_data_model. Qed.

Lemma page_stays_in_the_data_model_witness :
  reachable sample_page /\ data_model sample_page.
Proof.
  split; [exact sample_page_reachable|].
  exact (page_stays_in_the_data_model sample_page sample_page_reachable).
Defined.

(** No handler of the page fails on what its controls let through: from a
    state the page can be in, every action that is offered runs to its end
    and leaves a state. *)
Theorem page_handlers_do_not_fail (a : App) (act : Action) :
  reachable a -> offered a act -> exists a', perform act a = Returned a'.
Proof.
  intros H Ho.
  destruct (data_model_perform a act (reachable_data_model a H) Ho) as [a' [E _]].
  exists a'. exact E.
Qed.

Lemma page_handlers_do_not_fail_witness :
  reachable sample_page /\ offered sample_page (GenerateMaze MPrim sample_rnd) /\
  exists a', perform (GenerateMaze MPrim sample_rnd) sample_page = Returned a'.
Proof.
  assert (Ho : offered sample_page (GenerateMaze MPrim sample_rnd)) by exact sample_rnd_range.
  split; [exact sample_page_reachable|]. split; [exact Ho|].
  exact (page_handlers_do_not_fail sample_page _ sample_page_reachable Ho).
Defined.

(** [runAlgorithm] on a page with a start and an end always comes back with
    the statistics of the chosen search on display and the page idle again;
    they report a path exactly when an open path joins the start and the
    end on the grid, and the confetti is shown when they do. *)
Theorem visualize_reports_the_search (a : App) (s e : pos) :
  reachable a -> startNode a = Some s -> endNode a = Some e ->
  exists a' st, runAlgorithm a = Returned a' /\
    shownStats a' = Some st /\ isRunning a' = false /\
    (pathFound st = true <-> connected (grid a) s e) /\
    (pathFound st = true -> showConfetti a' = true) /\
    (exists sf r, algorithms (selectedAlgorithm a) (grid a) s e (animationSpeed a)
                  = Returned (sf, r) /\ st = stats r).
Proof.
  intros H Es Ee. pose proof (reachable_data_model a H) as D.
  unfold runAlgorithm. rewrite Es, Ee, (dm_idle a D).
  destruct (algorithms_correct (selectedAlgorithm a) (grid a) s e (animationSpeed a)
              (data_model_search_input a _ s e D Es Ee)) as [[st r] [Hrun Hpost]].
  rewrite Hrun. eexists; exists (stats r). split; [reflexivity|].
  assert (Hc : pathFound (stats r) = true <-> connected (grid a) s e).
  { destruct Hpost as [_ [(Hf & Hp & _) | (Hr & Hn & _)]]; cbn [fst snd] in *.
    - split; [intros _; exists (path r); assumption | intros _; assumption].
    - rewrite Hr. cbn. split; [discriminate | contradiction]. }
  destruct (called_back (st_trace st)), (pathFound (stats r)) eqn:Ef; cbn;
    (split; [reflexivity|]); (split; [reflexivity|]); (split; [exact Hc|]);
    (split; [intros; try reflexivity; try discriminate|]);
    exists st, r; split; reflexivity.
Qed.

Lemma visualize_reports_the_search_witness :
  reachable sample_page /\
  startNode sample_page = Some (0, 0) /\ endNode sample_page = Some (0, 2) /\
  exists a' st, runAlgorithm sample_page = Returned a' /\
    shownStats a' = Some st /\ isRunning a' = false /\
    (pathFound st = true <-> connected (grid sample_page) (0, 0) (0, 2)) /\
    (pathFound st = true -> showConfetti a' = true) /\
    (exists sf r, algorithms (selectedAlgorithm sample_page) (grid sample_page) (0, 0) (0, 2)
                             (animationSpeed sample_page)
                  = Returned (sf, r) /\ st = stats r).
Proof.
  assert (Es : startNode sample_page = Some (0, 0)) by (vm_compute; reflexivity).
  assert (Ee : endNode sample_page = Some (0, 2)) by (vm_compute; reflexivity).
  split; [exact sample_page_reachable|]. split; [exact Es|]. split; [exact Ee|].
  exact (visualize_reports_the_search sample_page (0, 0) (0, 2) sample_page_reachable Es Ee).
Defined.

(** ** Clear Path after a run *)

Definition node_of_layout (l : Z * Z * bool * bool * bool * Z) : GridNode :=
  let '(r, c, s, e, w, wt) := l in mkNode r c s e w false false PosInf 0 wt None.

Lemma clear_view (g g' : Grid) :
  view layout g' = view layout g -> map (map clear_node) g' = map (map clear_node) g.
Proof.
  intros H.
  assert (E : forall x, map (map clear_node) x = map (map node_of_layout) (view layout x)).
  { intros x. unfold view. rewrite map_map. apply map_ext. intros r.
    rewrite map_map. apply map_ext. intros n. reflexivity. }
  rewrite !E, H. reflexivity.
Qed.

(** [clearGrid] removes all that a run has written: after [runAlgorithm],
    whatever the state it was called in, it gives the grid it would have
    given before the run; and clearing twice is clearing once. *)
Theorem clearGrid_erases_a_run (a a' : App) :
  runAlgorithm a = Returned a' ->
  grid (clearGrid a') = grid (clearGrid a) /\
  grid (clearGrid (clearGrid a)) = grid (clearGrid a).
Proof.
  intros H.
  assert (Hidem : forall g, map (map clear_node) (map (map clear_node) g) =
                            map (map clear_node) g).
  { intros g. apply clear_view. unfold view. rewrite map_map. apply map_ext.
    intros r. rewrite map_map. apply map_ext. intros n. reflexivity. }
  split; [|apply Hidem].
  unfold runAlgorithm in H.
  destruct (startNode a) as [s|]; [|injection H as <-; reflexivity].
  destruct (endNode a) as [e|]; [|injection H as <-; reflexivity].
  destruct (isRunning a); [injection H as <-; reflexivity|].
  destruct (algorithms _ _ s e _) as [[st r]| |] eqn:Hrun; try discriminate.
  pose proof (run_keeps_layout _ _ _ _ _ _ Hrun) as Hl. cbn [fst] in Hl.
  injection H as <-.
  destruct (called_back (st_trace st)), (pathFound (stats r)); cbn;
    first [apply clear_view; exact Hl | apply Hidem].
Qed.

Lemma clearGrid_erases_a_run_witness :
  let a' := page_of (runAlgorithm sample_page) in
  runAlgorithm sample_page = Returned a' /\
  grid a' <> grid sample_page /\
  grid (clearGrid a') = grid (clearGrid sample_page) /\
  grid (clearGrid (clearGrid sample_page)) = grid (clearGrid sample_page).
Proof.
  cbv zeta.
  assert (H : runAlgorithm sample_page = Returned (page_of (runAlgorithm sample_page)))
    by (vm_compute; reflexivity).
  split; [exact H|]. split; [intros E; vm_compute in E; discriminate E|].
  exact (clearGrid_erases_a_run sample_page _ H).
Defined.

(** ** Saved results *)

Lemma In_skipn_tl {A : Type} (n : nat) (l : list A) (x : A) :
  (n <= 1)%nat -> In x (tl l) -> In x (skipn n l).
Proof.
  intros Hn Hx. destruct n as [|[|n]]; [|destruct l; exact Hx|lia].
  destruct l; [destruct Hx | right; exact Hx].
Qed.

Lemma In_skipn {A : Type} (n : nat) (l : list A) (x : A) : In x (skipn n l) -> In x l.
Proof.
  intros H. rewrite <- (firstn_skipn n l). apply in_or_app. right; assumption.
Qed.

Lemma last_skipn {A : Type} (n : nat) (l : list A) (x d : A) :
  (n <= length l)%nat -> last (skipn n (l ++ [x])) d = x.
Proof.
  revert l; induction n as [|n IH]; intros l Hn.
  - cbn. apply last_last.
  - destruct l as [|y l]; [cbn in Hn; lia|]. cbn. apply IH. cbn in Hn. lia.
Qed.

(** [handleSaveStats] keeps a short history with one line for each
    algorithm: the new result comes last and replaces the line of that
    algorithm, nothing else is added, at most five lines remain and, when
    the history was one of the page, only its oldest line can be lost. *)
Theorem handleSaveStats_keeps_a_short_history
        (a : App) (alg : Algorithm) (st : VisualizationStats) :
  let l := previousStats a in
  let l' := previousStats (handleSaveStats alg st a) in
  last l' (alg, st) = (alg, st) /\ In (alg, st) l' /\
  (length l' <= 5)%nat /\
  (forall entry, In entry l' -> entry = (alg, st) \/ (In entry l /\ fst entry <> alg)) /\
  (NoDup (map fst l) -> NoDup (map fst l')) /\
  (NoDup (map fst l) -> (length l <= 5)%nat ->
   forall entry, In entry (tl l) -> fst entry <> alg -> In entry l').
Proof.
  cbv zeta. cbn [handleSaveStats previousStats setPreviousStats].
  set (l := previousStats a).
  set (f := filter (fun entry => negb (Algorithm_eqb (fst entry) alg)) l).
  unfold slice_last.
  assert (Hlen : (length (f ++ [(alg, st)]) - 5 <= length f)%nat).
  { rewrite length_app. cbn. lia. }
  assert (Hlast : last (skipn (length (f ++ [(alg, st)]) - 5) (f ++ [(alg, st)])) (alg, st)
                  = (alg, st)) by (apply last_skipn; exact Hlen).
  assert (Hf : forall entry, In entry f <-> In entry l /\ fst entry <> alg).
  { intros entry. unfold f. rewrite filter_In, negb_true_iff.
    split; intros [H1 H2]; (split; [assumption|]).
    - intros E. apply Algorithm_eqb_eq in E. congruence.
    - destruct (Algorithm_eqb (fst entry) alg) eqn:E; [|reflexivity].
      apply Algorithm_eqb_eq in E. contradiction. }
  split; [exact Hlast|]. split; [|split; [|split; [|split]]].
  - set (k := (length (f ++ [(alg, st)]) - 5)%nat) in *.
    rewrite skipn_app. apply in_or_app. right.
    replace (k - length f)%nat with 0%nat by lia. left; reflexivity.
  - rewrite length_skipn. lia.
  - intros entry H. apply In_skipn in H. apply in_app_or in H.
    destruct H as [H|[<-|[]]]; [right; apply Hf; assumption | left; reflexivity].
  - intros H. apply (saved_handleSaveStats l alg st H).
  - intros Hnd Hl entry He Hne.
    destruct l as [|x l0] eqn:El; [destruct He|]. cbn [tl] in He.
    assert (Hin0 : In entry (filter (fun entry0 => negb (Algorithm_eqb (fst entry0) alg)) l0)).
    { apply filter_In. split; [assumption|].
      apply negb_true_iff. destruct (Algorithm_eqb (fst entry) alg) eqn:E; [|reflexivity].
      apply Algorithm_eqb_eq in E. contradiction. }
    assert (Hl0 : (length (filter (fun entry0 => negb (Algorithm_eqb (fst entry0) alg)) l0)
                   <= 4)%nat).
    { etransitivity; [apply filter_length_le|]. cbn in Hl. lia. }
    unfold f in *. cbn [filter] in *.
    destruct (negb (Algorithm_eqb (fst x) alg)).
    + (* the oldest line may go *)
      apply In_skipn_tl.
      * rewrite length_app. cbn. lia.
      * cbn [app tl]. apply in_or_app. left; assumption.
    + (* the line of [alg] was the oldest: nothing is dropped *)
      replace (length _ - 5)%nat with 0%nat by (rewrite length_app; cbn; lia).
      cbn [skipn]. apply in_or_app. left; assumption.
Qed.

Lemma handleSaveStats_keeps_a_short_history_witness :
  let st := mkStats true 3 3 3 in
  let a := handleSaveStats Bfs st (handleSaveStats Dijkstra st sample_page) in
  let l := previousStats a in
  let l' := previousStats (handleSaveStats Dijkstra (mkStats false 0 7 0) a) in
  l = [(Dijkstra, st); (Bfs, st)] /\
  l' = [(Bfs, st); (Dijkstra, mkStats false 0 7 0)] /\
  last l' (Dijkstra, mkStats false 0 7 0) = (Dijkstra, mkStats false 0 7 0) /\
  In (Dijkstra, mkStats false 0 7 0) l' /\
  (length l' <= 5)%nat /\
  (forall entry, In entry l' ->
     entry = (Dijkstra, mkStats false 0 7 0) \/ (In entry l /\ fst entry <> Dijkstra)) /\
  (NoDup (map fst l) -> NoDup (map fst l')) /\
  (NoDup (map fst l) -> (length l <= 5)%nat ->
   forall entry, In entry (tl l) -> fst entry <> Dijkstra -> In entry l').
Proof.
  cbv zeta. split; [reflexivity|]. split; [reflexivity|].
  exact (handleSaveStats_keeps_a_short_history
           (handleSaveStats Bfs (mkStats true 3 3 3)
              (handleSaveStats Dijkstra (mkStats true 3 3 3) sample_page))
           Dijkstra (mkStats false 0 7 0)).
Defined.

(** ** Clicking a node twice *)

Lemma list_upd_twice {A : Type} (f f' : A -> A) (l : list A) (i : nat) :
  (forall x, nth_error l i = Some x -> f (f' x) = x) ->
  list_upd i f (list_upd i f' l) = l.
Proof.
  revert i; induction l as [|y l IH]; intros [|i] H; cbn; try reflexivity.
  - rewrite (H y eq_refl). reflexivity.
  - rewrite IH; [reflexivity|]. intros x Hx. apply H. exact Hx.
Qed.

Lemma grid_upd_twice (g : Grid) (p : pos) (f f' : GridNode -> GridNode) :
  (forall n, grid_get g p = Some n -> f (f' n) = n) ->
  grid_upd p f (grid_upd p f' g) = g.
Proof.
  intros H. unfold grid_upd, grid_get in *.
  destruct ((0 <=? fst p) && (0 <=? snd p)); [|reflexivity].
  apply list_upd_twice. intros r Hr. rewrite Hr in H.
  apply list_upd_twice. exact H.
Qed.

Lemma grid_get_row (g : Grid) (r c : Z) (n : GridNode) :
  grid_get g (r, c) = Some n ->
  exists rw, Maze.nth_z g r = Some rw /\ Maze.nth_z rw c = Some n.
Proof.
  rewrite grid_get_nth_z. destruct (Maze.nth_z g r) as [rw|]; [|discriminate].
  intros H. exists rw. split; [reflexivity | assumption].
Qed.

Lemma setGrid_same (a : App) (g : Grid) (g' : Grid) :
  g' = grid a -> setGrid g' (setGrid g a) = a.
Proof. intros ->. destruct a; reflexivity. Qed.

(** In the wall mode and in the weight mode a second click on a node undoes
    the first: the page is back in the state it was in. *)
Theorem second_click_undoes_the_first (a a1 : App) (row col : Z) :
  reachable a -> mode a = WallMode \/ mode a = WeightMode ->
  handleNodeClick row col a = Returned a1 ->
  handleNodeClick row col a1 = Returned a.
Proof.
  intros Hr Hm H. pose proof (reachable_data_model a Hr) as D.
  pose proof (dm_idle a D) as Hi.
  unfold handleNodeClick in H. rewrite Hi in H.
  destruct (Maze.nth_z (grid a) row) as [r|] eqn:Er; [|discriminate].
  assert (Hsame : handleNodeClick row col a = Returned a -> a1 = a ->
                  handleNodeClick row col a1 = Returned a) by (intros ? ->; assumption).
  assert (Hget : forall n, Maze.nth_z r col = Some n -> grid_get (grid a) (row, col) = Some n).
  { intros n Hn. rewrite grid_get_nth_z, Er. exact Hn. }
  destruct Hm as [Hm|Hm]; rewrite Hm in H.
  - (* wall *)
    destruct (Maze.nth_z r col) as [n|] eqn:En; [|discriminate].
    destruct (negb (isStart n) && negb (isEnd n)) eqn:Ef.
    + injection H as <-.
      set (p := (row, col)) in *.
      assert (G : grid_get (grid_upd p (set_isWall (negb (isWall n))) (grid a)) p
                  = Some (set_isWall (negb (isWall n)) n)).
      { rewrite grid_get_upd, pos_eqb_refl, (Hget n eq_refl). reflexivity. }
      destruct (grid_get_row _ _ _ _ G) as [rw [E1 E2]].
      unfold handleNodeClick. cbn [isRunning setGrid grid mode]. rewrite Hi, E1, Hm, E2.
      cbn [isStart isEnd isWall set_isWall]. rewrite Ef. f_equal.
      apply setGrid_same. apply grid_upd_twice.
      intros n0 Hn0. rewrite (Hget n eq_refl) in Hn0. injection Hn0 as <-.
      rewrite negb_involutive. destruct n; reflexivity.
    + injection H as <-. unfold handleNodeClick. rewrite Hi, Er, Hm, En, Ef. reflexivity.
  - (* weight *)
    destruct (isWeightedMode a) eqn:Ew.
    2:{ injection H as <-. unfold handleNodeClick. rewrite Hi, Er, Hm, Ew. reflexivity. }
    destruct (Maze.nth_z r col) as [n|] eqn:En; [|discriminate].
    destruct (negb (isStart n) && negb (isEnd n) && negb (isWall n)) eqn:Ef.
    + injection H as <-.
      set (p := (row, col)) in *.
      set (w := if weight n =? 1 then 5 else 1).
      assert (G : grid_get (grid_upd p (set_weight w) (grid a)) p = Some (set_weight w n)).
      { rewrite grid_get_upd, pos_eqb_refl, (Hget n eq_refl). reflexivity. }
      destruct (grid_get_row _ _ _ _ G) as [rw [E1 E2]].
      unfold handleNodeClick.
      cbn [isRunning setGrid grid mode isWeightedMode]. rewrite Hi, E1, Hm, Ew, E2.
      cbn [isStart isEnd isWall weight set_weight]. rewrite Ef. f_equal.
      apply setGrid_same. apply grid_upd_twice.
      intros n0 Hn0. rewrite (Hget n eq_refl) in Hn0. injection Hn0 as <-.
      destruct (dm_board a D) as [Hb _].
      destruct (Hb p n (Hget n eq_refl)) as (_ & _ & _ & _ & _ & Hw).
      unfold w. destruct n as [nr nc ns ne nw nv np nd nh nwt npr]. cbn in *.
      destruct Hw as [-> | ->]; reflexivity.
    + injection H as <-. unfold handleNodeClick. rewrite Hi, Er, Hm, Ew, En, Ef. reflexivity.
Qed.

Lemma second_click_undoes_the_first_witness :
  let a := setMode WallMode sample_page in
  let a1 := page_of (handleNodeClick 3 4 a) in
  reachable a /\ (mode a = WallMode \/ mode a = WeightMode) /\
  handleNodeClick 3 4 a = Returned a1 /\ a1 <> a /\
  handleNodeClick 3 4 a1 = Returned a.
Proof.
  cbv zeta.
  assert (Hr : reachable (setMode WallMode sample_page)).
  { apply (reach_step sample_page _ (ChooseMode WallMode) sample_page_reachable);
      [discriminate | reflexivity]. }
  assert (Hm : mode (setMode WallMode sample_page) = WallMode \/
               mode (setMode WallMode sample_page) = WeightMode) by (left; reflexivity).
  assert (H : handleNodeClick 3 4 (setMode WallMode sample_page) =
              Returned (page_of (handleNodeClick 3 4 (setMode WallMode sample_page))))
    by (vm_compute; reflexivity).
  split; [exact Hr|]. split; [exact Hm|]. split; [exact H|].
  split; [intros E; vm_compute in E; discriminate E|].
  exact (second_click_undoes_the_first _ _ 3 4 Hr Hm H).
Defined.

End Page.


(* ================================================================== *)
(** * The shape of the mazes *)
(* ================================================================== *)

(** ** prim: the cells it opens are two steps apart *)

Section PrimShape.

Import Maze.

Variables (g0 : Grid) (R C : Z).
Hypothesis HR : 1 <= R.
Hypothesis HC : 1 <= C.
Variable rnd : rng.
Hypothesis Hrnd : forall i, (0 <= rnd i)%Q /\ (rnd i < 1)%Q.

(** The first cell that is opened. *)
Variables r0 c0 : Z.

(** An even number of steps away from the first cell, in both directions. *)
Definition in_step (p : pos) : Prop :=
  Z.even (fst p - r0) = true /\ Z.even (snd p - c0) = true.

(** Every open cell that is not the start or the end is in step. *)
Definition sparse (g : Grid) : Prop :=
  forall p, open g p -> flagged (node g p) = true \/ in_step p.

Let wall_ok (q : pos) : Prop := inside (R, C) q = true /\ in_step q.

Lemma in_step_direction (p : pos) (dir : Z * Z) :
  in_step p -> In dir Maze.directions -> in_step (fst p + fst dir, snd p + snd dir).
Proof.
  intros [H1 H2] Hd. unfold in_step. cbn [fst snd].
  apply Z.even_spec in H1, H2. rewrite !Z.even_spec.
  unfold Maze.directions in Hd. cbn in Hd.
  destruct Hd as [<-|[<-|[<-|[<-|[]]]]]; cbn [fst snd];
    destruct H1 as [a Ha], H2 as [b Hb]; split;
    first [exists a; lia | exists b; lia | exists (a - 1); lia | exists (a + 1); lia
          | exists (b - 1); lia | exists (b + 1); lia].
Qed.

Lemma addWalls_in_step (st : mstate) (p : pos) (walls : list pos) :
  minv g0 R C st -> in_step p -> Forall wall_ok walls ->
  exists walls', addWalls p walls st = Returned (walls', st) /\
                 Forall wall_ok walls' /\
                 (length walls' <= length walls + 4)%nat.
Proof.
  intros Hst Hp Hw.
  set (J := fun (k : nat) (w : list pos) (x : mstate) =>
              x = st /\ Forall wall_ok w /\ (length w <= length walls + k)%nat).
  assert (H : hoare (fun x => x = st) (addWalls p walls) (J 4%nat)).
  { unfold addWalls. eapply hoare_bind.
    - apply (hoare_dims R C HR _ (fun d x => d = (R, C) /\ x = st)).
      intros x ->. split; [apply Hst | auto].
    - intros d.
      apply hoare_conseq with (P' := fun x => d = (R, C) /\ x = st) (Q' := J 4%nat); [|auto|auto].
      apply hoare_pre. intros ->.
      apply hoare_conseq with (P' := J 0%nat walls)
                              (Q' := J (0 + length Maze.directions)%nat).
      2:{ intros x ->. unfold J. split; [reflexivity|]. split; [assumption | lia]. }
      2:{ intros a x Hx. exact Hx. }
      apply hoare_fold_m. intros k dir w Hk. cbn [Nat.add]. unfold J.
      assert (Hdir : In dir Maze.directions) by (eapply nth_error_In; eassumption).
      destruct (inside (R, C) (fst p + fst dir, snd p + snd dir)) eqn:E.
      + eapply hoare_bind.
        * apply (hoare_read _ _ (fun _ x => x = st /\ Forall wall_ok w /\
                   (length w <= length walls + k)%nat)).
          intros x (-> & H1 & H2).
          split; [apply (minv_valid g0 R C); assumption | auto].
        * intros n. destruct (isWall n && negb (flagged n)).
          -- apply hoare_ret. intros x (-> & H1 & H2). split; [reflexivity|]. split.
             ++ apply Forall_app. split; [assumption|].
                constructor; [|constructor].
                split; [assumption | apply in_step_direction; assumption].
             ++ rewrite length_app. cbn [length]. unfold pos in *. lia.
          -- apply hoare_ret. intros x (-> & H1 & H2). split; [reflexivity|].
             split; [assumption | lia].
      + apply hoare_ret. intros x (-> & H1 & H2). split; [reflexivity|].
        split; [assumption | lia]. }
  destruct (H st eq_refl) as (w & st' & E & -> & H1 & H2).
  exists w. auto.
Qed.

Lemma sparse_open (g : Grid) (w : pos) :
  sparse g -> in_step w -> sparse (grid_upd w (set_isWall false) g).
Proof.
  intros Hs Hw p [Hv Hp]. apply valid_upd in Hv.
  rewrite node_upd in * by assumption.
  destruct (pos_eqb w p) eqn:E.
  - apply pos_eqb_eq in E. subst p. right; assumption.
  - apply Hs. split; assumption.
Qed.

Definition qinv (n : nat) (st : mstate) : Prop :=
  pinv g0 R C n st /\ sparse (m_grid st).

Lemma prim_loop_sparse (onUpdate : bool) (fuel : nat) :
  forall walls n,
  Forall wall_ok walls ->
  (length walls + 4 * n < fuel)%nat ->
  hoare (qinv n) (prim_loop fuel onUpdate rnd (R, C) walls)
        (fun _ st => minv g0 R C st /\ sparse (m_grid st)).
Proof.
  induction fuel as [|fuel IH]; intros walls n Hw Hm; [lia|].
  cbn [prim_loop]. destruct walls as [|w0 walls0] eqn:Ew.
  { apply hoare_ret. intros st [[H _] Hs]. split; assumption. }
  rewrite <- Ew in *.
  assert (Hlen : 0 < Z.of_nat (length walls)) by (rewrite Ew; cbn [length]; lia).
  eapply hoare_bind.
  { apply (hoare_random_floor rnd Hrnd (qinv n) _
             (fun k st => qinv n st /\ 0 <= k < Z.of_nat (length walls)) Hlen).
    intros st k Hst Hk. split; [|assumption].
    destruct Hst as [[H1 H2] H3]. split; [split|]; assumption. }
  intros i. apply hoare_conseq with
    (P' := fun st => 0 <= i < Z.of_nat (length walls) /\ qinv n st)
    (Q' := fun _ st => minv g0 R C st /\ sparse (m_grid st));
    [|tauto|auto].
  apply hoare_pre. intros Hi.
  destruct (nth_z_Some walls i Hi) as (wall & -> & Hwall).
  assert (Hwok : wall_ok wall).
  { rewrite Forall_forall in Hw. apply Hw. assumption. }
  destruct Hwok as [Hin Hstep]. rewrite Hin.
  assert (Hw1 : Forall wall_ok (splice1 (Z.to_nat i) walls)).
  { rewrite Forall_forall in *. intros x Hx. apply Hw. eapply In_splice1; eassumption. }
  assert (Hl1 : S (length (splice1 (Z.to_nat i) walls)) = length walls).
  { apply length_splice1. lia. }
  assert (Hskip : hoare (qinv n)
                    (prim_loop fuel onUpdate rnd (R, C) (splice1 (Z.to_nat i) walls))
                    (fun _ st => minv g0 R C st /\ sparse (m_grid st))).
  { apply IH; [assumption | lia]. }
  eapply hoare_bind.
  { apply (hoare_read (qinv n) wall
             (fun x st => qinv n st /\ x = node (m_grid st) wall)).
    intros st Hst. split; [apply (minv_valid g0 R C); [apply Hst | assumption] | auto]. }
  intros x. destruct (isWall x && negb (flagged x)) eqn:Ex.
  2:{ eapply hoare_conseq; [apply Hskip | tauto | auto]. }
  apply andb_true_iff in Ex. destruct Ex as [Exw _].
  intros st [[[Hst Hcnt] Hsp] Hx].
  destruct (getNeighbors_returns g0 R C HR st wall Hst) as [nbs Enb].
  unfold bind at 1. rewrite Enb.
  destruct ((length (filter (fun m => negb (isWall m)) nbs) =? 1)%nat).
  2:{ apply Hskip. split; [split|]; assumption. }
  assert (Hv : valid (m_grid st) wall) by (apply (minv_valid g0 R C); assumption).
  unfold bind at 1. unfold write_wall at 1. rewrite (valid_get _ _ Hv).
  set (st1 := mkM (grid_upd wall (set_isWall false) (m_grid st)) (m_next st)).
  assert (Hst1 : minv g0 R C st1) by (apply minv_open; assumption).
  assert (Hc1 : S (count_walls (m_grid st1)) = count_walls (m_grid st)).
  { apply (count_walls_open _ _ (node (m_grid st) wall)).
    - apply valid_get; assumption.
    - rewrite <- Hx. assumption. }
  assert (Hsp1 : sparse (m_grid st1)) by (apply sparse_open; assumption).
  destruct (addWalls_in_step st1 wall _ Hst1 Hstep Hw1) as (walls2 & E2 & Hw2 & Hl2).
  unfold bind at 1. rewrite E2.
  destruct (hoare_maybe_update g0 R C onUpdate rnd st1 Hst1) as (u & st2 & E3 & Hst2).
  unfold bind at 1. rewrite E3.
  assert (Hg2 : m_grid st2 = m_grid st1).
  { unfold maybe_update in E3. destruct onUpdate; cbn in E3; injection E3 as _ <-; reflexivity. }
  destruct n as [|n]; [lia|].
  apply (IH walls2 n Hw2); [lia|].
  split; [split; [assumption|]|]; rewrite Hg2; [lia | assumption].
Qed.

End PrimShape.

Lemma in_step_not_adjacent (r0 c0 : Z) (p q : pos) :
  in_step r0 c0 p -> in_step r0 c0 q -> ~ adjacent p q.
Proof.
  unfold in_step, adjacent. rewrite !Z.even_spec.
  intros [[a Ha] [b Hb]] [[c Hc] [d Hd]]. lia.
Qed.

Lemma generatePrimMaze_sparse (g0 : Grid) (R C : Z) (onUpdate : bool) (rnd : Maze.rng) :
  1 <= R -> 1 <= C -> (forall i, (0 <= rnd i)%Q /\ (rnd i < 1)%Q) ->
  hoare (minv g0 R C) (Maze.generatePrimMaze onUpdate rnd)
        (fun _ st => minv g0 R C st /\ exists r0 c0, sparse r0 c0 (Maze.m_grid st)).
Proof.
  intros HR HC Hrnd.
  unfold Maze.generatePrimMaze. eapply hoare_bind; [apply hoare_dims_minv; assumption|].
  intros d.
  apply hoare_conseq with (P' := fun st => d = (R, C) /\ minv g0 R C st)
    (Q' := fun _ st => minv g0 R C st /\ exists r0 c0, sparse r0 c0 (Maze.m_grid st));
    [|auto|auto].
  apply hoare_pre. intros ->. cbn [fst snd].
  eapply hoare_bind; [apply fill_walls_filled; assumption|]. intros u.
  set (F := fun st => minv g0 R C st /\
                      forall q, Maze.inside (R, C) q = true -> filled (Maze.m_grid st) q).
  eapply hoare_bind.
  { apply (hoare_random_floor rnd Hrnd F R (fun k st => F st /\ 0 <= k < R)); [lia|].
    intros st k Hst Hk. split; assumption. }
  intros startRow.
  apply hoare_conseq with (P' := fun st => 0 <= startRow < R /\ F st)
    (Q' := fun _ st => minv g0 R C st /\ exists r0 c0, sparse r0 c0 (Maze.m_grid st));
    [|tauto|auto].
  apply hoare_pre. intros Hsr.
  eapply hoare_bind.
  { apply (hoare_random_floor rnd Hrnd F C (fun k st => F st /\ 0 <= k < C)); [lia|].
    intros st k Hst Hk. split; assumption. }
  intros startCol.
  apply hoare_conseq with (P' := fun st => 0 <= startCol < C /\ F st)
    (Q' := fun _ st => minv g0 R C st /\ exists r0 c0, sparse r0 c0 (Maze.m_grid st));
    [|tauto|auto].
  apply hoare_pre. intros Hsc.
  assert (Hin : Maze.inside (R, C) (startRow, startCol) = true)
    by (apply inside_iff; cbn [fst snd]; lia).
  assert (Hstep : in_step startRow startCol (startRow, startCol)).
  { unfold in_step. cbn [fst snd]. rewrite !Z.sub_diag. split; reflexivity. }
  intros st [Hst Hfill].
  assert (Hv : valid (Maze.m_grid st) (startRow, startCol))
    by (apply (minv_valid g0 R C); assumption).
  unfold Maze.bind at 1. rewrite (set_unless_flagged_returns st false _ Hv).
  set (st1 := Maze.mkM (mark false (startRow, startCol) (Maze.m_grid st)) (Maze.m_next st)).
  assert (Hst1 : minv g0 R C st1).
  { unfold st1, mark. destruct (Maze.flagged _); [destruct st; exact Hst|].
    apply minv_open. assumption. }
  assert (Hsp1 : sparse startRow startCol (Maze.m_grid st1)).
  { intros p [Hvp Hp]. cbn [st1 Maze.m_grid] in *. apply valid_mark in Hvp.
    rewrite node_mark in * by assumption.
    destruct (pos_eqb (startRow, startCol) p) eqn:E.
    - apply pos_eqb_eq in E. subst p. right; assumption.
    - cbn [andb] in *. left.
      assert (Hip : Maze.inside (R, C) p = true).
      { apply (rect_valid R C (Maze.m_grid st)); [apply Hst | assumption]. }
      destruct (Hfill p Hip) as [H|H]; [assumption | congruence]. }
  destruct (addWalls_in_step g0 R C HR startRow startCol st1 (startRow, startCol) []
              Hst1 Hstep (Forall_nil _)) as (walls & E & Hw & Hl).
  unfold Maze.bind at 1. rewrite E.
  assert (Hm : (length walls + 4 * Z.to_nat (R * C) < S (4 * S (Z.to_nat (R * C))))%nat).
  { cbn [length] in Hl. lia. }
  assert (Hq : qinv g0 R C startRow startCol (Z.to_nat (R * C)) st1).
  { split; [split; [assumption|]|assumption].
    assert (H := count_walls_le R C (Maze.m_grid st1) (proj1 Hst1)). lia. }
  destruct (prim_loop_sparse g0 R C HR rnd Hrnd startRow startCol onUpdate _ walls
              (Z.to_nat (R * C)) Hw Hm st1 Hq) as (u2 & st2 & E2 & Hst2 & Hsp2).
  exists u2, st2. split; [exact E2|]. split; [assumption|]. exists startRow, startCol. assumption.
Qed.

(** In the maze of [generatePrimMaze], whatever the grid and the random
    numbers, two open cells next to each other always include the start or
    the end node: the cells the generator opens are two steps apart and the
    cell between two of them is never opened.  On a grid without start and
    end no two cells of the maze are connected. *)
Theorem prim_maze_has_no_passage (grid : Grid) (R C : Z) (onUpdate : bool) (rnd : Maze.rng) :
  1 <= R -> 1 <= C -> rect R C grid ->
  (forall i, (0 <= rnd i)%Q /\ (rnd i < 1)%Q) ->
  exists g', Maze.generateMaze grid MPrim onUpdate rnd = Returned g' /\
    (forall p q, open g' p -> open g' q -> adjacent p q ->
       Maze.flagged (node g' p) = true \/ Maze.flagged (node g' q) = true) /\
    ((forall p n, grid_get grid p = Some n -> Maze.flagged n = false) ->
     forall p q, connected g' p q -> p = q).
Proof.
  intros HR HC Hrect Hrnd. unfold Maze.generateMaze. cbn [Maze.generator].
  destruct (generatePrimMaze_sparse grid R C onUpdate rnd HR HC Hrnd
              (Maze.mkM (map (map Maze.maze_copy) grid) 0))
    as (u & st & E & Hst & r0 & c0 & Hsp).
  { split; [apply rect_map; assumption | apply maze_inv_copy]. }
  rewrite E. exists (Maze.m_grid st). split; [reflexivity|].
  assert (Hadj : forall p q, open (Maze.m_grid st) p -> open (Maze.m_grid st) q ->
                 adjacent p q ->
                 Maze.flagged (node (Maze.m_grid st) p) = true \/
                 Maze.flagged (node (Maze.m_grid st) q) = true).
  { intros p q Hp Hq Ha.
    destruct (Hsp p Hp) as [H|Hsp1]; [left; assumption|].
    destruct (Hsp q Hq) as [H|Hsp2]; [right; assumption|].
    exfalso. exact (in_step_not_adjacent r0 c0 p q Hsp1 Hsp2 Ha). }
  split; [exact Hadj|].
  intros Hnf p q [l Hl].
  assert (Hflag : forall x, valid (Maze.m_grid st) x ->
                            Maze.flagged (node (Maze.m_grid st) x) = false).
  { intros x Hx. destruct Hst as [_ Hinv]. specialize (Hinv x).
    rewrite (valid_get _ _ Hx) in Hinv.
    destruct (grid_get grid x) as [n0|] eqn:E0; [|contradiction].
    rewrite (kept_flagged _ _ Hinv). apply (Hnf x n0 E0). }
  inversion Hl as [s Hs | s v e l' Hs Ha Hl']; subst; [reflexivity|].
  exfalso. assert (Hu : open (Maze.m_grid st) v) by (eapply is_path_open_start; eassumption).
  destruct (Hadj p v Hs Hu Ha) as [H|H];
    [rewrite (Hflag p (proj1 Hs)) in H | rewrite (Hflag v (proj1 Hu)) in H]; discriminate.
Qed.

Lemma prim_maze_has_no_passage_witness :
  rect 5 5 sample_maze_input /\
  exists g', Maze.generateMaze sample_maze_input MPrim true sample_rnd = Returned g' /\
    (forall p q, open g' p -> open g' q -> adjacent p q ->
       Maze.flagged (node g' p) = true \/ Maze.flagged (node g' q) = true) /\
    ((forall p n, grid_get sample_maze_input p = Some n -> Maze.flagged n = false) ->
     forall p q, connected g' p q -> p = q).
Proof.
  assert (Hrect : rect 5 5 sample_maze_input).
  { split; [reflexivity|]. intros r Hr. vm_compute in Hr.
    destruct Hr as [<-|[<-|[<-|[<-|[<-|[]]]]]]; reflexivity. }
  split; [exact Hrect|].
  apply (prim_maze_has_no_passage sample_maze_input 5 5 true sample_rnd);
    [lia | lia | exact Hrect | exact sample_rnd_range].
Defined.


(** ** recursive: the dividing line is opened, the hole is not *)

Section DivideShape.

Import Maze.

Variables (g0 : Grid) (R C : Z).
Hypothesis HR : 1 <= R.
Hypothesis HC : 1 <= C.
Variable rnd : rng.

(** The grid after the loop of [divide] over the cells [line i], for [i] in
    [l], that skips [hole]. *)
Definition opened (line : Z -> pos) (hole : Z) (l : list Z) (g : Grid) : Grid :=
  fold_left (fun g i => if i =? hole then g else mark false (line i) g) l g.


Lemma valid_opened (line : Z -> pos) (hole : Z) (l : list Z) (g : Grid) (p : pos) :
  valid (opened line hole l g) p <-> valid g p.
Proof.
  unfold opened. revert g. induction l as [|i l IH]; intros g; cbn [fold_left]; [tauto|].
  rewrite IH. destruct (i =? hole); [tauto | apply valid_mark].
Qed.





Lemma random_floor_returns (n : Q) (st : mstate) :
  random_floor rnd n st =
  Returned (Qfloor (rnd (m_next st) * n), mkM (m_grid st) (S (m_next st))).
Proof. reflexivity. Qed.



End DivideShape.




(* ================================================================== *)
(** * Mazes carved between the cells with even coordinates *)
(* ================================================================== *)

(** [binarytree] and [sidewinder] open every cell with an even row and an
    even column and, between two of them, the cell in the middle.  The
    classes of the spanning-tree procedure describe what they build: a
    passage joins two classes, and the graph of the open cells is a forest
    as long as no passage joins two cells of one class. *)

Lemma tree_at_ext (N N' : pos -> Prop) (cls : pos -> Z) (r : pos) (d : pos -> Z) :
  (forall x, N x <-> N' x) -> tree_at N cls r d -> tree_at N' cls r d.
Proof.
  intros HN [H0 H]. split; [assumption|].
  intros x Hx Hc. apply HN in Hx. destruct (H x Hx Hc) as (H1 & H2 & H3 & H4).
  split; [assumption|]. split; [assumption|]. split.
  - intros Hne. destruct (H3 Hne) as (y & Hy & Ha & Hd).
    exists y. split; [apply HN; assumption | split; assumption].
  - intros y Hy Ha. apply HN in Hy. destruct (H4 y Hy Ha) as [Hd | [Hd Hu]].
    + left. assumption.
    + right. split; [assumption|]. intros z Hz. apply Hu. apply HN. assumption.
Qed.

Lemma forest_ext (N N' : pos -> Prop) (cls : pos -> Z) :
  (forall x, N x <-> N' x) -> forest N cls -> forest N' cls.
Proof.
  intros HN [H1 H2]. split.
  - intros x y Hx Hy. apply H1; apply HN; assumption.
  - intros r Hr. apply HN in Hr. destruct (H2 r Hr) as [d Hd].
    exists d. apply (tree_at_ext N N'); assumption.
Qed.

Section Carving.

Variable g0 : Grid.
Variables R C : Z.
Hypothesis HR : 1 <= R.
Hypothesis HC : 1 <= C.
Hypothesis Hflags : forall p n, grid_get g0 p = Some n -> Maze.flagged n = true ->
                                Z.even (fst p) = true /\ Z.even (snd p) = true.

Lemma kinv_open_ext (g g' : Grid) (rep : Z -> Z) :
  kinv g0 R C g rep -> rect R C g' -> maze_inv g0 g' ->
  (forall p, open g' p <-> open g p) -> kinv g0 R C g' rep.
Proof.
  intros [K1 K2 K3 K4 K5] Hr Hm Ho. constructor; try assumption.
  - apply (forest_ext (knode R C g)); [|assumption].
    intros x. unfold knode. rewrite Ho. tauto.
  - intros p Hp. apply K4. apply Ho. assumption.
  - intros x y Hx Hnl Hy Ha. apply Ho. apply (K5 x y); try assumption. apply Ho. assumption.
Qed.

Lemma kinv_mark_lattice (g : Grid) (rep : Z -> Z) (p : pos) :
  kinv g0 R C g rep -> lattice R C p -> kinv g0 R C (mark false p g) rep.
Proof.
  intros K Hp. pose proof K as [K1 K2 K3 K4 K5].
  assert (Ho : forall x, open (mark false p g) x <-> open g x \/ x = p).
  { intros x. apply (open_mark g0 R C Hflags); try assumption. apply Hp. }
  constructor.
  - apply rect_mark. assumption.
  - apply maze_inv_mark. assumption.
  - apply (forest_ext (knode R C g)); [|assumption].
    intros x. unfold knode. rewrite Ho. split; [tauto|].
    intros [H | [H | ->]]; auto.
  - intros x Hx. apply Ho in Hx. destruct Hx as [Hx | ->]; [apply K4; assumption|].
    left. apply Hp.
  - intros x y Hx Hnl Hy Ha. apply Ho. left. apply Ho in Hx.
    destruct Hx as [Hx | ->]; [|contradiction].
    apply (K5 x y); assumption.
Qed.

(** The cells with even coordinates, row by row. *)
Definition lattice_cells : list pos :=
  flat_map (fun r => map (fun c => (r, c)) (Maze.evens C)) (Maze.evens R).

Lemma In_lattice_cells (p : pos) : In p lattice_cells <-> lattice R C p.
Proof.
  unfold lattice_cells, lattice. rewrite in_flat_map, inside_iff. split.
  - intros (r & Hr & Hp). apply in_map_iff in Hp. destruct Hp as (c & <- & Hc).
    apply In_evens in Hr, Hc. cbn [fst snd]. tauto.
  - intros ((H1 & H2) & H3 & H4). exists (fst p). split; [apply In_evens; tauto|].
    apply in_map_iff. exists (snd p). split; [destruct p; reflexivity | apply In_evens; tauto].
Qed.

Lemma kinv_mark_all (l : list pos) (rep : Z -> Z) :
  (forall p, In p l -> lattice R C p) ->
  forall g, kinv g0 R C g rep ->
  let g' := fold_left (fun g p => mark false p g) l g in
  kinv g0 R C g' rep /\ forall x, open g' x <-> open g x \/ In x l.
Proof.
  induction l as [|p l IH]; intros Hl g K; cbn [fold_left In].
  - split; [assumption | intros x; tauto].
  - assert (Hp : lattice R C p) by (apply Hl; left; reflexivity).
    destruct (IH (fun q Hq => Hl q (or_intror Hq)) (mark false p g)
                 (kinv_mark_lattice g rep p K Hp)) as [K' Ho].
    split; [assumption|]. intros x. rewrite Ho.
    rewrite (open_mark g0 R C Hflags g p x (k_rect _ _ _ _ _ K) (k_minv _ _ _ _ _ K) (proj1 Hp)).
    intuition congruence.
Qed.

(** A grid is carved when, with every cell with even coordinates opened, it
    satisfies the invariant of the spanning-tree procedure. *)
Definition carved (g : Grid) (rep : Z -> Z) : Prop :=
  rect R C g /\ maze_inv g0 g /\
  exists gv, (forall p, open gv p <-> open g p \/ lattice R C p) /\ kinv g0 R C gv rep.

Lemma carved_init (g : Grid) :
  rect R C g -> maze_inv g0 g -> (forall q, Maze.inside (R, C) q = true -> filled g q) ->
  carved g (fun i => i).
Proof.
  intros Hr Hm Hf. split; [assumption|]. split; [assumption|].
  pose proof (kinv_init g0 R C HR HC Hflags g Hr Hm Hf) as K.
  destruct (kinv_mark_all lattice_cells (fun i => i)
              (fun p Hp => proj1 (In_lattice_cells p) Hp) g K) as [K' Ho].
  eexists. split; [|exact K'].
  intros p. rewrite Ho, In_lattice_cells. tauto.
Qed.

Lemma carved_cell (g : Grid) (rep : Z -> Z) (x : pos) :
  carved g rep -> lattice R C x -> carved (mark false x g) rep.
Proof.
  intros (Hr & Hm & gv & Ho & K) Hx.
  split; [apply rect_mark; assumption|]. split; [apply maze_inv_mark; assumption|].
  exists gv. split; [|assumption]. intros p. rewrite Ho.
  rewrite (open_mark g0 R C Hflags g x p Hr Hm (proj1 Hx)).
  split; [tauto|]. intros [[H | ->] | H]; auto.
Qed.

Lemma carved_edge (g : Grid) (rep : Z -> Z) (e : Maze.edge) :
  carved g rep -> good_edge R C e ->
  rep (cell_id C (fst e)) <> rep (cell_id C (snd e)) ->
  carved (mark false (mid e) g)
         (merge rep (rep (cell_id C (fst e))) (rep (cell_id C (snd e)))).
Proof.
  intros (Hr & Hm & gv & Ho & K) He Hne.
  split; [apply rect_mark; assumption|]. split; [apply maze_inv_mark; assumption|].
  exists (open_edge e gv). split; [|apply kinv_step; assumption].
  intros p.
  rewrite (open_open_edge g0 R C Hflags gv e p (k_rect _ _ _ _ _ K) (k_minv _ _ _ _ _ K) He).
  rewrite Ho.
  rewrite (open_mark g0 R C Hflags g (mid e) p Hr Hm (proj1 (proj2 (proj2 (good_edge_mid R C e He))))).
  destruct He as (H1 & H2 & _). split; [|tauto].
  intros [H | [-> | [-> | ->]]]; tauto.
Qed.

Lemma carved_odd (g : Grid) (rep : Z -> Z) (p : pos) :
  carved g rep -> open g p -> Z.even (fst p) = true \/ Z.even (snd p) = true.
Proof.
  intros (Hr & Hm & gv & Ho & K) Hp. apply (k_odd _ _ _ _ _ K). apply Ho. left. assumption.
Qed.

Lemma carved_perfect (g : Grid) (rep : Z -> Z) :
  carved g rep -> (forall z, lattice R C z -> open g z) ->
  (forall e, good_edge R C e -> rep (cell_id C (fst e)) = rep (cell_id C (snd e))) ->
  perfect_maze g.
Proof.
  intros (Hr & Hm & gv & Ho & K) Hl Hj.
  apply (kinv_perfect g0 R C g rep); [|assumption].
  apply (kinv_open_ext gv); try assumption.
  intros p. rewrite Ho. split; [tauto|]. intros [H | H]; [assumption | apply Hl; assumption].
Qed.

End Carving.


(** ** binarytree *)

(** The rule for a loop whose invariant depends on the index. *)
Lemma hoare_for_each_idx {A : Type} (J : nat -> Maze.mstate -> Prop) (l : list A)
      (body : A -> Maze.M unit) :
  forall i : nat,
  (forall k x, nth_error l k = Some x ->
               hoare (J (i + k)%nat) (body x) (fun _ => J (S (i + k)))) ->
  hoare (J i) (Maze.for_each l body) (fun _ => J (i + length l)%nat).
Proof.
  induction l as [|x l IH]; intros i H; cbn [Maze.for_each length].
  - apply hoare_ret. intros st Hst. rewrite Nat.add_0_r. assumption.
  - eapply hoare_bind.
    + apply (hoare_conseq _ (J (i + 0)%nat) _ _ (fun _ => J (S (i + 0)))).
      * apply (H 0%nat x). reflexivity.
      * intros st Hst. rewrite Nat.add_0_r. assumption.
      * intros a st Hst. exact Hst.
    + intros u. rewrite Nat.add_0_r.
      replace (i + S (length l))%nat with (S i + length l)%nat by lia.
      apply IH. intros k y Hk.
      replace (S i + k)%nat with (i + S k)%nat by lia.
      apply H. exact Hk.
Qed.

Lemma hoare_mark (P : Grid -> Prop) (b : bool) (p : pos) :
  (forall g, P g -> valid g p) ->
  hoare (fun st => P (Maze.m_grid st)) (Maze.set_unless_flagged b p)
        (fun _ st => exists g, P g /\ Maze.m_grid st = mark b p g).
Proof.
  intros H st Hst. exists tt, (Maze.mkM (mark b p (Maze.m_grid st)) (Maze.m_next st)).
  split; [apply set_unless_flagged_returns; auto|].
  exists (Maze.m_grid st). split; [assumption | reflexivity].
Qed.

Lemma hoare_maybe_update_grid (P : Grid -> Prop) (onUpdate : bool) (rnd : Maze.rng) :
  hoare (fun st => P (Maze.m_grid st)) (Maze.maybe_update onUpdate rnd)
        (fun _ st => P (Maze.m_grid st)).
Proof.
  intros st Hst. destruct (maybe_update_returns rnd onUpdate st) as [k E].
  exists tt. eexists. split; [exact E | exact Hst].
Qed.

Lemma length_evens (n : Z) : 0 <= n -> n <= 2 * Z.of_nat (length (Maze.evens n)).
Proof.
  intros Hn. unfold Maze.evens. rewrite length_map, length_seq.
  rewrite Z2Nat.id by (apply Z.div_pos; lia).
  pose proof (Z.div_mod (n + 1) 2 ltac:(lia)) as H1.
  pose proof (Z.mod_pos_bound (n + 1) 2 ltac:(lia)) as H2. lia.
Qed.

Section BinaryShape.

Variable g0 : Grid.
Variables R C : Z.
Hypothesis HR : 1 <= R.
Hypothesis HC : 1 <= C.
Variable rnd : Maze.rng.
Hypothesis Hrnd : forall i, (0 <= rnd i)%Q /\ (rnd i < 1)%Q.
Hypothesis Hflags : forall p n, grid_get g0 p = Some n -> Maze.flagged n = true ->
                                Z.even (fst p) = true /\ Z.even (snd p) = true.

Lemma lattice_iff (p : pos) :
  lattice R C p <->
  (0 <= fst p < R /\ 0 <= snd p < C) /\ (exists a, fst p = 2 * a) /\ (exists b, snd p = 2 * b).
Proof.
  unfold lattice. rewrite inside_iff, !Z.even_spec. unfold Z.Even. tauto.
Qed.

Lemma lattice_north (r c : Z) : lattice R C (r, c) -> 0 < r -> lattice R C (r - 2, c).
Proof.
  rewrite !lattice_iff. cbn [fst snd]. intros (H & (a & Ha) & Hb) Hr.
  split; [lia|]. split; [exists (a - 1); lia | assumption].
Qed.

Lemma lattice_east (r c : Z) : lattice R C (r, c) -> c < C - 2 -> lattice R C (r, c + 2).
Proof.
  rewrite !lattice_iff. cbn [fst snd]. intros (H & Ha & (b & Hb)) Hc.
  split; [lia|]. split; [assumption | exists (b + 1); lia].
Qed.

Lemma merge_congr (rep : Z -> Z) (a b x y : Z) :
  rep x = rep y -> merge rep a b x = merge rep a b y.
Proof. unfold merge. intros ->. reflexivity. Qed.

(** The cells with even coordinates that the two loops have passed when
    they are at [(r, c)]. *)
Definition before (r c : Z) (z : pos) : Prop :=
  lattice R C z /\ (fst z < r \/ (fst z = r /\ snd z < c)).

Lemma before_next (r c : Z) (z : pos) :
  lattice R C (r, c) -> before r (c + 2) z <-> before r c z \/ z = (r, c).
Proof.
  intros Hl. unfold before. split.
  - intros [Hz H]. destruct H as [H | [H1 H2]]; [left; split; [assumption | left; assumption]|].
    pose proof (proj1 (lattice_iff _) Hl) as (_ & _ & (b & Hb)).
    pose proof (proj1 (lattice_iff _) Hz) as (_ & _ & (b' & Hb')).
    cbn [fst snd] in Hb.
    destruct (Z.eq_dec (snd z) c) as [E | E].
    + right. destruct z; cbn [fst snd] in *. congruence.
    + left. split; [assumption|]. right. lia.
  - intros [[Hz H] | ->]; [split; [assumption | lia]|].
    split; [assumption|]. cbn [fst snd]. lia.
Qed.

(** The invariant of the two loops at [(r, c)]: the cells passed are open;
    a class with two cells has only cells that were passed, or the cell
    [(r, c)]; the class of [(r, c)] lies in its row; and every cell passed
    that has a neighbour above or on its right is in the class of one of
    the two. *)
Record binv (r c : Z) (g : Grid) (rep : Z -> Z) : Prop := {
  b_carved : carved g0 R C g rep;
  b_open : forall z, before r c z -> open g z;
  b_new : forall x y, lattice R C x -> lattice R C y ->
            rep (cell_id C x) = rep (cell_id C y) -> x <> y ->
            before r c x \/ x = (r, c);
  b_row : lattice R C (r, c) ->
          forall x, lattice R C x -> rep (cell_id C x) = rep (cell_id C (r, c)) -> fst x = r;
  b_link : forall z, before r c z -> 0 < fst z \/ snd z < C - 2 ->
             exists w, lattice R C w /\
               (w = (fst z - 2, snd z) \/ w = (fst z, snd z + 2)) /\
               rep (cell_id C z) = rep (cell_id C w)
}.

Lemma binv_init (g : Grid) :
  carved g0 R C g (fun i => i) -> binv 0 0 g (fun i => i).
Proof.
  intros Hc.
  assert (Hno : forall z, ~ before 0 0 z).
  { intros z [Hz H]. apply lattice_iff in Hz. lia. }
  constructor; try assumption.
  - intros z Hz. destruct (Hno z Hz).
  - intros x y Hx Hy E Hne. contradiction Hne.
    apply (cell_id_inj R C HR HC); [apply Hx | apply Hy | assumption].
  - intros H0 x Hx E.
    assert (x = (0, 0)) as ->; [|reflexivity].
    apply (cell_id_inj R C HR HC); [apply Hx | apply H0 | assumption].
  - intros z Hz. destruct (Hno z Hz).
Qed.

Lemma binv_next_row (r c : Z) (g : Grid) (rep : Z -> Z) :
  binv r c g rep -> C <= c -> Z.even r = true -> binv (r + 2) 0 g rep.
Proof.
  intros [B1 B2 B3 B4 B5] Hc Her.
  apply Z.even_spec in Her. destruct Her as [a Ha].
  assert (Hb : forall z, before (r + 2) 0 z <-> before r c z).
  { intros z. unfold before. split; intros [Hz H]; (split; [assumption|]);
      pose proof (proj1 (lattice_iff _) Hz) as (Hin & (a' & Ha') & _); lia. }
  assert (Hcur : forall x, lattice R C x -> x <> (r, c)).
  { intros x Hx ->. apply lattice_iff in Hx. cbn [fst snd] in Hx. lia. }
  constructor; try assumption.
  - intros z Hz. apply B2, Hb, Hz.
  - intros x y Hx Hy E Hne. left. apply Hb.
    destruct (B3 x y Hx Hy E Hne) as [H | H]; [assumption|].
    destruct (Hcur x Hx H).
  - intros Hl x Hx E. destruct (pos_eq_dec x (r + 2, 0)) as [-> | Hne]; [reflexivity|].
    exfalso. destruct (B3 (r + 2, 0) x Hl Hx (eq_sym E) (fun H => Hne (eq_sym H))) as [[_ H] | H].
    + cbn [fst snd] in H. lia.
    + injection H. lia.
  - intros z Hz. apply B5, Hb, Hz.
Qed.

Lemma binv_cell (r c : Z) (g : Grid) (rep : Z -> Z) :
  binv r c g rep -> lattice R C (r, c) ->
  carved g0 R C (mark false (r, c) g) rep /\
  forall z, before r (c + 2) z -> open (mark false (r, c) g) z.
Proof.
  intros [B1 B2 B3 B4 B5] Hl. split; [apply carved_cell; assumption|].
  intros z Hz. destruct B1 as (Hr & Hm & _).
  apply (open_mark g0 R C Hflags g (r, c) z Hr Hm (proj1 Hl)).
  apply (before_next r c z Hl) in Hz. destruct Hz as [Hz | Hz]; [left; apply B2; assumption | right; assumption].
Qed.

Lemma binv_step_none (r c : Z) (g : Grid) (rep : Z -> Z) :
  binv r c g rep -> lattice R C (r, c) -> ~ 0 < r -> ~ c < C - 2 ->
  binv r (c + 2) (mark false (r, c) g) rep.
Proof.
  intros B Hl Hr Hc. destruct (binv_cell r c g rep B Hl) as [Hcv Hop].
  destruct B as [B1 B2 B3 B4 B5]. constructor; try assumption.
  - intros x y Hx Hy E Hne. left. apply (before_next r c x Hl). eapply B3; eassumption.
  - intros Hn. apply lattice_iff in Hn. cbn [fst snd] in Hn. lia.
  - intros z Hz Hnb. apply (before_next r c z Hl) in Hz. destruct Hz as [Hz | ->].
    + apply B5; assumption.
    + cbn [fst snd] in Hnb. lia.
Qed.

Lemma binv_step_north (r c : Z) (g : Grid) (rep : Z -> Z) :
  binv r c g rep -> lattice R C (r, c) -> 0 < r ->
  exists rep', binv r (c + 2) (mark false ((r + (r - 2)) / 2, (c + c) / 2)
                                    (mark false (r, c) g)) rep'.
Proof.
  intros B Hl Hr. destruct (binv_cell r c g rep B Hl) as [Hcv Hop].
  destruct B as [B1 B2 B3 B4 B5].
  pose proof (lattice_north r c Hl Hr) as Hv.
  set (e := ((r - 2, c), (r, c)) : Maze.edge).
  assert (He : good_edge R C e).
  { split; [exact Hv|]. split; [exact Hl|]. left. unfold e. cbn [fst snd]. f_equal. lia. }
  assert (Hmid : ((r + (r - 2)) / 2, (c + c) / 2) = mid e).
  { unfold mid, e. cbn [fst snd]. f_equal. f_equal. lia. }
  assert (Hne : rep (cell_id C (r - 2, c)) <> rep (cell_id C (r, c))).
  { intros E. pose proof (B4 Hl (r - 2, c) Hv E) as H. cbn [fst snd] in H. lia. }
  exists (merge rep (rep (cell_id C (fst e))) (rep (cell_id C (snd e)))).
  rewrite Hmid. cbn [fst snd e].
  assert (Hfresh : lattice R C (r, c + 2) -> forall y, lattice R C y -> y <> (r, c + 2) ->
                   rep (cell_id C y) <> rep (cell_id C (r, c + 2))).
  { intros Hn y Hy Hyn E.
    destruct (B3 (r, c + 2) y Hn Hy (eq_sym E) (fun H => Hyn (eq_sym H))) as [[_ H] | H].
    - cbn [fst snd] in H. lia.
    - injection H. lia. }
  constructor.
  - apply (carved_edge g0 R C Hflags _ rep e Hcv He Hne).
  - intros z Hz. destruct Hcv as (Hr1 & Hm1 & _).
    apply (open_mark g0 R C Hflags _ (mid e) z Hr1 Hm1
             (proj1 (proj2 (proj2 (good_edge_mid R C e He))))).
    left. apply Hop. assumption.
  - intros x y Hx Hy E Hxy. left. apply (before_next r c x Hl).
    unfold merge in E.
    destruct (Z.eqb_spec (rep (cell_id C x)) (rep (cell_id C (r, c)))) as [Ex | Ex].
    + destruct (pos_eq_dec x (r, c)) as [-> | Hn]; [right; reflexivity|].
      apply (B3 x (r, c)); assumption.
    + destruct (Z.eqb_spec (rep (cell_id C y)) (rep (cell_id C (r, c)))) as [Ey | Ey].
      * destruct (pos_eq_dec x (r - 2, c)) as [-> | Hn].
        -- left. split; [assumption|]. left. cbn [fst snd]. lia.
        -- apply (B3 x (r - 2, c)); assumption.
      * apply (B3 x y); assumption.
  - intros Hn x Hx E.
    destruct (pos_eq_dec x (r, c + 2)) as [-> | Hxn]; [reflexivity|]. exfalso.
    unfold merge in E.
    destruct (Z.eqb_spec (rep (cell_id C (r, c + 2))) (rep (cell_id C (r, c)))) as [En | En].
    { apply (Hfresh Hn (r, c) Hl); [intros H; injection H; lia | symmetry; assumption]. }
    destruct (Z.eqb_spec (rep (cell_id C x)) (rep (cell_id C (r, c)))) as [Ex | Ex].
    + apply (Hfresh Hn (r - 2, c) Hv); [intros H; injection H; lia | assumption].
    + apply (Hfresh Hn x Hx); assumption.
  - intros z Hz Hnb. apply (before_next r c z Hl) in Hz. destruct Hz as [Hz | ->].
    + destruct (B5 z Hz Hnb) as (w & Hw & Hwz & E).
      exists w. split; [assumption|]. split; [assumption|].
      apply merge_congr. assumption.
    + exists (r - 2, c). split; [assumption|]. split; [left; reflexivity|].
      cbn [fst snd]. unfold merge. rewrite Z.eqb_refl.
      destruct (Z.eqb_spec (rep (cell_id C (r - 2, c))) (rep (cell_id C (r, c)))) as [Ev | Ev];
        [contradiction | reflexivity].
Qed.

Lemma binv_step_east (r c : Z) (g : Grid) (rep : Z -> Z) :
  binv r c g rep -> lattice R C (r, c) -> c < C - 2 ->
  exists rep', binv r (c + 2) (mark false ((r + r) / 2, (c + (c + 2)) / 2)
                                    (mark false (r, c) g)) rep'.
Proof.
  intros B Hl Hc. destruct (binv_cell r c g rep B Hl) as [Hcv Hop].
  destruct B as [B1 B2 B3 B4 B5].
  pose proof (lattice_east r c Hl Hc) as Hn.
  set (e := ((r, c), (r, c + 2)) : Maze.edge).
  assert (He : good_edge R C e).
  { split; [exact Hl|]. split; [exact Hn|]. right. reflexivity. }
  assert (Hmid : ((r + r) / 2, (c + (c + 2)) / 2) = mid e) by reflexivity.
  assert (Hfresh : forall y, lattice R C y -> y <> (r, c + 2) ->
                   rep (cell_id C y) <> rep (cell_id C (r, c + 2))).
  { intros y Hy Hyn E.
    destruct (B3 (r, c + 2) y Hn Hy (eq_sym E) (fun H => Hyn (eq_sym H))) as [[_ H] | H].
    - cbn [fst snd] in H. lia.
    - injection H. lia. }
  assert (Hcn : (r, c) <> (r, c + 2)) by (intros H; injection H; lia).
  pose proof (Hfresh (r, c) Hl Hcn) as Hne.
  exists (merge rep (rep (cell_id C (fst e))) (rep (cell_id C (snd e)))).
  rewrite Hmid. cbn [fst snd e].
  constructor.
  - apply (carved_edge g0 R C Hflags _ rep e Hcv He Hne).
  - intros z Hz. destruct Hcv as (Hr1 & Hm1 & _).
    apply (open_mark g0 R C Hflags _ (mid e) z Hr1 Hm1
             (proj1 (proj2 (proj2 (good_edge_mid R C e He))))).
    left. apply Hop. assumption.
  - intros x y Hx Hy E Hxy.
    destruct (pos_eq_dec x (r, c + 2)) as [-> | Hxn]; [right; reflexivity|].
    left. apply (before_next r c x Hl).
    unfold merge in E.
    destruct (Z.eqb_spec (rep (cell_id C x)) (rep (cell_id C (r, c + 2)))) as [Ex | Ex];
      [destruct (Hfresh x Hx Hxn Ex)|].
    destruct (Z.eqb_spec (rep (cell_id C y)) (rep (cell_id C (r, c + 2)))) as [Ey | Ey].
    + destruct (pos_eq_dec x (r, c)) as [-> | Hn']; [right; reflexivity|].
      apply (B3 x (r, c)); assumption.
    + apply (B3 x y); assumption.
  - intros _ x Hx E.
    destruct (pos_eq_dec x (r, c + 2)) as [-> | Hxn]; [reflexivity|].
    unfold merge in E. rewrite Z.eqb_refl in E.
    destruct (Z.eqb_spec (rep (cell_id C x)) (rep (cell_id C (r, c + 2)))) as [Ex | Ex];
      [destruct (Hfresh x Hx Hxn Ex)|].
    apply (B4 Hl x Hx E).
  - intros z Hz Hnb. apply (before_next r c z Hl) in Hz. destruct Hz as [Hz | ->].
    + destruct (B5 z Hz Hnb) as (w & Hw & Hwz & E).
      exists w. split; [assumption|]. split; [assumption|].
      apply merge_congr. assumption.
    + exists (r, c + 2). split; [assumption|]. split; [right; reflexivity|].
      cbn [fst snd]. unfold merge. rewrite Z.eqb_refl.
      destruct (Z.eqb_spec (rep (cell_id C (r, c))) (rep (cell_id C (r, c + 2)))) as [Ev | Ev];
        [contradiction | reflexivity].
Qed.

(** When the loops have passed every row, the classes are one. *)
Lemma binv_joined (r c : Z) (g : Grid) (rep : Z -> Z) :
  binv r c g rep -> R <= r ->
  (forall z, lattice R C z -> open g z) /\
  forall e, good_edge R C e -> rep (cell_id C (fst e)) = rep (cell_id C (snd e)).
Proof.
  intros [B1 B2 B3 B4 B5] Hr.
  assert (Hall : forall z, lattice R C z -> before r c z).
  { intros z Hz. split; [assumption|]. apply lattice_iff in Hz. lia. }
  split; [intros z Hz; apply B2, Hall, Hz|].
  set (t := (0, 2 * ((C - 1) / 2))).
  assert (Ht : forall z, lattice R C z -> ~ (0 < fst z \/ snd z < C - 2) -> z = t).
  { intros z Hz Hn. apply lattice_iff in Hz. destruct Hz as (Hin & _ & (b & Hb)).
    destruct z as [zr zc]. cbn [fst snd] in *. unfold t. f_equal; [lia|].
    assert (H : (C - 1) / 2 = b); [|lia].
    symmetry. apply (Z.div_unique (C - 1) 2 b (C - 1 - 2 * b)); lia. }
  assert (Hroot : forall n z, lattice R C z -> fst z + (C - snd z) <= Z.of_nat n ->
                              rep (cell_id C z) = rep (cell_id C t)).
  { induction n as [|n IH]; intros z Hz Hm.
    - apply lattice_iff in Hz. lia.
    - destruct (Z_lt_dec 0 (fst z)) as [H1 | H1].
      + destruct (B5 z (Hall z Hz) (or_introl H1)) as (w & Hw & Hwz & E).
        rewrite E. apply IH; [assumption|].
        destruct Hwz as [-> | ->]; cbn [fst snd]; lia.
      + destruct (Z_lt_dec (snd z) (C - 2)) as [H2 | H2].
        * destruct (B5 z (Hall z Hz) (or_intror H2)) as (w & Hw & Hwz & E).
          rewrite E. apply IH; [assumption|].
          destruct Hwz as [-> | ->]; cbn [fst snd]; lia.
        * rewrite (Ht z Hz); [reflexivity | tauto]. }
  intros e (H1 & H2 & _).
  pose proof (proj1 (lattice_iff _) H1) as (Hi1 & _).
  pose proof (proj1 (lattice_iff _) H2) as (Hi2 & _).
  rewrite (Hroot (Z.to_nat (fst (fst e) + (C - snd (fst e)))) (fst e) H1) by lia.
  rewrite (Hroot (Z.to_nat (fst (snd e) + (C - snd (snd e)))) (snd e) H2) by lia.
  reflexivity.
Qed.

Lemma generateBinaryTreeMaze_perfect (onUpdate : bool) :
  hoare (minv g0 R C) (Maze.generateBinaryTreeMaze onUpdate rnd)
        (fun _ st => minv g0 R C st /\ perfect_maze (Maze.m_grid st) /\
                     (forall z, lattice R C z -> open (Maze.m_grid st) z) /\
                     (forall p, open (Maze.m_grid st) p ->
                                Z.even (fst p) = true \/ Z.even (snd p) = true)).
Proof.
  unfold Maze.generateBinaryTreeMaze. eapply hoare_bind; [apply (hoare_dims_minv g0 R C HR)|].
  intros d. eapply hoare_conseq with (P' := fun st => d = (R, C) /\ minv g0 R C st);
    [|auto|intros a st H; exact H].
  apply hoare_pre. intros ->. cbn [fst snd].
  eapply hoare_bind; [apply (fill_walls_filled g0 R C HR)|]. intros u.
  set (J := fun (k : nat) (st : Maze.mstate) =>
              exists rep, binv (2 * Z.of_nat k) 0 (Maze.m_grid st) rep).
  eapply hoare_conseq with (P' := J 0%nat)
                           (Q' := fun _ => J (0 + length (Maze.evens R))%nat).
  - apply hoare_for_each_idx. intros kr r Hkr.
    pose proof (nth_error_evens R kr r Hkr) as Hr2.
    pose proof (proj1 (In_evens R r) (nth_error_In _ _ Hkr)) as [Hr Her].
    set (K := fun (k : nat) (st : Maze.mstate) =>
                exists rep, binv r (2 * Z.of_nat k) (Maze.m_grid st) rep).
    eapply hoare_conseq with (P' := K 0%nat)
                             (Q' := fun _ => K (0 + length (Maze.evens C))%nat).
    + apply hoare_for_each_idx. intros kc c Hkc.
      pose proof (nth_error_evens C kc c Hkc) as Hc2.
      pose proof (proj1 (In_evens C c) (nth_error_In _ _ Hkc)) as [Hc Hec].
      assert (Hl : lattice R C (r, c)).
      { split; [apply inside_iff; cbn [fst snd]; lia | split; assumption]. }
      unfold K. cbn [Nat.add]. replace (2 * Z.of_nat (S kc)) with (c + 2) by lia.
      rewrite <- Hc2.
      eapply hoare_bind.
      { apply (hoare_mark (fun g => exists rep, binv r c g rep)).
        intros g [rep B]. destruct (b_carved _ _ _ _ B) as (Hrect & _).
        apply (rect_valid R C g); [assumption | apply Hl]. }
      intros u1.
      set (neighbors := (if 0 <? r then [(r - 2, c)] else []) ++
                        (if c <? C - 2 then [(r, c + 2)] else [])).
      assert (Hnb : forall q, In q neighbors ->
                      (q = (r - 2, c) /\ 0 < r) \/ (q = (r, c + 2) /\ c < C - 2)).
      { intros q Hq. subst neighbors. apply in_app_or in Hq. destruct Hq as [Hq|Hq].
        - destruct (0 <? r) eqn:E; [|destruct Hq]. apply Z.ltb_lt in E.
          destruct Hq as [<-|[]]. left; auto.
        - destruct (c <? C - 2) eqn:E; [|destruct Hq]. apply Z.ltb_lt in E.
          destruct Hq as [<-|[]]. right; auto. }
      assert (Hnone : neighbors = [] -> ~ 0 < r /\ ~ c < C - 2).
      { subst neighbors. destruct (0 <? r) eqn:E1; [discriminate|].
        destruct (c <? C - 2) eqn:E2; [discriminate|].
        apply Z.ltb_ge in E1, E2. intros _. lia. }
      clearbody neighbors. destruct neighbors as [|q0 neighbors'] eqn:En.
      { apply hoare_ret. intros st (g & [rep B] & Eg).
        destruct (Hnone eq_refl) as [H1 H2].
        exists rep. rewrite Eg. apply binv_step_none; assumption. }
      rewrite <- En in *. clear Hnone.
      assert (Hlen : 0 < Z.of_nat (length neighbors)) by (rewrite En; cbn [length]; lia).
      set (P1 := fun g' : Grid => exists g, (exists rep, binv r c g rep) /\ g' = mark false (r, c) g).
      eapply hoare_bind.
      { apply (hoare_random_floor rnd Hrnd (fun st => P1 (Maze.m_grid st)) _
                 (fun k st => 0 <= k < Z.of_nat (length neighbors) /\ P1 (Maze.m_grid st)) Hlen).
        - intros st k Hst Hk. split; assumption. }
      intros i. apply hoare_pre. intros Hi.
      destruct (nth_z_Some neighbors i Hi) as (chosen & -> & Hch).
      assert (Hv1 : forall g p, P1 g -> Maze.inside (R, C) p = true -> valid g p).
      { intros g p (g1 & [rep B] & ->) Hp. apply valid_mark.
        destruct (b_carved _ _ _ _ B) as (Hrect & _).
        apply (rect_valid R C g1); assumption. }
      pose proof (proj1 (lattice_iff _) Hl) as (Hin & (kr' & Hkr') & (kc' & Hkc')).
      cbn [fst snd] in Hin, Hkr', Hkc'.
      destruct (Hnb chosen Hch) as [[-> Hpos]|[-> Hpos]]; cbn [fst snd].
      * apply hoare_midpoint.
        { replace (r + (r - 2)) with (2 * (r - 1)) by lia. rewrite Z.even_mul. reflexivity. }
        apply hoare_midpoint.
        { replace (c + c) with (2 * c) by lia. rewrite Z.even_mul. reflexivity. }
        eapply hoare_bind.
        { apply (hoare_mark P1). intros g Hg. apply (Hv1 g _ Hg).
          apply inside_iff. cbn [fst snd].
          replace (r + (r - 2)) with ((r - 1) * 2) by lia.
          replace (c + c) with (c * 2) by lia.
          rewrite !Z.div_mul by lia. lia. }
        intros u2.
        eapply hoare_conseq;
          [apply (hoare_maybe_update_grid (fun g => exists rep, binv r (c + 2) g rep))
          | | intros a st H; exact H].
        intros st (g' & (g & [rep B] & ->) & ->).
        apply (binv_step_north r c g rep B Hl Hpos).
      * apply hoare_midpoint.
        { replace (r + r) with (2 * r) by lia. rewrite Z.even_mul. reflexivity. }
        apply hoare_midpoint.
        { replace (c + (c + 2)) with (2 * (c + 1)) by lia. rewrite Z.even_mul. reflexivity. }
        eapply hoare_bind.
        { apply (hoare_mark P1). intros g Hg. apply (Hv1 g _ Hg).
          apply inside_iff. cbn [fst snd].
          replace (r + r) with (r * 2) by lia.
          replace (c + (c + 2)) with ((c + 1) * 2) by lia.
          rewrite !Z.div_mul by lia. lia. }
        intros u2.
        eapply hoare_conseq;
          [apply (hoare_maybe_update_grid (fun g => exists rep, binv r (c + 2) g rep))
          | | intros a st H; exact H].
        intros st (g' & (g & [rep B] & ->) & ->).
        apply (binv_step_east r c g rep B Hl Hpos).
    + intros st [rep B]. exists rep. cbn [Nat.add] in B. rewrite <- Hr2 in B. exact B.
    + intros a st [rep B]. exists rep. cbn [Nat.add] in *.
      replace (2 * Z.of_nat (S kr)) with (r + 2) by lia.
      apply (binv_next_row r _ _ _ B); [|assumption].
      apply length_evens. lia.
  - intros st [Hm Hf]. exists (fun i => i). apply binv_init.
    apply (carved_init g0 R C HR HC Hflags); [apply Hm | apply Hm | assumption].
  - intros a st [rep B]. cbn [Nat.add] in B.
    destruct (binv_joined _ _ _ _ B (length_evens R ltac:(lia))) as [Hopen Hj].
    pose proof (b_carved _ _ _ _ B) as Hcv.
    split; [split; apply Hcv|].
    split; [eapply carved_perfect; eassumption|].
    split; [assumption|].
    intros p. eapply carved_odd; eassumption.
Qed.

End BinaryShape.

(** For every stream of random numbers in [0, 1), the binary-tree procedure,
    run on a well-formed grid with at least one row and one column whose
    start and end cells, if any, have an even row and an even column,
    returns a perfect maze: any two open cells are joined by exactly one
    open path without repeated cell.  Every cell with an even row and an
    even column is open, no cell with an odd row and an odd column is, and
    a breadth-first search between two open cells finds a path. *)
Theorem binary_tree_maze_is_perfect (grid : Grid) (onUpdate : bool) (rnd : Maze.rng) :
  wf_grid grid -> 1 <= rows grid -> 1 <= cols grid ->
  (forall i, (0 <= rnd i)%Q /\ (rnd i < 1)%Q) ->
  (forall p n, grid_get grid p = Some n -> Maze.flagged n = true ->
               Z.even (fst p) = true /\ Z.even (snd p) = true) ->
  exists g', Maze.generateMaze grid MBinary onUpdate rnd = Returned g' /\
    perfect_maze g' /\
    (forall p, valid g' p -> Z.even (fst p) = true -> Z.even (snd p) = true -> open g' p) /\
    (forall p, open g' p -> Z.even (fst p) = true \/ Z.even (snd p) = true) /\
    forall p q speed, open g' p -> open g' q ->
      exists st r, bfs g' p q speed = Returned (st, r) /\ pathFound (stats r) = true.
Proof.
  intros Hwf HR HC Hrnd Hflags. unfold Maze.generateMaze. cbn [Maze.generator].
  pose proof (wf_grid_rect grid Hwf) as Hrect.
  destruct (generateBinaryTreeMaze_perfect grid (rows grid) (cols grid) HR HC rnd Hrnd Hflags
              onUpdate (Maze.mkM (map (map Maze.maze_copy) grid) 0))
    as (u & st & E & [Hr Hinv] & Hperf & Hlat & Hodd).
  { split; [apply rect_map; assumption | apply maze_inv_copy]. }
  rewrite E. exists (Maze.m_grid st). split; [reflexivity|]. split; [assumption|].
  split.
  { intros p Hv H1 H2. apply Hlat. split; [|split; assumption].
    apply (rect_valid _ _ _ p Hr). assumption. }
  split; [assumption|].
  intros p q speed Hp Hq.
  assert (Hin : valid_input (Maze.m_grid st) p q).
  { constructor; [|assumption|assumption].
    apply (wf_grid_maze grid _ (rows grid) (cols grid)); assumption. }
  destruct (bfs_correct (Maze.m_grid st) p q Hin speed) as ([st' r] & Hrun & Hpost).
  exists st', r. split; [assumption|].
  apply (found_not_failed _ _ _ _ _ Hpost). apply (Hperf p q Hp Hq).
Qed.

Lemma binary_tree_maze_is_perfect_witness :
  exists g', Maze.generateMaze sample_corner_input MBinary true sample_rnd = Returned g' /\
    perfect_maze g' /\
    (forall p, valid g' p -> Z.even (fst p) = true -> Z.even (snd p) = true -> open g' p) /\
    (forall p, open g' p -> Z.even (fst p) = true \/ Z.even (snd p) = true) /\
    forall p q speed, open g' p -> open g' q ->
      exists st r, bfs g' p q speed = Returned (st, r) /\ pathFound (stats r) = true.
Proof.
  apply (binary_tree_maze_is_perfect sample_corner_input true sample_rnd).
  - apply grid_okb_wf. vm_compute. reflexivity.
  - vm_compute. discriminate.
  - vm_compute. discriminate.
  - exact sample_rnd_range.
  - apply lattice_flagsb_sound. vm_compute. reflexivity.
Defined.


(** ** sidewinder *)

Section SidewinderShape.

Variable g0 : Grid.
Variables R C : Z.
Hypothesis HR : 1 <= R.
Hypothesis HC : 1 <= C.
Variable rnd : Maze.rng.
Hypothesis Hrnd : forall i, (0 <= rnd i)%Q /\ (rnd i < 1)%Q.
Hypothesis Hflags : forall p n, grid_get g0 p = Some n -> Maze.flagged n = true ->
                                Z.even (fst p) = true /\ Z.even (snd p) = true.

Lemma carved_cell_open (r c : Z) (g : Grid) (rep : Z -> Z) :
  carved g0 R C g rep -> (forall z, before R C r c z -> open g z) -> lattice R C (r, c) ->
  carved g0 R C (mark false (r, c) g) rep /\
  forall z, before R C r (c + 2) z -> open (mark false (r, c) g) z.
Proof.
  intros B1 B2 Hl. split; [apply carved_cell; assumption|].
  intros z Hz. destruct B1 as (Hr & Hm & _).
  apply (open_mark g0 R C Hflags g (r, c) z Hr Hm (proj1 Hl)).
  apply (before_next R C r c z Hl) in Hz.
  destruct Hz as [Hz | Hz]; [left; apply B2; assumption | right; assumption].
Qed.

(** The invariant of the two loops at [(r, c)] with the run starting at
    column [b]: the cells passed are open; a class with two cells has only
    cells that were passed, or the cell [(r, c)]; the cells of the run are
    in the class of [(r, c)], which has no cell outside the run; every
    other cell passed is in the class of [(0, 0)] if it is in the first
    row, and in the class of a cell two rows above it if it is not. *)
Record sinv (r c b : Z) (g : Grid) (rep : Z -> Z) : Prop := {
  s_carved : carved g0 R C g rep;
  s_open : forall z, before R C r c z -> open g z;
  s_new : forall x y, lattice R C x -> lattice R C y ->
            rep (cell_id C x) = rep (cell_id C y) -> x <> y ->
            before R C r c x \/ x = (r, c);
  s_run_in : lattice R C (r, c) ->
             forall x, lattice R C x -> rep (cell_id C x) = rep (cell_id C (r, c)) ->
                       fst x = r /\ b <= snd x;
  s_run : forall x, lattice R C x -> fst x = r -> b <= snd x < c ->
                    rep (cell_id C x) = rep (cell_id C (r, c));
  s_b : Z.even b = true /\ 0 <= b <= c;
  s_first : r = 0 -> c < C -> b = 0;
  s_end : C <= c -> b = c;
  s_link : forall z, before R C r c z -> ~ (fst z = r /\ b <= snd z) ->
             (fst z = 0 /\ rep (cell_id C z) = rep (cell_id C (0, 0))) \/
             exists w, lattice R C w /\ fst w = fst z - 2 /\
                       rep (cell_id C z) = rep (cell_id C w)
}.

Lemma sinv_init (g : Grid) :
  carved g0 R C g (fun i => i) -> sinv 0 0 0 g (fun i => i).
Proof.
  intros Hc.
  assert (Hno : forall z, ~ before R C 0 0 z).
  { intros z [Hz H]. apply lattice_iff in Hz. lia. }
  constructor; try assumption.
  - intros z Hz. destruct (Hno z Hz).
  - intros x y Hx Hy E Hne. contradiction Hne.
    apply (cell_id_inj R C HR HC); [apply Hx | apply Hy | assumption].
  - intros H0 x Hx E.
    assert (x = (0, 0)) as ->; [|cbn [fst snd]; lia].
    apply (cell_id_inj R C HR HC); [apply Hx | apply H0 | assumption].
  - intros x Hx H1 H2. lia.
  - split; [reflexivity | lia].
  - reflexivity.
  - lia.
  - intros z Hz. destruct (Hno z Hz).
Qed.

Lemma sinv_next_row (r c b : Z) (g : Grid) (rep : Z -> Z) :
  sinv r c b g rep -> C <= c -> 0 <= r -> Z.even r = true -> sinv (r + 2) 0 0 g rep.
Proof.
  intros [B1 B2 B3 B4 B5 B6 B7 B8 B9] Hc Hr0 Her.
  apply Z.even_spec in Her. destruct Her as [a Ha].
  assert (Hb : forall z, before R C (r + 2) 0 z <-> before R C r c z).
  { intros z. unfold before. split; intros [Hz H]; (split; [assumption|]);
      pose proof (proj1 (lattice_iff _ _ _) Hz) as (Hin & (a' & Ha') & _); lia. }
  assert (Hcur : forall x, lattice R C x -> x <> (r, c)).
  { intros x Hx ->. apply lattice_iff in Hx. cbn [fst snd] in Hx. lia. }
  assert (Hnew : forall x y, lattice R C x -> lattice R C y ->
            rep (cell_id C x) = rep (cell_id C y) -> x <> y -> before R C (r + 2) 0 x).
  { intros x y Hx Hy E Hne. apply Hb.
    destruct (B3 x y Hx Hy E Hne) as [H | H]; [assumption|].
    destruct (Hcur x Hx H). }
  constructor; try assumption.
  - intros z Hz. apply B2, Hb, Hz.
  - intros x y Hx Hy E Hne. left. apply (Hnew x y); assumption.
  - intros Hl x Hx E. destruct (pos_eq_dec x (r + 2, 0)) as [-> | Hne]; [cbn [fst snd]; lia|].
    exfalso.
    destruct (Hnew (r + 2, 0) x Hl Hx (eq_sym E) (fun H => Hne (eq_sym H))) as [_ H].
    cbn [fst snd] in H. lia.
  - intros x Hx H1 H2. lia.
  - split; [reflexivity | lia].
  - intros H. lia.
  - intros H. lia.
  - intros z Hz Hn. apply Hb in Hz. apply (B9 z Hz).
    intros [H1 H2]. rewrite (B8 Hc) in H2. destruct Hz as [Hz _].
    apply lattice_iff in Hz. lia.
Qed.

Lemma sinv_fresh (r c b : Z) (g : Grid) (rep : Z -> Z) :
  sinv r c b g rep -> lattice R C (r, c + 2) ->
  forall y, lattice R C y -> y <> (r, c + 2) ->
            rep (cell_id C y) <> rep (cell_id C (r, c + 2)).
Proof.
  intros B Hn y Hy Hyn E.
  destruct (s_new _ _ _ _ _ B (r, c + 2) y Hn Hy (eq_sym E) (fun H => Hyn (eq_sym H)))
    as [[_ H] | H].
  - cbn [fst snd] in H. lia.
  - injection H. lia.
Qed.

Lemma sinv_step_close (r c b : Z) (g : Grid) (rep : Z -> Z) :
  sinv r c b g rep -> lattice R C (r, c) -> r = 0 -> ~ c < C - 2 ->
  sinv r (c + 2) (c + 2) (mark false (r, c) g) rep.
Proof.
  intros B Hl Hr Hc. pose proof B as [B1 B2 B3 B4 B5 B6 B7 B8 B9].
  destruct (carved_cell_open r c g rep B1 B2 Hl) as [Hcv Hop].
  pose proof (proj1 (lattice_iff _ _ _) Hl) as (Hin & _ & (kc & Hkc)).
  cbn [fst snd] in Hin, Hkc.
  assert (Hb0 : b = 0) by (apply B7; lia).
  assert (Hrow : forall z, lattice R C z -> fst z = 0 -> snd z <= c ->
                           rep (cell_id C z) = rep (cell_id C (r, c))).
  { intros z Hz H1 H2. destruct (Z.eq_dec (snd z) c) as [E | E].
    - destruct z; cbn [fst snd] in *. subst. reflexivity.
    - apply B5; [assumption | lia|]. apply lattice_iff in Hz. lia. }
  constructor; try assumption.
  - intros x y Hx Hy E Hne. left. apply (before_next R C r c x Hl). eapply B3; eassumption.
  - intros Hn. apply lattice_iff in Hn. cbn [fst snd] in Hn. lia.
  - intros x Hx H1 H2. lia.
  - split; [|lia]. rewrite Z.even_add. destruct B6 as [_ _].
    replace c with (2 * kc) by lia. rewrite Z.even_mul. reflexivity.
  - intros H1 H2. lia.
  - intros _. reflexivity.
  - intros z Hz _. left.
    assert (Hz0 : fst z = 0 /\ snd z <= c).
    { apply (before_next R C r c z Hl) in Hz. destruct Hz as [[Hz H] | ->].
      - apply lattice_iff in Hz. lia.
      - cbn [fst snd]. lia. }
    split; [apply Hz0|].
    assert (Hz' : lattice R C z) by (apply Hz).
    rewrite (Hrow z Hz' (proj1 Hz0) (proj2 Hz0)).
    symmetry. apply Hrow; cbn [fst snd]; try lia.
    apply lattice_iff. cbn [fst snd]. split; [lia|]. split; exists 0; lia.
Qed.

Lemma sinv_step_east (r c b : Z) (g : Grid) (rep : Z -> Z) :
  sinv r c b g rep -> lattice R C (r, c) -> c < C - 2 ->
  exists rep', sinv r (c + 2) b (mark false (r, c + 1) (mark false (r, c) g)) rep'.
Proof.
  intros B Hl Hc. pose proof B as [B1 B2 B3 B4 B5 B6 B7 B8 B9].
  destruct (carved_cell_open r c g rep B1 B2 Hl) as [Hcv Hop].
  pose proof (lattice_east R C r c Hl Hc) as Hn.
  pose proof (proj1 (lattice_iff _ _ _) Hl) as (Hin & (kr & Hkr) & (kc & Hkc)).
  cbn [fst snd] in Hin, Hkr, Hkc.
  set (e := ((r, c), (r, c + 2)) : Maze.edge).
  assert (He : good_edge R C e).
  { split; [exact Hl|]. split; [exact Hn|]. right. reflexivity. }
  assert (Hmid : (r, c + 1) = mid e).
  { unfold mid, e. cbn [fst snd].
    replace (r + r) with (r * 2) by lia. replace (c + (c + 2)) with ((c + 1) * 2) by lia.
    rewrite !Z.div_mul by lia. reflexivity. }
  pose proof (sinv_fresh r c b g rep B Hn) as Hfresh.
  assert (Hcn : (r, c) <> (r, c + 2)) by (intros H; injection H; lia).
  pose proof (Hfresh (r, c) Hl Hcn) as Hne.
  exists (merge rep (rep (cell_id C (fst e))) (rep (cell_id C (snd e)))).
  rewrite Hmid. cbn [fst snd e].
  constructor.
  - apply (carved_edge g0 R C Hflags _ rep e Hcv He Hne).
  - intros z Hz. destruct Hcv as (Hr1 & Hm1 & _).
    apply (open_mark g0 R C Hflags _ (mid e) z Hr1 Hm1
             (proj1 (proj2 (proj2 (good_edge_mid R C e He))))).
    left. apply Hop. assumption.
  - intros x y Hx Hy E Hxy.
    destruct (pos_eq_dec x (r, c + 2)) as [-> | Hxn]; [right; reflexivity|].
    left. apply (before_next R C r c x Hl).
    unfold merge in E.
    destruct (Z.eqb_spec (rep (cell_id C x)) (rep (cell_id C (r, c + 2)))) as [Ex | Ex];
      [destruct (Hfresh x Hx Hxn Ex)|].
    destruct (Z.eqb_spec (rep (cell_id C y)) (rep (cell_id C (r, c + 2)))) as [Ey | Ey].
    + destruct (pos_eq_dec x (r, c)) as [-> | Hn']; [right; reflexivity|].
      left. destruct (B3 x (r, c) Hx Hl E Hn') as [H | H]; [assumption | contradiction].
    + apply (B3 x y); assumption.
  - intros _ x Hx E.
    destruct (pos_eq_dec x (r, c + 2)) as [-> | Hxn]; [cbn [fst snd]; lia|].
    unfold merge in E. rewrite Z.eqb_refl in E.
    destruct (Z.eqb_spec (rep (cell_id C x)) (rep (cell_id C (r, c + 2)))) as [Ex | Ex];
      [destruct (Hfresh x Hx Hxn Ex)|].
    apply (B4 Hl x Hx E).
  - intros x Hx H1 H2.
    assert (Ex : rep (cell_id C x) = rep (cell_id C (r, c))).
    { destruct (Z.eq_dec (snd x) c) as [E | E].
      - destruct x; cbn [fst snd] in *. subst. reflexivity.
      - apply B5; [assumption | assumption|].
        pose proof (proj1 (lattice_iff _ _ _) Hx) as (_ & _ & (kx & Hkx)). lia. }
    unfold merge. rewrite Z.eqb_refl.
    destruct (Z.eqb_spec (rep (cell_id C x)) (rep (cell_id C (r, c + 2)))) as [Ex' | Ex'];
      [reflexivity | assumption].
  - destruct B6 as [H1 H2]. split; [assumption | lia].
  - intros H1 H2. apply B7; [assumption | lia].
  - intros H. lia.
  - intros z Hz Hnr.
    apply (before_next R C r c z Hl) in Hz. destruct Hz as [Hz | ->].
    + destruct (B9 z Hz Hnr) as [[H1 H2] | (w & Hw & Hwz & E)].
      * left. split; [assumption | apply merge_congr; assumption].
      * right. exists w. split; [assumption|]. split; [assumption|].
        apply merge_congr. assumption.
    + contradiction Hnr. cbn [fst snd]. split; [reflexivity | apply B6].
Qed.

Lemma sinv_step_north (r c b rc : Z) (g : Grid) (rep : Z -> Z) :
  sinv r c b g rep -> lattice R C (r, c) -> 0 < r -> b <= rc <= c -> Z.even rc = true ->
  exists rep', sinv r (c + 2) (c + 2) (mark false (r - 1, rc) (mark false (r, c) g)) rep'.
Proof.
  intros B Hl Hr Hrc Herc. pose proof B as [B1 B2 B3 B4 B5 B6 B7 B8 B9].
  destruct (carved_cell_open r c g rep B1 B2 Hl) as [Hcv Hop].
  pose proof (proj1 (lattice_iff _ _ _) Hl) as (Hin & (kr & Hkr) & (kc & Hkc)).
  cbn [fst snd] in Hin, Hkr, Hkc.
  apply Z.even_spec in Herc. destruct Herc as [krc Hkrc].
  assert (Hx0 : lattice R C (r, rc)).
  { apply lattice_iff. cbn [fst snd]. split; [lia|]. split; eexists; eassumption. }
  pose proof (lattice_north R C r rc Hx0 Hr) as Hv.
  set (e := ((r - 2, rc), (r, rc)) : Maze.edge).
  assert (He : good_edge R C e).
  { split; [exact Hv|]. split; [exact Hx0|]. left. unfold e. cbn [fst snd]. f_equal. lia. }
  assert (Hmid : (r - 1, rc) = mid e).
  { unfold mid, e. cbn [fst snd].
    replace (r - 2 + r) with ((r - 1) * 2) by lia. replace (rc + rc) with (rc * 2) by lia.
    rewrite !Z.div_mul by lia. reflexivity. }
  assert (Ex0 : rep (cell_id C (r, rc)) = rep (cell_id C (r, c))).
  { destruct (Z.eq_dec rc c) as [-> | E]; [reflexivity|].
    apply B5; [assumption | reflexivity | cbn [fst snd]; lia]. }
  assert (Hne : rep (cell_id C (r - 2, rc)) <> rep (cell_id C (r, rc))).
  { rewrite Ex0. intros E. pose proof (B4 Hl (r - 2, rc) Hv E) as [H _].
    cbn [fst snd] in H. lia. }
  exists (merge rep (rep (cell_id C (fst e))) (rep (cell_id C (snd e)))).
  rewrite Hmid. cbn [fst snd e]. rewrite Ex0. rewrite Ex0 in Hne.
  assert (Hfresh : lattice R C (r, c + 2) -> forall y, lattice R C y -> y <> (r, c + 2) ->
                   rep (cell_id C y) <> rep (cell_id C (r, c + 2))).
  { apply (sinv_fresh r c b g rep B). }
  constructor.
  - rewrite <- Ex0. rewrite <- Ex0 in Hne.
    apply (carved_edge g0 R C Hflags _ rep e Hcv He Hne).
  - intros z Hz. destruct Hcv as (Hr1 & Hm1 & _).
    apply (open_mark g0 R C Hflags _ (mid e) z Hr1 Hm1
             (proj1 (proj2 (proj2 (good_edge_mid R C e He))))).
    left. apply Hop. assumption.
  - intros x y Hx Hy E Hxy. left. apply (before_next R C r c x Hl).
    unfold merge in E.
    destruct (Z.eqb_spec (rep (cell_id C x)) (rep (cell_id C (r, c)))) as [Ex | Ex].
    + destruct (pos_eq_dec x (r, c)) as [-> | Hn]; [right; reflexivity|].
      apply (B3 x (r, c)); assumption.
    + destruct (Z.eqb_spec (rep (cell_id C y)) (rep (cell_id C (r, c)))) as [Ey | Ey].
      * destruct (pos_eq_dec x (r - 2, rc)) as [-> | Hn].
        -- left. split; [assumption|]. left. cbn [fst snd]. lia.
        -- left. destruct (B3 x (r - 2, rc) Hx Hv E Hn) as [H | ->]; [assumption|].
           contradiction Ex. reflexivity.
      * apply (B3 x y); assumption.
  - intros Hn x Hx E.
    destruct (pos_eq_dec x (r, c + 2)) as [-> | Hxn]; [cbn [fst snd]; lia|]. exfalso.
    unfold merge in E.
    destruct (Z.eqb_spec (rep (cell_id C (r, c + 2))) (rep (cell_id C (r, c)))) as [En | En].
    { apply (Hfresh Hn (r, c) Hl); [intros H; injection H; lia | symmetry; assumption]. }
    destruct (Z.eqb_spec (rep (cell_id C x)) (rep (cell_id C (r, c)))) as [Ex | Ex].
    + apply (Hfresh Hn (r - 2, rc) Hv); [intros H; injection H; lia | assumption].
    + apply (Hfresh Hn x Hx); assumption.
  - intros x Hx H1 H2. lia.
  - split; [|lia]. replace (c + 2) with (2 * (kc + 1)) by lia.
    rewrite Z.even_mul. reflexivity.
  - intros H. lia.
  - intros _. reflexivity.
  - intros z Hz _. apply (before_next R C r c z Hl) in Hz.
    assert (Hv' : merge rep (rep (cell_id C (r - 2, rc))) (rep (cell_id C (r, c)))
                        (cell_id C (r - 2, rc)) = rep (cell_id C (r - 2, rc))).
    { unfold merge.
      destruct (Z.eqb_spec (rep (cell_id C (r - 2, rc))) (rep (cell_id C (r, c))));
        [contradiction | reflexivity]. }
    assert (Hrun : rep (cell_id C z) = rep (cell_id C (r, c)) ->
                   fst z = r ->
                   exists w, lattice R C w /\ fst w = fst z - 2 /\
                     merge rep (rep (cell_id C (r - 2, rc))) (rep (cell_id C (r, c)))
                           (cell_id C z) =
                     merge rep (rep (cell_id C (r - 2, rc))) (rep (cell_id C (r, c)))
                           (cell_id C w)).
    { intros Ez Hfz. exists (r - 2, rc). split; [assumption|].
      split; [cbn [fst snd]; lia|]. rewrite Hv'.
      unfold merge. rewrite Ez, Z.eqb_refl. reflexivity. }
    destruct Hz as [Hz | ->].
    + destruct (Z.eq_dec (fst z) r) as [Hfz | Hfz].
      * destruct (Z_le_dec b (snd z)) as [Hbz | Hbz].
        -- right. apply Hrun; [|assumption].
           apply B5; [apply Hz | assumption|]. destruct Hz as [_ H]. lia.
        -- destruct (B9 z Hz ltac:(lia)) as [[H1 H2] | (w & Hw & Hwz & E)].
           ++ left. split; [assumption | apply merge_congr; assumption].
           ++ right. exists w. split; [assumption|]. split; [assumption|].
              apply merge_congr. assumption.
      * destruct (B9 z Hz ltac:(lia)) as [[H1 H2] | (w & Hw & Hwz & E)].
        -- left. split; [assumption | apply merge_congr; assumption].
        -- right. exists w. split; [assumption|]. split; [assumption|].
           apply merge_congr. assumption.
    + right. apply Hrun; reflexivity.
Qed.

(** When the loops have passed every row, the classes are one. *)
Lemma sinv_joined (r c b : Z) (g : Grid) (rep : Z -> Z) :
  sinv r c b g rep -> R <= r ->
  (forall z, lattice R C z -> open g z) /\
  forall e, good_edge R C e -> rep (cell_id C (fst e)) = rep (cell_id C (snd e)).
Proof.
  intros [B1 B2 B3 B4 B5 B6 B7 B8 B9] Hr.
  assert (Hall : forall z, lattice R C z -> before R C r c z).
  { intros z Hz. split; [assumption|]. apply lattice_iff in Hz. lia. }
  split; [intros z Hz; apply B2, Hall, Hz|].
  assert (Hroot : forall n z, lattice R C z -> fst z <= Z.of_nat n ->
                              rep (cell_id C z) = rep (cell_id C (0, 0))).
  { induction n as [|n IH]; intros z Hz Hm.
    - destruct (B9 z (Hall z Hz)) as [[H1 H2] | (w & Hw & Hwz & E)].
      + apply lattice_iff in Hz. lia.
      + assumption.
      + apply lattice_iff in Hz, Hw. lia.
    - destruct (B9 z (Hall z Hz)) as [[H1 H2] | (w & Hw & Hwz & E)].
      + apply lattice_iff in Hz. lia.
      + assumption.
      + rewrite E. apply IH; [assumption | lia]. }
  intros e (H1 & H2 & _).
  pose proof (proj1 (lattice_iff _ _ _) H1) as (Hi1 & _).
  pose proof (proj1 (lattice_iff _ _ _) H2) as (Hi2 & _).
  rewrite (Hroot (Z.to_nat (fst (fst e))) (fst e) H1) by lia.
  rewrite (Hroot (Z.to_nat (fst (snd e))) (snd e) H2) by lia.
  reflexivity.
Qed.

Lemma hoare_run_column_grid (P : Grid -> Prop) (runStart c : Z) :
  Z.even runStart = true -> Z.even c = true -> 0 <= runStart <= c ->
  hoare (fun st => P (Maze.m_grid st)) (Maze.run_column rnd runStart c)
        (fun v st => P (Maze.m_grid st) /\ runStart <= v <= c /\ Z.even v = true).
Proof.
  intros H1 H2 H3. unfold Maze.run_column, Maze.random_floor.
  apply Z.even_spec in H1, H2. destruct H1 as [a ->], H2 as [b ->].
  eapply hoare_bind.
  { eapply hoare_bind.
    - apply (hoare_random (fun st => P (Maze.m_grid st)) rnd
               (fun x st => P (Maze.m_grid st) /\ (0 <= x)%Q /\ (x < 1)%Q)).
      intros st Hst. split; [exact Hst | apply Hrnd].
    - intros x. apply hoare_ret.
      intros st Hst.
      instantiate (1 := fun k st => P (Maze.m_grid st) /\ 0 <= k < b - a + 1).
      cbn beta. destruct Hst as (Hst & Hx0 & Hx1). split; [assumption|].
      assert (Hq : ((2 * b - 2 * a # 2) + inject_Z 1 == inject_Z (b - a + 1))%Q).
      { unfold Qeq, Qplus, inject_Z. cbn [Qnum Qden]. lia. }
      rewrite Hq. apply floor_range; [assumption | assumption | lia]. }
  intros k. apply hoare_ret. intros st [Hst Hk]. split; [assumption|].
  split; [lia|]. rewrite Z.even_add, !Z.even_mul. cbn. rewrite orb_true_r. reflexivity.
Qed.

Lemma generateSidewinderMaze_perfect (onUpdate : bool) :
  hoare (minv g0 R C) (Maze.generateSidewinderMaze onUpdate rnd)
        (fun _ st => minv g0 R C st /\ perfect_maze (Maze.m_grid st) /\
                     (forall z, lattice R C z -> open (Maze.m_grid st) z) /\
                     (forall p, open (Maze.m_grid st) p ->
                                Z.even (fst p) = true \/ Z.even (snd p) = true)).
Proof.
  unfold Maze.generateSidewinderMaze. eapply hoare_bind; [apply (hoare_dims_minv g0 R C HR)|].
  intros d. eapply hoare_conseq with (P' := fun st => d = (R, C) /\ minv g0 R C st);
    [|auto|intros a st H; exact H].
  apply hoare_pre. intros ->. cbn [fst snd].
  eapply hoare_bind; [apply (fill_walls_filled g0 R C HR)|]. intros u.
  set (J := fun (k : nat) (st : Maze.mstate) =>
              exists rep, sinv (2 * Z.of_nat k) 0 0 (Maze.m_grid st) rep).
  eapply hoare_conseq with (P' := J 0%nat)
                           (Q' := fun _ => J (0 + length (Maze.evens R))%nat).
  - apply hoare_for_each_idx. intros kr r Hkr.
    pose proof (nth_error_evens R kr r Hkr) as Hr2.
    pose proof (proj1 (In_evens R r) (nth_error_In _ _ Hkr)) as [Hr Her].
    set (K := fun (k : nat) (b : Z) (st : Maze.mstate) =>
                exists rep, sinv r (2 * Z.of_nat k) b (Maze.m_grid st) rep).
    eapply hoare_bind with (Q := K (0 + length (Maze.evens C))%nat).
    2:{ intros b. apply hoare_ret. intros st [rep B]. exists rep. cbn [Nat.add] in *.
        replace (2 * Z.of_nat (S kr)) with (r + 2) by lia.
        apply (sinv_next_row r _ _ _ _ B); [|lia|assumption].
        apply length_evens. lia. }
    eapply hoare_conseq with (P' := K 0%nat 0);
      [|intros st [rep B]; exists rep; cbn [Nat.add] in B; rewrite <- Hr2 in B; exact B
       |intros a st H; exact H].
    apply hoare_fold_m. intros kc c b Hkc.
    pose proof (nth_error_evens C kc c Hkc) as Hc2.
    pose proof (proj1 (In_evens C c) (nth_error_In _ _ Hkc)) as [Hc Hec].
    assert (Hl : lattice R C (r, c)).
    { split; [apply inside_iff; cbn [fst snd]; lia | split; assumption]. }
    unfold K. cbn [Nat.add]. replace (2 * Z.of_nat (S kc)) with (c + 2) by lia.
    rewrite <- Hc2.
    set (P0 := fun g : Grid => exists rep, sinv r c b g rep).
    set (P1 := fun g' : Grid => exists g, P0 g /\ g' = mark false (r, c) g).
    assert (Hv1 : forall g p, P1 g -> Maze.inside (R, C) p = true -> valid g p).
    { intros g p (g1 & [rep B] & ->) Hp. apply valid_mark.
      destruct (s_carved _ _ _ _ _ B) as (Hrect & _).
      apply (rect_valid R C g1); assumption. }
    eapply hoare_bind.
    { apply (hoare_mark P0).
      intros g [rep B]. destruct (s_carved _ _ _ _ _ B) as (Hrect & _).
      apply (rect_valid R C g); [assumption | apply Hl]. }
    intros u1.
    eapply hoare_bind.
    { instantiate (1 := fun carveEast st =>
                          ((carveEast = true -> c < C - 2) /\
                           (carveEast = false -> ~ 0 < r -> ~ c < C - 2)) /\
                          P1 (Maze.m_grid st)).
      destruct (c <? C - 2) eqn:E.
      - apply Z.ltb_lt in E. destruct (r =? 0) eqn:Er.
        + apply hoare_ret. intros st Hst. split; [|exact Hst].
          split; [auto | discriminate].
        + apply Z.eqb_neq in Er. eapply hoare_bind.
          * apply (hoare_random (fun st => P1 (Maze.m_grid st)) rnd
                     (fun _ st => P1 (Maze.m_grid st))).
            intros st Hst. exact Hst.
          * intros x. apply hoare_ret. intros st Hst. split; [|exact Hst].
            split; [auto | intros _ H; lia].
      - apply Z.ltb_ge in E. apply hoare_ret. intros st Hst. split; [|exact Hst].
        split; [discriminate | intros _ _; lia]. }
    intros carveEast. apply hoare_pre. intros [Hce Hcn].
    eapply hoare_bind with
      (Q := fun b' st => exists rep, sinv r (c + 2) b' (Maze.m_grid st) rep).
    { destruct carveEast.
      - eapply hoare_bind.
        + apply (hoare_mark P1). intros g Hg. apply (Hv1 g _ Hg).
          apply inside_iff. cbn [fst snd]. specialize (Hce eq_refl). lia.
        + intros u2. apply hoare_ret.
          intros st (g' & (g & [rep B] & ->) & ->).
          apply (sinv_step_east r c b g rep B Hl (Hce eq_refl)).
      - destruct ((0 <? r) && negb false) eqn:E.
        + rewrite andb_true_r in E. apply Z.ltb_lt in E.
          eapply hoare_bind.
          * eapply hoare_bind.
            -- eapply hoare_conseq with
                 (P' := fun st => (Z.even b = true /\ 0 <= b <= c) /\
                                  P1 (Maze.m_grid st)).
               ++ apply hoare_pre. intros [Heb Hb].
                  apply (hoare_run_column_grid P1 b c Heb Hec Hb).
               ++ intros st Hst. split; [|exact Hst].
                  destruct Hst as (g & [rep B] & _). apply (s_b _ _ _ _ _ B).
               ++ intros a st H. exact H.
            -- intros runCol.
               eapply hoare_conseq with
                 (P' := fun st => (b <= runCol <= c /\ Z.even runCol = true) /\
                                  P1 (Maze.m_grid st));
                 [|intros st H; split; [apply H | apply H] | intros a st H; exact H].
               apply hoare_pre. intros [Hrc Herc].
               eapply hoare_conseq;
                 [apply (hoare_mark P1 false (r - 1, runCol))| |].
               ++ intros g Hg. apply (Hv1 g _ Hg). apply inside_iff. cbn [fst snd].
                  pose proof (proj1 (lattice_iff _ _ _) Hl) as (Hin & _).
                  cbn [fst snd] in Hin.
                  assert (0 <= b) by (destruct Hg as (g1 & [rep B] & _);
                                      apply (s_b _ _ _ _ _ B)).
                  lia.
               ++ intros st H. exact H.
               ++ intros a st H.
                  instantiate (1 := fun _ st =>
                     exists rep, sinv r (c + 2) (c + 2) (Maze.m_grid st) rep).
                  cbn beta. destruct H as (g' & (g & [rep B] & ->) & ->).
                  apply (sinv_step_north r c b runCol g rep B Hl E Hrc Herc).
          * intros u2. apply hoare_ret. intros st H. exact H.
        + rewrite andb_true_r in E. apply Z.ltb_ge in E.
          eapply hoare_bind with (Q := fun _ st => P1 (Maze.m_grid st));
            [apply hoare_ret; intros st H; exact H|].
          intros u2. apply hoare_ret.
          intros st (g & [rep B] & ->). exists rep.
          apply (sinv_step_close r c b g rep B Hl); [lia|].
          apply Hcn; [reflexivity | lia]. }
    intros b'.
    eapply hoare_bind.
    { apply (hoare_maybe_update_grid (fun g => exists rep, sinv r (c + 2) b' g rep)). }
    intros u3. apply hoare_ret. intros st H. exact H.
  - intros st [Hm Hf]. exists (fun i => i). apply sinv_init.
    apply (carved_init g0 R C HR HC Hflags); [apply Hm | apply Hm | assumption].
  - intros a st [rep B]. cbn [Nat.add] in B.
    destruct (sinv_joined _ _ _ _ _ B (length_evens R ltac:(lia))) as [Hopen Hj].
    pose proof (s_carved _ _ _ _ _ B) as Hcv.
    split; [split; apply Hcv|].
    split; [eapply carved_perfect; eassumption|].
    split; [assumption|].
    intros p. eapply carved_odd; eassumption.
Qed.

End SidewinderShape.

(** For every stream of random numbers in [0, 1), the sidewinder procedure,
    run on a well-formed grid with at least one row and one column whose
    start and end cells, if any, have an even row and an even column,
    returns a perfect maze: any two open cells are joined by exactly one
    open path without repeated cell.  Every cell with an even row and an
    even column is open, no cell with an odd row and an odd column is, and
    a breadth-first search between two open cells finds a path. *)
Theorem sidewinder_maze_is_perfect (grid : Grid) (onUpdate : bool) (rnd : Maze.rng) :
  wf_grid grid -> 1 <= rows grid -> 1 <= cols grid ->
  (forall i, (0 <= rnd i)%Q /\ (rnd i < 1)%Q) ->
  (forall p n, grid_get grid p = Some n -> Maze.flagged n = true ->
               Z.even (fst p) = true /\ Z.even (snd p) = true) ->
  exists g', Maze.generateMaze grid MSidewinder onUpdate rnd = Returned g' /\
    perfect_maze g' /\
    (forall p, valid g' p -> Z.even (fst p) = true -> Z.even (snd p) = true -> open g' p) /\
    (forall p, open g' p -> Z.even (fst p) = true \/ Z.even (snd p) = true) /\
    forall p q speed, open g' p -> open g' q ->
      exists st r, bfs g' p q speed = Returned (st, r) /\ pathFound (stats r) = true.
Proof.
  intros Hwf HR HC Hrnd Hflags. unfold Maze.generateMaze. cbn [Maze.generator].
  pose proof (wf_grid_rect grid Hwf) as Hrect.
  destruct (generateSidewinderMaze_perfect grid (rows grid) (cols grid) HR HC rnd Hrnd Hflags
              onUpdate (Maze.mkM (map (map Maze.maze_copy) grid) 0))
    as (u & st & E & [Hr Hinv] & Hperf & Hlat & Hodd).
  { split; [apply rect_map; assumption | apply maze_inv_copy]. }
  rewrite E. exists (Maze.m_grid st). split; [reflexivity|]. split; [assumption|].
  split.
  { intros p Hv H1 H2. apply Hlat. split; [|split; assumption].
    apply (rect_valid _ _ _ p Hr). assumption. }
  split; [assumption|].
  intros p q speed Hp Hq.
  assert (Hin : valid_input (Maze.m_grid st) p q).
  { constructor; [|assumption|assumption].
    apply (wf_grid_maze grid _ (rows grid) (cols grid)); assumption. }
  destruct (bfs_correct (Maze.m_grid st) p q Hin speed) as ([st' r] & Hrun & Hpost).
  exists st', r. split; [assumption|].
  apply (found_not_failed _ _ _ _ _ Hpost). apply (Hperf p q Hp Hq).
Qed.

Lemma sidewinder_maze_is_perfect_witness :
  exists g', Maze.generateMaze sample_corner_input MSidewinder true sample_rnd = Returned g' /\
    perfect_maze g' /\
    (forall p, valid g' p -> Z.even (fst p) = true -> Z.even (snd p) = true -> open g' p) /\
    (forall p, open g' p -> Z.even (fst p) = true \/ Z.even (snd p) = true) /\
    forall p q speed, open g' p -> open g' q ->
      exists st r, bfs g' p q speed = Returned (st, r) /\ pathFound (stats r) = true.
Proof.
  apply (sidewinder_maze_is_perfect sample_corner_input true sample_rnd).
  - apply grid_okb_wf. vm_compute. reflexivity.
  - vm_compute. discriminate.
  - vm_compute. discriminate.
  - exact sample_rnd_range.
  - apply lattice_flagsb_sound. vm_compute. reflexivity.
Defined.


(* ================================================================== *)
(** * What a run leaves on the grid *)
(* ================================================================== *)

(** The grid during a run: a node is marked visited exactly when it is in
    [visitedNodes], and no node is marked as part of the path. *)
Definition marked (st : state) : Prop :=
  forall p, valid (st_grid st) p ->
    (isVisited (node (st_grid st) p) = true <-> In p (st_visited st)) /\
    isPath (node (st_grid st) p) = false.

(** An update that touches neither mark. *)
Definition quiet (f : GridNode -> GridNode) : Prop :=
  forall n, isVisited (f n) = isVisited n /\ isPath (f n) = isPath n.

Lemma quiet_distance (d : num) : quiet (set_distance d).
Proof. intros n. split; reflexivity. Qed.

Lemma quiet_heuristic (h : Z) : quiet (set_heuristic h).
Proof. intros n. split; reflexivity. Qed.

Lemma quiet_previousNode (p : option pos) : quiet (set_previousNode p).
Proof. intros n. split; reflexivity. Qed.

#[local] Hint Resolve quiet_distance quiet_heuristic quiet_previousNode : core.

Lemma marked_upd (st : state) (p : pos) (f : GridNode -> GridNode) :
  quiet f -> marked st -> marked (with_grid (grid_upd p f) st).
Proof.
  intros Hf H q Hq. cbn [with_grid st_grid st_visited] in *.
  apply valid_upd in Hq. rewrite node_upd by assumption.
  destruct (pos_eqb p q); [destruct (Hf (node (st_grid st) q)) as [-> ->]|]; apply H; assumption.
Qed.

Lemma marked_emit (ev : event) (st : state) : marked st -> marked (emit ev st).
Proof. intros H. exact H. Qed.

Lemma marked_pause (s e : pos) (speed : Z) (cur : pos) (st : state) :
  marked st -> marked (pause s e speed cur st).
Proof. intros H. unfold pause. destruct (_ && _); exact H. Qed.

Lemma marked_upd_store (g : Grid) (v : list pos) (t : list event) (p : pos)
      (f : GridNode -> GridNode) :
  quiet f -> marked (mkState g v t) -> marked (mkState (grid_upd p f g) v t).
Proof. intros Hf H. exact (marked_upd (mkState g v t) p f Hf H). Qed.

Lemma marked_push (st : state) (p : pos) :
  marked st -> marked (push_visited p (with_grid (grid_upd p (set_isVisited true)) st)).
Proof.
  intros H q Hq. cbn [with_grid push_visited st_grid st_visited] in *.
  apply valid_upd in Hq. rewrite node_upd by assumption.
  destruct (H q Hq) as [H1 H2]. rewrite in_app_iff. cbn [In].
  destruct (pos_eqb p q) eqn:E.
  - apply pos_eqb_eq in E. subst q. split; [|exact H2].
    split; [intros _; right; left; reflexivity | intros _; reflexivity].
  - apply pos_eqb_neq in E. split; [|exact H2]. rewrite H1. intuition congruence.
Qed.

Lemma marked_push_store (g : Grid) (v : list pos) (t : list event) (p : pos) :
  marked (mkState g v t) ->
  marked (mkState (grid_upd p (set_isVisited true) g) (v ++ [p]) t).
Proof. intros H. exact (marked_push (mkState g v t) p H). Qed.

Lemma marked_again (st : state) (p : pos) :
  marked st -> In p (st_visited st) -> marked (with_grid (grid_upd p (set_isVisited true)) st).
Proof.
  intros H Hp q Hq. cbn [with_grid st_grid st_visited] in *.
  apply valid_upd in Hq. rewrite node_upd by assumption.
  destruct (H q Hq) as [H1 H2].
  destruct (pos_eqb p q) eqn:E; [|split; assumption].
  apply pos_eqb_eq in E. subst q. split; [|exact H2].
  split; [intros _; assumption | intros _; reflexivity].
Qed.

Lemma marked_visit (cur : pos) (st : state) : marked st -> marked (visit cur st).
Proof. intros H. unfold visit. apply marked_emit, marked_push, H. Qed.

Lemma marked_dijkstra_relax (cur : pos) (l : list pos) :
  forall st, marked st -> marked (fold_left (dijkstra_relax cur) l st).
Proof.
  induction l as [|x l IH]; intros st H; cbn [fold_left]; [assumption|].
  apply IH. unfold dijkstra_relax.
  destruct (_ && _); [|assumption]. destruct (num_ltb _ _); [|assumption].
  destruct st as [g v t]. cbn [with_grid st_grid st_visited st_trace] in *.
  repeat (apply marked_upd_store; [solve [auto]|]). assumption.
Qed.

Lemma marked_astar_relax (cur e : pos) (l : list pos) :
  forall acc, marked (fst acc) -> marked (fst (fold_left (astar_relax cur e) l acc)).
Proof.
  induction l as [|x l IH]; intros acc H; cbn [fold_left]; [assumption|].
  apply IH. destruct acc as [st q]. unfold astar_relax.
  destruct (_ || _); [assumption|]. destruct (_ || _); [|assumption].
  destruct st as [g v t]. cbn [fst with_grid st_grid st_visited st_trace] in *.
  repeat (apply marked_upd_store; [solve [auto]|]). assumption.
Qed.

Lemma marked_bfs_discover (cur : pos) (l : list pos) :
  forall acc, marked (fst acc) -> marked (fst (fold_left (bfs_discover cur) l acc)).
Proof.
  induction l as [|x l IH]; intros acc H; cbn [fold_left]; [assumption|].
  apply IH. destruct acc as [st q]. unfold bfs_discover.
  destruct (_ && _); [|assumption].
  destruct st as [g v t].
  cbn [fst with_grid push_visited st_grid st_visited st_trace] in *.
  repeat (apply marked_upd_store; [solve [auto]|]). apply marked_push_store. assumption.
Qed.

Lemma marked_greedy_discover (cur e : pos) (l : list pos) :
  forall acc, marked (fst acc) -> marked (fst (fold_left (greedy_discover cur e) l acc)).
Proof.
  induction l as [|x l IH]; intros acc H; cbn [fold_left]; [assumption|].
  apply IH. destruct acc as [st q]. unfold greedy_discover.
  destruct (_ && _); [|assumption].
  destruct st as [g v t]. cbn [fst with_grid st_grid st_visited st_trace] in *.
  repeat (apply marked_upd_store; [solve [auto]|]). assumption.
Qed.

Section MarkedLoops.

Variables s e : pos.
Variable speed : Z.

Lemma marked_not_found (st : state) : marked st -> ending s e marked (finish_not_found st).
Proof. intros H. exists st. split; [assumption | left; reflexivity]. Qed.

Lemma marked_found (st : state) (p : list pos) :
  marked st -> ending s e marked (finish_found s e p st).
Proof. intros H. exists st. split; [assumption | right; exists p; reflexivity]. Qed.

Lemma dijkstra_loop_marked (fuel : nat) :
  forall q st out, marked st -> dijkstra_loop fuel s e speed q st = Returned out ->
                   ending s e marked out.
Proof.
  induction fuel as [|fuel IH]; intros q st out Hm H; cbn [dijkstra_loop] in H;
    [discriminate|].
  destruct (sort_by _ q) as [|cur rest];
    [injection H as <-; apply marked_not_found; assumption|].
  destruct (_ || _); [injection H as <-; apply marked_not_found; assumption|].
  pose proof (marked_pause s e speed cur _ (marked_visit cur st Hm)) as H1.
  destruct (pos_eqb cur e).
  - destruct (reconstructPath _ e); [|discriminate]. injection H as <-.
    apply marked_found. assumption.
  - apply IH in H; [assumption|]. apply marked_dijkstra_relax. assumption.
Qed.

Lemma astar_loop_marked (fuel : nat) :
  forall q st out, marked st -> astar_loop fuel s e speed q st = Returned out ->
                   ending s e marked out.
Proof.
  induction fuel as [|fuel IH]; intros q st out Hm H; cbn [astar_loop] in H;
    [discriminate|].
  destruct (sort_by _ q) as [|cur rest];
    [injection H as <-; apply marked_not_found; assumption|].
  destruct (isWall _); [apply IH in H; assumption|].
  pose proof (marked_pause s e speed cur _ (marked_visit cur st Hm)) as H1.
  destruct (pos_eqb cur e).
  - destruct (reconstructPath _ e); [|discriminate]. injection H as <-.
    apply marked_found. assumption.
  - match type of H with context [fold_left ?f ?l ?a] =>
      pose proof (marked_astar_relax cur e l a H1) as Ht; destruct (fold_left f l a) as [st2 q2]
    end.
    apply IH in H; assumption.
Qed.

Lemma greedy_loop_marked (fuel : nat) :
  forall q st out, marked st -> greedy_loop fuel s e speed q st = Returned out ->
                   ending s e marked out.
Proof.
  induction fuel as [|fuel IH]; intros q st out Hm H; cbn [greedy_loop] in H;
    [discriminate|].
  destruct (sort_by _ q) as [|cur rest];
    [injection H as <-; apply marked_not_found; assumption|].
  destruct (_ || _); [apply IH in H; assumption|].
  pose proof (marked_pause s e speed cur _ (marked_visit cur st Hm)) as H1.
  destruct (pos_eqb cur e).
  - destruct (reconstructPath _ e); [|discriminate]. injection H as <-.
    apply marked_found. assumption.
  - match type of H with context [fold_left ?f ?l ?a] =>
      pose proof (marked_greedy_discover cur e l a H1) as Ht; destruct (fold_left f l a) as [st2 q2]
    end.
    apply IH in H; assumption.
Qed.

Lemma bfs_loop_marked (fuel : nat) :
  forall q st out, marked st -> bfs_loop fuel s e speed q st = Returned out ->
                   ending s e marked out.
Proof.
  induction fuel as [|fuel IH]; intros q st out Hm H; cbn [bfs_loop] in H;
    [discriminate|].
  destruct q as [|cur rest]; [injection H as <-; apply marked_not_found; assumption|].
  pose proof (marked_pause s e speed cur _ (marked_emit (Visit cur) st Hm)) as H1.
  destruct (pos_eqb cur e).
  - destruct (reconstructPath _ e); [|discriminate]. injection H as <-.
    apply marked_found. assumption.
  - match type of H with context [fold_left ?f ?l ?a] =>
      pose proof (marked_bfs_discover cur l a H1) as Ht; destruct (fold_left f l a) as [st2 q2]
    end.
    apply IH in H; assumption.
Qed.

Lemma dfs_neighbors_marked (rec : pos -> state -> outcome (state * bool)) :
  (forall nb st st' b, marked st -> rec nb st = Returned (st', b) -> marked st') ->
  forall nbs cur st st' b,
    marked st -> dfs_neighbors rec cur nbs st = Returned (st', b) -> marked st'.
Proof.
  intros Hrec nbs; induction nbs as [|nb nbs IH]; intros cur st st' b Hm H;
    cbn [dfs_neighbors] in H.
  - injection H as <- _. assumption.
  - destruct (_ && _); [|apply (IH _ _ _ _ Hm H)].
    pose proof (marked_upd st nb (set_previousNode (Some cur)) (quiet_previousNode _) Hm) as H1.
    destruct (rec nb _) as [[st1 [|]]| |] eqn:E; try discriminate.
    + injection H as <- _. apply (Hrec _ _ _ _ H1 E).
    + apply (IH _ _ _ _ (Hrec _ _ _ _ H1 E) H).
Qed.

Lemma dfsRecursive_marked (fuel : nat) :
  forall cur st st' b,
    marked st -> dfsRecursive fuel e speed cur st = Returned (st', b) -> marked st'.
Proof.
  induction fuel as [|fuel IH]; intros cur st st' b Hm H; cbn [dfsRecursive] in H;
    [discriminate|].
  destruct (_ || _); [injection H as <- _; assumption|].
  assert (Hv : forall x, marked (if negb (pos_eqb cur e)
                                 then emit (Sleep x) (visit cur st) else visit cur st)).
  { intros x. destruct (negb _); [apply marked_emit|]; apply marked_visit; assumption. }
  destruct (pos_eqb cur e).
  - injection H as <- _. exact (Hv (inject_Z (101 - speed))).
  - apply (dfs_neighbors_marked _ IH) in H; [assumption|].
    exact (Hv (inject_Z (101 - speed))).
Qed.

Lemma bidi_half_marked (dedup : bool) (me other : side) (st : state) :
  marked st ->
  match bidi_half dedup s e speed me other st with
  | Meet _ st' => marked st'
  | Continue _ st' => marked st'
  end.
Proof.
  intros Hm. unfold bidi_half. destruct (sd_queue me) as [|cur rest]; [assumption|].
  assert (H4 : marked
    (let st1 := with_grid (grid_upd cur (set_isVisited true)) st in
     let st2 := if dedup && includes (st_visited st1) cur then st1 else push_visited cur st1 in
     let st3 := emit (Visit cur) st2 in
     if negb (pos_eqb cur s) && negb (pos_eqb cur e)
     then emit (Sleep ((101 - speed) # 2)) st3 else st3)).
  { cbv zeta.
    assert (H2 : marked (if dedup && includes (st_visited
                              (with_grid (grid_upd cur (set_isVisited true)) st)) cur
                         then with_grid (grid_upd cur (set_isVisited true)) st
                         else push_visited cur (with_grid (grid_upd cur (set_isVisited true)) st))).
    { destruct (dedup && includes _ cur) eqn:E.
      - apply andb_true_iff in E. destruct E as [_ E]. apply includes_In in E.
        apply marked_again; assumption.
      - apply marked_push. assumption. }
    destruct (negb (pos_eqb cur s) && negb (pos_eqb cur e)); exact H2. }
  cbv zeta in H4.
  match goal with |- context [set_has ?k ?v] => destruct (set_has k v) end; exact H4.
Qed.

Lemma bidi_loop_marked (fuel : nat) :
  forall ss es st m ss' es' st',
  marked st ->
  bidi_loop fuel s e speed ss es st = Returned (m, ss', es', st') -> marked st'.
Proof.
  induction fuel as [|fuel IH]; intros ss es st m ss' es' st' Hm H; cbn [bidi_loop] in H;
    [discriminate|].
  assert (Hstep :
    match bidi_half false s e speed ss es st with
    | Meet m0 st1 => Returned (Some m0, ss, es, st1)
    | Continue ss1 st1 =>
        match bidi_half true s e speed es ss1 st1 with
        | Meet m0 st2 => Returned (Some m0, ss1, es, st2)
        | Continue es1 st2 => bidi_loop fuel s e speed ss1 es1 st2
        end
    end = Returned (m, ss', es', st') -> marked st').
  { clear H. intros H.
    pose proof (bidi_half_marked false ss es st Hm) as H1.
    destruct (bidi_half false s e speed ss es st) as [m0 st1 | ss1 st1].
    - injection H as _ _ _ <-. assumption.
    - pose proof (bidi_half_marked true es ss1 st1 H1) as H2.
      destruct (bidi_half true s e speed es ss1 st1) as [m0 st2 | es1 st2].
      + injection H as _ _ _ <-. assumption.
      + apply IH in H; assumption. }
  destruct (sd_queue ss), (sd_queue es); try (apply Hstep; assumption).
  injection H as _ _ _ <-. assumption.
Qed.

End MarkedLoops.

Lemma marked_reset (f : GridNode -> GridNode) (g : Grid) :
  (forall n, isVisited (f n) = false /\ isPath (f n) = false) ->
  marked (mkState (reset_grid f g) [] []).
Proof.
  intros Hf p Hp. cbn [st_grid st_visited] in *.
  apply valid_reset in Hp. rewrite node_reset by assumption.
  destruct (Hf (node g p)) as [-> ->]. cbn [In]. split; [split; [discriminate | tauto] | reflexivity].
Qed.

(** Every run ends on a marked store. *)
Lemma algorithms_marked (a : Algorithm) (g : Grid) (s e : pos) (speed : Z)
      (out : state * AlgorithmResult) :
  algorithms a g s e speed = Returned out -> ending s e marked out.
Proof.
  intros H. destruct a; cbn [algorithms] in H.
  - unfold dijkstra, resolve in H.
    destruct (grid_get _ s); [|discriminate]. destruct (grid_get _ e); [|discriminate].
    apply dijkstra_loop_marked in H; [assumption|].
    apply marked_upd_store; [auto|]. apply marked_reset. intros n. split; reflexivity.
  - unfold astar, resolve in H.
    destruct (grid_get _ s); [|discriminate]. destruct (grid_get _ e); [|discriminate].
    apply astar_loop_marked in H; [assumption|].
    repeat (apply marked_upd_store; [solve [auto]|]).
    apply marked_reset. intros n. split; reflexivity.
  - unfold bfs, resolve in H.
    destruct (grid_get _ s); [|discriminate]. destruct (grid_get _ e); [|discriminate].
    apply bfs_loop_marked in H; [assumption|].
    apply (marked_push_store _ [] []). apply marked_upd_store; [auto|].
    apply marked_reset. intros n. split; reflexivity.
  - unfold dfs, resolve in H.
    destruct (grid_get _ s); [|discriminate]. destruct (grid_get _ e); [|discriminate].
    destruct (dfsRecursive _ e speed s _) as [[st [|]]| |] eqn:E; try discriminate.
    all: apply dfsRecursive_marked in E;
      [|apply marked_reset; intros n; split; reflexivity].
    + destruct (reconstructPath _ e) as [p|]; [|discriminate]. injection H as <-.
      apply marked_found. assumption.
    + injection H as <-. apply marked_not_found. assumption.
  - unfold greedy, resolve in H.
    destruct (grid_get _ s); [|discriminate]. destruct (grid_get _ e); [|discriminate].
    apply greedy_loop_marked in H; [assumption|].
    apply marked_upd_store; [auto|]. apply marked_reset. intros n. split; reflexivity.
  - unfold bidirectional, resolve in H.
    destruct (grid_get _ s); [|discriminate]. destruct (grid_get _ e); [|discriminate].
    destruct (bidi_loop _ s e speed _ _ _) as [[[[m ss'] es'] st]| |] eqn:E; try discriminate.
    apply bidi_loop_marked in E; [|apply marked_reset; intros n; split; reflexivity].
    destruct m as [m|].
    + destruct (reconstructBidirectionalPath _ _ _ _) as [p|]; [|discriminate].
      injection H as <-. apply marked_found. assumption.
    + injection H as <-. apply marked_not_found. assumption.
Qed.

(** What [revealPath] writes. *)
Lemma revealPath_marks (s e : pos) (p : list pos) :
  forall st q, valid (st_grid st) q ->
    valid (st_grid (revealPath s e p st)) q /\
    isVisited (node (st_grid (revealPath s e p st)) q) = isVisited (node (st_grid st) q) /\
    (isPath (node (st_grid (revealPath s e p st)) q) = true <->
     isPath (node (st_grid st) q) = true \/ (In q p /\ q <> s /\ q <> e)).
Proof.
  unfold revealPath. induction p as [|x p IH]; intros st q Hq; cbn [fold_left In].
  - split; [assumption|]. split; [reflexivity | tauto].
  - assert (H1 : valid (st_grid (reveal_node s e st x)) q /\
                 isVisited (node (st_grid (reveal_node s e st x)) q) =
                 isVisited (node (st_grid st) q) /\
                 (isPath (node (st_grid (reveal_node s e st x)) q) = true <->
                  isPath (node (st_grid st) q) = true \/ (x = q /\ q <> s /\ q <> e))).
    { unfold reveal_node.
      destruct (pos_eqb x s) eqn:Es; [|destruct (pos_eqb x e) eqn:Ee];
        cbn [negb andb emit with_grid st_grid].
      - apply pos_eqb_eq in Es. split; [assumption|]. split; [reflexivity|].
        split; [tauto|]. intros [H | (H1 & H2 & _)]; [assumption | congruence].
      - apply pos_eqb_eq in Ee. split; [assumption|]. split; [reflexivity|].
        split; [tauto|]. intros [H | (H1 & _ & H2)]; [assumption | congruence].
      - apply pos_eqb_neq in Es, Ee. split; [apply valid_upd; assumption|].
        rewrite node_upd by assumption.
        destruct (pos_eqb x q) eqn:Eq.
        + apply pos_eqb_eq in Eq. subst q. split; [reflexivity|].
          split; [intros _; right; auto | intros _; reflexivity].
        + apply pos_eqb_neq in Eq. split; [reflexivity|]. tauto. }
    destruct H1 as (Hv & Hvis & Hpath).
    destruct (IH (reveal_node s e st x) q Hv) as (Hv' & Hvis' & Hpath').
    split; [assumption|]. split; [congruence|].
    rewrite Hpath', Hpath. tauto.
Qed.

(** The grid a search leaves shows its run: whatever the grid and the
    positions, when one of the six searches returns, the nodes marked
    visited are exactly the nodes of [visitedNodes], and the nodes marked as
    path are exactly the nodes of [path] other than the start and the
    end. *)
Theorem search_marks_its_run (a : Algorithm) (g : Grid) (s e : pos) (speed : Z)
        (st : state) (r : AlgorithmResult) :
  algorithms a g s e speed = Returned (st, r) ->
  forall p, valid g p ->
    (isVisited (node (st_grid st) p) = true <-> In p (visitedNodes r)) /\
    (isPath (node (st_grid st) p) = true <-> In p (path r) /\ p <> s /\ p <> e).
Proof.
  intros H p Hp.
  pose proof (run_keeps_layout _ _ _ _ _ _ H) as Hl. cbn [fst] in Hl.
  assert (Hv : valid (st_grid st) p).
  { pose proof (view_get layout _ _ p Hl) as Hg. unfold valid in *.
    destruct (grid_get (st_grid st) p); [discriminate|].
    destruct (grid_get g p); [discriminate Hg | contradiction Hp; reflexivity]. }
  destruct (algorithms_marked _ _ _ _ _ _ H) as [st0 [Hm [Ho | [l Ho]]]].
  - injection Ho as -> ->. destruct (Hm p Hv) as [H1 H2].
    cbn [not_found_result visitedNodes path In]. split; [assumption|].
    rewrite H2. split; [discriminate | tauto].
  - injection Ho as -> ->. cbn [found_result visitedNodes path].
    assert (Hv0 : valid (st_grid st0) p).
    { clear -Hv. revert st0 Hv. unfold revealPath.
      induction l as [|x l IH]; intros st0 Hv; cbn [fold_left] in Hv; [assumption|].
      apply IH in Hv. unfold reveal_node in Hv.
      destruct (_ && _); [|assumption].
      cbn [emit with_grid st_grid] in Hv. apply valid_upd in Hv. assumption. }
    destruct (revealPath_marks s e l st0 p Hv0) as (_ & Hvis & Hpath).
    destruct (Hm p Hv0) as [H1 H2].
    rewrite Hvis, Hpath, H2. split; [assumption|].
    split; [intros [Hx | Hx]; [discriminate | assumption] | tauto].
Qed.

Lemma search_marks_its_run_witness :
  let out := run_result (algorithms Bidirectional sample_grid (0, 0) (2, 2) 50) in
  algorithms Bidirectional sample_grid (0, 0) (2, 2) 50 = Returned (fst out, snd out) /\
  forall p, valid sample_grid p ->
    (isVisited (node (st_grid (fst out)) p) = true <-> In p (visitedNodes (snd out))) /\
    (isPath (node (st_grid (fst out)) p) = true <->
     In p (path (snd out)) /\ p <> (0, 0) /\ p <> (2, 2)).
Proof.
  cbv zeta.
  assert (H : algorithms Bidirectional sample_grid (0, 0) (2, 2) 50 =
              Returned (fst (run_result (algorithms Bidirectional sample_grid (0, 0) (2, 2) 50)),
                        snd (run_result (algorithms Bidirectional sample_grid (0, 0) (2, 2) 50))))
    by (vm_compute; reflexivity).
  split; [exact H|].
  exact (search_marks_its_run Bidirectional sample_grid (0, 0) (2, 2) 50 _ _ H).
Defined.


(* ================================================================== *)
(** * kruskal: the shuffle of the edges *)
(* ================================================================== *)

(** Body of [for (let i = edges.length - 1; i > 0; i--)]. *)
Definition shuffle_body (rnd : Maze.rng) (edges : list Maze.edge) (i : Z)
  : Maze.M (list Maze.edge) :=
  Maze.bind (Maze.random_floor rnd (inject_Z (i + 1)))
            (fun j => match Maze.swap i j edges with
                      | Some edges' => Maze.ret edges'
                      | None => Maze.throw
                      end).

Lemma shuffle_unfold (rnd : Maze.rng) (edges : list Maze.edge) :
  Maze.shuffle rnd edges =
  Maze.fold_m (shuffle_body rnd) (rev (map (fun k => Z.of_nat k) (seq 1 (length edges - 1))))
              edges.
Proof. reflexivity. Qed.

Lemma nth_z_of_nat {A : Type} (l : list A) (n : nat) :
  Maze.nth_z l (Z.of_nat n) = nth_error l n.
Proof.
  unfold Maze.nth_z. destruct (Z.of_nat n <? 0) eqn:E; [apply Z.ltb_lt in E; lia|].
  rewrite Nat2Z.id. reflexivity.
Qed.

(** The exchange of the last cell of the part still to shuffle with the
    cell of index [j]. *)
Lemma swap_shape (a0 : list Maze.edge) (x y : Maze.edge) (t : list Maze.edge) (j : nat) :
  nth_error (a0 ++ [x]) j = Some y ->
  exists a', Maze.swap (Z.of_nat (length a0)) (Z.of_nat j) ((a0 ++ [x]) ++ t) =
             Some (a' ++ y :: t) /\
             length a' = length a0 /\ Permutation (a0 ++ [x]) (a' ++ [y]).
Proof.
  intros Hj.
  assert (Hjl : (j < length (a0 ++ [x]))%nat) by (apply nth_error_Some; congruence).
  rewrite length_app in Hjl. cbn [length] in Hjl.
  set (n := length a0). set (l := (a0 ++ [x]) ++ t).
  assert (Hn : nth_error l n = Some x).
  { unfold l. rewrite nth_error_app1 by (rewrite length_app; cbn [length]; lia).
    rewrite nth_error_app2 by (unfold n; lia). unfold n. rewrite Nat.sub_diag. reflexivity. }
  assert (Hj' : nth_error l j = Some y).
  { unfold l. rewrite nth_error_app1 by (rewrite length_app; cbn [length]; lia). assumption. }
  destruct (swap_ok l (Z.of_nat n) (Z.of_nat j)) as (l' & El & Hperm).
  { unfold l. rewrite !length_app. cbn [length]. fold n. lia. }
  { unfold l. rewrite !length_app. cbn [length]. fold n. lia. }
  assert (Hl' : forall u, nth_error l' u =
                          if (j =? u)%nat then Some x
                          else if (n =? u)%nat then Some y else nth_error l u).
  { intros u. unfold Maze.swap in El. rewrite !nth_z_of_nat, Hn, Hj' in El.
    injection El as <-. rewrite !Nat2Z.id, !nth_error_list_upd.
    destruct (Nat.eqb_spec j u) as [<- | Hju].
    - destruct (Nat.eqb_spec n j) as [<- | Hnj]; [rewrite Hn | rewrite Hj']; reflexivity.
    - destruct (Nat.eqb_spec n u) as [<- | Hnu]; [rewrite Hn|]; reflexivity. }
  assert (Hlen : length l' = length l) by (symmetry; apply Permutation_length; assumption).
  assert (Hskip : skipn n l' = y :: t).
  { apply nth_error_ext. intros u. rewrite nth_error_skipn, Hl'.
    destruct u as [|u].
    - rewrite Nat.add_0_r, Nat.eqb_refl. cbn [nth_error].
      destruct (Nat.eqb_spec j n) as [E | E]; [|reflexivity].
      subst j. congruence.
    - destruct (Nat.eqb_spec j (n + S u)) as [E | E]; [lia|].
      destruct (Nat.eqb_spec n (n + S u)) as [E' | E']; [lia|].
      unfold l. rewrite nth_error_app2 by (rewrite length_app; cbn [length]; fold n; lia).
      rewrite length_app. cbn [length nth_error]. fold n.
      replace (n + S u - (n + 1))%nat with u by lia. reflexivity. }
  exists (firstn n l'). split; [|split].
  - rewrite El. f_equal. rewrite <- Hskip. symmetry. apply firstn_skipn.
  - rewrite length_firstn, Hlen. unfold l. rewrite !length_app. cbn [length]. fold n. lia.
  - apply (Permutation_app_inv_r t).
    replace ((firstn n l' ++ [y]) ++ t) with l'; [exact Hperm|].
    rewrite <- app_assoc. cbn [app]. rewrite <- Hskip. symmetry. apply firstn_skipn.
Qed.

(** From a list [a] every ordering [b] of it is reached by one choice of
    the indices [j]. *)
Lemma shuffle_steps (m : nat) :
  forall a b t : list Maze.edge,
  length a = S m -> Permutation a b ->
  exists js : list Z,
    (forall u, (u < m)%nat -> 0 <= nth u js 0 <= Z.of_nat (m - u)) /\
    forall rnd g k,
      (forall u, (u < m)%nat ->
         Qfloor (rnd (k + u)%nat * inject_Z (Z.of_nat (m - u) + 1)) = nth u js 0) ->
      Maze.fold_m (shuffle_body rnd) (rev (map (fun k => Z.of_nat k) (seq 1 m))) (a ++ t)
                  (Maze.mkM g k) =
      Returned (b ++ t, Maze.mkM g (k + m)).
Proof.
  induction m as [|m IH]; intros a b t Hlen Hperm.
  - exists []. split; [intros u Hu; lia|].
    intros rnd g k _. cbn [seq map rev Maze.fold_m].
    destruct a as [|x [|x' a]]; try discriminate.
    apply Permutation_length_1_inv in Hperm. subst b.
    rewrite Nat.add_0_r. reflexivity.
  - destruct (exists_last (l := a)) as (a0 & x & ->); [intros ->; discriminate|].
    assert (Hb : b <> []).
    { intros ->. apply Permutation_length in Hperm. rewrite Hlen in Hperm. discriminate. }
    destruct (exists_last Hb) as (b0 & y & ->).
    rewrite length_app in Hlen. cbn [length] in Hlen.
    assert (Hy : In y (a0 ++ [x])).
    { apply (Permutation_in y (Permutation_sym Hperm)). apply in_or_app. right. left. reflexivity. }
    destruct (In_nth_error _ _ Hy) as [j Hj].
    assert (Hjl : (j < length (a0 ++ [x]))%nat) by (apply nth_error_Some; congruence).
    rewrite length_app in Hjl. cbn [length] in Hjl.
    destruct (swap_shape a0 x y t j Hj) as (a' & Hswap & Hla & Hpa).
    assert (Hp' : Permutation a' b0).
    { apply (Permutation_app_inv_r [y]).
      eapply Permutation_trans; [apply Permutation_sym; exact Hpa | exact Hperm]. }
    destruct (IH a' b0 (y :: t) ltac:(lia) Hp') as (js & Hb1 & Hrun).
    exists (Z.of_nat j :: js). split.
    + intros [|u] Hu; cbn [nth]; [lia|].
      specialize (Hb1 u ltac:(lia)). replace (S m - S u)%nat with (m - u)%nat by lia. assumption.
    + intros rnd g k Hd.
      rewrite seq_S, map_app, rev_app_distr. cbn [map rev app Maze.fold_m].
      unfold Maze.bind at 1. unfold shuffle_body at 1. unfold Maze.bind at 1.
      rewrite random_floor_returns. cbn [Maze.m_next Maze.m_grid].
      pose proof (Hd 0%nat ltac:(lia)) as H0. rewrite Nat.add_0_r, Nat.sub_0_r in H0.
      cbn [nth] in H0.
      replace (Z.of_nat (1 + m)) with (Z.of_nat (S m)) by reflexivity.
      rewrite H0.
      replace (Z.of_nat (S m)) with (Z.of_nat (length a0)) by (f_equal; lia).
      rewrite Hswap. unfold Maze.ret.
      rewrite (Hrun rnd g (S k)).
      * rewrite <- app_assoc. cbn [app]. do 3 f_equal. lia.
      * intros u Hu. specialize (Hd (S u) ltac:(lia)). cbn [nth] in Hd.
        replace (S m - S u)%nat with (m - u)%nat in Hd by lia.
        replace (k + S u)%nat with (S k + u)%nat in Hd by lia. assumption.
Qed.

(** The shuffle is fair in what it can return: for every stream of random
    numbers in [0, 1) it returns a reordering of the edges, drawing one
    number for each edge but one and leaving the grid alone; and every
    reordering of the edges is returned for some stream. *)
Theorem shuffle_returns_every_order (edges : list Maze.edge) (st : Maze.mstate) :
  (forall rnd, (forall i, (0 <= rnd i)%Q /\ (rnd i < 1)%Q) ->
     exists edges',
       Maze.shuffle rnd edges st =
       Returned (edges', Maze.mkM (Maze.m_grid st) (Maze.m_next st + (length edges - 1))) /\
       Permutation edges edges') /\
  (forall target, Permutation edges target ->
     exists rnd, (forall i, (0 <= rnd i)%Q /\ (rnd i < 1)%Q) /\
       Maze.shuffle rnd edges st =
       Returned (target, Maze.mkM (Maze.m_grid st) (Maze.m_next st + (length edges - 1)))).
Proof.
  split.
  - intros rnd Hrnd.
    set (J := fun (k : nat) (l : list Maze.edge) (x : Maze.mstate) =>
                Maze.m_grid x = Maze.m_grid st /\ Maze.m_next x = (Maze.m_next st + k)%nat /\
                Permutation edges l).
    set (idx := rev (map (fun k => Z.of_nat k) (seq 1 (length edges - 1)))).
    assert (H : hoare (J 0%nat edges) (Maze.shuffle rnd edges) (J (0 + length idx)%nat)).
    { rewrite shuffle_unfold. fold idx. apply hoare_fold_m.
      intros k i l Hk. unfold J. cbn [Nat.add].
      assert (Hi : 1 <= i <= Z.of_nat (length edges) - 1).
      { apply nth_error_In in Hk. unfold idx in Hk. apply in_rev in Hk.
        apply in_map_iff in Hk. destruct Hk as (x & <- & Hx). apply in_seq in Hx. lia. }
      intros x (Hg & Hn & Hp). unfold shuffle_body, Maze.bind.
      rewrite random_floor_returns.
      assert (Hlen : length l = length edges) by (symmetry; apply Permutation_length; assumption).
      pose proof (floor_range (rnd (Maze.m_next x)) (i + 1)
                    (proj1 (Hrnd _)) (proj2 (Hrnd _)) ltac:(lia)) as Hj.
      destruct (swap_ok l i (Qfloor (rnd (Maze.m_next x) * inject_Z (i + 1))))
        as (l' & -> & Hl'); [lia | lia |].
      eexists _, _. split; [reflexivity|]. cbn [Maze.m_grid Maze.m_next].
      split; [assumption|]. split; [lia|].
      eapply Permutation_trans; eassumption. }
    destruct (H st) as (edges' & st' & E & Hg & Hn & Hp).
    { split; [reflexivity|]. split; [lia | apply Permutation_refl]. }
    exists edges'. split; [|assumption].
    rewrite E. f_equal. f_equal. destruct st' as [g' k']. cbn [Maze.m_grid Maze.m_next] in *.
    subst g'. f_equal. rewrite Hn. unfold idx.
    rewrite length_rev, length_map, length_seq. reflexivity.
  - intros target Hperm.
    destruct edges as [|e0 edges'] eqn:Ee.
    + apply Permutation_nil in Hperm. subst target.
      exists (fun _ => 0%Q). split; [intros i; split; [apply Qle_refl | reflexivity]|].
      rewrite shuffle_unfold. cbn [length Nat.sub seq map rev Maze.fold_m]. unfold Maze.ret.
      rewrite Nat.add_0_r. destruct st; reflexivity.
    + rewrite <- Ee in *.
      assert (Hlen : length edges = S (length edges')) by (rewrite Ee; reflexivity).
      set (m := length edges') in *.
      destruct (shuffle_steps m edges target [] Hlen Hperm) as (js & Hb & Hrun).
      set (k := Maze.m_next st).
      set (rnd := fun i : nat =>
                    if (i <? k)%nat then 0%Q
                    else if (i - k <? m)%nat
                         then (nth (i - k) js 0%Z # Z.to_pos (Z.of_nat (m - (i - k)) + 1)%Z)%Q
                         else 0%Q).
      exists rnd. split.
      * intros i. unfold rnd. destruct (i <? k)%nat; [split; [apply Qle_refl | reflexivity]|].
        destruct (Nat.ltb_spec (i - k) m) as [Hu | Hu]; [|split; [apply Qle_refl | reflexivity]].
        specialize (Hb (i - k)%nat Hu).
        unfold Qle, Qlt. cbn [Qnum Qden]. rewrite Z2Pos.id by lia. lia.
      * rewrite shuffle_unfold. replace (length edges - 1)%nat with m by lia.
        specialize (Hrun rnd (Maze.m_grid st) k).
        rewrite !app_nil_r in Hrun. destruct st as [g k']. cbn [Maze.m_grid Maze.m_next] in *.
        apply Hrun. intros u Hu. unfold rnd.
        destruct (Nat.ltb_spec (k + u) k) as [H1 | H1]; [lia|].
        replace (k + u - k)%nat with u by lia.
        destruct (Nat.ltb_spec u m) as [H2 | H2]; [|lia].
        specialize (Hb u Hu).
        rewrite (Qfloor_comp _ (inject_Z (nth u js 0))); [apply Qfloor_Z|].
        unfold Qeq, Qmult, inject_Z. cbn [Qnum Qden].
        rewrite Pos.mul_1_r, Z2Pos.id by lia. lia.
Qed.


(* ================================================================== *)
(** * A search does not read what an earlier run left *)
(* ================================================================== *)

(** Every search starts by resetting the fields it works with, but not all
    the fields of a node: [dijkstra] and [bfs] leave [heuristic] as it is,
    [greedy] leaves [distance], [dfs] and [bidirectional] leave both.  A run
    commutes with the erasure of the fields the search does not touch, so
    its result depends on the layout of the grid only. *)

Lemma list_upd_map {A B : Type} (h : A -> B) (F : B -> B) (F' : A -> A) (l : list A) :
  (forall x, F (h x) = h (F' x)) ->
  forall i, list_upd i F (map h l) = map h (list_upd i F' l).
Proof.
  intros H. induction l as [|x l IH]; intros [|i]; cbn [list_upd map]; try reflexivity.
  - rewrite H. reflexivity.
  - rewrite IH. reflexivity.
Qed.

Lemma insert_sorted_ext {A : Type} (f f' : A -> A -> bool) (x : A) (l : list A) :
  (forall a b, f a b = f' a b) -> insert_sorted f x l = insert_sorted f' x l.
Proof.
  intros H. induction l as [|y l IH]; cbn [insert_sorted]; [reflexivity|].
  rewrite H, IH. reflexivity.
Qed.

Lemma sort_by_ext {A : Type} (f f' : A -> A -> bool) (l : list A) :
  (forall a b, f a b = f' a b) -> sort_by f l = sort_by f' l.
Proof.
  intros H. induction l as [|x l IH]; cbn [sort_by]; [reflexivity|].
  rewrite IH. apply insert_sorted_ext. assumption.
Qed.

Lemma fold_left_ext {A B : Type} (f f' : A -> B -> A) (l : list B) :
  (forall a b, f a b = f' a b) -> forall a, fold_left f l a = fold_left f' l a.
Proof.
  intros H. induction l as [|x l IH]; intros a; cbn [fold_left]; [reflexivity|].
  rewrite H. apply IH.
Qed.

Section Forget.

(** [norm] erases fields that the search at hand neither reads nor
    writes. *)
Variable norm : GridNode -> GridNode.

Hypothesis norm_static : keeps_static norm.
Hypothesis norm_isVisited : forall n, isVisited (norm n) = isVisited n.
Hypothesis norm_previousNode : forall n, previousNode (norm n) = previousNode n.
Hypothesis norm_undefined : norm undefined_node = undefined_node.
Hypothesis norm_set_isVisited :
  forall b n, norm (set_isVisited b n) = set_isVisited b (norm n).
Hypothesis norm_set_isPath :
  forall b n, norm (set_isPath b n) = set_isPath b (norm n).
Hypothesis norm_set_previousNode :
  forall p n, norm (set_previousNode p n) = set_previousNode p (norm n).

Definition forget (g : Grid) : Grid := reset_grid norm g.

Definition forget_st (st : state) : state := with_grid forget st.

Definition forget_out {A : Type} (o : outcome (state * A)) : outcome (state * A) :=
  match o with
  | Returned (st, a) => Returned (forget_st st, a)
  | Throws => Throws
  | OutOfFuel => OutOfFuel
  end.

Lemma st_grid_forget (st : state) : st_grid (forget_st st) = forget (st_grid st).
Proof. reflexivity. Qed.

Lemma node_forget (g : Grid) (p : pos) : node (forget g) p = norm (node g p).
Proof.
  unfold node, forget. rewrite grid_get_reset.
  destruct (grid_get g p); cbn [option_map]; [reflexivity | symmetry; apply norm_undefined].
Qed.

Lemma static_forget (g : Grid) : static (forget g) = static g.
Proof. apply static_reset. assumption. Qed.

Lemma forget_upd (p : pos) (f : GridNode -> GridNode) (g : Grid) :
  (forall n, norm (f n) = f (norm n)) ->
  grid_upd p f (forget g) = forget (grid_upd p f g).
Proof.
  intros H. unfold grid_upd, forget, reset_grid.
  destruct ((0 <=? fst p) && (0 <=? snd p)); [|reflexivity].
  apply list_upd_map. intros r. apply list_upd_map. intros n. symmetry. apply H.
Qed.

Lemma forget_with_upd (p : pos) (f : GridNode -> GridNode) (st : state) :
  (forall n, norm (f n) = f (norm n)) ->
  with_grid (grid_upd p f) (forget_st st) = forget_st (with_grid (grid_upd p f) st).
Proof.
  intros H. unfold forget_st, with_grid. cbn [st_grid st_visited st_trace].
  rewrite forget_upd by assumption. reflexivity.
Qed.

Lemma isWall_forget (g : Grid) (p : pos) : isWall (node (forget g) p) = isWall (node g p).
Proof. apply static_isWall, static_forget. Qed.

Lemma weight_forget (g : Grid) (p : pos) : weight (node (forget g) p) = weight (node g p).
Proof. apply static_weight, static_forget. Qed.

Lemma isVisited_forget (g : Grid) (p : pos) :
  isVisited (node (forget g) p) = isVisited (node g p).
Proof. rewrite node_forget. apply norm_isVisited. Qed.

Lemma getNeighbors_forget (g : Grid) (p : pos) :
  getNeighbors (forget g) p = getNeighbors g p.
Proof. apply static_getNeighbors, static_forget. Qed.

Lemma manhattan_forget (g : Grid) (a b : pos) : manhattan (forget g) a b = manhattan g a b.
Proof. apply static_manhattan, static_forget. Qed.

Lemma nodeKey_forget (g : Grid) (p : pos) :
  nodeKey (node (forget g) p) = nodeKey (node g p).
Proof. apply (static_key (forget g) g p), static_forget. Qed.

Lemma forget_visit (cur : pos) (st : state) :
  visit cur (forget_st st) = forget_st (visit cur st).
Proof.
  unfold visit, emit, push_visited. rewrite forget_with_upd by (intros n; apply norm_set_isVisited).
  reflexivity.
Qed.

Lemma forget_emit (ev : event) (st : state) : emit ev (forget_st st) = forget_st (emit ev st).
Proof. reflexivity. Qed.

Lemma forget_push (p : pos) (st : state) :
  push_visited p (forget_st st) = forget_st (push_visited p st).
Proof. reflexivity. Qed.

Lemma forget_pause (s e : pos) (speed : Z) (cur : pos) (st : state) :
  pause s e speed cur (forget_st st) = forget_st (pause s e speed cur st).
Proof. unfold pause. destruct (_ && _); reflexivity. Qed.

Lemma forget_revealPath (s e : pos) (p : list pos) :
  forall st, revealPath s e p (forget_st st) = forget_st (revealPath s e p st).
Proof.
  unfold revealPath. induction p as [|x p IH]; intros st; cbn [fold_left]; [reflexivity|].
  rewrite <- IH. f_equal. unfold reveal_node. destruct (_ && _); [|reflexivity].
  rewrite forget_with_upd by (intros n; apply norm_set_isPath). reflexivity.
Qed.

Lemma forget_finish_found (s e : pos) (p : list pos) (st : state) :
  Returned (finish_found s e p (forget_st st)) = forget_out (Returned (finish_found s e p st)).
Proof. unfold finish_found. cbn [forget_out]. rewrite forget_revealPath. reflexivity. Qed.

Lemma forget_finish_not_found (st : state) :
  Returned (finish_not_found (forget_st st)) = forget_out (Returned (finish_not_found st)).
Proof. reflexivity. Qed.

Lemma reconstructPath_loop_forget (g : Grid) (fuel : nat) :
  forall cur acc,
    reconstructPath_loop fuel (forget g) cur acc = reconstructPath_loop fuel g cur acc.
Proof.
  induction fuel as [|fuel IH]; intros [c|] acc; cbn [reconstructPath_loop]; try reflexivity.
  rewrite node_forget, norm_previousNode. apply IH.
Qed.

Lemma reconstructPath_forget (g : Grid) (e : pos) :
  reconstructPath (forget g) e = reconstructPath g e.
Proof.
  unfold reconstructPath. rewrite (static_cells _ _ (static_forget g)).
  apply reconstructPath_loop_forget.
Qed.

(** ** dfs *)

Lemma dfs_neighbors_forget (rec : pos -> state -> outcome (state * bool)) :
  (forall nb st, rec nb (forget_st st) = forget_out (rec nb st)) ->
  forall nbs cur st,
    dfs_neighbors rec cur nbs (forget_st st) = forget_out (dfs_neighbors rec cur nbs st).
Proof.
  intros Hrec nbs. induction nbs as [|nb nbs IH]; intros cur st; cbn [dfs_neighbors].
  - reflexivity.
  - rewrite st_grid_forget, isVisited_forget, isWall_forget.
    destruct (_ && _); [|apply IH].
    rewrite forget_with_upd by (intros n; apply norm_set_previousNode).
    rewrite Hrec. destruct (rec nb _) as [[st1 [|]]| |]; cbn [forget_out]; try reflexivity.
    apply IH.
Qed.

Lemma dfsRecursive_forget (e : pos) (speed : Z) (fuel : nat) :
  forall cur st,
    dfsRecursive fuel e speed cur (forget_st st) = forget_out (dfsRecursive fuel e speed cur st).
Proof.
  induction fuel as [|fuel IH]; intros cur st; cbn [dfsRecursive]; [reflexivity|].
  rewrite st_grid_forget, isVisited_forget, isWall_forget.
  destruct (_ || _); [reflexivity|].
  rewrite forget_visit.
  destruct (pos_eqb cur e); cbn [negb].
  - reflexivity.
  - rewrite forget_emit, st_grid_forget, getNeighbors_forget.
    apply dfs_neighbors_forget. apply IH.
Qed.

Lemma dfs_forget (g : Grid) (s e : pos) (speed : Z) (fuel : nat) :
  match dfsRecursive fuel e speed s (forget_st (mkState g [] [])) with
  | Returned (st, true) =>
      match reconstructPath (st_grid st) e with
      | Some p => Returned (finish_found s e p st)
      | None => OutOfFuel
      end
  | Returned (st, false) => Returned (finish_not_found st)
  | Throws => Throws
  | OutOfFuel => OutOfFuel
  end =
  forget_out
    match dfsRecursive fuel e speed s (mkState g [] []) with
    | Returned (st, true) =>
        match reconstructPath (st_grid st) e with
        | Some p => Returned (finish_found s e p st)
        | None => OutOfFuel
        end
    | Returned (st, false) => Returned (finish_not_found st)
    | Throws => Throws
    | OutOfFuel => OutOfFuel
    end.
Proof.
  rewrite dfsRecursive_forget.
  destruct (dfsRecursive fuel e speed s _) as [[st [|]]| |]; cbn [forget_out]; try reflexivity.
  rewrite st_grid_forget, reconstructPath_forget.
  destruct (reconstructPath _ e); [apply forget_finish_found | reflexivity].
Qed.

(** ** bidirectional *)

Definition forget_half (h : half_step) : half_step :=
  match h with
  | Meet m st => Meet m (forget_st st)
  | Continue sd st => Continue sd (forget_st st)
  end.

Lemma bidi_half_forget (dedup : bool) (s e : pos) (speed : Z) (me other : side) (st : state) :
  bidi_half dedup s e speed me other (forget_st st) =
  forget_half (bidi_half dedup s e speed me other st).
Proof.
  unfold bidi_half. destruct (sd_queue me) as [|cur rest]; [reflexivity|].
  rewrite forget_with_upd by (intros n; apply norm_set_isVisited).
  cbv zeta.
  set (st1 := with_grid (grid_upd cur (set_isVisited true)) st).
  replace (st_visited (forget_st st1)) with (st_visited st1) by reflexivity.
  assert (H2 : (if dedup && includes (st_visited st1) cur then forget_st st1
                else push_visited cur (forget_st st1)) =
               forget_st (if dedup && includes (st_visited st1) cur then st1
                          else push_visited cur st1)).
  { destruct (dedup && includes _ cur); reflexivity. }
  rewrite H2. clear H2.
  set (st2 := if dedup && includes (st_visited st1) cur then st1 else push_visited cur st1).
  rewrite forget_emit.
  assert (H4 : (if negb (pos_eqb cur s) && negb (pos_eqb cur e)
                then emit (Sleep ((101 - speed) # 2)) (forget_st (emit (Visit cur) st2))
                else forget_st (emit (Visit cur) st2)) =
               forget_st (if negb (pos_eqb cur s) && negb (pos_eqb cur e)
                          then emit (Sleep ((101 - speed) # 2)) (emit (Visit cur) st2)
                          else emit (Visit cur) st2)).
  { destruct (negb (pos_eqb cur s) && negb (pos_eqb cur e)); reflexivity. }
  rewrite H4. clear H4.
  set (st4 := if negb (pos_eqb cur s) && negb (pos_eqb cur e)
              then emit (Sleep ((101 - speed) # 2)) (emit (Visit cur) st2)
              else emit (Visit cur) st2).
  rewrite st_grid_forget, nodeKey_forget, getNeighbors_forget.
  destruct (set_has _ (sd_visited other)); cbn [forget_half]; [reflexivity|].
  f_equal. apply fold_left_ext. intros sd nb. unfold bidi_discover.
  rewrite isWall_forget, nodeKey_forget. reflexivity.
Qed.

Definition forget_meet (o : outcome (option pos * side * side * state))
  : outcome (option pos * side * side * state) :=
  match o with
  | Returned (m, ss, es, st) => Returned (m, ss, es, forget_st st)
  | Throws => Throws
  | OutOfFuel => OutOfFuel
  end.

Lemma bidi_loop_forget (s e : pos) (speed : Z) (fuel : nat) :
  forall ss es st,
    bidi_loop fuel s e speed ss es (forget_st st) =
    forget_meet (bidi_loop fuel s e speed ss es st).
Proof.
  induction fuel as [|fuel IH]; intros ss es st; cbn [bidi_loop]; [reflexivity|].
  assert (Hstep :
    match bidi_half false s e speed ss es (forget_st st) with
    | Meet m0 st1 => Returned (Some m0, ss, es, st1)
    | Continue ss1 st1 =>
        match bidi_half true s e speed es ss1 st1 with
        | Meet m0 st2 => Returned (Some m0, ss1, es, st2)
        | Continue es1 st2 => bidi_loop fuel s e speed ss1 es1 st2
        end
    end =
    forget_meet
      match bidi_half false s e speed ss es st with
      | Meet m0 st1 => Returned (Some m0, ss, es, st1)
      | Continue ss1 st1 =>
          match bidi_half true s e speed es ss1 st1 with
          | Meet m0 st2 => Returned (Some m0, ss1, es, st2)
          | Continue es1 st2 => bidi_loop fuel s e speed ss1 es1 st2
          end
      end).
  { rewrite bidi_half_forget.
    destruct (bidi_half false s e speed ss es st) as [m0 st1 | ss1 st1]; cbn [forget_half];
      [reflexivity|].
    rewrite bidi_half_forget.
    destruct (bidi_half true s e speed es ss1 st1) as [m0 st2 | es1 st2]; cbn [forget_half];
      [reflexivity | apply IH]. }
  destruct (sd_queue ss), (sd_queue es); try exact Hstep. reflexivity.
Qed.

Lemma start_chain_forget (g : Grid) (parents : list (string * pos)) (fuel : nat) :
  forall cur acc, start_chain fuel (forget g) parents cur acc = start_chain fuel g parents cur acc.
Proof.
  induction fuel as [|fuel IH]; intros [c|] acc; cbn [start_chain]; try reflexivity.
  rewrite nodeKey_forget. apply IH.
Qed.

Lemma end_chain_forget (g : Grid) (parents : list (string * pos)) (fuel : nat) :
  forall cur acc, end_chain fuel (forget g) parents cur acc = end_chain fuel g parents cur acc.
Proof.
  induction fuel as [|fuel IH]; intros [c|] acc; cbn [end_chain]; try reflexivity.
  rewrite nodeKey_forget. apply IH.
Qed.

Lemma reconstructBidirectionalPath_forget (g : Grid) (m : pos)
      (sp ep : list (string * pos)) :
  reconstructBidirectionalPath (forget g) m sp ep = reconstructBidirectionalPath g m sp ep.
Proof.
  unfold reconstructBidirectionalPath.
  rewrite (static_cells _ _ (static_forget g)), start_chain_forget, end_chain_forget,
    nodeKey_forget.
  reflexivity.
Qed.

Lemma bidi_forget (g : Grid) (s e : pos) (speed : Z) (fuel : nat) (ss es : side) :
  match bidi_loop fuel s e speed ss es (forget_st (mkState g [] [])) with
  | Returned (Some m, ss', es', st) =>
      match reconstructBidirectionalPath (st_grid st) m (sd_parents ss') (sd_parents es') with
      | Some p => Returned (finish_found s e p st)
      | None => OutOfFuel
      end
  | Returned (None, _, _, st) => Returned (finish_not_found st)
  | Throws => Throws
  | OutOfFuel => OutOfFuel
  end =
  forget_out
    match bidi_loop fuel s e speed ss es (mkState g [] []) with
    | Returned (Some m, ss', es', st) =>
        match reconstructBidirectionalPath (st_grid st) m (sd_parents ss') (sd_parents es') with
        | Some p => Returned (finish_found s e p st)
        | None => OutOfFuel
        end
    | Returned (None, _, _, st) => Returned (finish_not_found st)
    | Throws => Throws
    | OutOfFuel => OutOfFuel
    end.
Proof.
  rewrite bidi_loop_forget.
  destruct (bidi_loop fuel s e speed ss es _) as [[[[[m|] ss'] es'] st]| |];
    cbn [forget_meet forget_out]; try reflexivity.
  rewrite st_grid_forget, reconstructBidirectionalPath_forget.
  destruct (reconstructBidirectionalPath _ _ _ _); [apply forget_finish_found | reflexivity].
Qed.

(** ** greedy *)

Section Heuristic.

Hypothesis norm_heuristic : forall n, heuristic (norm n) = heuristic n.
Hypothesis norm_set_heuristic :
  forall h n, norm (set_heuristic h n) = set_heuristic h (norm n).

Definition forget_acc (acc : state * list pos) : state * list pos :=
  (forget_st (fst acc), snd acc).

Lemma greedy_discover_forget (cur e : pos) (l : list pos) :
  forall acc, fold_left (greedy_discover cur e) l (forget_acc acc) =
              forget_acc (fold_left (greedy_discover cur e) l acc).
Proof.
  induction l as [|x l IH]; intros acc; cbn [fold_left]; [reflexivity|].
  rewrite <- IH. f_equal. destruct acc as [st q]. unfold forget_acc, greedy_discover.
  cbn [fst snd]. rewrite st_grid_forget, isVisited_forget, isWall_forget.
  destruct (_ && _); [|reflexivity].
  f_equal. unfold forget_st, with_grid. cbn [st_grid st_visited st_trace].
  rewrite manhattan_forget.
  rewrite forget_upd by (intros n; apply norm_set_heuristic).
  rewrite forget_upd by (intros n; apply norm_set_previousNode).
  reflexivity.
Qed.

Lemma greedy_loop_forget (s e : pos) (speed : Z) (fuel : nat) :
  forall q st,
    greedy_loop fuel s e speed q (forget_st st) = forget_out (greedy_loop fuel s e speed q st).
Proof.
  induction fuel as [|fuel IH]; intros q st; cbn [greedy_loop]; [reflexivity|].
  rewrite st_grid_forget.
  rewrite (sort_by_ext (heuristic_leb (forget (st_grid st))) (heuristic_leb (st_grid st)))
    by (intros a b; unfold heuristic_leb; rewrite !node_forget, !norm_heuristic; reflexivity).
  destruct (sort_by _ q) as [|cur rest]; [reflexivity|].
  rewrite isWall_forget, isVisited_forget.
  destruct (_ || _); [apply IH|].
  rewrite forget_visit, forget_pause.
  destruct (pos_eqb cur e).
  - rewrite st_grid_forget, reconstructPath_forget.
    destruct (reconstructPath _ e); [apply forget_finish_found | reflexivity].
  - rewrite st_grid_forget, getNeighbors_forget.
    change (forget_st (pause s e speed cur (visit cur st)), rest)
      with (forget_acc (pause s e speed cur (visit cur st), rest)).
    rewrite greedy_discover_forget.
    destruct (fold_left _ _ _) as [st2 q2]. cbn [forget_acc fst snd]. apply IH.
Qed.

End Heuristic.

(** ** dijkstra and bfs *)

Section Distance.

Hypothesis norm_distance : forall n, distance (norm n) = distance n.
Hypothesis norm_set_distance :
  forall d n, norm (set_distance d n) = set_distance d (norm n).

Lemma dijkstra_relax_forget (cur : pos) (l : list pos) :
  forall st, fold_left (dijkstra_relax cur) l (forget_st st) =
             forget_st (fold_left (dijkstra_relax cur) l st).
Proof.
  induction l as [|x l IH]; intros st; cbn [fold_left]; [reflexivity|].
  rewrite <- IH. f_equal. unfold dijkstra_relax.
  rewrite st_grid_forget, isVisited_forget, isWall_forget.
  destruct (_ && _); [|reflexivity].
  rewrite !node_forget, !norm_distance, <- node_forget, weight_forget.
  destruct (num_ltb _ _); [|reflexivity].
  unfold forget_st, with_grid. cbn [st_grid st_visited st_trace].
  rewrite forget_upd by (intros n; apply norm_set_distance).
  rewrite forget_upd by (intros n; apply norm_set_previousNode).
  reflexivity.
Qed.

Lemma dijkstra_loop_forget (s e : pos) (speed : Z) (fuel : nat) :
  forall q st,
    dijkstra_loop fuel s e speed q (forget_st st) =
    forget_out (dijkstra_loop fuel s e speed q st).
Proof.
  induction fuel as [|fuel IH]; intros q st; cbn [dijkstra_loop]; [reflexivity|].
  rewrite st_grid_forget.
  rewrite (sort_by_ext (distance_leb (forget (st_grid st))) (distance_leb (st_grid st)))
    by (intros a b; unfold distance_leb; rewrite !node_forget, !norm_distance; reflexivity).
  destruct (sort_by _ q) as [|cur rest]; [reflexivity|].
  rewrite isWall_forget, node_forget, norm_distance.
  destruct (_ || _); [reflexivity|].
  rewrite forget_visit, forget_pause.
  destruct (pos_eqb cur e).
  - rewrite st_grid_forget, reconstructPath_forget.
    destruct (reconstructPath _ e); [apply forget_finish_found | reflexivity].
  - rewrite st_grid_forget, getNeighbors_forget, dijkstra_relax_forget. apply IH.
Qed.

Lemma bfs_discover_forget (cur : pos) (l : list pos) :
  forall acc, fold_left (bfs_discover cur) l (forget_acc acc) =
              forget_acc (fold_left (bfs_discover cur) l acc).
Proof.
  induction l as [|x l IH]; intros acc; cbn [fold_left]; [reflexivity|].
  rewrite <- IH. f_equal. destruct acc as [st q]. unfold forget_acc, bfs_discover.
  cbn [fst snd]. rewrite st_grid_forget, isVisited_forget, isWall_forget.
  destruct (_ && _); [|reflexivity].
  f_equal.
  unfold forget_st, with_grid, push_visited. cbn [st_grid st_visited st_trace].
  rewrite node_forget, norm_distance.
  rewrite forget_upd by (intros n; apply norm_set_isVisited).
  rewrite forget_upd by (intros n; apply norm_set_distance).
  rewrite forget_upd by (intros n; apply norm_set_previousNode).
  reflexivity.
Qed.

Lemma bfs_loop_forget (s e : pos) (speed : Z) (fuel : nat) :
  forall q st,
    bfs_loop fuel s e speed q (forget_st st) = forget_out (bfs_loop fuel s e speed q st).
Proof.
  induction fuel as [|fuel IH]; intros q st; cbn [bfs_loop]; [reflexivity|].
  destruct q as [|cur rest]; [reflexivity|].
  rewrite forget_emit, forget_pause.
  destruct (pos_eqb cur e).
  - rewrite st_grid_forget, reconstructPath_forget.
    destruct (reconstructPath _ e); [apply forget_finish_found | reflexivity].
  - rewrite st_grid_forget, getNeighbors_forget.
    change (forget_st (pause s e speed cur (emit (Visit cur) st)), rest)
      with (forget_acc (pause s e speed cur (emit (Visit cur) st), rest)).
    rewrite bfs_discover_forget.
    destruct (fold_left _ _ _) as [st2 q2]. cbn [forget_acc fst snd]. apply IH.
Qed.

End Distance.

End Forget.

(** What the page shows of a node: the layout, the two marks and the
    parent link. *)
Definition shown (n : GridNode) : Z * Z * bool * bool * bool * Z * bool * bool * option pos :=
  (layout n, isVisited n, isPath n, previousNode n).

(** Two runs with the same outcome: the same result record, the same
    events, and final grids that show the same. *)
Definition same_run (o o' : outcome (state * AlgorithmResult)) : Prop :=
  match o, o' with
  | Returned (st, r), Returned (st', r') =>
      r = r' /\ st_trace st = st_trace st' /\
      map (map shown) (st_grid st) = map (map shown) (st_grid st')
  | Throws, Throws => True
  | OutOfFuel, OutOfFuel => True
  | _, _ => False
  end.

Lemma same_run_refl (o : outcome (state * AlgorithmResult)) : same_run o o.
Proof. destruct o as [[st r]| |]; cbn; auto. Qed.

Lemma forget_same (norm : GridNode -> GridNode) (o o' : outcome (state * AlgorithmResult)) :
  (forall n, shown (norm n) = shown n) ->
  forget_out norm o = forget_out norm o' -> same_run o o'.
Proof.
  intros Hn H. destruct o as [[st r]| |], o' as [[st' r']| |]; cbn in *; try discriminate; auto.
  injection H as Hg Hv Ht Hr. split; [assumption|]. split; [assumption|].
  fold (view shown (st_grid st)). fold (view shown (st_grid st')).
  rewrite <- (view_reset shown (st_grid st) norm Hn), <- (view_reset shown (st_grid st') norm Hn).
  unfold forget in Hg. rewrite Hg. reflexivity.
Qed.

(** The node with the given layout and nothing else. *)
Definition rebuild (l : Z * Z * bool * bool * bool * Z) : GridNode :=
  let '(r, c, s, e, w, wt) := l in mkNode r c s e w false false PosInf 0 wt None.

Definition blank (g : Grid) : Grid := map (map (fun n => rebuild (layout n))) g.

Section SameLayout.

Variables g g' : Grid.
Hypothesis Hlayout : map (map layout) g = map (map layout) g'.

Lemma blank_layout : blank g = blank g'.
Proof.
  assert (H : forall x : Grid, blank x = map (map rebuild) (map (map layout) x)).
  { intros x. unfold blank. rewrite map_map. apply map_ext. intros r.
    rewrite map_map. reflexivity. }
  rewrite (H g), (H g'), Hlayout. reflexivity.
Qed.

Lemma layout_static : static g = static g'.
Proof.
  unfold static.
  assert (H : forall x : Grid,
            map (map node_static) x =
            map (map (fun l : Z * Z * bool * bool * bool * Z =>
                        let '(r, c, _, _, w, wt) := l in (r, c, w, wt)))
                (map (map layout) x)).
  { intros x. rewrite map_map. apply map_ext. intros r. rewrite map_map. reflexivity. }
  rewrite (H g), (H g'), Hlayout. reflexivity.
Qed.

Lemma layout_get (p : pos) : grid_get g p = None <-> grid_get g' p = None.
Proof.
  pose proof (static_get g g' p layout_static) as H.
  destruct (grid_get g p), (grid_get g' p); cbn in H; split; congruence.
Qed.

Lemma forget_blank (norm reset : GridNode -> GridNode) (x : Grid) :
  (forall n, norm (reset n) = rebuild (layout n)) ->
  forget norm (reset_grid reset x) = blank x.
Proof.
  intros H. unfold forget, reset_grid, blank. rewrite map_map.
  apply map_ext. intros r. rewrite map_map. apply map_ext. assumption.
Qed.

Lemma resolve_layout (f f' : GridNode -> GridNode) (s e : pos)
      (k k' : unit -> outcome (state * AlgorithmResult)) (norm : GridNode -> GridNode) :
  forget_out norm (k tt) = forget_out norm (k' tt) ->
  forget_out norm (resolve (reset_grid f g) s e k) =
  forget_out norm (resolve (reset_grid f' g') s e k').
Proof.
  intros H. unfold resolve. rewrite !grid_get_reset.
  pose proof (layout_get s) as Hs. pose proof (layout_get e) as He.
  destruct (grid_get g s), (grid_get g' s), (grid_get g e), (grid_get g' e);
    cbn [option_map]; try reflexivity; try assumption;
    try (exfalso; destruct Hs as [Hs1 Hs2]; destruct He as [He1 He2];
         first [discriminate (Hs1 eq_refl) | discriminate (Hs2 eq_refl)
               | discriminate (He1 eq_refl) | discriminate (He2 eq_refl)]).
Qed.

Definition drop_heuristic (n : GridNode) : GridNode := set_heuristic 0 n.
Definition drop_distance (n : GridNode) : GridNode := set_distance PosInf n.
Definition drop_both (n : GridNode) : GridNode := set_heuristic 0 (set_distance PosInf n).

Lemma dijkstra_layout (s e : pos) (speed : Z) :
  forget_out drop_heuristic (dijkstra g s e speed) =
  forget_out drop_heuristic (dijkstra g' s e speed).
Proof.
  unfold dijkstra. apply resolve_layout.
  rewrite <- !dijkstra_loop_forget; try (repeat intro; reflexivity).
  unfold forget_st, with_grid. cbn [st_grid st_visited st_trace].
  rewrite <- !forget_upd by (intros; reflexivity).
  rewrite !(forget_blank drop_heuristic dijkstra_reset) by (intros [] ; reflexivity).
  rewrite blank_layout, (static_cells _ _ layout_static), (static_positions _ _ layout_static).
  reflexivity.
Qed.

Lemma bfs_layout (s e : pos) (speed : Z) :
  forget_out drop_heuristic (bfs g s e speed) = forget_out drop_heuristic (bfs g' s e speed).
Proof.
  unfold bfs. apply resolve_layout.
  rewrite <- !bfs_loop_forget; try (repeat intro; reflexivity).
  unfold forget_st, with_grid. cbn [st_grid st_visited st_trace].
  rewrite <- !forget_upd by (intros; reflexivity).
  rewrite !(forget_blank drop_heuristic bfs_reset) by (intros [] ; reflexivity).
  rewrite blank_layout, (static_cells _ _ layout_static).
  reflexivity.
Qed.

Lemma greedy_layout (s e : pos) (speed : Z) :
  forget_out drop_distance (greedy g s e speed) = forget_out drop_distance (greedy g' s e speed).
Proof.
  unfold greedy. apply resolve_layout.
  rewrite <- !greedy_loop_forget; try (repeat intro; reflexivity).
  unfold forget_st, with_grid. cbn [st_grid st_visited st_trace].
  rewrite <- !forget_upd by (intros; reflexivity).
  rewrite !(forget_blank drop_distance greedy_reset) by (intros [] ; reflexivity).
  assert (Hm : manhattan (reset_grid greedy_reset g) s e =
               manhattan (reset_grid greedy_reset g') s e).
  { apply static_manhattan. rewrite !static_reset by (intros n; reflexivity).
    apply layout_static. }
  rewrite Hm, blank_layout, (static_cells _ _ layout_static).
  reflexivity.
Qed.

Lemma dfs_layout (s e : pos) (speed : Z) :
  forget_out drop_both (dfs g s e speed) = forget_out drop_both (dfs g' s e speed).
Proof.
  unfold dfs. apply resolve_layout.
  rewrite <- !dfs_forget; try (repeat intro; reflexivity).
  unfold forget_st, with_grid. cbn [st_grid st_visited st_trace].
  rewrite !(forget_blank drop_both dfs_reset) by (intros [] ; reflexivity).
  rewrite blank_layout, (static_cells _ _ layout_static).
  reflexivity.
Qed.

Lemma bidirectional_layout (s e : pos) (speed : Z) :
  forget_out drop_both (bidirectional g s e speed) =
  forget_out drop_both (bidirectional g' s e speed).
Proof.
  unfold bidirectional. apply resolve_layout.
  rewrite <- !bidi_forget; try (repeat intro; reflexivity).
  unfold forget_st, with_grid. cbn [st_grid st_visited st_trace].
  rewrite !(forget_blank drop_both bidi_reset) by (intros [] ; reflexivity).
  assert (Hk : forall p, nodeKey (node (reset_grid bidi_reset g) p) =
                         nodeKey (node (reset_grid bidi_reset g') p)).
  { intros p. apply (static_key (reset_grid bidi_reset g) (reset_grid bidi_reset g') p).
    rewrite !static_reset by (intros n; reflexivity). apply layout_static. }
  rewrite !Hk, blank_layout, (static_cells _ _ layout_static).
  reflexivity.
Qed.

Lemma astar_layout (s e : pos) (speed : Z) : astar g s e speed = astar g' s e speed.
Proof.
  unfold astar.
  assert (H : forall x, reset_grid astar_reset x = blank x).
  { intros x. unfold reset_grid, blank. apply map_ext. intros r. apply map_ext.
    intros []. reflexivity. }
  rewrite !H, blank_layout, (static_cells _ _ layout_static). reflexivity.
Qed.

End SameLayout.

(** A search does not depend on what an earlier run, or anything else, left
    in the fields of the nodes other than the layout: on two grids with the
    same rows, columns, start and end marks, walls and weights, each of the
    six searches has the same outcome: it returns the same record (path,
    visitedNodes, statistics) after the same events, leaving grids that show
    the same marks and parent links, or fails in the same way. *)
Theorem searches_ignore_old_marks (a : Algorithm) (g g' : Grid) (s e : pos) (speed : Z) :
  map (map layout) g = map (map layout) g' ->
  same_run (algorithms a g s e speed) (algorithms a g' s e speed).
Proof.
  intros H. destruct a; cbn [algorithms].
  - apply (forget_same drop_heuristic); [intros n; reflexivity | apply dijkstra_layout, H].
  - rewrite (astar_layout g g' H). apply same_run_refl.
  - apply (forget_same drop_heuristic); [intros n; reflexivity | apply bfs_layout, H].
  - apply (forget_same drop_both); [intros n; reflexivity | apply dfs_layout, H].
  - apply (forget_same drop_distance); [intros n; reflexivity | apply greedy_layout, H].
  - apply (forget_same drop_both); [intros n; reflexivity | apply bidirectional_layout, H].
Qed.

Lemma searches_ignore_old_marks_witness :
  let used := st_grid (fst (run_result (algorithms Astar sample_grid (0, 0) (2, 2) 50))) in
  same_run (algorithms Dijkstra used (0, 0) (2, 2) 50)
           (algorithms Dijkstra sample_grid (0, 0) (2, 2) 50).
Proof.
  cbv zeta. apply searches_ignore_old_marks. vm_compute. reflexivity.
Defined.


(* ================================================================== *)
(** * The cells a search visits *)
(* ================================================================== *)

(** [visitedNodes] stays inside a region, and fills it when the search
    fails. *)
Definition explored (region : pos -> Prop) (out : state * AlgorithmResult) : Prop :=
  (forall x, In x (visitedNodes (snd out)) -> region x) /\
  (pathFound (stats (snd out)) = false ->
   forall x, region x -> In x (visitedNodes (snd out))).

Lemma tree_connected (g0 : Grid) (prev : pos -> option pos) (link : pos -> pos -> Prop)
      (s : pos) (vs : list pos) :
  (forall a b, link a b -> open g0 b /\ adjacent a b) -> open g0 s ->
  search_tree prev link s vs -> forall x, In x vs -> connected g0 s x.
Proof.
  intros Hl Hs Ht x Hx. destruct (follow_tree _ _ _ _ Ht x Hx) as (p & Hp & _).
  exists p. apply (trail_is_path g0 link); assumption.
Qed.

Lemma explored_found (region : pos -> Prop) (s e : pos) (p : list pos) (st : state) :
  (forall x, In x (st_visited st) -> region x) ->
  explored region (finish_found s e p st).
Proof. intros H. split; [exact H | discriminate]. Qed.

Section Explore.

Variable g0 : Grid.
Variables s e : pos.
Hypothesis Hin : valid_input g0 s e.

Lemma bfs_loop_explores (speed : Z) (fuel : nat) :
  forall st done queue cur0 out,
    bfs_inv g0 s e st done queue cur0 [] ->
    bfs_loop fuel s e speed queue st = Returned out ->
    explored (connected g0 s) out.
Proof.
  induction fuel as [|fuel IH]; intros st done queue cur0 out I H; cbn [bfs_loop] in H;
    [discriminate|].
  assert (Hreg : forall x, In x (st_visited st) -> connected g0 s x).
  { apply (tree_connected g0 (prev_of (st_grid st)) (bfs_link g0 (st_grid st))).
    - intros a b [Ho [Ha _]]. split; assumption.
    - apply Hin.
    - apply (bi_tree _ _ _ _ _ _ _ _ I). }
  destruct queue as [|cur rest].
  - injection H as <-. split; [exact Hreg|].
    intros _ x Hx. cbn [snd finish_not_found not_found_result visitedNodes].
    assert (Hvis : st_visited st = done).
    { rewrite (bi_visited _ _ _ _ _ _ _ _ I). apply app_nil_r. }
    destruct (connected_walk g0 unit_cost s x Hx) as [c Hw].
    rewrite Hvis.
    apply (closed_reach g0 unit_cost s (fun y => In y done)) with (v := x) (c := c).
    + rewrite <- Hvis. apply (search_tree_root _ _ _ _ (bi_tree _ _ _ _ _ _ _ _ I)).
    + intros u v Hu Hs.
      destruct (bi_closed _ _ _ _ _ _ _ _ I u v Hu Hs) as [[Hv _] | [_ []]].
      rewrite <- Hvis. assumption.
    + assumption.
  - destruct (pos_eqb cur e) eqn:Ecur.
    + destruct (reconstructPath _ e); [|discriminate]. injection H as <-.
      apply explored_found. rewrite pause_visited. exact Hreg.
    + apply pos_eqb_neq in Ecur.
      pose proof (bfs_pop g0 s e Hin _ _ _ _ _ speed I Ecur) as I1.
      cbv zeta in I1.
      pose proof (bfs_fold g0 s e Hin _ _ _ _ _ I1) as I2.
      destruct (fold_left (bfs_discover cur)
                  (getNeighbors (st_grid (pause s e speed cur (emit (Visit cur) st))) cur)
                  (pause s e speed cur (emit (Visit cur) st), rest)) as [st2 queue2].
      apply (IH st2 (done ++ [cur]) queue2 cur out I2 H).
Qed.

Lemma bfs_explores (speed : Z) (out : state * AlgorithmResult) :
  bfs g0 s e speed = Returned out -> explored (connected g0 s) out.
Proof.
  unfold bfs, resolve. intros H.
  destruct (grid_get _ s); [|discriminate]. destruct (grid_get _ e); [|discriminate].
  apply (bfs_loop_explores speed _ _ [] [s] s out (bfs_init g0 s e Hin) H).
Qed.

Lemma greedy_loop_explores (speed : Z) (fuel : nat) :
  forall st openSet cur0 out,
    gr_inv g0 s st openSet cur0 [] ->
    greedy_loop fuel s e speed openSet st = Returned out ->
    explored (connected g0 s) out.
Proof.
  induction fuel as [|fuel IH]; intros st openSet cur0 out I H; cbn [greedy_loop] in H;
    [discriminate|].
  assert (Hreg : forall st' o c p, gr_inv g0 s st' o c p ->
                 forall x, In x (st_visited st') -> connected g0 s x).
  { intros st' o c p I' x Hx.
    apply (tree_connected g0 (prev_of (st_grid st')) (plain_link g0) s (st_visited st'));
      [auto | apply Hin | | assumption].
    apply (gi_tree _ _ _ _ _ _ I'). intros E. rewrite E in Hx. destruct Hx. }
  pose proof (sort_by_perm _ (heuristic_leb (st_grid st)) openSet) as Hperm.
  destruct (sort_by (heuristic_leb (st_grid st)) openSet) as [|cur rest].
  - apply Permutation_nil in Hperm. subst openSet.
    injection H as <-. split; [exact (Hreg _ _ _ _ I)|].
    intros _ x Hx. cbn [snd finish_not_found not_found_result visitedNodes].
    destruct (connected_walk g0 unit_cost s x Hx) as [c Hw].
    apply (closed_reach g0 unit_cost s (fun y => In y (st_visited st))) with (v := x) (c := c).
    + destruct (in_dec pos_eq_dec s (st_visited st)) as [Hs|Hs]; [assumption|].
      destruct (gi_first _ _ _ _ _ _ I Hs) as [[] _].
    + intros u v Hu Hs.
      destruct (gi_closed _ _ _ _ _ _ I u v Hu Hs) as [Hv | [[] | [_ []]]]. assumption.
    + assumption.
  - assert (HcurO : In cur openSet).
    { apply (Permutation_in _ Hperm). left; reflexivity. }
    destruct (gi_member _ _ _ _ _ _ I cur HcurO) as [[Hvcur Hwcur] Hncur].
    rewrite (static_isWall _ g0 cur (gi_static _ _ _ _ _ _ I)), Hwcur in H.
    destruct (isVisited (node (st_grid st) cur)) eqn:Evis.
    { apply (gi_flag _ _ _ _ _ _ I cur Hvcur) in Evis. contradiction. }
    cbn [orb] in H.
    pose proof (gr_pop g0 s e Hin _ _ _ _ _ speed I Hperm) as I1. cbv zeta in I1.
    destruct (pos_eqb cur e) eqn:Ecur.
    + destruct (reconstructPath _ e); [|discriminate]. injection H as <-.
      apply explored_found. exact (Hreg _ _ _ _ I1).
    + pose proof (gr_fold g0 s e Hin _ _ _ _ I1) as I2.
      destruct (fold_left (greedy_discover cur e) _ _) as [st2 openSet2].
      cbn [fst snd] in I2.
      apply (IH _ _ cur out I2 H).
Qed.

Lemma greedy_explores (speed : Z) (out : state * AlgorithmResult) :
  greedy g0 s e speed = Returned out -> explored (connected g0 s) out.
Proof.
  unfold greedy, resolve. intros H.
  destruct (grid_get _ s); [|discriminate]. destruct (grid_get _ e); [|discriminate].
  apply (greedy_loop_explores speed _ _ [s] s out (gr_init g0 s e Hin) H).
Qed.

Lemma dfs_explores (speed : Z) (out : state * AlgorithmResult) :
  dfs g0 s e speed = Returned out -> explored (connected g0 s) out.
Proof.
  unfold dfs, resolve. intros H.
  pose proof Hin as [Hwf [Hvs Hws] [Hve Hwe]].
  destruct (grid_get _ s); [|discriminate]. destruct (grid_get _ e); [|discriminate].
  assert (I0 : dfs_inv g0 s (mkState (reset_grid dfs_reset g0) [] [])).
  { constructor; simpl.
    - apply static_reset. intros n; reflexivity.
    - congruence.
    - intros p Hp. rewrite node_reset by assumption. simpl. split; [discriminate | tauto].
    - tauto.
    - unfold prev_of. rewrite node_reset by assumption. reflexivity. }
  destruct (dfsRecursive_correct g0 s e Hin speed (S (cells g0)) s _ I0)
    as [st [b [new [Hrun [Hvis [I Hb]]]]]].
  { simpl. tauto. }
  { split; assumption. }
  { simpl. tauto. }
  { left. split; reflexivity. }
  { simpl. lia. }
  rewrite Hrun in H. simpl in Hvis.
  assert (Htree : search_tree (prev_of (st_grid st)) (plain_link g0) s (st_visited st)).
  { apply (fi_tree _ _ _ I). rewrite Hvis. discriminate. }
  assert (Hreg : forall x, In x (st_visited st) -> connected g0 s x).
  { apply (tree_connected g0 (prev_of (st_grid st)) (plain_link g0));
      [auto | split; assumption | assumption]. }
  destruct b.
  - destruct (reconstructPath _ e); [|discriminate]. injection H as <-.
    apply explored_found. exact Hreg.
  - injection H as <-. split; [exact Hreg|].
    intros _ x Hx. cbn [snd finish_not_found not_found_result visitedNodes].
    destruct Hb as [_ Hcl].
    destruct (connected_walk g0 unit_cost s x Hx) as [c Hw].
    apply (closed_reach g0 unit_cost s (fun y => In y (st_visited st))) with (v := x) (c := c).
    + rewrite Hvis. left; reflexivity.
    + intros u v Hu Hs. apply (Hcl u v Hu); [simpl; tauto | assumption].
    + assumption.
Qed.

Lemma dijkstra_loop_explores (speed : Z) (fuel : nat) :
  (forall p, open g0 p -> 0 <= weight_of g0 p) ->
  forall st unvisited cur0 out,
    dij_inv g0 s st unvisited cur0 [] ->
    dijkstra_loop fuel s e speed unvisited st = Returned out ->
    explored (connected g0 s) out.
Proof.
  intros Hw.
  induction fuel as [|fuel IH]; intros st unvisited cur0 out I H; cbn [dijkstra_loop] in H;
    [discriminate|].
  assert (Hreg : forall st' u c p, dij_inv g0 s st' u c p ->
                 forall x, In x (st_visited st') -> connected g0 s x).
  { intros st' u c p I' x Hx.
    apply (tree_connected g0 (prev_of (st_grid st')) (dij_link g0 (st_grid st')) s
                          (st_visited st')); [| apply Hin | | assumption].
    - intros a b [Ho [Ha _]]. split; assumption.
    - apply (di_tree _ _ _ _ _ _ I'). intros E. rewrite E in Hx. destruct Hx. }
  destruct (sort_by (distance_leb (st_grid st)) unvisited) as [|cur rest] eqn:Hsort.
  - apply sort_by_nil in Hsort. subst unvisited.
    injection H as <-. split; [exact (Hreg _ _ _ _ I)|].
    intros _ x [l Hl]. cbn [snd finish_not_found not_found_result visitedNodes].
    destruct (in_dec pos_eq_dec x (st_visited st)) as [Hx|Hx]; [assumption|].
    exfalso. apply (proj2 (di_unvisited _ _ _ _ _ _ I x)).
    split; [apply (is_path_open_end g0 s x l Hl) | assumption].
  - destruct (distance_leb_head _ _ _ _ Hsort) as [Hperm Hmin].
    assert (HcurU : In cur unvisited).
    { apply (Permutation_in _ Hperm). left; reflexivity. }
    destruct (proj1 (di_unvisited _ _ _ _ _ _ I cur) HcurU) as [Hvcur Hncur].
    destruct (isWall (node (st_grid st) cur) || is_inf (distance (node (st_grid st) cur)))
      eqn:Etest.
    + injection H as <-. split; [exact (Hreg _ _ _ _ I)|].
      intros _ x Hx. cbn [snd finish_not_found not_found_result visitedNodes].
      destruct (in_dec pos_eq_dec x (st_visited st)) as [Hvx|Hvx]; [assumption|].
      exfalso. destruct (connected_walk g0 (weight_of g0) s x Hx) as [c Hwk].
      destruct (dij_front_valid g0 s e Hin Hw _ _ _ _ _ I Hwk Hvx) as [z [[Hz1 [Hz2 Hz3]] _]].
      assert (HzU : In z unvisited) by (apply (di_unvisited _ _ _ _ _ _ I); split; assumption).
      specialize (Hmin z HzU). rewrite Hz3 in Hmin.
      destruct (distance (node (st_grid st) cur)) as [zc|] eqn:Hdc; [|discriminate].
      simpl in Etest. rewrite orb_false_r in Etest.
      rewrite (static_isWall _ g0 cur (di_static _ _ _ _ _ _ I)) in Etest.
      destruct (di_front _ _ _ _ _ _ I cur zc Hvcur Hncur Hdc) as [[-> _] | [u [_ [_ [Ho _]]]]].
      * destruct Hin as [_ [_ Hws] _]. congruence.
      * destruct Ho as [_ Ho]. congruence.
    + apply orb_false_iff in Etest. destruct Etest as [Hwall Hinf].
      pose proof (dij_pop g0 s e Hin Hw _ _ _ _ _ speed I Hsort Hwall Hinf) as I1.
      cbv zeta in I1.
      destruct (pos_eqb cur e) eqn:Ecur.
      * destruct (reconstructPath _ e); [|discriminate]. injection H as <-.
        apply explored_found. exact (Hreg _ _ _ _ I1).
      * apply (IH _ rest cur out (dij_fold g0 s e Hin _ _ _ _ I1) H).
Qed.

Lemma dijkstra_explores (speed : Z) (out : state * AlgorithmResult) :
  (forall p, open g0 p -> 0 <= weight_of g0 p) ->
  dijkstra g0 s e speed = Returned out -> explored (connected g0 s) out.
Proof.
  intros Hw. unfold dijkstra, resolve. intros H.
  destruct (grid_get _ s); [|discriminate]. destruct (grid_get _ e); [|discriminate].
  apply (dijkstra_loop_explores speed _ Hw _ _ s out (dij_init g0 s e Hin) H).
Qed.

Lemma astar_loop_explores (speed : Z) (fuel : nat) :
  (forall p, open g0 p -> 1 <= weight_of g0 p) ->
  forall st openSet cur0 out,
    ast_inv g0 s e st openSet cur0 [] ->
    astar_loop fuel s e speed openSet st = Returned out ->
    explored (connected g0 s) out.
Proof.
  intros Hw.
  induction fuel as [|fuel IH]; intros st openSet cur0 out I H; cbn [astar_loop] in H;
    [discriminate|].
  assert (Hreg : forall st' u c p, ast_inv g0 s e st' u c p ->
                 forall x, In x (st_visited st') -> connected g0 s x).
  { intros st' u c p I' x Hx.
    apply (tree_connected g0 (prev_of (st_grid st')) (dij_link g0 (st_grid st')) s
                          (st_visited st')); [| apply Hin | | assumption].
    - intros a b [Ho [Ha _]]. split; assumption.
    - apply (ai_tree _ _ _ _ _ _ _ I'). intros E. rewrite E in Hx. destruct Hx. }
  destruct (sort_by (fscore_leb (st_grid st)) openSet) as [|cur rest] eqn:Hsort.
  - apply sort_by_nil in Hsort. subst openSet.
    injection H as <-. split; [exact (Hreg _ _ _ _ I)|].
    intros _ x Hx. cbn [snd finish_not_found not_found_result visitedNodes].
    destruct (in_dec pos_eq_dec x (st_visited st)) as [Hvx|Hvx]; [assumption|].
    exfalso. destruct (connected_walk g0 (weight_of g0) s x Hx) as [c Hwk].
    destruct (ast_front g0 s e Hin Hw _ _ _ _ _ I Hwk Hvx) as [z [[] _]].
  - destruct (fscore_leb_head _ _ _ _ Hsort) as [Hperm Hmin].
    assert (HcurO : In cur openSet).
    { apply (Permutation_in _ Hperm). left; reflexivity. }
    destruct (ai_member _ _ _ _ _ _ _ I cur HcurO) as [[Hvcur Hwcur] [Hncur _]].
    rewrite (static_isWall _ g0 cur (ai_static _ _ _ _ _ _ _ I)), Hwcur in H.
    pose proof (ast_pop g0 s e Hin Hw _ _ _ _ _ speed I Hsort) as I1. cbv zeta in I1.
    destruct (pos_eqb cur e) eqn:Ecur.
    + destruct (reconstructPath _ e); [|discriminate]. injection H as <-.
      apply explored_found. exact (Hreg _ _ _ _ I1).
    + pose proof (ast_fold g0 s e Hin _ _ _ _ I1) as I2.
      destruct (fold_left (astar_relax cur e) _ _) as [st2 openSet2].
      cbn [fst snd] in I2.
      apply (IH _ _ cur out I2 H).
Qed.

Lemma astar_explores (speed : Z) (out : state * AlgorithmResult) :
  (forall p, open g0 p -> 1 <= weight_of g0 p) ->
  astar g0 s e speed = Returned out -> explored (connected g0 s) out.
Proof.
  intros Hw. unfold astar, resolve. intros H.
  destruct (grid_get _ s); [|discriminate]. destruct (grid_get _ e); [|discriminate].
  apply (astar_loop_explores speed _ Hw _ _ s out (ast_init g0 s e Hin) H).
Qed.

(** The cells joined to the start or to the end. *)
Definition both_regions (x : pos) : Prop := connected g0 s x \/ connected g0 e x.

Lemma bidi_half_visited (dedup : bool) (speed : Z) (me other : side) (st : state) :
  match bidi_half dedup s e speed me other st with
  | Meet m st' => forall x, In x (st_visited st') -> In x (st_visited st) \/ x = m
  | Continue _ _ => True
  end.
Proof.
  unfold bidi_half. destruct (sd_queue me) as [|cur rest]; [exact Logic.I|].
  cbv zeta.
  match goal with |- context [set_has ?k ?v] => destruct (set_has k v) end; [|exact Logic.I].
  intros x Hx.
  destruct (negb (pos_eqb cur s) && negb (pos_eqb cur e));
    destruct (dedup && includes _ cur);
    cbn [st_visited emit push_visited with_grid] in Hx;
    try (left; exact Hx);
    (apply in_app_or in Hx; destruct Hx as [Hx | [<- | []]]; [left; assumption | right; reflexivity]).
Qed.

Lemma side_connected (r : pos) (sd : side) (done : list pos) (d : pos -> Z) :
  open g0 r -> side_inv g0 r sd done d r [] ->
  forall x, In x (done ++ sd_queue sd) -> connected g0 r x.
Proof.
  intros Hr IS.
  apply (tree_connected g0 (par_of g0 sd) (bidi_link g0 d)); [| assumption |].
  - intros a b [Ho [Ha _]]. split; assumption.
  - apply (si_tree _ _ _ _ _ _ _ IS).
Qed.

Lemma bidi_loop_explores (speed : Z) (fuel : nat) :
  forall st ss es doneS doneE dS dE res,
    pair_inv g0 st s e ss es doneS doneE dS dE ->
    bidi_loop fuel s e speed ss es st = Returned res ->
    (forall x, In x (st_visited (snd res)) -> both_regions x) /\
    (fst (fst (fst res)) = None -> forall x, both_regions x -> In x (st_visited (snd res))).
Proof.
  induction fuel as [|fuel IH]; intros st ss es doneS doneE dS dE res I H;
    cbn [bidi_loop] in H; [discriminate|].
  pose proof Hin as [Hwf Hos Hoe].
  assert (Hreg : forall st' ss' es' dS' dE' a b,
            pair_inv g0 st' s e ss' es' dS' dE' a b ->
            forall x, In x (st_visited st') -> both_regions x).
  { intros st' ss' es' dS' dE' a b I' x Hx.
    apply (pi_visited _ _ _ _ _ _ _ _ _ _ I') in Hx. destruct Hx as [Hx | Hx].
    - left. apply (side_connected s ss' dS' a Hos (pi_me _ _ _ _ _ _ _ _ _ _ I')).
      apply in_or_app. left. assumption.
    - right. apply (side_connected e es' dE' b Hoe (pi_other _ _ _ _ _ _ _ _ _ _ I')).
      apply in_or_app. left. assumption. }
  assert (Hbody :
      match bidi_half false s e speed ss es st with
      | Meet m st1 => Returned (Some m, ss, es, st1)
      | Continue ss1 st1 =>
          match bidi_half true s e speed es ss1 st1 with
          | Meet m st2 => Returned (Some m, ss1, es, st2)
          | Continue es1 st2 => bidi_loop fuel s e speed ss1 es1 st2
          end
      end = Returned res ->
      (forall x, In x (st_visited (snd res)) -> both_regions x) /\
      (fst (fst (fst res)) = None ->
       forall x, both_regions x -> In x (st_visited (snd res)))).
  { clear H. intros H.
    pose proof (half_correct g0 s e Hin false speed st s e ss es _ _ _ _ Hos Hoe I) as H1.
    pose proof (bidi_half_visited false speed ss es st) as Hv1.
    destruct (bidi_half false s e speed ss es st) as [m st1 | ss1 st1].
    - destruct H1 as [_ [[rest Hq] _]]. injection H as <-. cbn [fst snd].
      split; [|discriminate].
      intros x Hx. destruct (Hv1 x Hx) as [Hx' | ->]; [apply (Hreg _ _ _ _ _ _ _ I x Hx')|].
      left. apply (side_connected s ss doneS dS Hos (pi_me _ _ _ _ _ _ _ _ _ _ I)).
      rewrite Hq. apply in_or_app. right. left. reflexivity.
    - assert (H1' : exists doneS1 dS1, pair_inv g0 st1 s e ss1 es doneS1 doneE dS1 dE).
      { destruct H1 as [[Hq [-> ->]] | [cur [rest [dS1 [Hq I1]]]]].
        - exists doneS, dS. assumption.
        - exists (doneS ++ [cur]), dS1. assumption. }
      destruct H1' as [doneS1 [dS1 I1]].
      pose proof (half_correct g0 s e Hin true speed st1 e s es ss1 _ _ _ _ Hoe Hos
                    (pair_inv_sym _ _ _ _ _ _ _ _ _ _ I1)) as H2.
      pose proof (bidi_half_visited true speed es ss1 st1) as Hv2.
      destruct (bidi_half true s e speed es ss1 st1) as [m st2 | es1 st2].
      + destruct H2 as [_ [[rest Hq] _]]. injection H as <-. cbn [fst snd].
        split; [|discriminate].
        intros x Hx. destruct (Hv2 x Hx) as [Hx' | ->]; [apply (Hreg _ _ _ _ _ _ _ I1 x Hx')|].
        right. apply (side_connected e es doneE dE Hoe (pi_other _ _ _ _ _ _ _ _ _ _ I1)).
        rewrite Hq. apply in_or_app. right. left. reflexivity.
      + assert (H2' : exists doneE1 dE1, pair_inv g0 st2 s e ss1 es1 doneS1 doneE1 dS1 dE1).
        { destruct H2 as [[Hq [-> ->]] | [cur [rest [dE1 [Hq I2]]]]].
          - exists doneE, dE. assumption.
          - exists (doneE ++ [cur]), dE1. apply pair_inv_sym. assumption. }
        destruct H2' as [doneE1 [dE1 I2]].
        apply (IH _ _ _ _ _ _ _ res I2 H). }
  destruct (sd_queue ss) as [|a qa] eqn:HqS.
  - destruct (sd_queue es) as [|b qb] eqn:HqE.
    + injection H as <-. cbn [fst snd]. split; [exact (Hreg _ _ _ _ _ _ _ I)|].
      intros _ x Hx.
      pose proof (pi_me _ _ _ _ _ _ _ _ _ _ I) as IS.
      pose proof (pi_other _ _ _ _ _ _ _ _ _ _ I) as IE.
      apply (pi_visited _ _ _ _ _ _ _ _ _ _ I).
      destruct Hx as [Hx | Hx].
      * left. destruct (connected_walk g0 unit_cost s x Hx) as [c Hw].
        apply (closed_reach g0 unit_cost s (fun y => In y doneS)) with (v := x) (c := c).
        -- pose proof (side_root _ _ _ _ _ _ _ IS) as Hr. rewrite HqS, app_nil_r in Hr.
           assumption.
        -- intros u v Hu Hs.
           destruct (si_closed _ _ _ _ _ _ _ IS u v Hu Hs) as [[Hv _] | [_ []]].
           rewrite HqS, app_nil_r in Hv. assumption.
        -- assumption.
      * right. destruct (connected_walk g0 unit_cost e x Hx) as [c Hw].
        apply (closed_reach g0 unit_cost e (fun y => In y doneE)) with (v := x) (c := c).
        -- pose proof (side_root _ _ _ _ _ _ _ IE) as Hr. rewrite HqE, app_nil_r in Hr.
           assumption.
        -- intros u v Hu Hs.
           destruct (si_closed _ _ _ _ _ _ _ IE u v Hu Hs) as [[Hv _] | [_ []]].
           rewrite HqE, app_nil_r in Hv. assumption.
        -- assumption.
    + apply Hbody. assumption.
  - apply Hbody. assumption.
Qed.

Lemma bidirectional_explores (speed : Z) (out : state * AlgorithmResult) :
  bidirectional g0 s e speed = Returned out -> explored both_regions out.
Proof.
  unfold bidirectional, resolve. intros H.
  pose proof Hin as [Hwf [Hvs Hws] [Hve Hwe]].
  destruct (grid_get _ s) as [ns|]; [|discriminate].
  destruct (grid_get _ e) as [ne|]; [|discriminate].
  set (g1 := reset_grid bidi_reset g0) in *.
  assert (Hst1 : static g1 = static g0) by (apply static_reset; intros n; reflexivity).
  fold (key g1 s) in H. fold (key g1 e) in H.
  rewrite (static_key g1 g0 s Hst1), (static_key g1 g0 e Hst1) in H.
  assert (I0 : pair_inv g0 (mkState g1 [] []) s e
                        (mkSide [s] (set_add (key g0 s) []) [])
                        (mkSide [e] (set_add (key g0 e) []) [])
                        [] [] (fun _ => 0) (fun _ => 0)).
  { constructor; simpl; try tauto.
    - intros p Hp. unfold g1. rewrite node_reset by assumption. simpl.
      split; [discriminate | tauto].
    - constructor.
    - apply side_init. split; assumption.
    - apply side_init. split; assumption. }
  destruct (bidi_loop _ s e speed _ _ _) as [[[[m ss'] es'] st']| |] eqn:E; try discriminate.
  destruct (bidi_loop_explores speed _ _ _ _ _ _ _ _ _ I0 E) as [Hr Hx].
  cbn [fst snd] in Hr, Hx.
  destruct m as [m|].
  - destruct (reconstructBidirectionalPath _ _ _ _); [|discriminate]. injection H as <-.
    apply explored_found. exact Hr.
  - injection H as <-. split; [exact Hr | intros _; exact (Hx eq_refl)].
Qed.

End Explore.

(** The nodes a search visits are joined to the start by an open path (for
    [bidirectional]: to the start or to the end); and when the search finds
    no path, it has visited every such node: [visitedNodes] is then the
    whole region around the start (and, for [bidirectional], around the
    end). *)
Theorem searches_visit_the_reachable_region (a : Algorithm) (g : Grid) (s e : pos)
        (speed : Z) (st : state) (r : AlgorithmResult) :
  search_input a g s e ->
  algorithms a g s e speed = Returned (st, r) ->
  let region := fun x => connected g s x \/ (a = Bidirectional /\ connected g e x) in
  (forall x, In x (visitedNodes r) -> region x) /\
  (pathFound (stats r) = false -> forall x, region x -> In x (visitedNodes r)).
Proof.
  intros [Hv Hw] H. cbv zeta.
  assert (Hone : a <> Bidirectional -> explored (connected g s) (st, r) ->
            (forall x, In x (visitedNodes r) ->
                       connected g s x \/ (a = Bidirectional /\ connected g e x)) /\
            (pathFound (stats r) = false ->
             forall x, connected g s x \/ (a = Bidirectional /\ connected g e x) ->
                       In x (visitedNodes r))).
  { intros Ha [H1 H2]. cbn [snd] in H1, H2. split.
    - intros x Hx. left. apply H1. assumption.
    - intros Hf x [Hx | [Hx _]]; [apply (H2 Hf x Hx) | contradiction]. }
  destruct a; cbn [algorithms] in H.
  - apply Hone; [discriminate|]. apply (dijkstra_explores g s e Hv speed _); [|assumption].
    intros p Hp. specialize (Hw eq_refl p Hp). unfold weight_of. lia.
  - apply Hone; [discriminate|]. apply (astar_explores g s e Hv speed _); [|assumption].
    intros p Hp. exact (Hw eq_refl p Hp).
  - apply Hone; [discriminate|]. apply (bfs_explores g s e Hv speed _ H).
  - apply Hone; [discriminate|]. apply (dfs_explores g s e Hv speed _ H).
  - apply Hone; [discriminate|]. apply (greedy_explores g s e Hv speed _ H).
  - destruct (bidirectional_explores g s e Hv speed _ H) as [H1 H2]. cbn [snd] in H1, H2.
    split.
    + intros x Hx. destruct (H1 x Hx) as [Hc | Hc]; [left | right; split]; auto.
    + intros Hf x Hx. apply (H2 Hf). destruct Hx as [Hx | [_ Hx]]; [left | right]; assumption.
Qed.

Lemma searches_visit_the_reachable_region_witness :
  let out := run_result (algorithms Bidirectional sample_blocked (0, 0) (0, 2) 50) in
  search_input Bidirectional sample_blocked (0, 0) (0, 2) /\
  algorithms Bidirectional sample_blocked (0, 0) (0, 2) 50 = Returned (fst out, snd out) /\
  (forall x, In x (visitedNodes (snd out)) ->
             connected sample_blocked (0, 0) x \/
             (Bidirectional = Bidirectional /\ connected sample_blocked (0, 2) x)) /\
  (pathFound (stats (snd out)) = false ->
   forall x, connected sample_blocked (0, 0) x \/
             (Bidirectional = Bidirectional /\ connected sample_blocked (0, 2) x) ->
             In x (visitedNodes (snd out))).
Proof.
  cbv zeta.
  assert (Hin : search_input Bidirectional sample_blocked (0, 0) (0, 2)).
  { apply search_inputb_sound. vm_compute. reflexivity. }
  assert (H : algorithms Bidirectional sample_blocked (0, 0) (0, 2) 50 =
              Returned (fst (run_result (algorithms Bidirectional sample_blocked (0, 0) (0, 2) 50)),
                        snd (run_result (algorithms Bidirectional sample_blocked (0, 0) (0, 2) 50))))
    by (vm_compute; reflexivity).
  split; [exact Hin|]. split; [exact H|].
  exact (searches_visit_the_reachable_region Bidirectional sample_blocked (0, 0) (0, 2) 50
           _ _ Hin H).
Defined.


(* ================================================================== *)
(** * The distances of dijkstra and astar *)
(* ================================================================== *)

Lemma distance_revealPath (s e : pos) (p : list pos) (st : state) (q : pos) :
  distance (node (st_grid (revealPath s e p st)) q) = distance (node (st_grid st) q).
Proof.
  pose proof (view_get distance _ _ q
                (view_revealPath distance s e p st (fun n => eq_refl))) as H.
  unfold node.
  destruct (grid_get (st_grid (revealPath s e p st)) q), (grid_get (st_grid st) q);
    cbn in H; congruence.
Qed.

Section Settled.

Variable g0 : Grid.
Variables s e : pos.
Hypothesis Hin : valid_input g0 s e.

(** Every visited node stores the weight of a lightest path from the start
    to it. *)
Definition settled (st : state) : Prop :=
  forall x, In x (st_visited st) ->
    exists l, is_path g0 s x l /\
              distance (node (st_grid st) x) = Fin (weight_sum g0 l) /\
              forall l', is_path g0 s x l' -> weight_sum g0 l <= weight_sum g0 l'.

Lemma tree_settled (st : state) :
  (st_visited st <> [] ->
   search_tree (prev_of (st_grid st)) (dij_link g0 (st_grid st)) s (st_visited st)) ->
  (forall p, In p (st_visited st) ->
             distance (node (st_grid st) p) = Fin (dist_of (st_grid st) p)) ->
  distance (node (st_grid st) s) = Fin 0 ->
  (forall x c, In x (st_visited st) -> walk g0 (weight_of g0) s x c ->
               dist_of (st_grid st) x <= c) ->
  settled st.
Proof.
  intros Htree Hfin Hs Hopt x Hx.
  assert (Ht : search_tree (prev_of (st_grid st)) (dij_link g0 (st_grid st)) s (st_visited st)).
  { apply Htree. intros E. rewrite E in Hx. destruct Hx. }
  destruct (follow_tree _ _ _ _ Ht x Hx) as (l & Hl & _).
  assert (Hpath : is_path g0 s x l).
  { apply (trail_is_path g0 (dij_link g0 (st_grid st))); [| apply Hin | assumption].
    intros a b [Ho [Ha _]]. split; assumption. }
  assert (Hcost : weight_sum g0 l = dist_of (st_grid st) x).
  { rewrite weight_sum_cost. change (fun p0 : pos => weight (node g0 p0)) with (weight_of g0).
    rewrite (trail_cost (dij_link g0 (st_grid st)) (weight_of g0) (dist_of (st_grid st)) s x l).
    - unfold dist_of at 2. rewrite Hs. lia.
    - intros a b [_ [_ Hd]]. assumption.
    - assumption. }
  exists l. split; [assumption|]. split; [rewrite Hcost; apply Hfin; assumption|].
  intros l' Hl'. rewrite Hcost, (weight_sum_cost g0 l').
  apply (Hopt x _ Hx). apply (is_path_walk g0 (weight_of g0) s x l' Hl').
Qed.

Lemma dij_settled (st : state) (u : list pos) (c : pos) (p : list pos) :
  dij_inv g0 s st u c p -> settled st.
Proof.
  intros I. apply tree_settled.
  - apply (di_tree _ _ _ _ _ _ I).
  - apply (di_fin _ _ _ _ _ _ I).
  - apply (di_start _ _ _ _ _ _ I).
  - apply (di_optimal _ _ _ _ _ _ I).
Qed.

Lemma ast_settled (st : state) (u : list pos) (c : pos) (p : list pos) :
  ast_inv g0 s e st u c p -> settled st.
Proof.
  intros I. apply tree_settled.
  - apply (ai_tree _ _ _ _ _ _ _ I).
  - apply (ai_fin _ _ _ _ _ _ _ I).
  - apply (ai_start _ _ _ _ _ _ _ I).
  - apply (ai_optimal _ _ _ _ _ _ _ I).
Qed.

Lemma dijkstra_loop_settled (speed : Z) (fuel : nat) :
  (forall p, open g0 p -> 0 <= weight_of g0 p) ->
  forall st unvisited cur0 out,
    dij_inv g0 s st unvisited cur0 [] ->
    dijkstra_loop fuel s e speed unvisited st = Returned out ->
    ending s e settled out.
Proof.
  intros Hw.
  induction fuel as [|fuel IH]; intros st unvisited cur0 out I H; cbn [dijkstra_loop] in H;
    [discriminate|].
  destruct (sort_by (distance_leb (st_grid st)) unvisited) as [|cur rest] eqn:Hsort.
  - injection H as <-. exists st. split; [apply (dij_settled _ _ _ _ I) | left; reflexivity].
  - destruct (isWall (node (st_grid st) cur) || is_inf (distance (node (st_grid st) cur)))
      eqn:Etest.
    + injection H as <-. exists st. split; [apply (dij_settled _ _ _ _ I) | left; reflexivity].
    + apply orb_false_iff in Etest. destruct Etest as [Hwall Hinf].
      pose proof (dij_pop g0 s e Hin Hw _ _ _ _ _ speed I Hsort Hwall Hinf) as I1.
      cbv zeta in I1.
      destruct (pos_eqb cur e) eqn:Ecur.
      * destruct (reconstructPath _ e) as [p|]; [|discriminate]. injection H as <-.
        eexists. split; [apply (dij_settled _ _ _ _ I1) | right; exists p; reflexivity].
      * apply (IH _ rest cur out (dij_fold g0 s e Hin _ _ _ _ I1) H).
Qed.

Lemma astar_loop_settled (speed : Z) (fuel : nat) :
  (forall p, open g0 p -> 1 <= weight_of g0 p) ->
  forall st openSet cur0 out,
    ast_inv g0 s e st openSet cur0 [] ->
    astar_loop fuel s e speed openSet st = Returned out ->
    ending s e settled out.
Proof.
  intros Hw.
  induction fuel as [|fuel IH]; intros st openSet cur0 out I H; cbn [astar_loop] in H;
    [discriminate|].
  destruct (sort_by (fscore_leb (st_grid st)) openSet) as [|cur rest] eqn:Hsort.
  - injection H as <-. exists st. split; [apply (ast_settled _ _ _ _ I) | left; reflexivity].
  - destruct (fscore_leb_head _ _ _ _ Hsort) as [Hperm Hmin].
    assert (HcurO : In cur openSet).
    { apply (Permutation_in _ Hperm). left; reflexivity. }
    destruct (ai_member _ _ _ _ _ _ _ I cur HcurO) as [[Hvcur Hwcur] [Hncur _]].
    rewrite (static_isWall _ g0 cur (ai_static _ _ _ _ _ _ _ I)), Hwcur in H.
    pose proof (ast_pop g0 s e Hin Hw _ _ _ _ _ speed I Hsort) as I1. cbv zeta in I1.
    destruct (pos_eqb cur e) eqn:Ecur.
    + destruct (reconstructPath _ e) as [p|]; [|discriminate]. injection H as <-.
      eexists. split; [apply (ast_settled _ _ _ _ I1) | right; exists p; reflexivity].
    + pose proof (ast_fold g0 s e Hin _ _ _ _ I1) as I2.
      destruct (fold_left (astar_relax cur e) _ _) as [st2 openSet2].
      cbn [fst snd] in I2.
      apply (IH _ _ cur out I2 H).
Qed.

End Settled.

(** [dijkstra] and [astar] settle distances: on a grid of the data model
    with weights of at least 1, when either returns, every node of
    [visitedNodes] stores in [distance] the total weight of a lightest open
    path from the start to it. *)
Theorem visited_distance_is_least_weight (a : Algorithm) (g : Grid) (s e : pos) (speed : Z)
        (st : state) (r : AlgorithmResult) :
  uses_weights a = true ->
  search_input a g s e ->
  algorithms a g s e speed = Returned (st, r) ->
  forall x, In x (visitedNodes r) ->
    exists l, is_path g s x l /\
              distance (node (st_grid st) x) = Fin (weight_sum g l) /\
              forall l', is_path g s x l' -> weight_sum g l <= weight_sum g l'.
Proof.
  intros Ha [Hv Hw] H. specialize (Hw Ha).
  assert (Hend : ending s e (settled g s) (st, r)).
  { destruct a; try discriminate Ha; cbn [algorithms] in H.
    - unfold dijkstra, resolve in H.
      destruct (grid_get _ s); [|discriminate]. destruct (grid_get _ e); [|discriminate].
      assert (Hw0 : forall p, open g p -> 0 <= weight_of g p).
      { intros p Hp. specialize (Hw p Hp). unfold weight_of. lia. }
      exact (dijkstra_loop_settled g s e Hv speed _ Hw0 _ _ s _ (dij_init g s e Hv) H).
    - unfold astar, resolve in H.
      destruct (grid_get _ s); [|discriminate]. destruct (grid_get _ e); [|discriminate].
      exact (astar_loop_settled g s e Hv speed _ Hw _ _ s _ (ast_init g s e Hv) H). }
  destruct Hend as [st0 [Hs [Ho | [p Ho]]]].
  - injection Ho as -> ->. exact Hs.
  - injection Ho as -> ->. intros x Hx. cbn [found_result visitedNodes] in Hx.
    destruct (Hs x Hx) as (l & H1 & H2 & H3).
    exists l. split; [assumption|]. split; [|assumption].
    rewrite distance_revealPath. assumption.
Qed.

Lemma visited_distance_is_least_weight_witness :
  let out := run_result (algorithms Dijkstra sample_grid (0, 0) (2, 2) 50) in
  search_input Dijkstra sample_grid (0, 0) (2, 2) /\
  algorithms Dijkstra sample_grid (0, 0) (2, 2) 50 = Returned (fst out, snd out) /\
  forall x, In x (visitedNodes (snd out)) ->
    exists l, is_path sample_grid (0, 0) x l /\
              distance (node (st_grid (fst out)) x) = Fin (weight_sum sample_grid l) /\
              forall l', is_path sample_grid (0, 0) x l' ->
                         weight_sum sample_grid l <= weight_sum sample_grid l'.
Proof.
  cbv zeta.
  assert (Hin : search_input Dijkstra sample_grid (0, 0) (2, 2)).
  { apply search_inputb_sound. vm_compute. reflexivity. }
  assert (H : algorithms Dijkstra sample_grid (0, 0) (2, 2) 50 =
              Returned (fst (run_result (algorithms Dijkstra sample_grid (0, 0) (2, 2) 50)),
                        snd (run_result (algorithms Dijkstra sample_grid (0, 0) (2, 2) 50))))
    by (vm_compute; reflexivity).
  split; [exact Hin|]. split; [exact H|].
  exact (visited_distance_is_least_weight Dijkstra sample_grid (0, 0) (2, 2) 50 _ _
           eq_refl Hin H).
Defined.


(* ================================================================== *)
(** * The walls of the random maze *)
(* ================================================================== *)

















(* ================================================================== *)
(** * The disjoint sets of Kruskal's maze *)
(* ================================================================== *)

(** A sequence of calls [union(row1, col1, row2, col2)] on the same table. *)
Fixpoint unions (fuel : nat) (cols : Z) (us : list (pos * pos)) (parent : Maze.parents)
  : outcome Maze.parents :=
  match us with
  | [] => Returned parent
  | (p1, p2) :: t =>
      match Maze.union fuel cols p1 p2 parent with
      | Returned parent' => unions fuel cols t parent'
      | Throws => Throws
      | OutOfFuel => OutOfFuel
      end
  end.

(** The cells joined by the calls made: the least equivalence that holds
    the pairs given to [union]. *)
Inductive linked (us : list (pos * pos)) : pos -> pos -> Prop :=
| linked_refl : forall p, linked us p p
| linked_pair : forall a b, In (a, b) us -> linked us a b
| linked_sym : forall p q, linked us p q -> linked us q p
| linked_trans : forall p q r, linked us p q -> linked us q r -> linked us p r.

Lemma linked_more (us l : list (pos * pos)) (p q : pos) :
  linked us p q -> linked (us ++ l) p q.
Proof.
  induction 1 as [p|a b H|p q _ IH|p q r _ IH1 _ IH2].
  - apply linked_refl.
  - apply linked_pair. apply in_or_app. left. assumption.
  - apply linked_sym. assumption.
  - eapply linked_trans; eassumption.
Qed.

Section DisjointSets.

Variables R C : Z.
Hypothesis HR : 1 <= R.
Hypothesis HC : 1 <= C.

(** The classes of [rep] are the classes of [linked done]. *)
Definition classes (rep : Z -> Z) (done : list (pos * pos)) : Prop :=
  (forall p q, linked done p q -> rep (cell_id C p) = rep (cell_id C q)) /\
  (forall p q, Maze.inside (R, C) p = true -> Maze.inside (R, C) q = true ->
               rep (cell_id C p) = rep (cell_id C q) -> linked done p q).

Lemma classes_init : classes (fun i => i) [].
Proof.
  split.
  - induction 1 as [p|a b H|p q _ IH|p q r _ IH1 _ IH2].
    + reflexivity.
    + destruct H.
    + symmetry. assumption.
    + etransitivity; eassumption.
  - intros p q Hp Hq E. rewrite (cell_id_inj R C HR HC p q Hp Hq E). apply linked_refl.
Qed.

Lemma classes_same (rep : Z -> Z) (done : list (pos * pos)) (x y : pos) :
  classes rep done -> rep (cell_id C x) = rep (cell_id C y) ->
  classes rep (done ++ [(x, y)]).
Proof.
  intros [H1 H2] E. split.
  - induction 1 as [p|a b H|p q _ IH|p q r _ IH1 _ IH2].
    + reflexivity.
    + apply in_app_or in H. destruct H as [H|[H|[]]].
      * apply H1. apply linked_pair. assumption.
      * injection H as <- <-. assumption.
    + symmetry. assumption.
    + etransitivity; eassumption.
  - intros p q Hp Hq Hpq. apply linked_more. apply H2; assumption.
Qed.

Lemma classes_merge (rep : Z -> Z) (done : list (pos * pos)) (x y : pos) :
  classes rep done ->
  Maze.inside (R, C) x = true -> Maze.inside (R, C) y = true ->
  rep (cell_id C x) <> rep (cell_id C y) ->
  classes (merge rep (rep (cell_id C x)) (rep (cell_id C y))) (done ++ [(x, y)]).
Proof.
  intros [H1 H2] Hx Hy Hne.
  assert (Hnew : linked (done ++ [(x, y)]) x y).
  { apply linked_pair. apply in_or_app. right. left. reflexivity. }
  split.
  - induction 1 as [p|a b H|p q _ IH|p q r _ IH1 _ IH2].
    + reflexivity.
    + apply in_app_or in H. destruct H as [H|[H|[]]].
      * unfold merge. rewrite (H1 a b (linked_pair _ _ _ H)). reflexivity.
      * injection H as <- <-. unfold merge. rewrite Z.eqb_refl.
        destruct (rep (cell_id C x) =? rep (cell_id C y)) eqn:E; [|reflexivity].
        apply Z.eqb_eq in E. contradiction.
    + symmetry. assumption.
    + etransitivity; eassumption.
  - intros p q Hp Hq. unfold merge.
    destruct (rep (cell_id C p) =? rep (cell_id C y)) eqn:Ep;
      destruct (rep (cell_id C q) =? rep (cell_id C y)) eqn:Eq; intros E.
    + apply Z.eqb_eq in Ep, Eq. apply linked_more. apply H2; congruence.
    + apply Z.eqb_eq in Ep.
      apply (linked_trans _ p y); [apply linked_more; apply H2; assumption|].
      apply (linked_trans _ y x); [apply linked_sym; assumption|].
      apply linked_more. apply H2; assumption.
    + apply Z.eqb_eq in Eq.
      apply (linked_trans _ p x); [apply linked_more; apply H2; congruence|].
      apply (linked_trans _ x y); [assumption|].
      apply linked_more. apply H2; congruence.
    + apply linked_more. apply H2; assumption.
Qed.

Lemma union_classes (rep h : Z -> Z) (k : Z) (fuel : nat) (P : Maze.parents)
      (done : list (pos * pos)) (x y : pos) :
  uf_inv R C P rep h k -> 0 <= k < Z.of_nat fuel ->
  Maze.inside (R, C) x = true -> Maze.inside (R, C) y = true ->
  classes rep done ->
  exists P' rep' h' k',
    Maze.union fuel C x y P = Returned P' /\ uf_inv R C P' rep' h' k' /\
    k <= k' <= k + 1 /\ classes rep' (done ++ [(x, y)]).
Proof.
  intros HP Hk Hx Hy Hcl.
  destruct (Z.eq_dec (rep (cell_id C x)) (rep (cell_id C y))) as [E|Hne].
  - destruct (cell_id_coords R C HR HC x Hx) as (Hi1 & Ex1 & Ex2).
    destruct (cell_id_coords R C HR HC y Hy) as (Hi2 & Ey1 & Ey2).
    destruct (find_ok R C HC rep h k fuel P _ HP Hi1) as (P1 & E1 & HP1).
    { pose proof (uf_h _ _ _ _ _ _ HP _ Hi1). lia. }
    destruct (find_ok R C HC rep h k fuel P1 _ HP1 Hi2) as (P2 & E2 & HP2).
    { pose proof (uf_h _ _ _ _ _ _ HP1 _ Hi2). lia. }
    rewrite Ex1, Ex2 in E1. rewrite Ey1, Ey2 in E2.
    exists P2, rep, h, k. unfold Maze.union. rewrite E1, E2, E, Z.eqb_refl.
    split; [reflexivity|]. split; [assumption|]. split; [lia|].
    apply classes_same; assumption.
  - destruct (union_ok R C HR HC rep h k fuel P x y HP Hk Hx Hy Hne) as (P' & E' & HP').
    exists P'. eexists. eexists. exists (k + 1).
    split; [exact E'|]. split; [exact HP'|]. split; [lia|].
    apply classes_merge; assumption.
Qed.

Lemma unions_classes (fuel : nat) (us : list (pos * pos)) :
  forall (done : list (pos * pos)) (P : Maze.parents) (rep h : Z -> Z) (k : Z),
    uf_inv R C P rep h k -> 0 <= k -> k + Z.of_nat (length us) < Z.of_nat fuel ->
    (forall a b, In (a, b) us ->
                 Maze.inside (R, C) a = true /\ Maze.inside (R, C) b = true) ->
    classes rep done ->
    exists P' rep' h' k',
      unions fuel C us P = Returned P' /\ uf_inv R C P' rep' h' k' /\
      0 <= k' < Z.of_nat fuel /\ classes rep' (done ++ us).
Proof.
  induction us as [|[x y] t IH]; intros done P rep h k HP Hk Hf Hin Hcl.
  - exists P, rep, h, k. cbn [unions length] in *. rewrite app_nil_r.
    split; [reflexivity|]. split; [assumption|]. split; [lia|assumption].
  - cbn [unions]. cbn [length] in Hf.
    destruct (Hin x y (or_introl eq_refl)) as [Hx Hy].
    destruct (union_classes rep h k fuel P done x y HP ltac:(lia) Hx Hy Hcl)
      as (P1 & rep1 & h1 & k1 & E1 & HP1 & Hk1 & Hcl1).
    rewrite E1.
    destruct (IH (done ++ [(x, y)]) P1 rep1 h1 k1 HP1 ltac:(lia) ltac:(lia)
                 (fun a b H => Hin a b (or_intror H)) Hcl1)
      as (P' & rep' & h' & k' & E' & HP' & Hk' & Hcl').
    exists P', rep', h', k'. rewrite <- app_assoc in Hcl'.
    split; [assumption|]. split; [assumption|]. split; [lia|assumption].
Qed.

End DisjointSets.

(** [find] and [union] of Kruskal's maze keep disjoint sets: from the first
    table (every cell its own parent), after any sequence of calls of
    [union] on cells of the grid, the calls return, and [find] gives two
    cells of the grid the same root exactly when the pairs given to [union]
    link them (the path compression of the first [find] does not change the
    answer of the second).  The recursion of [find] is bounded by the number
    of calls of [union]. *)
Theorem union_find_tracks_links (R C : Z) (us : list (pos * pos)) (fuel : nat) :
  1 <= R -> 1 <= C ->
  (forall a b, In (a, b) us ->
               Maze.inside (R, C) a = true /\ Maze.inside (R, C) b = true) ->
  (length us < fuel)%nat ->
  exists P, unions fuel C us (Maze.parent_init (R, C)) = Returned P /\
    forall p q, Maze.inside (R, C) p = true -> Maze.inside (R, C) q = true ->
      exists rp rq P1 P2,
        Maze.find fuel C (fst p) (snd p) P = Returned (rp, P1) /\
        Maze.find fuel C (fst q) (snd q) P1 = Returned (rq, P2) /\
        (rp = rq <-> linked us p q).
Proof.
  intros HR HC Hin Hf.
  destruct (unions_classes R C HR HC fuel us [] _ _ _ 0 (uf_inv_init R C HR HC)
                           ltac:(lia) ltac:(lia) Hin (classes_init R C HR HC))
    as (P & rep & h & k & E & HP & Hk & Hcl).
  exists P. split; [exact E|]. intros p q Hp Hq.
  destruct (cell_id_coords R C HR HC p Hp) as (Hi1 & Ep1 & Ep2).
  destruct (cell_id_coords R C HR HC q Hq) as (Hi2 & Eq1 & Eq2).
  destruct (find_ok R C HC rep h k fuel P _ HP Hi1) as (P1 & E1 & HP1).
  { pose proof (uf_h _ _ _ _ _ _ HP _ Hi1). lia. }
  destruct (find_ok R C HC rep h k fuel P1 _ HP1 Hi2) as (P2 & E2 & HP2).
  { pose proof (uf_h _ _ _ _ _ _ HP1 _ Hi2). lia. }
  rewrite Ep1, Ep2 in E1. rewrite Eq1, Eq2 in E2.
  exists (rep (cell_id C p)), (rep (cell_id C q)), P1, P2.
  split; [exact E1|]. split; [exact E2|].
  destruct Hcl as [H1 H2]. cbn [app] in H1, H2. split.
  - apply H2; assumption.
  - apply H1.
Qed.

Lemma union_find_tracks_links_witness :
  let us := [((0, 0), (0, 2)); ((2, 0), (2, 2)); ((0, 2), (2, 2))] in
  exists P, unions 4 3 us (Maze.parent_init (3, 3)) = Returned P /\
    forall p q, Maze.inside (3, 3) p = true -> Maze.inside (3, 3) q = true ->
      exists rp rq P1 P2,
        Maze.find 4 3 (fst p) (snd p) P = Returned (rp, P1) /\
        Maze.find 4 3 (fst q) (snd q) P1 = Returned (rq, P2) /\
        (rp = rq <-> linked us p q).
Proof.
  apply (union_find_tracks_links 3 3 _ 4).
  - lia.
  - lia.
  - intros a b H. destruct H as [H|[H|[H|[]]]]; injection H as <- <-; split; reflexivity.
  - cbn. lia.
Defined.
